(** * GraphFileParser: adjacency-list graphs, disjoint-set forest and
    indexed priority queue.

    A shallow embedding of [graphshw.py], [disjointset.py] and [intpq.py].
    Python objects become records, Python lists become Rocq lists indexed
    with stdpp's lookup and insert, and every operation that can raise
    (an index out of range, a missing attribute, an exhausted call stack)
    returns [option], [None] standing for the raised exception. *)

From Stdlib Require Import ZArith Lia List Permutation.
From stdpp Require Import base option list.

Open Scope nat_scope.

(** ** Sequencing of fallible steps *)

Notation "'let*' p := m 'in' k" :=
  (match m with Some p => k | None => None end)
  (at level 10, p pattern, m at level 100, k at level 200, only parsing).

(** A [for] loop whose body may raise. *)
Fixpoint foldM {A B : Type} (f : A -> B -> option A) (a : A) (l : list B)
  : option A :=
  match l with
  | [] => Some a
  | b :: l' => let* a' := f a b in foldM f a' l'
  end.

(** ** Adjacency lists ([_AdjacencyList], [_WeightedAdjacencyList])

    The chain of [_AdjListNode]s hanging off [_first] is the list [_first];
    [_last] is its last cell, so [_add] appends.  [_size] is the counter the
    class maintains next to the chain.  A plain node carries its
    [_targetVertex]; a weighted node carries the pair of [_targetVertex] and
    [_w]. *)

Record _AdjacencyList (E : Type) : Type := mkAdj {
  _first : list E;
  _size : nat
}.
Arguments mkAdj {E}.
Arguments _first {E}.
Arguments _size {E}.

Definition adj_empty {E} : _AdjacencyList E := mkAdj [] 0.

(** [_add(listNode)] *)
Definition _add {E} (l : _AdjacencyList E) (node : E) : _AdjacencyList E :=
  mkAdj (_first l ++ [node]) (S (_size l)).

(** [__iter__()] of a plain list and [__iter__(True)] of a weighted one
    yield the nodes' contents in chain order; [__iter__()] of a weighted
    list yields the target vertices only. *)
Definition iter {E} (l : _AdjacencyList E) : list E := _first l.
Definition iter_targets (l : _AdjacencyList (nat * Z)) : list nat :=
  map fst (_first l).

(** [enumerate(self._adj)] followed by a nested comprehension. *)
Definition comprehension {E X} (f : nat -> E -> list X)
  (adj : list (_AdjacencyList E)) : list X :=
  concat (imap (fun u uList => flat_map (f u) (iter uList)) adj).

(** ** Undirected graphs *)

Module Graph.

Abbreviation t := (list (_AdjacencyList nat)).

Definition empty (v : nat) : t := replicate v adj_empty.

(** [addEdge(a, b)]: [self._adj[a].add(b); self._adj[b].add(a)] *)
Definition addEdge (g : t) (a b : nat) : option t :=
  let* la := g !! a in
  let g1 := <[a := _add la b]> g in
  let* lb := g1 !! b in
  Some (<[b := _add lb a]> g1).

Definition addEdges (g : t) (edges : list (nat * nat)) : option t :=
  foldM (fun g e => addEdge g (fst e) (snd e)) g edges.

(** [Graph(v, edges)] *)
Definition init (v : nat) (edges : list (nat * nat)) : option t :=
  addEdges (empty v) edges.

Definition numVertices (g : t) : nat := length g.

Definition degree (g : t) (vertex : nat) : option nat :=
  let* l := g !! vertex in Some (_size l).

(** [[(u,v) for u, uList in enumerate(self._adj) for v in uList if v > u]] *)
Definition getEdgeList (g : t) : list (nat * nat) :=
  comprehension (fun u v => if u <? v then [(u, v)] else []) g.

(** [dfs(onFinish)].  [VertexData] starts with [d = 0] and [pred = None];
    its slot [f] holds nothing until the vertex finishes.  The callback
    [onFinish] acts on a state of its own, of type [S] (the list [topSort]
    in [Digraph.topologicalSort]). *)
Record VertexData : Type := mkVertexData {
  d : nat;
  f : option nat;
  pred : option nat
}.

Record dfs_state (S : Type) : Type := mkDfs {
  vertices : list VertexData;
  time : nat;
  callback_state : S
}.
Arguments mkDfs {S}.
Arguments vertices {S}.
Arguments time {S}.
Arguments callback_state {S}.

(** [dfs_visit(u)] calls itself for every undiscovered neighbour.  The
    interpreter lets calls nest only as deep as its recursion limit allows
    ([sys.getrecursionlimit()], 1000 unless the program sets another, less
    the frames in use) and raises [RecursionError] beyond; [depth] is the
    number of nested calls of [dfs_visit] that are still allowed, and the
    error is [None], like every other exception. *)
Fixpoint dfs_visit {S} (depth : nat) (adj : t) (onFinish : nat -> S -> S)
  (u : nat) (st : dfs_state S) : option (dfs_state S) :=
  match depth with
  | 0 => None
  | Datatypes.S depth' =>
      let time1 := time st + 1 in
      let* vu := vertices st !! u in
      let st1 := mkDfs (<[u := mkVertexData time1 (f vu) (pred vu)]>
                          (vertices st))
                       time1 (callback_state st) in
      let* uList := adj !! u in
      let* st2 :=
        foldM (fun st v =>
                 let* vv := vertices st !! v in
                 if d vv =? 0 then
                   dfs_visit depth' adj onFinish v
                     (mkDfs (<[v := mkVertexData (d vv) (f vv) (Some u)]>
                               (vertices st))
                            (time st) (callback_state st))
                 else Some st)
              st1 (iter uList) in
      let time2 := time st2 + 1 in
      let* vu2 := vertices st2 !! u in
      Some (mkDfs (<[u := mkVertexData (d vu2) (Some time2) (pred vu2)]>
                     (vertices st2))
                  time2 (onFinish u (callback_state st2)))
  end.

(** The outer loop of [dfs], under an interpreter that allows [dfs_visit]
    [limit] nested calls. *)
Definition dfs {S} (limit : nat) (adj : t) (onFinish : nat -> S -> S) (s0 : S)
  : option (dfs_state S) :=
  foldM (fun st u =>
           let* vu := vertices st !! u in
           if d vu =? 0 then dfs_visit limit adj onFinish u st
           else Some st)
        (mkDfs (replicate (length adj) (mkVertexData 0 None None)) 0 s0)
        (seq 0 (length adj)).

(** [bfs(s)].  Its [VertexData] starts with [d = math.inf] and
    [pred = None]; the distance is an integer or [math.inf].  The deque [q]
    is the list of its elements, leftmost first. *)
Inductive distance : Type :=
| Dist (k : nat)
| Infinity.

Record BfsVertexData : Type := mkBfsVertexData {
  bfs_d : distance;
  bfs_pred : option nat
}.

(** [x + 1] for a distance [x]: [math.inf + 1] is [math.inf]. *)
Definition distance_succ (x : distance) : distance :=
  match x with
  | Dist k => Dist (k + 1)
  | Infinity => Infinity
  end.

(** The body of the loop over [self._adj[u]]. *)
Definition bfs_relax (u : nat)
  (st : list BfsVertexData * list nat) (v : nat)
  : option (list BfsVertexData * list nat) :=
  let '(vertices, q) := st in
  let* vv := vertices !! v in
  match bfs_d vv with
  | Infinity =>
      let* vu := vertices !! u in
      let vertices1 :=
        <[v := mkBfsVertexData (distance_succ (bfs_d vu)) (bfs_pred vv)]>
          vertices in
      let* vv1 := vertices1 !! v in
      Some (<[v := mkBfsVertexData (bfs_d vv1) (Some u)]> vertices1,
            q ++ [v])
  | Dist _ => Some (vertices, q)
  end.

(** The loop [while len(q) > 0].  A vertex enters the deque when its
    distance becomes finite, hence once, so the loop body runs at most once
    per vertex; [fuel] bounds the number of tests of the loop condition. *)
Fixpoint bfs_loop (fuel : nat) (adj : t)
  (vertices : list BfsVertexData) (q : list nat)
  : option (list BfsVertexData) :=
  match fuel with
  | 0 => None
  | Datatypes.S fuel' =>
      match q with
      | [] => Some vertices
      | u :: q' =>
          let* uList := adj !! u in
          let* (vertices1, q1) :=
            foldM (bfs_relax u) (vertices, q') (iter uList) in
          bfs_loop fuel' adj vertices1 q1
      end
  end.

Definition bfs (adj : t) (s : nat) : option (list BfsVertexData) :=
  let vertices :=
    replicate (length adj) (mkBfsVertexData Infinity None) in
  let* vs := vertices !! s in
  let vertices1 := <[s := mkBfsVertexData (Dist 0) (bfs_pred vs)]> vertices in
  bfs_loop (Datatypes.S (length adj)) adj vertices1 [s].

End Graph.

Module WeightedGraph.

Abbreviation t := (list (_AdjacencyList (nat * Z))).

Definition empty (v : nat) : t := replicate v adj_empty.

(** [addEdge(a, b, w)] *)
Definition addEdge (g : t) (a b : nat) (w : Z) : option t :=
  let* la := g !! a in
  let g1 := <[a := _add la (b, w)]> g in
  let* lb := g1 !! b in
  Some (<[b := _add lb (a, w)]> g1).

Definition addEdges (g : t) (edges : list (nat * nat * Z)) : option t :=
  foldM (fun g e => addEdge g (fst (fst e)) (snd (fst e)) (snd e)) g edges.

(** [WeightedGraph(v, edges, weights)]: the loop reads [weights[i]] for the
    [i]-th edge and raises when [weights] is too short. *)
Fixpoint init_loop (g : t) (edges : list (nat * nat)) (weights : list Z)
  : option t :=
  match edges with
  | [] => Some g
  | (u, v) :: es =>
      match weights with
      | [] => None
      | w :: ws => let* g' := addEdge g u v w in init_loop g' es ws
      end
  end.

Definition init (v : nat) (edges : list (nat * nat)) (weights : list Z)
  : option t :=
  init_loop (empty v) edges weights.

Definition numVertices (g : t) : nat := length g.

(** [getEdgeList(withWeights)] *)
Definition getEdgeList (g : t) : list (nat * nat) :=
  comprehension (fun u (vw : nat * Z) =>
                   if u <? fst vw then [(u, fst vw)] else []) g.

Definition getEdgeListW (g : t) : list (nat * nat * Z) :=
  comprehension (fun u (vw : nat * Z) =>
                   if u <? fst vw then [((u, fst vw), snd vw)] else []) g.

End WeightedGraph.

(** ** Directed graphs

    [Digraph] adds the attribute [_inDegree] to the adjacency lists.  The
    attribute exists once an [__init__] has assigned it, which is what the
    [option] records: [None] is an object on which no assignment to
    [_inDegree] has run, and reading it there raises [AttributeError].
    [WeightedDigraph] inherits [outDegree], [inDegree] and [degree] from
    [Digraph], so both classes share the record. *)

Record DigraphObj (E : Type) : Type := mkDigraph {
  _adj : list (_AdjacencyList E);
  _inDegree : option (list nat)
}.
Arguments mkDigraph {E}.
Arguments _adj {E}.
Arguments _inDegree {E}.

Module Digraph.

Abbreviation t := (DigraphObj nat).

(** [addEdge(a, b)]: [self._adj[a].add(b); self._inDegree[b] += 1] *)
Definition addEdge (g : t) (a b : nat) : option t :=
  let* la := _adj g !! a in
  let adj1 := <[a := _add la b]> (_adj g) in
  let* deg := _inDegree g in
  let* d := deg !! b in
  Some (mkDigraph adj1 (Some (<[b := d + 1]> deg))).

Definition addEdges (g : t) (edges : list (nat * nat)) : option t :=
  foldM (fun g e => addEdge g (fst e) (snd e)) g edges.

(** [Digraph(v, edges)] *)
Definition init (v : nat) (edges : list (nat * nat)) : option t :=
  addEdges (mkDigraph (replicate v adj_empty) (Some (replicate v 0))) edges.

Definition numVertices {E} (g : DigraphObj E) : nat := length (_adj g).

(** [outDegree(vertex)] is [super().degree(vertex)], that is
    [self._adj[vertex]._size]. *)
Definition outDegree {E} (g : DigraphObj E) (vertex : nat) : option nat :=
  let* l := _adj g !! vertex in Some (_size l).

(** [inDegree(vertex)] is [self._inDegree[vertex]]. *)
Definition inDegree {E} (g : DigraphObj E) (vertex : nat) : option nat :=
  let* deg := _inDegree g in deg !! vertex.

(** [degree(vertex)] is [self.outDegree(vertex) + self.inDegree(vertex)]. *)
Definition degree {E} (g : DigraphObj E) (vertex : nat) : option nat :=
  let* o := outDegree g vertex in
  let* i := inDegree g vertex in
  Some (o + i).

(** [[(u,v) for u, uList in enumerate(self._adj) for v in uList]] *)
Definition getEdgeList (g : t) : list (nat * nat) :=
  comprehension (fun u v => [(u, v)]) (_adj g).

(** [topologicalSort()]: [onFinish] appends to [topSort], which is
    reversed at the end.  [limit] is the number of nested calls the
    interpreter allows [dfs_visit]. *)
Definition topologicalSort (limit : nat) (g : t) : option (list nat) :=
  let* st := Graph.dfs limit (_adj g) (fun u topSort => topSort ++ [u]) [] in
  Some (rev (Graph.callback_state st)).

(** [transpose()]: a fresh [Digraph] of the same size receives the arc
    [(v, u)] for every arc [(u, v)], in the order of the adjacency lists. *)
Definition transpose (g : t) : option t :=
  foldM (fun T (ua : nat * _AdjacencyList nat) =>
           foldM (fun T v => addEdge T v (fst ua)) T (iter (snd ua)))
        (mkDigraph (replicate (numVertices g) adj_empty)
                   (Some (replicate (numVertices g) 0)))
        (imap (fun u adjacent => (u, adjacent)) (_adj g)).

(** [component.add(u)] on a Python [set], kept as the list of its members
    in the order of their first insertion. *)
Definition component_add (u : nat) (component : list nat) : list nat :=
  if existsb (Nat.eqb u) component then component else component ++ [u].

(** The inner function [dfs_visit(u, component)] of [scc]; [depth] is the
    number of nested calls of it the interpreter still allows. *)
Fixpoint scc_visit (depth : nat) (T : t) (u : nat)
  (st : list bool * list nat) : option (list bool * list nat) :=
  match depth with
  | 0 => None
  | S depth' =>
      let '(discovered, component) := st in
      let* _ := discovered !! u in
      let discovered1 := <[u := true]> discovered in
      let component1 := component_add u component in
      let* uList := _adj T !! u in
      foldM (fun st v =>
               let* dv := fst st !! v in
               if negb dv then scc_visit depth' T v st else Some st)
            (discovered1, component1) (iter uList)
  end.

(** [scc()], under an interpreter that allows the [dfs_visit] of [dfs] and
    the [dfs_visit] of [scc] [limit] nested calls each. *)
Definition scc (limit : nat) (g : t) : option (list (list nat)) :=
  let* ordered := topologicalSort limit g in
  let* T := transpose g in
  let* (_, SCC) :=
    foldM (fun (st : list bool * list (list nat)) u =>
             let '(discovered, SCC) := st in
             let* du := discovered !! u in
             if negb du then
               let* (discovered1, component) :=
                 scc_visit limit T u (discovered, []) in
               Some (discovered1, SCC ++ [component])
             else Some (discovered, SCC))
          (replicate (numVertices T) false, []) ordered in
  Some SCC.

End Digraph.

Module WeightedDigraph.

Abbreviation t := (DigraphObj (nat * Z)).

(** [WeightedDigraph.__init__] assigns [_adj] only and calls none of its
    bases' initialisers. *)
Definition empty (v : nat) : t := mkDigraph (replicate v adj_empty) None.

(** [addEdge(a, b, w)]: [self._adj[a].add(b, w)] *)
Definition addEdge (g : t) (a b : nat) (w : Z) : option t :=
  let* la := _adj g !! a in
  Some (mkDigraph (<[a := _add la (b, w)]> (_adj g)) (_inDegree g)).

Definition addEdges (g : t) (edges : list (nat * nat * Z)) : option t :=
  foldM (fun g e => addEdge g (fst (fst e)) (snd (fst e)) (snd e)) g edges.

Fixpoint init_loop (g : t) (edges : list (nat * nat)) (weights : list Z)
  : option t :=
  match edges with
  | [] => Some g
  | (u, v) :: es =>
      match weights with
      | [] => None
      | w :: ws => let* g' := addEdge g u v w in init_loop g' es ws
      end
  end.

Definition init (v : nat) (edges : list (nat * nat)) (weights : list Z)
  : option t :=
  init_loop (empty v) edges weights.

(** [degree(vertex)] is [Digraph.degree(self, vertex)]; [outDegree] and
    [inDegree] are inherited. *)
Definition outDegree (g : t) (vertex : nat) : option nat :=
  Digraph.outDegree g vertex.
Definition inDegree (g : t) (vertex : nat) : option nat :=
  Digraph.inDegree g vertex.
Definition degree (g : t) (vertex : nat) : option nat :=
  Digraph.degree g vertex.

(** Without weights the call reaches [Digraph.getEdgeList] through
    [super()], whose loop iterates the targets only. *)
Definition getEdgeList (g : t) : list (nat * nat) :=
  comprehension (fun u (vw : nat * Z) => [(u, fst vw)]) (_adj g).

Definition getEdgeListW (g : t) : list (nat * nat * Z) :=
  comprehension (fun u (vw : nat * Z) => [((u, fst vw), snd vw)]) (_adj g).

(** [transpose()]: a fresh [WeightedDigraph] of the same size receives
    the arc [(v, u)] of weight [w] for every arc [(u, v)] of weight [w]. *)
Definition transpose (g : t) : option t :=
  foldM (fun T (ua : nat * _AdjacencyList (nat * Z)) =>
           foldM (fun T (vw : nat * Z) => addEdge T (fst vw) (fst ua) (snd vw))
                 T (iter (snd ua)))
        (empty (Digraph.numVertices g))
        (imap (fun u adjacent => (u, adjacent)) (_adj g)).

End WeightedDigraph.

(** ** Disjoint-set forest ([disjointset.py]) *)

Module DisjointIntegerSets.

(** [_DJSetNode] *)
Record _DJSetNode : Type := mkNode { p : nat; rank : nat }.

(** The attribute [_nodes]. *)
Abbreviation t := (list _DJSetNode).

Definition makeset (x : nat) : _DJSetNode := mkNode x 0.

(** [DisjointIntegerSets(n)] *)
Definition init (n : nat) : t := map makeset (seq 0 n).

(** [findset(x)] calls itself once for every link of the chain of parents
    from [x] to its root.  The interpreter lets calls nest only as deep as
    its recursion limit allows ([sys.getrecursionlimit()], 1000 unless the
    program sets another, less the frames in use) and raises
    [RecursionError] beyond.  [findset_rec depth] is [findset] where [depth]
    nested calls are still allowed; the error is [None], like every other
    exception. *)
Fixpoint findset_rec (depth : nat) (nodes : t) (x : nat) : option (t * nat) :=
  match depth with
  | 0 => None
  | S depth' =>
      let* nx := nodes !! x in
      if negb (x =? p nx) then
        let* (nodes1, r) := findset_rec depth' nodes (p nx) in
        let* nx1 := nodes1 !! x in
        let nodes2 := <[x := mkNode r (rank nx1)]> nodes1 in
        let* nx2 := nodes2 !! x in
        Some (nodes2, p nx2)
      else Some (nodes, p nx)
  end.

(** [findset(x)] under an interpreter that allows it [limit] nested
    calls. *)
Definition findset (limit : nat) (nodes : t) (x : nat) : option (t * nat) :=
  findset_rec limit nodes x.

(** [_link(x, y)] *)
Definition _link (nodes : t) (x y : nat) : option t :=
  let* nx := nodes !! x in
  let* ny := nodes !! y in
  if rank ny <? rank nx then
    Some (<[y := mkNode x (rank ny)]> nodes)
  else
    let nodes1 := <[x := mkNode y (rank nx)]> nodes in
    let* nx1 := nodes1 !! x in
    let* ny1 := nodes1 !! y in
    if rank nx1 =? rank ny1 then
      Some (<[y := mkNode (p ny1) (rank ny1 + 1)]> nodes1)
    else Some nodes1.

(** [union(x, y)] is [self._link(self.findset(x), self.findset(y))]; both
    calls of [findset] start at the same depth of nesting. *)
Definition union (limit : nat) (nodes : t) (x y : nat) : option t :=
  let* (nodes1, rx) := findset limit nodes x in
  let* (nodes2, ry) := findset limit nodes1 y in
  _link nodes2 rx ry.

(** *** Forests *)

Definition parents (nodes : t) : list nat := map p nodes.
Definition ranks (nodes : t) : list nat := map rank nodes.

(** [root_of ps x r d]: following the parents [ps] from [x] ends after [d]
    links at [r], which is its own parent. *)
Inductive root_of (ps : list nat) : nat -> nat -> nat -> Prop :=
| root_here x : ps !! x = Some x -> root_of ps x x 0
| root_up x px r d :
    ps !! x = Some px -> px <> x -> root_of ps px r d ->
    root_of ps x r (S d).

(** [r] is the representative of [x]. *)
Definition rep (nodes : t) (x r : nat) : Prop :=
  exists d, root_of (parents nodes) x r d.

(** Every element has a representative: no parent leaves the range and no
    chain of parents runs in a circle. *)
Definition forest (nodes : t) : Prop :=
  forall x, x < length nodes -> exists r, rep nodes x r.

(** The states a program can build under the recursion limit [limit]. *)
Inductive reachable (limit : nat) : t -> Prop :=
| reach_init n : reachable limit (init n)
| reach_findset nodes x nodes' r :
    reachable limit nodes -> x < length nodes ->
    findset limit nodes x = Some (nodes', r) -> reachable limit nodes'
| reach_union nodes x y nodes' :
    reachable limit nodes -> x < length nodes -> y < length nodes ->
    union limit nodes x y = Some nodes' -> reachable limit nodes'.

End DisjointIntegerSets.

(** ** Indexed priority queue ([intpq.py]) *)

(** Priorities are the integers and [math.inf], compared as Python compares
    them. *)
Inductive priority : Type :=
| Fin (z : Z)
| Inf.

Definition prio_ltb (a b : priority) : bool :=
  match a, b with
  | Fin x, Fin y => (x <? y)%Z
  | Fin _, Inf => true
  | Inf, _ => false
  end.

(** [l[i]] for an integer [i]: a negative index counts from the end. *)
Definition py_get {A} (l : list A) (i : Z) : option A :=
  if (0 <=? i)%Z then l !! Z.to_nat i
  else if (- Z.of_nat (length l) <=? i)%Z
       then l !! Z.to_nat (Z.of_nat (length l) + i)
       else None.

(** [l[i] = x] for [i >= 0]: the position must exist. *)
Definition set_at {A} (l : list A) (i : nat) (x : A) : option (list A) :=
  if i <? length l then Some (<[i := x]> l) else None.

(** [enumerate(l)] *)
Definition enumerate {A} (l : list A) : list (nat * A) :=
  imap (fun i x => (i, x)) l.

Module PQInts.

Record t : Type := mkPQ {
  _minheap : list (nat * priority);
  _index : list Z
}.

(** [PQInts(n)] *)
Definition init (n : nat) : t := mkPQ [] (replicate n (-1)%Z).

Definition size (q : t) : nat := length (_minheap q).

Definition isEmpty (q : t) : bool := length (_minheap q) =? 0.

Definition _left (i : nat) : nat := 2 * i + 1.
Definition _right (i : nat) : nat := 2 * i + 2.
(** [(i-1)//2] is [-1] at [i = 0]. *)
Definition _parent (i : Z) : Z := ((i - 1) / 2)%Z.

(** The loop of [_percolate_up]; [p] is [_parent(position)] at every test
    of the loop condition.  [fuel] bounds the number of iterations. *)
Fixpoint _percolate_up_loop (fuel : nat) (q : t) (current : nat * priority)
  (position : nat) : option (t * nat) :=
  match fuel with
  | 0 => None
  | S fuel' =>
      let p := _parent (Z.of_nat position) in
      if (0 <=? p)%Z then
        let* hp := _minheap q !! Z.to_nat p in
        if prio_ltb (snd current) (snd hp) then
          let* heap1 := set_at (_minheap q) position hp in
          let* e := heap1 !! position in
          let* index1 := set_at (_index q) (fst e) (Z.of_nat position) in
          _percolate_up_loop fuel' (mkPQ heap1 index1) current (Z.to_nat p)
        else Some (q, position)
      else Some (q, position)
  end.

(** [_percolate_up(position)]: the position strictly decreases, so
    [position + 1] iterations are enough. *)
Definition _percolate_up (q : t) (position : nat) : option t :=
  let* current := _minheap q !! position in
  let* (q1, position1) := _percolate_up_loop (S position) q current position in
  let* heap2 := set_at (_minheap q1) position1 current in
  let* e := heap2 !! position1 in
  let* index2 := set_at (_index q1) (fst e) (Z.of_nat position1) in
  Some (mkPQ heap2 index2).

(** The choice of the smaller child at the head of the loop body of
    [_percolate_down]. *)
Definition min_child (heap : list (nat * priority)) (minChildPos : nat)
  : option nat :=
  if minChildPos + 1 <? length heap then
    let* r := heap !! (minChildPos + 1) in
    let* l := heap !! minChildPos in
    Some (if prio_ltb (snd r) (snd l) then minChildPos + 1 else minChildPos)
  else Some minChildPos.

(** The loop of [_percolate_down]; [minChildPos] is [_left(position)] at
    every test of the loop condition.  With [with_index = false] this is the
    loop of [_percolate_down_no_index]. *)
Fixpoint _percolate_down_loop (with_index : bool) (fuel : nat) (q : t)
  (current : nat * priority) (position : nat) : option (t * nat) :=
  match fuel with
  | 0 => None
  | S fuel' =>
      let minChildPos := _left position in
      if minChildPos <? length (_minheap q) then
        let* minChildPos := min_child (_minheap q) minChildPos in
        let* c := _minheap q !! minChildPos in
        if prio_ltb (snd c) (snd current) then
          let* heap1 := set_at (_minheap q) position c in
          let* index1 :=
            (if with_index then
               let* e := heap1 !! position in
               set_at (_index q) (fst e) (Z.of_nat position)
             else Some (_index q)) in
          _percolate_down_loop with_index fuel' (mkPQ heap1 index1) current
            minChildPos
        else Some (q, position)
      else Some (q, position)
  end.

(** [_percolate_down(position)]: the position strictly increases and stays
    below the length of the heap. *)
Definition _percolate_down (q : t) (position : nat) : option t :=
  let* current := _minheap q !! position in
  let* (q1, position1) :=
    _percolate_down_loop true (length (_minheap q)) q current position in
  let* heap2 := set_at (_minheap q1) position1 current in
  let* e := heap2 !! position1 in
  let* index2 := set_at (_index q1) (fst e) (Z.of_nat position1) in
  Some (mkPQ heap2 index2).

Definition _percolate_down_no_index (q : t) (position : nat) : option t :=
  let* current := _minheap q !! position in
  let* (q1, position1) :=
    _percolate_down_loop false (length (_minheap q)) q current position in
  let* heap2 := set_at (_minheap q1) position1 current in
  Some (mkPQ heap2 (_index q1)).

(** [_heapify()]: [range(start, -1, -1)] with [start = len // 2 - 1] runs
    through [len // 2 - 1, ..., 0]. *)
Definition _heapify (q : t) : option t :=
  let* q1 := foldM _percolate_down_no_index q
               (rev (seq 0 (length (_minheap q) / 2))) in
  let* index2 := foldM (fun index ie =>
                          set_at index (fst (snd ie)) (Z.of_nat (fst ie)))
                       (_index q1) (enumerate (_minheap q1)) in
  Some (mkPQ (_minheap q1) index2).

(** [insert(element, value)] *)
Definition insert (q : t) (element : nat) (value : priority)
  : option (t * bool) :=
  let* i := _index q !! element in
  if (0 <=? i)%Z then Some (q, false)
  else
    let position := length (_minheap q) in
    let* q1 := _percolate_up
                 (mkPQ (_minheap q ++ [(element, value)]) (_index q))
                 position in
    Some (q1, true).

(** [for el,val in pairs : self.insert(el,val)]: one [insert] per pair, in
    list order. *)
Definition insert_each (q : t) (pairs : list (nat * priority)) : option t :=
  foldM (fun q pr => let* (q1, _) := insert q (fst pr) (snd pr) in Some q1)
        q pairs.

(** [insertAll(pairs)] *)
Definition insertAll (q : t) (pairs : list (nat * priority)) : option t :=
  if length (_minheap q) <=? length pairs then
    let* q1 := foldM (fun q pr =>
                        let* i := _index q !! fst pr in
                        if (i <? 0)%Z
                        then Some (mkPQ (_minheap q ++ [pr]) (_index q))
                        else Some q)
                     q pairs in
    _heapify q1
  else insert_each q pairs.

(** [peekMin()] *)
Definition peekMin (q : t) : option nat :=
  let* e := _minheap q !! 0 in Some (fst e).

(** [extractMin()] *)
Definition extractMin (q : t) : option (t * nat) :=
  let* first := _minheap q !! 0 in
  let minElement := fst first in
  let* oldLast := last (_minheap q) in
  let heap1 := removelast (_minheap q) in
  let* q2 :=
    (if 0 <? length heap1 then
       let* heap2 := set_at heap1 0 oldLast in
       _percolate_down (mkPQ heap2 (_index q)) 0
     else Some (mkPQ heap1 (_index q))) in
  let* index3 := set_at (_index q2) minElement (-1)%Z in
  Some (mkPQ (_minheap q2) index3, minElement).

(** [contains(element)] *)
Definition contains (q : t) (element : nat) : option bool :=
  let* i := _index q !! element in Some (0 <=? i)%Z.

(** [getPriority(element)] *)
Definition getPriority (q : t) (element : nat) : option priority :=
  let* i := _index q !! element in
  let* e := py_get (_minheap q) i in
  Some (snd e).

(** [changePriority(element, value)]; past the test of [contains] the
    position is not negative. *)
Definition changePriority (q : t) (element : nat) (value : priority)
  : option (t * bool) :=
  let* c := contains q element in
  if negb c then Some (q, false)
  else
    let* i := _index q !! element in
    let position := Z.to_nat i in
    let* e := _minheap q !! position in
    if prio_ltb value (snd e) then
      let* heap1 := set_at (_minheap q) position (element, value) in
      let* q1 := _percolate_up (mkPQ heap1 (_index q)) position in
      Some (q1, true)
    else if prio_ltb (snd e) value then
      let* heap1 := set_at (_minheap q) position (element, value) in
      let* q1 := _percolate_down (mkPQ heap1 (_index q)) position in
      Some (q1, true)
    else Some (q, true).

(** The calls a program can make on a queue for the elements [0..n-1]. *)
Inductive op : Type :=
| Insert (element : nat) (value : priority)
| InsertAll (pairs : list (nat * priority))
| ExtractMin
| ChangePriority (element : nat) (value : priority).

Definition op_in_range (n : nat) (o : op) : Prop :=
  match o with
  | Insert element _ => element < n
  | InsertAll pairs => Forall (fun pr => fst pr < n) pairs
  | ExtractMin => True
  | ChangePriority element _ => element < n
  end.

Definition run (q : t) (o : op) : option t :=
  match o with
  | Insert element value =>
      let* (q1, _) := insert q element value in Some q1
  | InsertAll pairs => insertAll q pairs
  | ExtractMin => let* (q1, _) := extractMin q in Some q1
  | ChangePriority element value =>
      let* (q1, _) := changePriority q element value in Some q1
  end.

(** The states reachable from [PQInts(n)] by calls that return. *)
Inductive reachable (n : nat) : t -> Prop :=
| reach_init : reachable n (init n)
| reach_step q o q' :
    reachable n q -> op_in_range n o -> run q o = Some q' ->
    reachable n q'.

(** Heap order of the internal sequence: no entry has a larger priority
    than its children at [2i+1] and [2i+2]. *)
Definition heap_ordered (heap : list (nat * priority)) : Prop :=
  forall i c ei ec,
    (c = _left i \/ c = _right i) ->
    heap !! i = Some ei -> heap !! c = Some ec ->
    prio_ltb (snd ec) (snd ei) = false.

(** Consistency of the position index with the sequence. *)
Definition index_consistent (q : t) : Prop :=
  forall e, e < length (_index q) ->
    exists i, _index q !! e = Some i /\
      ((0 <= i)%Z <-> exists v, In (e, v) (_minheap q)) /\
      ((0 <= i)%Z -> exists v, _minheap q !! Z.to_nat i = Some (e, v)).

End PQInts.

(** ** Minimum spanning trees ([WeightedGraph.mstKruskal], [mstPrim]) *)

(** A Python [set] of vertex pairs: the list of its members, in the order of
    their first insertion.  [set_add] is [A.add(x)]. *)
Definition pair_eqb (a b : nat * nat) : bool :=
  (fst a =? fst b) && (snd a =? snd b).

Definition set_add (x : nat * nat) (A : list (nat * nat)) : list (nat * nat) :=
  if existsb (pair_eqb x) A then A else A ++ [x].

(** The set built by a comprehension from the sequence of its values. *)
Definition set_of (l : list (nat * nat)) : list (nat * nat) :=
  fold_left (fun A x => set_add x A) l [].

Module MST.

(** [edges.sort(key=lambda x : x[1])]: the sort is stable, so its result is
    the one of a stable insertion sort on the weights. *)
Fixpoint sort_insert (e : nat * nat * Z) (l : list (nat * nat * Z))
  : list (nat * nat * Z) :=
  match l with
  | [] => [e]
  | e' :: l' =>
      if (snd e' <? snd e)%Z then e' :: sort_insert e l' else e :: l
  end.

Definition sort_by_weight (l : list (nat * nat * Z)) : list (nat * nat * Z) :=
  fold_right sort_insert [] l.

(** The body of the loop of [mstKruskal]; [limit] is the number of nested
    calls the interpreter allows [findset]. *)
Definition kruskal_step (limit : nat)
  (st : list (nat * nat) * DisjointIntegerSets.t) (e : nat * nat * Z)
  : option (list (nat * nat) * DisjointIntegerSets.t) :=
  let '(A, forest) := st in
  let '((u, v), _) := e in
  let* (forest1, ru) := DisjointIntegerSets.findset limit forest u in
  let* (forest2, rv) := DisjointIntegerSets.findset limit forest1 v in
  if negb (ru =? rv) then
    let* forest3 := DisjointIntegerSets.union limit forest2 u v in
    Some (set_add (u, v) A, forest3)
  else Some (A, forest2).

(** [mstKruskal()] *)
Definition mstKruskal (limit : nat) (g : WeightedGraph.t)
  : option (list (nat * nat)) :=
  let forest := DisjointIntegerSets.init (WeightedGraph.numVertices g) in
  let edges := sort_by_weight (WeightedGraph.getEdgeListW g) in
  let* (A, _) := foldM (kruskal_step limit) ([], forest) edges in
  Some A.

(** The body of the loop over [self._adj[u].__iter__(True)] in [mstPrim]. *)
Definition prim_relax (u : nat)
  (st : list (option nat) * PQInts.t) (vw : nat * Z)
  : option (list (option nat) * PQInts.t) :=
  let '(parent, Q) := st in
  let '(v, w) := vw in
  let* c := PQInts.contains Q v in
  if c then
    let* pv := PQInts.getPriority Q v in
    if prio_ltb (Fin w) pv then
      let* parent1 := set_at parent v (Some u) in
      let* (Q1, _) := PQInts.changePriority Q v (Fin w) in
      Some (parent1, Q1)
    else Some (parent, Q)
  else Some (parent, Q).

(** The loop [while not Q.isEmpty()]; every iteration removes one entry of
    the queue, so [fuel] above the size of the queue is enough. *)
Fixpoint prim_loop (fuel : nat) (g : WeightedGraph.t)
  (parent : list (option nat)) (Q : PQInts.t)
  : option (list (option nat) * PQInts.t) :=
  match fuel with
  | 0 => None
  | S fuel' =>
      if PQInts.isEmpty Q then Some (parent, Q)
      else
        let* (Q1, u) := PQInts.extractMin Q in
        let* uList := g !! u in
        let* (parent2, Q2) := foldM (prim_relax u) (parent, Q1) (iter uList) in
        prim_loop fuel' g parent2 Q2
  end.

(** [mstPrim(r)] *)
Definition mstPrim (g : WeightedGraph.t) (r : nat)
  : option (list (nat * nat)) :=
  let n := WeightedGraph.numVertices g in
  let parent := replicate n (@None nat) in
  let* (Q1, _) := PQInts.insert (PQInts.init n) r (Fin 0) in
  let* Q2 := foldM (fun Q u =>
                      if negb (u =? r) then
                        let* (Q', _) := PQInts.insert Q u Inf in Some Q'
                      else Some Q)
                   Q1 (seq 0 n) in
  let* (parent3, _) := prim_loop (S (PQInts.size Q2)) g parent Q2 in
  Some (set_of (flat_map (fun vu : nat * option nat =>
                            match snd vu with
                            | Some u => [(u, fst vu)]
                            | None => []
                            end)
                         (enumerate parent3))).

(** The weight of the edge between [u] and [v] in the graph: the least
    weight stored for the target [v] in the adjacency list of [u] (one
    weight when the edge was added once). *)
Definition min_weight (ws : list Z) : option Z :=
  match ws with
  | [] => None
  | w :: ws' => Some (fold_left Z.min ws' w)
  end.

Definition edge_weight (g : WeightedGraph.t) (e : nat * nat) : Z :=
  match g !! fst e with
  | Some uList =>
      match min_weight (map snd (List.filter
                                   (fun vw : nat * Z => fst vw =? snd e)
                                   (iter uList))) with
      | Some w => w
      | None => 0%Z
      end
  | None => 0%Z
  end.

(** The total weight of a set of edges. *)
Definition total_weight (g : WeightedGraph.t) (A : list (nat * nat)) : Z :=
  fold_right Z.add 0%Z (map (edge_weight g) A).

End MST.
(** * Proofs *)

Lemma foldM_app {A B} (f : A -> B -> option A) a l1 l2 :
  foldM f a (l1 ++ l2) = (let* a' := foldM f a l1 in foldM f a' l2).
Proof.
  revert a. induction l1 as [|b l1 IH]; intros a; simpl; [reflexivity|].
  destruct (f a b); [apply IH | reflexivity].
Qed.

(** ** Edge enumeration *)

Section Comprehension.
Context {E X : Type} (f : nat -> E -> list X).

Lemma comprehension_add (adj : list (_AdjacencyList E)) a la x :
  adj !! a = Some la ->
  Permutation (comprehension f (<[a := _add la x]> adj))
              (comprehension f adj ++ f a x).
Proof.
  intros Ha. unfold comprehension.
  assert (Hlt : a < length adj) by (eapply lookup_lt_Some; eauto).
  rewrite insert_take_drop by exact Hlt.
  rewrite <- (take_drop_middle adj a la Ha) at 3.
  rewrite !imap_app, !concat_app. simpl.
  rewrite length_take, Nat.min_l by lia.
  rewrite Nat.add_0_r. unfold iter at 2. simpl.
  rewrite flat_map_app. simpl. rewrite app_nil_r.
  unfold iter.
  set (A := concat _). set (L := flat_map _ _). set (C := concat _).
  rewrite <- !app_assoc. apply Permutation_app_head.
  apply Permutation_app_head. apply Permutation_app_comm.
Qed.

Lemma concat_imap_nil {A B} (F : nat -> A -> list B) (x : A) v :
  (forall u, F u x = []) -> concat (imap F (replicate v x)) = [].
Proof.
  revert F. induction v as [|v IH]; intros F HF; simpl; [reflexivity|].
  rewrite HF. simpl. apply IH. intros u. apply HF.
Qed.

Lemma comprehension_empty v : comprehension f (replicate v adj_empty) = [].
Proof. apply concat_imap_nil. reflexivity. Qed.

End Comprehension.

(** What an undirected [getEdgeList] reports for one [addEdge(a, b)]: the
    pair ordered increasingly, and nothing for a loop. *)
Definition reported (e : nat * nat) : list (nat * nat) :=
  if fst e <? snd e then [e]
  else if snd e <? fst e then [(snd e, fst e)] else [].

Definition reportedW (e : nat * nat * Z) : list (nat * nat * Z) :=
  map (fun uv => (uv, snd e)) (reported (fst e)).

Definition in_range (v : nat) (e : nat * nat) : Prop := fst e < v /\ snd e < v.

Lemma Graph_addEdge_length g a b g' :
  Graph.addEdge g a b = Some g' -> length g' = length g.
Proof.
  unfold Graph.addEdge. intros H.
  destruct (g !! a) as [la|]; [|discriminate].
  destruct (<[a:=_add la b]> g !! b) as [lb|]; [|discriminate].
  injection H as <-. now rewrite !length_insert.
Qed.

Lemma Graph_addEdge_total (g : Graph.t) a b :
  a < length g -> b < length g -> exists g', Graph.addEdge g a b = Some g'.
Proof.
  intros Ha Hb. unfold Graph.addEdge.
  destruct (lookup_lt_is_Some_2 g a Ha) as [la ->].
  destruct (lookup_lt_is_Some_2 (<[a:=_add la b]> g) b) as [lb ->];
    [now rewrite length_insert | eauto].
Qed.

Lemma Graph_addEdge_edges g a b g' :
  Graph.addEdge g a b = Some g' ->
  Permutation (Graph.getEdgeList g') (Graph.getEdgeList g ++ reported (a, b)).
Proof.
  unfold Graph.addEdge, Graph.getEdgeList. intros H.
  destruct (g !! a) as [la|] eqn:Ea; [|discriminate].
  destruct (<[a:=_add la b]> g !! b) as [lb|] eqn:Eb; [|discriminate].
  injection H as <-.
  rewrite (comprehension_add _ _ _ _ _ Eb).
  rewrite (comprehension_add _ _ _ _ _ Ea).
  rewrite <- app_assoc. apply Permutation_app_head.
  unfold reported. simpl.
  destruct (a <? b) eqn:E1, (b <? a) eqn:E2; simpl; try reflexivity.
  apply Nat.ltb_lt in E1, E2. lia.
Qed.

Lemma Graph_addEdges_edges edges : forall g,
  Forall (in_range (length g)) edges ->
  exists g', Graph.addEdges g edges = Some g' /\ length g' = length g /\
    Permutation (Graph.getEdgeList g')
                (Graph.getEdgeList g ++ flat_map reported edges).
Proof.
  induction edges as [|[a b] edges IH]; intros g Hr.
  - exists g. simpl. rewrite app_nil_r. auto.
  - inversion Hr as [|? ? [Ha Hb] Hr']; subst. simpl in Ha, Hb.
    destruct (Graph_addEdge_total g a b Ha Hb) as [g1 H1].
    pose proof (Graph_addEdge_length _ _ _ _ H1) as L1.
    destruct (IH g1) as (g' & H' & L' & P'); [now rewrite L1|].
    exists g'. unfold Graph.addEdges in *. simpl. rewrite H1.
    split; [exact H'|]. split; [congruence|].
    rewrite P', (Graph_addEdge_edges _ _ _ _ H1). simpl.
    now rewrite <- app_assoc.
Qed.

Lemma WeightedGraph_addEdge_length g a b w g' :
  WeightedGraph.addEdge g a b w = Some g' -> length g' = length g.
Proof.
  unfold WeightedGraph.addEdge. intros H.
  destruct (g !! a) as [la|]; [|discriminate].
  destruct (<[a:=_add la (b, w)]> g !! b) as [lb|]; [|discriminate].
  injection H as <-. now rewrite !length_insert.
Qed.

Lemma WeightedGraph_addEdge_total (g : WeightedGraph.t) a b w :
  a < length g -> b < length g ->
  exists g', WeightedGraph.addEdge g a b w = Some g'.
Proof.
  intros Ha Hb. unfold WeightedGraph.addEdge.
  destruct (lookup_lt_is_Some_2 g a Ha) as [la ->].
  destruct (lookup_lt_is_Some_2 (<[a:=_add la (b, w)]> g) b) as [lb ->];
    [now rewrite length_insert | eauto].
Qed.

Lemma WeightedGraph_addEdge_edges g a b w g' :
  WeightedGraph.addEdge g a b w = Some g' ->
  Permutation (WeightedGraph.getEdgeList g')
              (WeightedGraph.getEdgeList g ++ reported (a, b)) /\
  Permutation (WeightedGraph.getEdgeListW g')
              (WeightedGraph.getEdgeListW g ++ reportedW ((a, b), w)).
Proof.
  unfold WeightedGraph.addEdge, WeightedGraph.getEdgeList,
    WeightedGraph.getEdgeListW. intros H.
  destruct (g !! a) as [la|] eqn:Ea; [|discriminate].
  destruct (<[a:=_add la (b, w)]> g !! b) as [lb|] eqn:Eb; [|discriminate].
  injection H as <-.
  split.
  - rewrite (comprehension_add _ _ _ _ _ Eb).
    rewrite (comprehension_add _ _ _ _ _ Ea).
    rewrite <- app_assoc. apply Permutation_app_head.
    unfold reported. simpl.
    destruct (a <? b) eqn:E1, (b <? a) eqn:E2; simpl; try reflexivity.
    apply Nat.ltb_lt in E1, E2. lia.
  - rewrite (comprehension_add _ _ _ _ _ Eb).
    rewrite (comprehension_add _ _ _ _ _ Ea).
    rewrite <- app_assoc. apply Permutation_app_head.
    unfold reportedW, reported. simpl.
    destruct (a <? b) eqn:E1, (b <? a) eqn:E2; simpl; try reflexivity.
    apply Nat.ltb_lt in E1, E2. lia.
Qed.

Lemma WeightedGraph_addEdges_edges edges : forall g,
  Forall (fun e => in_range (length g) (fst e)) edges ->
  exists g', WeightedGraph.addEdges g edges = Some g' /\
    length g' = length g /\
    Permutation (WeightedGraph.getEdgeList g')
      (WeightedGraph.getEdgeList g ++ flat_map reported (map fst edges)) /\
    Permutation (WeightedGraph.getEdgeListW g')
      (WeightedGraph.getEdgeListW g ++ flat_map reportedW edges).
Proof.
  induction edges as [|[[a b] w] edges IH]; intros g Hr.
  - exists g. simpl. rewrite !app_nil_r. auto.
  - inversion Hr as [|? ? [Ha Hb] Hr']; subst. simpl in Ha, Hb.
    destruct (WeightedGraph_addEdge_total g a b w Ha Hb) as [g1 H1].
    pose proof (WeightedGraph_addEdge_length _ _ _ _ _ H1) as L1.
    destruct (IH g1) as (g' & H' & L' & P' & Q'); [now rewrite L1|].
    destruct (WeightedGraph_addEdge_edges _ _ _ _ _ H1) as [P1 Q1].
    exists g'. unfold WeightedGraph.addEdges in *. simpl. rewrite H1.
    split; [exact H'|]. split; [congruence|]. split.
    + rewrite P', P1. now rewrite <- app_assoc.
    + rewrite Q', Q1. now rewrite <- app_assoc.
Qed.

(** The constructor's loop over [enumerate(edges)] is the sequence of
    [addEdge] calls on the edges paired with their weights. *)
Lemma WeightedGraph_init_loop_addEdges edges : forall g weights,
  length edges <= length weights ->
  WeightedGraph.init_loop g edges weights =
  WeightedGraph.addEdges g (combine edges weights).
Proof.
  induction edges as [|[a b] edges IH]; intros g [|w ws] Hl; simpl in *;
    try reflexivity; try lia.
  unfold WeightedGraph.addEdges. simpl.
  destruct (WeightedGraph.addEdge g a b w); [|reflexivity].
  apply IH. lia.
Qed.

(** ** Degrees of directed graphs *)

Definition arcs_from (x : nat) (edges : list (nat * nat)) : nat :=
  length (List.filter (fun e => fst e =? x) edges).

Definition arcs_into (x : nat) (edges : list (nat * nat)) : nat :=
  length (List.filter (fun e => snd e =? x) edges).

Lemma arcs_from_snoc x edges a b :
  arcs_from x (edges ++ [(a, b)]) =
  arcs_from x edges + (if a =? x then 1 else 0).
Proof.
  unfold arcs_from. rewrite List.filter_app, length_app. simpl.
  destruct (a =? x); reflexivity.
Qed.

Lemma arcs_into_snoc x edges a b :
  arcs_into x (edges ++ [(a, b)]) =
  arcs_into x edges + (if b =? x then 1 else 0).
Proof.
  unfold arcs_into. rewrite List.filter_app, length_app. simpl.
  destruct (b =? x); reflexivity.
Qed.

(** The state of a [Digraph] after the arcs [edges] were added to the empty
    graph on [v] vertices. *)
Record Digraph_built (v : nat) (edges : list (nat * nat)) (g : Digraph.t)
  : Prop := {
  built_length : length (_adj g) = v;
  built_out : forall x, x < v ->
    exists l, _adj g !! x = Some l /\ _size l = arcs_from x edges;
  built_in : exists deg, _inDegree g = Some deg /\ length deg = v /\
    forall x, x < v -> deg !! x = Some (arcs_into x edges);
  built_edges : Permutation (Digraph.getEdgeList g) edges
}.

Lemma Digraph_addEdge_built v edges g a b :
  Digraph_built v edges g -> a < v -> b < v ->
  exists g', Digraph.addEdge g a b = Some g' /\
             Digraph_built v (edges ++ [(a, b)]) g'.
Proof.
  intros [HL HO (deg & Hdeg & Ldeg & HI) HE] Ha Hb.
  destruct (HO a Ha) as (la & Ela & Sla).
  pose proof (HI b Hb) as Edb.
  unfold Digraph.addEdge. rewrite Ela, Hdeg, Edb.
  eexists. split; [reflexivity|].
  constructor; simpl.
  - now rewrite length_insert.
  - intros x Hx. rewrite arcs_from_snoc.
    destruct (Nat.eqb_spec a x) as [->|Hne].
    + exists (_add la b). rewrite list_lookup_insert_eq by lia.
      split; [reflexivity|]. simpl. lia.
    + destruct (HO x Hx) as (l & El & Sl). exists l.
      rewrite list_lookup_insert_ne by exact Hne. split; [exact El|lia].
  - eexists. split; [reflexivity|]. split; [now rewrite length_insert|].
    intros x Hx. rewrite arcs_into_snoc.
    destruct (Nat.eqb_spec b x) as [->|Hne].
    + rewrite list_lookup_insert_eq by lia. reflexivity.
    + rewrite list_lookup_insert_ne by exact Hne.
      rewrite (HI x Hx). f_equal. lia.
  - unfold Digraph.getEdgeList in *. simpl.
    rewrite (comprehension_add _ _ _ _ _ Ela). now rewrite HE.
Qed.

Lemma Digraph_init_built v edges :
  Forall (in_range v) edges ->
  exists g, Digraph.init v edges = Some g /\ Digraph_built v edges g.
Proof.
  unfold Digraph.init, Digraph.addEdges.
  induction edges as [|[a b] edges IH] using rev_ind; intros Hr.
  - eexists. split; [reflexivity|]. constructor; simpl.
    + apply length_replicate.
    + intros x Hx. exists adj_empty. split; [|reflexivity].
      now apply lookup_replicate_2.
    + eexists. split; [reflexivity|]. split; [apply length_replicate|].
      intros x Hx. now apply lookup_replicate_2.
    + unfold Digraph.getEdgeList. simpl. now rewrite comprehension_empty.
  - apply Forall_app in Hr as [Hr1 Hr2].
    inversion Hr2 as [|? ? [Ha Hb] _]; subst. simpl in Ha, Hb.
    destruct (IH Hr1) as (g & Hg & Bg).
    destruct (Digraph_addEdge_built _ _ _ _ _ Bg Ha Hb) as (g' & Hg' & Bg').
    exists g'. rewrite foldM_app, Hg. simpl. rewrite Hg'. auto.
Qed.

(** [Digraph]: the three degree queries answer with the arc counts. *)
Lemma Digraph_degrees v edges x :
  Forall (in_range v) edges -> x < v ->
  exists g, Digraph.init v edges = Some g /\
    Digraph.outDegree g x = Some (arcs_from x edges) /\
    Digraph.inDegree g x = Some (arcs_into x edges) /\
    Digraph.degree g x = Some (arcs_from x edges + arcs_into x edges).
Proof.
  intros Hr Hx.
  destruct (Digraph_init_built v edges Hr)
    as (g & Hg & [HL HO (deg & Hdeg & Ldeg & HI) HE]).
  exists g. split; [exact Hg|].
  destruct (HO x Hx) as (l & El & Sl).
  unfold Digraph.degree, Digraph.outDegree, Digraph.inDegree.
  rewrite El, Hdeg, (HI x Hx), Sl. auto.
Qed.

(** ** Weighted directed graphs *)

Lemma WeightedDigraph_addEdge_spec (g : WeightedDigraph.t) a b w :
  a < length (_adj g) ->
  exists g', WeightedDigraph.addEdge g a b w = Some g' /\
    length (_adj g') = length (_adj g) /\
    _inDegree g' = _inDegree g /\
    Permutation (WeightedDigraph.getEdgeList g')
                (WeightedDigraph.getEdgeList g ++ [(a, b)]) /\
    Permutation (WeightedDigraph.getEdgeListW g')
                (WeightedDigraph.getEdgeListW g ++ [((a, b), w)]).
Proof.
  intros Ha. unfold WeightedDigraph.addEdge.
  destruct (lookup_lt_is_Some_2 (_adj g) a Ha) as [la Ela]. rewrite Ela.
  eexists. split; [reflexivity|]. simpl.
  split; [now rewrite length_insert|]. split; [reflexivity|].
  unfold WeightedDigraph.getEdgeList, WeightedDigraph.getEdgeListW. simpl.
  split; now rewrite (comprehension_add _ _ _ _ _ Ela).
Qed.

Lemma WeightedDigraph_addEdges_spec edges : forall g : WeightedDigraph.t,
  Forall (fun e => fst (fst e) < length (_adj g)) edges ->
  exists g', WeightedDigraph.addEdges g edges = Some g' /\
    length (_adj g') = length (_adj g) /\
    _inDegree g' = _inDegree g /\
    Permutation (WeightedDigraph.getEdgeList g')
                (WeightedDigraph.getEdgeList g ++ map fst edges) /\
    Permutation (WeightedDigraph.getEdgeListW g')
                (WeightedDigraph.getEdgeListW g ++ edges).
Proof.
  induction edges as [|[[a b] w] edges IH]; intros g Hr.
  - exists g. simpl. rewrite !app_nil_r. auto.
  - inversion Hr as [|? ? Ha Hr']; subst. simpl in Ha.
    destruct (WeightedDigraph_addEdge_spec g a b w Ha)
      as (g1 & H1 & L1 & D1 & P1 & Q1).
    destruct (IH g1) as (g' & H' & L' & D' & P' & Q'); [now rewrite L1|].
    exists g'. unfold WeightedDigraph.addEdges in *. simpl. rewrite H1.
    split; [exact H'|]. split; [congruence|]. split; [congruence|]. split.
    + rewrite P', P1. now rewrite <- app_assoc.
    + rewrite Q', Q1. now rewrite <- app_assoc.
Qed.

Lemma WeightedDigraph_init_loop_addEdges edges : forall g weights,
  length edges <= length weights ->
  WeightedDigraph.init_loop g edges weights =
  WeightedDigraph.addEdges g (combine edges weights).
Proof.
  induction edges as [|[a b] edges IH]; intros g [|w ws] Hl; simpl in *;
    try reflexivity; try lia.
  unfold WeightedDigraph.addEdges. simpl.
  destruct (WeightedDigraph.addEdge g a b w); [|reflexivity].
  apply IH. lia.
Qed.

(** ** Claims on the graph classes *)

(** C9, as the code has it.  For every vertex count and every list of
    in-range edges with as many weights, the constructors succeed and the
    edge lists are, up to order, as follows.  Undirected ([Graph],
    [WeightedGraph], with or without weights): one entry per added edge with
    two different endpoints, written with the smaller endpoint first, and no
    entry for an added edge whose two endpoints are the same vertex
    ([reported]).  Directed ([Digraph], [WeightedDigraph], with or without
    weights): one entry per added arc. *)
Theorem getEdgeList_reports_each_edge_once
  (v : nat) (edges : list (nat * nat)) (weights : list Z) :
  Forall (in_range v) edges ->
  length weights = length edges ->
  (exists g, Graph.init v edges = Some g /\
     Permutation (Graph.getEdgeList g) (flat_map reported edges)) /\
  (exists g, WeightedGraph.init v edges weights = Some g /\
     Permutation (WeightedGraph.getEdgeList g) (flat_map reported edges) /\
     Permutation (WeightedGraph.getEdgeListW g)
                 (flat_map reportedW (combine edges weights))) /\
  (exists g, Digraph.init v edges = Some g /\
     Permutation (Digraph.getEdgeList g) edges) /\
  (exists g, WeightedDigraph.init v edges weights = Some g /\
     Permutation (WeightedDigraph.getEdgeList g) edges /\
     Permutation (WeightedDigraph.getEdgeListW g) (combine edges weights)).
Proof.
  intros Hr Hl.
  assert (Hfst : map fst (combine edges weights) = edges).
  { clear Hr. revert weights Hl.
    induction edges as [|e es IH]; intros [|w ws] Hl; simpl in *;
      try reflexivity; try lia.
    f_equal. apply IH. lia. }
  assert (Hrw : Forall (fun e : nat * nat * Z => in_range v (fst e))
                       (combine edges weights)).
  { rewrite <- Hfst in Hr. rewrite List.Forall_map in Hr. exact Hr. }
  repeat split.
  - destruct (Graph_addEdges_edges edges (Graph.empty v))
      as (g & Hg & _ & P).
    { unfold Graph.empty. now rewrite length_replicate. }
    exists g. split; [exact Hg|].
    unfold Graph.getEdgeList, Graph.empty in P.
    now rewrite comprehension_empty in P.
  - destruct (WeightedGraph_addEdges_edges (combine edges weights)
                (WeightedGraph.empty v)) as (g & Hg & _ & P & Q).
    { unfold WeightedGraph.empty. now rewrite length_replicate. }
    exists g. unfold WeightedGraph.init.
    rewrite WeightedGraph_init_loop_addEdges by lia.
    split; [exact Hg|].
    unfold WeightedGraph.getEdgeList, WeightedGraph.getEdgeListW,
      WeightedGraph.empty in P, Q.
    rewrite comprehension_empty in P. rewrite comprehension_empty in Q.
    rewrite Hfst in P. auto.
  - destruct (Digraph_init_built v edges Hr) as (g & Hg & Bg).
    exists g. split; [exact Hg|]. apply Bg.
  - destruct (WeightedDigraph_addEdges_spec (combine edges weights)
                (WeightedDigraph.empty v)) as (g & Hg & _ & _ & P & Q).
    { simpl. rewrite length_replicate.
      eapply Forall_impl; [exact Hrw|]. intros e He. apply He. }
    exists g. unfold WeightedDigraph.init.
    rewrite WeightedDigraph_init_loop_addEdges by lia.
    split; [exact Hg|].
    unfold WeightedDigraph.getEdgeList, WeightedDigraph.getEdgeListW,
      WeightedDigraph.empty in P, Q. simpl in P, Q.
    rewrite comprehension_empty in P. rewrite comprehension_empty in Q.
    rewrite Hfst in P. auto.
Qed.

Lemma getEdgeList_reports_each_edge_once_witness :
  (exists g, Graph.init 3 [(0, 1); (2, 1); (1, 1)] = Some g /\
     Permutation (Graph.getEdgeList g)
                 (flat_map reported [(0, 1); (2, 1); (1, 1)])) /\
  (exists g, WeightedGraph.init 3 [(0, 1); (2, 1); (1, 1)] [5; 7; 9]%Z
             = Some g /\
     Permutation (WeightedGraph.getEdgeList g)
                 (flat_map reported [(0, 1); (2, 1); (1, 1)]) /\
     Permutation (WeightedGraph.getEdgeListW g)
                 (flat_map reportedW
                    (combine [(0, 1); (2, 1); (1, 1)] [5; 7; 9]%Z))) /\
  (exists g, Digraph.init 3 [(0, 1); (2, 1); (1, 1)] = Some g /\
     Permutation (Digraph.getEdgeList g) [(0, 1); (2, 1); (1, 1)]) /\
  (exists g, WeightedDigraph.init 3 [(0, 1); (2, 1); (1, 1)] [5; 7; 9]%Z
             = Some g /\
     Permutation (WeightedDigraph.getEdgeList g) [(0, 1); (2, 1); (1, 1)] /\
     Permutation (WeightedDigraph.getEdgeListW g)
                 (combine [(0, 1); (2, 1); (1, 1)] [5; 7; 9]%Z)).
Proof.
  apply (getEdgeList_reports_each_edge_once 3 [(0, 1); (2, 1); (1, 1)]
           [5; 7; 9]%Z).
  - repeat constructor; simpl; lia.
  - reflexivity.
Defined.

(** C9 as stated fails on a loop: [Graph(1, [(0,0)])] stores the entry [0]
    twice in the list of vertex [0], neither of which passes [v > u], so the
    added edge is not reported at all. *)
Lemma getEdgeList_omits_loop :
  exists g, Graph.init 1 [(0, 0)] = Some g /\
    Graph.addEdge (Graph.empty 1) 0 0 = Some g /\
    Graph.getEdgeList g = [] /\
    ~ Permutation (Graph.getEdgeList g) [(0, 0)].
Proof.
  eexists. repeat split.
  intros H. apply Permutation_length in H. discriminate H.
Qed.

(** C2 holds on [Digraph] ([Digraph_degrees]) and fails on
    [WeightedDigraph]: after [WeightedDigraph(2, [(0,1)], [5])] the
    attribute [_inDegree] was never assigned, so [inDegree(1)] and
    [degree(1)] raise while [outDegree(0)] answers. *)
Theorem WeightedDigraph_inDegree_raises :
  exists g, WeightedDigraph.init 2 [(0, 1)] [5%Z] = Some g /\
    _inDegree g = None /\
    WeightedDigraph.outDegree g 0 = Some 1 /\
    WeightedDigraph.inDegree g 1 = None /\
    WeightedDigraph.degree g 1 = None /\
    WeightedDigraph.degree g 0 = None.
Proof. eexists. repeat split. Qed.


(** ** The disjoint-set forest *)

Section DisjointSets.
Import DisjointIntegerSets.

Lemma root_of_fun ps x r d :
  root_of ps x r d -> forall r' d', root_of ps x r' d' -> r = r' /\ d = d'.
Proof.
  induction 1 as [x Hx | x px r d Hx Hne _ IH]; intros r' d' H'.
  - inversion H'; subst; [auto | congruence].
  - inversion H' as [? Hx' | ? px' ? d0 Hx' Hne' H0]; subst; [congruence|].
    assert (px' = px) by congruence. subst px'.
    destruct (IH _ _ H0) as [-> ->]. auto.
Qed.

Lemma root_of_root ps x r d : root_of ps x r d -> ps !! r = Some r.
Proof. induction 1; auto. Qed.

Lemma root_of_lt ps x r d : root_of ps x r d -> x < length ps.
Proof.
  intros H. inversion H; subst; eapply lookup_lt_Some; eauto.
Qed.

Lemma rep_fun nodes x r r' : rep nodes x r -> rep nodes x r' -> r = r'.
Proof. intros [d H] [d' H']. apply (root_of_fun _ _ _ _ H _ _ H'). Qed.

Lemma rep_root nodes x r : rep nodes x r -> rep nodes r r.
Proof.
  intros [d H]. exists 0. apply root_here. eapply root_of_root; eauto.
Qed.

Lemma length_parents nodes : length (parents nodes) = length nodes.
Proof. apply length_map. Qed.

Lemma rep_lt nodes x r : rep nodes x r -> x < length nodes /\ r < length nodes.
Proof.
  intros [d H]. rewrite <- length_parents. split.
  - eapply root_of_lt; eauto.
  - eapply lookup_lt_Some, root_of_root; eauto.
Qed.

Lemma parents_lookup nodes x :
  parents nodes !! x = p <$> (nodes !! x).
Proof. unfold parents. apply list_lookup_fmap. Qed.

Lemma parents_insert nodes x nd :
  parents (<[x := nd]> nodes) = <[x := p nd]> (parents nodes).
Proof. unfold parents. apply list_fmap_insert. Qed.

Lemma ranks_insert nodes x nd :
  ranks (<[x := nd]> nodes) = <[x := rank nd]> (ranks nodes).
Proof. unfold ranks. apply list_fmap_insert. Qed.

(** The nodes on the way from [x] to its root are pairwise different, which
    bounds the depth by the number of nodes. *)
Lemma root_of_chain ps x r d :
  root_of ps x r d ->
  exists l, length l = S d /\ NoDup l /\
    forall y, In y l -> exists dy, dy <= d /\ root_of ps y r dy.
Proof.
  induction 1 as [x Hx | x px r d Hx Hne H (l & Ll & Nl & Hl)].
  - exists [x]. split; [reflexivity|]. split.
    + repeat constructor. intros HIn. inversion HIn.
    + intros y [<-|[]]. exists 0. split; [lia|]. now apply root_here.
  - exists (x :: l). split; [simpl; lia|]. split.
    + constructor; [|exact Nl]. rewrite list_elem_of_In. intros HIn.
      destruct (Hl _ HIn) as (dy & Hdy & Hy).
      assert (Hx' : root_of ps x r (S d)) by (eapply root_up; eauto).
      destruct (root_of_fun _ _ _ _ Hy _ _ Hx'). lia.
    + intros y [<-|HIn].
      * exists (S d). split; [lia|]. eapply root_up; eauto.
      * destruct (Hl _ HIn) as (dy & Hdy & Hy). exists dy. split; [lia|auto].
Qed.

Lemma root_of_depth ps x r d : root_of ps x r d -> d < length ps.
Proof.
  intros H. destruct (root_of_chain _ _ _ _ H) as (l & Ll & Nl & Hl).
  assert (Hincl : incl l (seq 0 (length ps))).
  { intros y Hy. destruct (Hl _ Hy) as (dy & _ & Hy').
    apply in_seq. pose proof (root_of_lt _ _ _ _ Hy'). lia. }
  apply NoDup_ListNoDup in Nl.
  pose proof (List.NoDup_incl_length Nl Hincl) as Hlen.
  rewrite length_seq in Hlen. lia.
Qed.

(** What the path compression of [findset] may do to a forest: ranks and
    representatives stay, and a parent stays or becomes the
    representative. *)
Record compresses (nodes nodes' : t) : Prop := {
  cmp_length : length nodes' = length nodes;
  cmp_ranks : ranks nodes' = ranks nodes;
  cmp_parent : forall z pz,
    parents nodes' !! z = Some pz ->
    parents nodes !! z = Some pz \/ rep nodes z pz;
  cmp_rep : forall z r, rep nodes z r <-> rep nodes' z r
}.

Lemma compresses_refl nodes : compresses nodes nodes.
Proof. constructor; try reflexivity; auto. Qed.

Lemma compresses_trans n1 n2 n3 :
  compresses n1 n2 -> compresses n2 n3 -> compresses n1 n3.
Proof.
  intros [L1 R1 P1 E1] [L2 R2 P2 E2]. constructor.
  - congruence.
  - congruence.
  - intros z pz H3. destruct (P2 _ _ H3) as [H2|H2].
    + auto.
    + right. now apply E1.
  - intros z r. rewrite E1. apply E2.
Qed.

Lemma forest_compresses nodes nodes' :
  forest nodes -> compresses nodes nodes' -> forest nodes'.
Proof.
  intros F [L _ _ E] x Hx. rewrite L in Hx.
  destruct (F x Hx) as [r Hr]. exists r. now apply E.
Qed.

(** Re-pointing [x] to its representative. *)
Lemma compress_step nodes x r nx :
  rep nodes x r -> nodes !! x = Some nx ->
  compresses nodes (<[x := mkNode r (rank nx)]> nodes).
Proof.
  intros Hrep Hx.
  assert (Hroot : parents nodes !! r = Some r).
  { destruct Hrep as [d H]. eapply root_of_root; eauto. }
  assert (Hxlt : x < length (parents nodes)).
  { rewrite length_parents. eapply lookup_lt_Some; eauto. }
  constructor.
  - apply length_insert.
  - rewrite ranks_insert. apply list_insert_id.
    unfold ranks. rewrite list_lookup_fmap, Hx. reflexivity.
  - intros z pz. rewrite parents_insert. simpl.
    destruct (decide (x = z)) as [<-|Hne].
    + rewrite list_lookup_insert_eq by exact Hxlt.
      intros [= <-]. now right.
    + rewrite list_lookup_insert_ne by exact Hne. auto.
  - intros z rz. split.
    + intros [dz Hz]. unfold rep. rewrite parents_insert. simpl.
      induction Hz as [z Hz | z pz rz dz Hz Hne Hup [d' IH]].
      * exists 0. apply root_here.
        destruct (decide (x = z)) as [<-|Hxz].
        -- destruct Hrep as [d Hd].
           destruct (root_of_fun _ _ _ _ Hd _ _ (root_here _ _ Hz)) as [-> _].
           now rewrite list_lookup_insert_eq.
        -- now rewrite list_lookup_insert_ne.
      * destruct (decide (x = z)) as [<-|Hxz].
        -- destruct Hrep as [d Hd].
           destruct (root_of_fun _ _ _ _ Hd _ _
                       (root_up _ _ _ _ _ Hz Hne Hup)) as [-> _].
           assert (Hrx : rz <> x) by congruence.
           exists 1. eapply root_up.
           ++ now apply list_lookup_insert_eq.
           ++ exact Hrx.
           ++ apply root_here. now rewrite list_lookup_insert_ne.
        -- exists (S d'). eapply root_up; [|exact Hne|exact IH].
           now rewrite list_lookup_insert_ne.
    + intros [dz Hz]. rewrite parents_insert in Hz.
      simpl in Hz.
      remember (<[x:=r]> (parents nodes)) as ps' eqn:Eps.
      induction Hz as [z Hz | z pz rz dz Hz Hne Hup IH]; subst ps'.
      * destruct (decide (x = z)) as [<-|Hxz].
        -- rewrite list_lookup_insert_eq in Hz by exact Hxlt.
           injection Hz as ->. exact Hrep.
        -- rewrite list_lookup_insert_ne in Hz by exact Hxz.
           exists 0. now apply root_here.
      * destruct IH as [d0 IH].
        destruct (decide (x = z)) as [<-|Hxz].
        -- rewrite list_lookup_insert_eq in Hz by exact Hxlt.
           injection Hz as <-.
           destruct (root_of_fun _ _ _ _ IH _ _ (root_here _ _ Hroot))
             as [-> _].
           exact Hrep.
        -- rewrite list_lookup_insert_ne in Hz by exact Hxz.
           exists (S d0). eapply root_up; eauto.
Qed.

Lemma findset_rec_spec nodes x r d :
  root_of (parents nodes) x r d ->
  forall depth, d < depth ->
  exists nodes', findset_rec depth nodes x = Some (nodes', r) /\
                 compresses nodes nodes'.
Proof.
  induction 1 as [x Hx | x px r d Hx Hne Hup IH]; intros [|depth] Hd;
    try lia; simpl.
  - rewrite parents_lookup in Hx.
    destruct (nodes !! x) as [nx|] eqn:Ex; [|discriminate].
    injection Hx as Hp. rewrite Hp, Nat.eqb_refl. simpl.
    exists nodes. split; [reflexivity | apply compresses_refl].
  - rewrite parents_lookup in Hx.
    destruct (nodes !! x) as [nx|] eqn:Ex; [|discriminate].
    injection Hx as Hp. rewrite Hp.
    destruct (Nat.eqb_spec x px) as [->|_]; [congruence|]. simpl.
    destruct (IH depth) as (nodes1 & -> & C1); [lia|].
    assert (Hlt : x < length nodes1).
    { rewrite (cmp_length _ _ C1). eapply lookup_lt_Some; eauto. }
    destruct (lookup_lt_is_Some_2 _ _ Hlt) as [nx1 Ex1]. rewrite Ex1.
    rewrite list_lookup_insert_eq by exact Hlt. simpl.
    eexists. split; [reflexivity|].
    eapply compresses_trans; [exact C1|].
    apply compress_step; [|exact Ex1].
    apply (cmp_rep _ _ C1). exists (S d).
    eapply root_up; [|exact Hne|exact Hup].
    rewrite parents_lookup, Ex. simpl. now f_equal.
Qed.

(** A call that is not allowed enough nested calls for the chain raises. *)
Lemma findset_rec_deep nodes x r d :
  root_of (parents nodes) x r d ->
  forall depth, depth <= d -> findset_rec depth nodes x = None.
Proof.
  induction 1 as [x Hx | x px r d Hx Hne Hup IH]; intros [|depth] Hd;
    try reflexivity; try lia.
  simpl. rewrite parents_lookup in Hx.
  destruct (nodes !! x) as [nx|] eqn:Ex; [|discriminate].
  injection Hx as Hp. rewrite Hp.
  destruct (Nat.eqb_spec x px) as [->|_]; [congruence|]. simpl.
  rewrite IH by lia. reflexivity.
Qed.

(** More room for nested calls does not change a result. *)
Lemma findset_rec_mono depth : forall nodes x res depth',
  findset_rec depth nodes x = Some res -> depth <= depth' ->
  findset_rec depth' nodes x = Some res.
Proof.
  induction depth as [|depth IH]; intros nodes x res [|depth'] H Hle;
    try discriminate; try lia.
  simpl in *. destruct (nodes !! x) as [nx|]; [|discriminate].
  destruct (negb (x =? p nx)); [|exact H].
  destruct (findset_rec depth nodes (p nx)) as [[nodes1 r]|] eqn:E;
    [|discriminate].
  rewrite (IH _ _ _ depth' E) by lia. exact H.
Qed.

(** [shallow limit nodes]: no chain of parents has [limit] links or more,
    so that [findset] stays within [limit] nested calls. *)
Definition shallow (limit : nat) (nodes : t) : Prop :=
  forall x r d, root_of (parents nodes) x r d -> d < limit.

Lemma shallow_of_length limit nodes :
  length nodes <= limit -> shallow limit nodes.
Proof.
  intros Hl x r d H. apply root_of_depth in H.
  rewrite length_parents in H. lia.
Qed.

Lemma compresses_depth nodes nodes' :
  compresses nodes nodes' ->
  forall x r d', root_of (parents nodes') x r d' ->
  exists d, root_of (parents nodes) x r d /\ d' <= d.
Proof.
  intros C x r d' H.
  induction H as [x Hx | x px r d' Hx Hne Hup (d0 & H0 & Hle)].
  - assert (R : rep nodes x x).
    { apply (cmp_rep _ _ C). exists 0. now apply root_here. }
    destruct R as [d Hd]. exists d. split; [exact Hd|lia].
  - destruct (cmp_parent _ _ C x px Hx) as [Hold|Hrep].
    + exists (S d0). split; [|lia]. eapply root_up; eauto.
    + destruct Hrep as [d Hd].
      assert (Hroot : parents nodes' !! px = Some px).
      { assert (R : rep nodes' px px).
        { apply (cmp_rep _ _ C). exists 0. apply root_here.
          eapply root_of_root; eauto. }
        destruct R as [k Hk]. eapply root_of_root; eauto. }
      destruct (root_of_fun _ _ _ _ Hup _ _ (root_here _ _ Hroot))
        as [-> ->].
      exists d. split; [exact Hd|].
      destruct d as [|d]; [|lia].
      inversion Hd; subst. congruence.
Qed.

Lemma shallow_compresses limit nodes nodes' :
  shallow limit nodes -> compresses nodes nodes' -> shallow limit nodes'.
Proof.
  intros S C x r d' H.
  destruct (compresses_depth _ _ C x r d' H) as (d & Hd & Hle).
  pose proof (S x r d Hd). lia.
Qed.

(** [findset] returns when the chains are short enough for the recursion
    limit: it answers with the representative and compresses. *)
Lemma findset_total limit nodes x :
  forest nodes -> shallow limit nodes -> x < length nodes ->
  exists nodes' r, findset limit nodes x = Some (nodes', r) /\
    rep nodes x r /\ compresses nodes nodes'.
Proof.
  intros F S Hx. destruct (F x Hx) as (r & d & Hr).
  destruct (findset_rec_spec _ _ _ _ Hr limit) as (nodes' & H & C).
  { apply (S x r d Hr). }
  exists nodes', r. split; [exact H|]. split; [now exists d | exact C].
Qed.

(** Whatever [findset] returns is the representative. *)
Lemma findset_inv limit nodes x nodes' r :
  forest nodes -> x < length nodes ->
  findset limit nodes x = Some (nodes', r) ->
  rep nodes x r /\ compresses nodes nodes'.
Proof.
  intros F Hx H. destruct (F x Hx) as (r0 & d & Hr).
  destruct (Nat.lt_ge_cases d limit) as [Hd|Hd].
  - destruct (findset_rec_spec _ _ _ _ Hr limit Hd) as (n1 & H1 & C1).
    unfold findset in H. rewrite H in H1. injection H1 as <- <-.
    split; [now exists d|exact C1].
  - unfold findset in H. rewrite (findset_rec_deep _ _ _ _ Hr limit Hd) in H.
    discriminate.
Qed.

Lemma init_length n : length (init n) = n.
Proof. unfold init. now rewrite length_map, length_seq. Qed.

Lemma init_lookup n x : x < n -> init n !! x = Some (mkNode x 0).
Proof.
  intros Hx. unfold init. rewrite list_lookup_fmap.
  rewrite lookup_seq_lt by exact Hx. reflexivity.
Qed.

Lemma init_forest n : forest (init n).
Proof.
  intros x Hx. rewrite init_length in Hx. exists x, 0. apply root_here.
  rewrite parents_lookup, init_lookup by exact Hx. reflexivity.
Qed.

(** Linking a root to itself only raises its rank. *)
Lemma link_same nodes r nr :
  nodes !! r = Some nr -> p nr = r ->
  _link nodes r r = Some (<[r := mkNode r (rank nr + 1)]> nodes).
Proof.
  intros Hr Hp. unfold _link. rewrite Hr, Nat.ltb_irrefl.
  assert (Hlt : r < length nodes) by (eapply lookup_lt_Some; eauto).
  rewrite list_lookup_insert_eq by exact Hlt. simpl.
  rewrite Nat.eqb_refl. now rewrite list_insert_insert_eq.
Qed.

(** Linking two different roots makes one the parent of the other. *)
Lemma link_diff nodes rx ry :
  parents nodes !! rx = Some rx -> parents nodes !! ry = Some ry ->
  rx <> ry ->
  exists nodes' c t, _link nodes rx ry = Some nodes' /\
    ((c = ry /\ t = rx) \/ (c = rx /\ t = ry)) /\
    parents nodes' = <[c := t]> (parents nodes) /\
    length nodes' = length nodes.
Proof.
  rewrite !parents_lookup. intros Hx Hy Hne.
  destruct (nodes !! rx) as [nx|] eqn:Ex; [|discriminate].
  destruct (nodes !! ry) as [ny|] eqn:Ey; [|discriminate].
  injection Hx as Hpx. injection Hy as Hpy.
  assert (Hxlt : rx < length nodes) by (eapply lookup_lt_Some; eauto).
  assert (Hylt : ry < length nodes) by (eapply lookup_lt_Some; eauto).
  unfold _link. rewrite Ex, Ey.
  destruct (rank ny <? rank nx).
  - exists (<[ry:=mkNode rx (rank ny)]> nodes), ry, rx.
    split; [reflexivity|]. split; [auto|].
    split; [apply parents_insert | apply length_insert].
  - rewrite list_lookup_insert_eq by exact Hxlt.
    rewrite list_lookup_insert_ne by exact Hne. rewrite Ey. simpl.
    destruct (rank nx =? rank ny).
    + eexists _, rx, ry. split; [reflexivity|]. split; [auto|]. split.
      * rewrite !parents_insert. simpl. rewrite Hpy.
        apply list_insert_id.
        rewrite list_lookup_insert_ne by exact Hne.
        rewrite parents_lookup, Ey. simpl. now f_equal.
      * now rewrite !length_insert.
    + eexists _, rx, ry. split; [reflexivity|]. split; [auto|].
      split; [apply parents_insert | apply length_insert].
Qed.

Lemma link_root_of ps c t :
  ps !! c = Some c -> ps !! t = Some t -> c <> t ->
  forall z rz dz, root_of ps z rz dz ->
  exists d', root_of (<[c := t]> ps) z (if decide (rz = c) then t else rz) d'.
Proof.
  intros Hc Ht Hne z rz dz Hz.
  assert (Hclt : c < length ps) by (eapply lookup_lt_Some; eauto).
  assert (Ht' : root_of (<[c:=t]> ps) t t 0).
  { apply root_here. now rewrite list_lookup_insert_ne. }
  induction Hz as [z Hz | z pz rz dz Hz Hzne Hup [d' IH]].
  - destruct (decide (z = c)) as [->|Hzc].
    + exists 1. eapply root_up; [|exact (not_eq_sym Hne)|exact Ht'].
      now apply list_lookup_insert_eq.
    + exists 0. apply root_here. rewrite list_lookup_insert_ne; auto.
  - assert (Hzc : c <> z) by congruence.
    exists (S d'). eapply root_up; [|exact Hzne|exact IH].
    now rewrite list_lookup_insert_ne.
Qed.

(** Once both calls of [findset] in [union(x, y)] have returned, [_link]
    returns, the forest stays a forest and the sets of [x] and [y] are
    merged under one of their representatives. *)
Lemma union_inv limit nodes x y n1 rx n2 ry :
  forest nodes -> x < length nodes -> y < length nodes ->
  findset limit nodes x = Some (n1, rx) ->
  findset limit n1 y = Some (n2, ry) ->
  exists nodes' t, union limit nodes x y = Some nodes' /\
    _link n2 rx ry = Some nodes' /\
    forest nodes' /\ length nodes' = length nodes /\
    rep nodes x rx /\ rep nodes y ry /\ (t = rx \/ t = ry) /\
    forall z rz, rep nodes z rz ->
      rep nodes' z (if decide (rz = rx \/ rz = ry) then t else rz).
Proof.
  intros F Hx Hy H1 H2.
  destruct (findset_inv _ _ _ _ _ F Hx H1) as [Rx C1].
  pose proof (forest_compresses _ _ F C1) as F1.
  assert (Hy1 : y < length n1) by now rewrite (cmp_length _ _ C1).
  destruct (findset_inv _ _ _ _ _ F1 Hy1 H2) as [Ry C2].
  pose proof (forest_compresses _ _ F1 C2) as F2.
  pose proof (compresses_trans _ _ _ C1 C2) as C12.
  apply (cmp_rep _ _ C1) in Ry.
  assert (Rx2 : rep n2 rx rx) by (apply (cmp_rep _ _ C12); eapply rep_root; eauto).
  assert (Ry2 : rep n2 ry ry) by (apply (cmp_rep _ _ C12); eapply rep_root; eauto).
  assert (Px : parents n2 !! rx = Some rx).
  { destruct Rx2 as [d H]. eapply root_of_root; eauto. }
  assert (Py : parents n2 !! ry = Some ry).
  { destruct Ry2 as [d H]. eapply root_of_root; eauto. }
  unfold union. rewrite H1, H2.
  destruct (decide (rx = ry)) as [<-|Hne].
  - rewrite parents_lookup in Px.
    destruct (n2 !! rx) as [nr|] eqn:Er; [|discriminate].
    injection Px as Pr.
    rewrite (link_same _ _ _ Er Pr).
    assert (Hpar : parents (<[rx:=mkNode rx (rank nr + 1)]> n2) = parents n2).
    { rewrite parents_insert. apply list_insert_id.
      rewrite parents_lookup, Er. simpl. now f_equal. }
    assert (Hrep : forall z rz, rep n2 z rz ->
                     rep (<[rx:=mkNode rx (rank nr + 1)]> n2) z rz).
    { intros z rz [d H]. exists d. now rewrite Hpar. }
    eexists _, rx. split; [reflexivity|]. split; [reflexivity|].
    split; [|split; [|split; [|split; [|split]]]]; auto.
    + intros z Hz. rewrite length_insert in Hz.
      destruct (F2 z Hz) as [r Hr]. exists r. auto.
    + rewrite length_insert. apply (cmp_length _ _ C12).
    + intros z rz Hz. apply Hrep. apply (cmp_rep _ _ C12).
      destruct (decide _); [|exact Hz]. destruct o; now subst.
  - destruct (link_diff n2 rx ry Px Py Hne)
      as (n3 & c & t & H3 & Hct & Hpar & L3).
    assert (Hrep : forall z rz, rep n2 z rz ->
                     rep n3 z (if decide (rz = c) then t else rz)).
    { intros z rz [d H]. unfold rep. rewrite Hpar.
      destruct Hct as [[-> ->]|[-> ->]];
        eapply link_root_of; eauto. }
    exists n3, t. split; [exact H3|]. split; [exact H3|].
    split; [|split; [|split; [|split; [|split]]]]; auto.
    + intros z Hz. rewrite L3 in Hz.
      destruct (F2 z Hz) as [r Hr]. eexists. apply Hrep, Hr.
    + rewrite L3. apply (cmp_length _ _ C12).
    + destruct Hct as [[-> ->]|[-> ->]]; auto.
    + intros z rz Hz. apply (cmp_rep _ _ C12) in Hz.
      specialize (Hrep _ _ Hz).
      destruct Hct as [[-> ->]|[-> ->]];
        repeat destruct (decide _);
        first [ assumption | intuition (subst; auto; congruence) ].
Qed.

(** [union] returns when the chains are short enough for the recursion
    limit. *)
Lemma union_spec limit nodes x y :
  forest nodes -> shallow limit nodes ->
  x < length nodes -> y < length nodes ->
  exists nodes' rx ry t, union limit nodes x y = Some nodes' /\
    forest nodes' /\ length nodes' = length nodes /\
    rep nodes x rx /\ rep nodes y ry /\ (t = rx \/ t = ry) /\
    forall z rz, rep nodes z rz ->
      rep nodes' z (if decide (rz = rx \/ rz = ry) then t else rz).
Proof.
  intros F S Hx Hy.
  destruct (findset_total limit nodes x F S Hx) as (n1 & rx & H1 & Rx & C1).
  pose proof (forest_compresses _ _ F C1) as F1.
  pose proof (shallow_compresses _ _ _ S C1) as S1.
  assert (Hy1 : y < length n1) by now rewrite (cmp_length _ _ C1).
  destruct (findset_total limit n1 y F1 S1 Hy1) as (n2 & ry & H2 & Ry & C2).
  destruct (union_inv limit nodes x y n1 rx n2 ry F Hx Hy H1 H2)
    as (nodes' & t & H & _ & R).
  exists nodes', rx, ry, t. split; [exact H|exact R].
Qed.

Lemma reachable_forest limit nodes : reachable limit nodes -> forest nodes.
Proof.
  induction 1 as [n | nodes x nodes' r _ F Hx H
                    | nodes x y nodes' _ F Hx Hy H].
  - apply init_forest.
  - eapply forest_compresses; [exact F|].
    eapply findset_inv; eauto.
  - unfold union in H.
    destruct (findset limit nodes x) as [[n1 rx]|] eqn:H1; [|discriminate].
    destruct (findset limit n1 y) as [[n2 ry]|] eqn:H2; [|discriminate].
    destruct (union_inv limit nodes x y n1 rx n2 ry F Hx Hy H1 H2)
      as (n' & t & _ & H' & F' & _).
    rewrite H in H'. injection H' as <-. exact F'.
Qed.

(** *** A chain that union calls build

    [union(r, r)] on a root [r] raises its rank, and a root of the lower
    or of the same rank goes below the other.  Raising the rank of
    [k + 1] to the rank of the root [k] and calling [union(k, k + 1)]
    therefore puts the whole tree of [k] below [k + 1], without any
    path compression: the elements [0], [1], ..., [k] come to form one
    chain.  [chain n k] is that forest over [n] elements. *)
Definition chain (n k : nat) : t :=
  map (fun i => if i <? k then mkNode (i + 1) i
                else if i =? k then mkNode k k else mkNode i 0)
      (seq 0 n).

Lemma chain_length n k : length (chain n k) = n.
Proof. unfold chain. now rewrite length_map, length_seq. Qed.

Lemma chain_lookup n k i :
  i < n ->
  chain n k !! i = Some (if i <? k then mkNode (i + 1) i
                         else if i =? k then mkNode k k else mkNode i 0).
Proof.
  intros Hi. unfold chain. rewrite list_lookup_fmap.
  rewrite lookup_seq_lt by exact Hi. reflexivity.
Qed.

Lemma chain_init n : chain n 0 = init n.
Proof.
  unfold chain, init. apply map_ext. intros i. simpl.
  destruct (Nat.eqb_spec i 0) as [->|]; reflexivity.
Qed.

Lemma findset_root limit nodes r nr :
  1 <= limit -> nodes !! r = Some nr -> p nr = r ->
  findset limit nodes r = Some (nodes, r).
Proof.
  intros Hl Hr Hp. unfold findset. destruct limit as [|limit]; [lia|].
  simpl. rewrite Hr, Hp, Nat.eqb_refl. reflexivity.
Qed.

Lemma union_self_root limit nodes r k :
  1 <= limit -> nodes !! r = Some (mkNode r k) ->
  union limit nodes r r = Some (<[r := mkNode r (k + 1)]> nodes).
Proof.
  intros Hl Hr. unfold union.
  rewrite (findset_root limit nodes r _ Hl Hr eq_refl).
  rewrite (findset_root limit nodes r _ Hl Hr eq_refl).
  apply (link_same nodes r _ Hr eq_refl).
Qed.

Lemma union_equal_roots limit nodes a b k :
  1 <= limit -> a <> b ->
  nodes !! a = Some (mkNode a k) -> nodes !! b = Some (mkNode b k) ->
  union limit nodes a b
  = Some (<[b := mkNode b (k + 1)]> (<[a := mkNode b k]> nodes)).
Proof.
  intros Hl Hne Ha Hb. unfold union.
  rewrite (findset_root limit nodes a _ Hl Ha eq_refl).
  rewrite (findset_root limit nodes b _ Hl Hb eq_refl).
  unfold _link. rewrite Ha, Hb. cbn [rank p]. rewrite Nat.ltb_irrefl.
  assert (Hal : a < length nodes) by (eapply lookup_lt_Some; eauto).
  rewrite list_lookup_insert_eq by exact Hal.
  rewrite list_lookup_insert_ne by exact Hne. rewrite Hb. cbn [rank p].
  now rewrite Nat.eqb_refl.
Qed.

Lemma raise_rank_reachable limit nodes r :
  1 <= limit -> reachable limit nodes -> nodes !! r = Some (mkNode r 0) ->
  forall j, reachable limit (<[r := mkNode r j]> nodes).
Proof.
  intros Hl R Hr.
  assert (Hrl : r < length nodes) by (eapply lookup_lt_Some; eauto).
  induction j as [|j IH].
  - now rewrite list_insert_id.
  - eapply (reach_union limit _ r r); [exact IH| | |].
    + now rewrite length_insert.
    + now rewrite length_insert.
    + rewrite (union_self_root limit _ r j Hl).
      * rewrite list_insert_insert_eq. do 3 f_equal. lia.
      * now apply list_lookup_insert_eq.
Qed.

Lemma chain_step n k :
  S k < n ->
  <[S k := mkNode (S k) (k + 1)]>
    (<[k := mkNode (S k) k]> (<[S k := mkNode (S k) k]> (chain n k)))
  = chain n (S k).
Proof.
  intros Hk. apply list_eq. intros i.
  destruct (Nat.lt_ge_cases i n) as [Hi|Hi].
  - rewrite (chain_lookup n (S k) i Hi).
    destruct (decide (i = S k)) as [->|H1].
    + rewrite list_lookup_insert_eq
        by (rewrite !length_insert, chain_length; lia).
      rewrite Nat.ltb_irrefl, Nat.eqb_refl. do 2 f_equal. lia.
    + rewrite list_lookup_insert_ne by auto.
      destruct (decide (i = k)) as [->|H2].
      * rewrite list_lookup_insert_eq
          by (rewrite !length_insert, chain_length; lia).
        destruct (Nat.ltb_spec k (S k)); [|lia]. do 2 f_equal. lia.
      * rewrite !list_lookup_insert_ne by auto.
        rewrite (chain_lookup n k i Hi).
        destruct (Nat.ltb_spec i k), (Nat.ltb_spec i (S k)); try lia;
          [reflexivity|].
        destruct (Nat.eqb_spec i k), (Nat.eqb_spec i (S k)); try lia.
        reflexivity.
  - rewrite !lookup_ge_None_2
      by (rewrite ?length_insert, chain_length; exact Hi).
    reflexivity.
Qed.

(** Calls of [union] alone build the chain, whatever the recursion limit:
    they only meet roots. *)
Lemma chain_reachable limit n k :
  1 <= limit -> k < n -> reachable limit (chain n k).
Proof.
  intros Hl. induction k as [|k IH]; intros Hk.
  - rewrite chain_init. apply reach_init.
  - assert (R : reachable limit (<[S k := mkNode (S k) k]> (chain n k))).
    { apply raise_rank_reachable; [exact Hl|apply IH; lia|].
      rewrite chain_lookup by lia.
      destruct (Nat.ltb_spec (S k) k); [lia|].
      destruct (Nat.eqb_spec (S k) k); [lia|reflexivity]. }
    eapply (reach_union limit _ k (S k)); [exact R| | |].
    + rewrite length_insert, chain_length. lia.
    + rewrite length_insert, chain_length. lia.
    + rewrite (union_equal_roots limit _ k (S k) k Hl).
      * now rewrite chain_step.
      * lia.
      * rewrite list_lookup_insert_ne by lia. rewrite chain_lookup by lia.
        rewrite Nat.ltb_irrefl, Nat.eqb_refl. reflexivity.
      * apply list_lookup_insert_eq. rewrite chain_length. lia.
Qed.

Lemma chain_root_of n k :
  k < n -> forall j i, i + j = k -> root_of (parents (chain n k)) i k j.
Proof.
  intros Hk. induction j as [|j IH]; intros i Hi.
  - assert (i = k) by lia. subst i. apply root_here.
    rewrite parents_lookup, chain_lookup by lia.
    rewrite Nat.ltb_irrefl, Nat.eqb_refl. reflexivity.
  - apply (root_up _ i (i + 1)).
    + rewrite parents_lookup, chain_lookup by lia.
      destruct (Nat.ltb_spec i k); [reflexivity|lia].
    + lia.
    + apply IH. lia.
Qed.

Lemma chain_forest n k : k < n -> forest (chain n k).
Proof.
  intros Hk. eapply (reachable_forest 1). now apply chain_reachable.
Qed.

(** [findset(0)] on the chain needs [k + 1] nested calls. *)
Lemma chain_findset limit n k :
  k < n -> limit <= k -> findset limit (chain n k) 0 = None.
Proof.
  intros Hk Hl. unfold findset.
  apply (findset_rec_deep _ 0 k k); [|exact Hl].
  apply chain_root_of; [exact Hk|lia].
Qed.

End DisjointSets.




(** C3, as the code has it.  When [findset(x)] and [findset(y)] return the
    same representative [r], [union(x, y)] returns and every element keeps
    its representative; every parent stays or becomes the element's
    representative; every rank stays, except the rank of [r], which grows
    by one. *)
Theorem union_of_same_set (limit : nat)
  (nodes nodes1 nodes2 : DisjointIntegerSets.t) (x y r : nat) :
  DisjointIntegerSets.forest nodes ->
  x < length nodes -> y < length nodes ->
  DisjointIntegerSets.findset limit nodes x = Some (nodes1, r) ->
  DisjointIntegerSets.findset limit nodes1 y = Some (nodes2, r) ->
  exists nodes',
    DisjointIntegerSets.union limit nodes x y = Some nodes' /\
    length nodes' = length nodes /\
    (forall z rz, DisjointIntegerSets.rep nodes z rz <->
                  DisjointIntegerSets.rep nodes' z rz) /\
    (forall z pz,
       DisjointIntegerSets.parents nodes' !! z = Some pz ->
       DisjointIntegerSets.parents nodes !! z = Some pz \/
       DisjointIntegerSets.rep nodes z pz) /\
    (forall z k,
       DisjointIntegerSets.ranks nodes !! z = Some k ->
       DisjointIntegerSets.ranks nodes' !! z =
       Some (if decide (z = r) then k + 1 else k)).
Proof.
  intros F Hx Hy H1 H2.
  destruct (findset_inv _ _ _ _ _ F Hx H1) as [Rx C1].
  pose proof (forest_compresses _ _ F C1) as F1.
  assert (Hy1 : y < length nodes1)
    by now rewrite (cmp_length _ _ C1).
  destruct (findset_inv _ _ _ _ _ F1 Hy1 H2) as [Ry C2].
  pose proof (compresses_trans _ _ _ C1 C2) as C12.
  assert (Rr : DisjointIntegerSets.rep nodes2 r r).
  { apply (cmp_rep _ _ C12). eapply rep_root; eauto. }
  assert (Pr : DisjointIntegerSets.parents nodes2 !! r = Some r).
  { destruct Rr as [d H]. eapply root_of_root; eauto. }
  rewrite parents_lookup in Pr.
  destruct (nodes2 !! r) as [nr|] eqn:Er; [|discriminate].
  injection Pr as Pr.
  assert (Hr : r < length nodes2) by (eapply lookup_lt_Some; eauto).
  unfold DisjointIntegerSets.union. rewrite H1, H2.
  rewrite (link_same _ _ _ Er Pr).
  set (nodes' := <[r:=DisjointIntegerSets.mkNode r
                        (DisjointIntegerSets.rank nr + 1)]> nodes2).
  assert (Hpar : DisjointIntegerSets.parents nodes' =
                 DisjointIntegerSets.parents nodes2).
  { unfold nodes'. rewrite parents_insert. apply list_insert_id.
    rewrite parents_lookup, Er. simpl. now f_equal. }
  exists nodes'. split; [reflexivity|]. split; [|split; [|split]].
  - unfold nodes'. rewrite length_insert.
    apply (cmp_length _ _ C12).
  - intros z rz. rewrite (cmp_rep _ _ C12 z rz).
    unfold DisjointIntegerSets.rep. now rewrite Hpar.
  - intros z pz. rewrite Hpar.
    apply (cmp_parent _ _ C12).
  - intros z k Hk. rewrite <- (cmp_ranks _ _ C12) in Hk.
    unfold nodes'. rewrite ranks_insert. simpl.
    assert (Hrl : r < length (DisjointIntegerSets.ranks nodes2))
      by (unfold DisjointIntegerSets.ranks; now rewrite length_map).
    destruct (decide (z = r)) as [->|Hne].
    + rewrite list_lookup_insert_eq by exact Hrl.
      unfold DisjointIntegerSets.ranks in Hk.
      rewrite list_lookup_fmap, Er in Hk. simpl in Hk.
      injection Hk as <-. reflexivity.
    + rewrite list_lookup_insert_ne by auto. exact Hk.
Qed.

Lemma union_of_same_set_witness :
  exists nodes',
    DisjointIntegerSets.union 1000
      [DisjointIntegerSets.mkNode 1 0; DisjointIntegerSets.mkNode 1 1] 0 1
      = Some nodes' /\
    DisjointIntegerSets.ranks nodes' !! 1 = Some 2.
Proof.
  destruct (union_of_same_set 1000
              [DisjointIntegerSets.mkNode 1 0; DisjointIntegerSets.mkNode 1 1]
              [DisjointIntegerSets.mkNode 1 0; DisjointIntegerSets.mkNode 1 1]
              [DisjointIntegerSets.mkNode 1 0; DisjointIntegerSets.mkNode 1 1]
              0 1 1) as (nodes' & H & _ & _ & _ & Hrank).
  - intros z Hz. exists 1.
    destruct z as [|[|z]]; [| |simpl in Hz; lia].
    + exists 1. apply (DisjointIntegerSets.root_up _ 0 1 1 0);
        [reflexivity | discriminate
        | apply DisjointIntegerSets.root_here; reflexivity].
    + exists 0. now apply DisjointIntegerSets.root_here.
  - simpl. lia.
  - simpl. lia.
  - reflexivity.
  - reflexivity.
  - exists nodes'. split; [exact H|]. apply (Hrank 1 1). reflexivity.
Defined.

(** C3 as stated fails: [union] has no test for equal representatives, and
    [_link(r, r)] takes the branch of equal ranks.  After [union(0, 1)] on
    two singletons, a second [union(0, 1)] raises the rank of the common
    root from 1 to 2, under every recursion limit that lets [findset]
    follow one link. *)
Lemma union_of_same_set_changes_rank :
  exists s s',
    (forall limit, 2 <= limit ->
       DisjointIntegerSets.union limit (DisjointIntegerSets.init 2) 0 1
       = Some s /\
       (exists s1 s2 r,
          DisjointIntegerSets.findset limit s 0 = Some (s1, r) /\
          DisjointIntegerSets.findset limit s1 1 = Some (s2, r)) /\
       DisjointIntegerSets.union limit s 0 1 = Some s') /\
    DisjointIntegerSets.ranks s = [0; 1] /\
    DisjointIntegerSets.ranks s' = [0; 2] /\
    DisjointIntegerSets.ranks s' <> DisjointIntegerSets.ranks s.
Proof.
  exists [DisjointIntegerSets.mkNode 1 0; DisjointIntegerSets.mkNode 1 1],
         [DisjointIntegerSets.mkNode 1 0; DisjointIntegerSets.mkNode 1 2].
  split.
  { intros [|[|limit]] Hl; try lia.
    split; [reflexivity|]. split; [|reflexivity].
    eexists _, _, _. split; reflexivity. }
  split; [reflexivity|]. split; [reflexivity|]. discriminate.
Qed.
(** ** Union by rank

    As long as [union] is called for elements of different sets only (as
    [mstKruskal] calls it), the ranks grow along every chain of parents
    and a root of rank [k] has at least [2^k] elements in its tree.  A
    chain then has no more than [log2 n] links. *)

Section UnionByRank.
Import DisjointIntegerSets.

Record ranked (nodes : t) : Prop := {
  rk_up : forall x nx npx,
    nodes !! x = Some nx -> p nx <> x -> nodes !! (p nx) = Some npx ->
    rank nx < rank npx;
  rk_size : forall r nr,
    nodes !! r = Some nr -> p nr = r ->
    exists l, List.NoDup l /\ (forall z, In z l -> rep nodes z r) /\
              2 ^ rank nr <= length l
}.

Lemma ranked_depth nodes x r d :
  ranked nodes -> root_of (parents nodes) x r d ->
  forall nx nr, nodes !! x = Some nx -> nodes !! r = Some nr ->
  d + rank nx <= rank nr.
Proof.
  intros R H. induction H as [x Hx | x px r d Hx Hne Hup IH];
    intros nx nr Ex Er.
  - rewrite Ex in Er. injection Er as <-. lia.
  - rewrite parents_lookup, Ex in Hx. injection Hx as Hp.
    assert (Hpl : px < length nodes).
    { rewrite <- length_parents. eapply root_of_lt; eauto. }
    destruct (lookup_lt_is_Some_2 _ _ Hpl) as [npx Epx].
    pose proof (IH npx nr Epx Er).
    assert (rank nx < rank npx).
    { apply (rk_up _ R x nx npx Ex); rewrite Hp; auto. }
    lia.
Qed.

Lemma ranked_shallow nodes :
  ranked nodes -> shallow (S (Nat.log2 (length nodes))) nodes.
Proof.
  intros R x r d H.
  assert (Hx : x < length nodes).
  { rewrite <- length_parents. eapply root_of_lt; eauto. }
  assert (Hr : r < length nodes).
  { rewrite <- length_parents. eapply lookup_lt_Some, root_of_root; eauto. }
  destruct (lookup_lt_is_Some_2 _ _ Hx) as [nx Ex].
  destruct (lookup_lt_is_Some_2 _ _ Hr) as [nr Er].
  pose proof (ranked_depth nodes x r d R H nx nr Ex Er) as Hd.
  assert (Hp : p nr = r).
  { pose proof (root_of_root _ _ _ _ H) as Hroot.
    rewrite parents_lookup, Er in Hroot. now injection Hroot. }
  destruct (rk_size _ R r nr Er Hp) as (l & Nl & Hl & Hpow).
  assert (Hincl : incl l (seq 0 (length nodes))).
  { intros z Hz. apply in_seq. apply Hl, rep_lt in Hz. lia. }
  pose proof (List.NoDup_incl_length Nl Hincl) as Hlen.
  rewrite length_seq in Hlen.
  assert (rank nr <= Nat.log2 (length nodes)).
  { apply Nat.log2_le_pow2; lia. }
  lia.
Qed.

Lemma ranked_init n : ranked (init n).
Proof.
  constructor.
  - intros x nx npx Hx Hp _.
    assert (Hxl : x < n).
    { apply lookup_lt_Some in Hx. now rewrite init_length in Hx. }
    rewrite init_lookup in Hx by exact Hxl. injection Hx as <-.
    now destruct Hp.
  - intros r nr Hr _.
    assert (Hrl : r < n).
    { apply lookup_lt_Some in Hr. now rewrite init_length in Hr. }
    rewrite init_lookup in Hr by exact Hrl. injection Hr as <-.
    exists [r]. split; [repeat constructor; intros []|]. split.
    + intros z [<-|[]]. exists 0. apply root_here.
      rewrite parents_lookup, init_lookup by exact Hrl. reflexivity.
    + simpl. lia.
Qed.

Lemma ranks_lookup nodes nodes' x nx' :
  ranks nodes' = ranks nodes -> nodes' !! x = Some nx' ->
  exists nx, nodes !! x = Some nx /\ rank nx = rank nx'.
Proof.
  intros E Hx.
  assert (H : ranks nodes !! x = Some (rank nx')).
  { rewrite <- E. unfold ranks. rewrite list_lookup_fmap, Hx. reflexivity. }
  unfold ranks in H. rewrite list_lookup_fmap in H.
  destruct (nodes !! x) as [nx|]; [|discriminate].
  exists nx. split; [reflexivity|]. simpl in H. congruence.
Qed.

(** Path compression keeps the ranks in order. *)
Lemma ranked_compresses nodes nodes' :
  ranked nodes -> compresses nodes nodes' -> ranked nodes'.
Proof.
  intros R C. constructor.
  - intros x nx' npx' Ex' Hp Epx'.
    destruct (ranks_lookup _ _ _ _ (cmp_ranks _ _ C) Ex') as (nx & Ex & <-).
    destruct (ranks_lookup _ _ _ _ (cmp_ranks _ _ C) Epx')
      as (npx & Epx & <-).
    assert (Hpar : parents nodes' !! x = Some (p nx')).
    { rewrite parents_lookup, Ex'. reflexivity. }
    destruct (cmp_parent _ _ C x (p nx') Hpar) as [Hold|[d Hd]].
    + rewrite parents_lookup, Ex in Hold. injection Hold as Hold.
      apply (rk_up _ R x nx npx Ex); rewrite Hold; auto.
    + pose proof (ranked_depth nodes x (p nx') d R Hd nx npx Ex Epx).
      destruct d as [|d]; [|lia].
      inversion Hd; subst. congruence.
  - intros r nr' Er' Hp.
    destruct (ranks_lookup _ _ _ _ (cmp_ranks _ _ C) Er') as (nr & Er & <-).
    assert (Rr : rep nodes r r).
    { apply (cmp_rep _ _ C). exists 0. apply root_here.
      rewrite parents_lookup, Er'. simpl. now f_equal. }
    assert (Hp0 : p nr = r).
    { destruct Rr as [d Hd]. pose proof (root_of_root _ _ _ _ Hd) as Hroot.
      rewrite parents_lookup, Er in Hroot. now injection Hroot. }
    destruct (rk_size _ R r nr Er Hp0) as (l & Nl & Hl & Hpow).
    exists l. split; [exact Nl|]. split; [|exact Hpow].
    intros z Hz. apply (cmp_rep _ _ C). now apply Hl.
Qed.

(** What [_link] does to two different roots: [c] goes below [t], and the
    rank of [t] grows by [inc], which is 1 when the ranks were equal. *)
Lemma link_diff_nodes nodes rx ry nx ny :
  nodes !! rx = Some nx -> nodes !! ry = Some ny ->
  p nx = rx -> p ny = ry -> rx <> ry ->
  exists c t nc nt inc,
    ((c = ry /\ t = rx) \/ (c = rx /\ t = ry)) /\
    nodes !! c = Some nc /\ nodes !! t = Some nt /\
    _link nodes rx ry
    = Some (<[t := mkNode t (rank nt + inc)]>
              (<[c := mkNode t (rank nc)]> nodes)) /\
    rank nc < rank nt + inc /\
    (inc = 0 \/ (inc = 1 /\ rank nc = rank nt)).
Proof.
  intros Ex Ey Hpx Hpy Hne.
  assert (Hxl : rx < length nodes) by (eapply lookup_lt_Some; eauto).
  assert (Hyl : ry < length nodes) by (eapply lookup_lt_Some; eauto).
  assert (Enx : mkNode rx (rank nx) = nx) by (destruct nx; simpl in *; congruence).
  assert (Eny : mkNode ry (rank ny) = ny) by (destruct ny; simpl in *; congruence).
  unfold _link. rewrite Ex, Ey.
  destruct (Nat.ltb_spec (rank ny) (rank nx)) as [Hlt|Hge].
  - exists ry, rx, ny, nx, 0. split; [auto|]. split; [exact Ey|].
    split; [exact Ex|]. split; [|split; [lia|auto]].
    f_equal. rewrite Nat.add_0_r, Enx. symmetry. apply list_insert_id.
    now rewrite list_lookup_insert_ne by auto.
  - rewrite list_lookup_insert_eq by exact Hxl.
    rewrite list_lookup_insert_ne by exact Hne. rewrite Ey. cbn [rank p].
    destruct (Nat.eqb_spec (rank nx) (rank ny)) as [Heq|Hneq].
    + exists rx, ry, nx, ny, 1. split; [auto|]. split; [exact Ex|].
      split; [exact Ey|]. split; [|split; [lia|auto]].
      now rewrite Hpy.
    + exists rx, ry, nx, ny, 0. split; [auto|]. split; [exact Ex|].
      split; [exact Ey|]. split; [|split; [lia|auto]].
      f_equal. rewrite Nat.add_0_r, Eny. symmetry. apply list_insert_id.
      now rewrite list_lookup_insert_ne by auto.
Qed.

(** Linking two different roots keeps the ranks in order. *)
Lemma ranked_link nodes rx ry nodes' :
  ranked nodes ->
  parents nodes !! rx = Some rx -> parents nodes !! ry = Some ry ->
  rx <> ry -> _link nodes rx ry = Some nodes' -> ranked nodes'.
Proof.
  intros R Px Py Hne H.
  pose proof Px as Px0. pose proof Py as Py0.
  rewrite parents_lookup in Px0, Py0.
  destruct (nodes !! rx) as [nx|] eqn:Ex; [|discriminate].
  destruct (nodes !! ry) as [ny|] eqn:Ey; [|discriminate].
  injection Px0 as Hpx. injection Py0 as Hpy.
  destruct (link_diff_nodes nodes rx ry nx ny Ex Ey Hpx Hpy Hne)
    as (c & t & nc & nt & inc & Hct & Ec & Et & H' & Hrk & Hinc).
  rewrite H in H'. injection H' as ->.
  assert (Hc : parents nodes !! c = Some c /\ parents nodes !! t = Some t /\
               c <> t).
  { destruct Hct as [[-> ->]|[-> ->]]; auto. }
  destruct Hc as (Pc & Pt & Hcne).
  assert (Hpc : p nc = c).
  { rewrite parents_lookup, Ec in Pc. now injection Pc. }
  assert (Hpt : p nt = t).
  { rewrite parents_lookup, Et in Pt. now injection Pt. }
  assert (Hcl : c < length nodes) by (eapply lookup_lt_Some; eauto).
  assert (Htl : t < length nodes) by (eapply lookup_lt_Some; eauto).
  set (nodes' := <[t := mkNode t (rank nt + inc)]>
                   (<[c := mkNode t (rank nc)]> nodes)).
  assert (Lt' : nodes' !! t = Some (mkNode t (rank nt + inc))).
  { apply list_lookup_insert_eq. now rewrite length_insert. }
  assert (Lc' : nodes' !! c = Some (mkNode t (rank nc))).
  { unfold nodes'. rewrite list_lookup_insert_ne by auto.
    now apply list_lookup_insert_eq. }
  assert (Lo' : forall z, z <> c -> z <> t -> nodes' !! z = nodes !! z).
  { intros z H1 H2. unfold nodes'.
    now rewrite !list_lookup_insert_ne by auto. }
  assert (Hpar : parents nodes' = <[c := t]> (parents nodes)).
  { unfold nodes'. rewrite !parents_insert. cbn [p].
    apply list_insert_id. rewrite list_lookup_insert_ne by auto. exact Pt. }
  assert (Hrep : forall z rz, rep nodes z rz ->
                   rep nodes' z (if decide (rz = c) then t else rz)).
  { intros z rz [d Hd]. unfold rep. rewrite Hpar.
    eapply link_root_of; eauto. }
  constructor.
  - intros x nx' npx' Ex' Hp Epx'.
    destruct (decide (x = t)) as [->|Hxt].
    { rewrite Lt' in Ex'. injection Ex' as <-. now destruct Hp. }
    destruct (decide (x = c)) as [->|Hxc].
    { rewrite Lc' in Ex'. injection Ex' as <-. cbn [p rank] in *.
      rewrite Lt' in Epx'. injection Epx' as <-. exact Hrk. }
    rewrite (Lo' x Hxc Hxt) in Ex'.
    assert (Hpl : p nx' < length nodes).
    { apply lookup_lt_Some in Epx'. unfold nodes' in Epx'.
      now rewrite !length_insert in Epx'. }
    destruct (lookup_lt_is_Some_2 _ _ Hpl) as [npx Epx].
    pose proof (rk_up _ R x nx' npx Ex' Hp Epx) as Hold.
    destruct (decide (p nx' = t)) as [Ept|Hpt'].
    { rewrite Ept, Lt' in Epx'. injection Epx' as <-. cbn [rank].
      rewrite Ept, Et in Epx. injection Epx as <-. lia. }
    destruct (decide (p nx' = c)) as [Epc|Hpc'].
    { rewrite Epc, Lc' in Epx'. injection Epx' as <-. cbn [rank].
      rewrite Epc, Ec in Epx. injection Epx as <-. lia. }
    rewrite (Lo' _ Hpc' Hpt') in Epx'. rewrite Epx in Epx'.
    injection Epx' as <-. exact Hold.
  - intros r nr' Er' Hp.
    destruct (decide (r = c)) as [->|Hrc].
    { rewrite Lc' in Er'. injection Er' as <-. cbn [p] in Hp. congruence. }
    destruct (decide (r = t)) as [->|Hrt].
    + rewrite Lt' in Er'. injection Er' as <-. cbn [rank].
      destruct (rk_size _ R t nt Et Hpt) as (lt & Nt & Ht & Pwt).
      destruct (rk_size _ R c nc Ec Hpc) as (lc & Nc & Hlc & Pwc).
      exists (lt ++ lc). split; [|split].
      * apply NoDup_ListNoDup. apply NoDup_app.
        split; [now apply NoDup_ListNoDup|].
        split; [|now apply NoDup_ListNoDup].
        intros z Hz1 Hz2. apply list_elem_of_In in Hz1, Hz2.
        apply Hcne. apply (rep_fun nodes z); auto.
      * intros z Hz. apply in_app_or in Hz as [Hz|Hz].
        -- pose proof (Hrep z t (Ht z Hz)) as Hz'.
           destruct (decide (t = c)); [congruence|exact Hz'].
        -- pose proof (Hrep z c (Hlc z Hz)) as Hz'.
           destruct (decide (c = c)); [exact Hz'|congruence].
      * rewrite length_app.
        destruct Hinc as [->|[-> Heq]].
        -- rewrite Nat.add_0_r. lia.
        -- rewrite Nat.add_1_r, Nat.pow_succ_r'. rewrite Heq in Pwc. lia.
    + rewrite (Lo' r Hrc Hrt) in Er'.
      destruct (rk_size _ R r nr' Er' Hp) as (l & Nl & Hl & Pw).
      exists l. split; [exact Nl|]. split; [|exact Pw].
      intros z Hz. pose proof (Hrep z r (Hl z Hz)) as Hz'.
      destruct (decide (r = c)); [contradiction|exact Hz'].
Qed.

(** [union(x, y)] for elements of different sets keeps the ranks in
    order. *)
Lemma ranked_union limit nodes x y nodes' :
  forest nodes -> ranked nodes ->
  x < length nodes -> y < length nodes ->
  (forall r, rep nodes x r -> ~ rep nodes y r) ->
  union limit nodes x y = Some nodes' -> ranked nodes'.
Proof.
  intros F R Hx Hy Hdiff H. unfold union in H.
  destruct (findset limit nodes x) as [[n1 rx]|] eqn:H1; [|discriminate].
  destruct (findset limit n1 y) as [[n2 ry]|] eqn:H2; [|discriminate].
  destruct (findset_inv _ _ _ _ _ F Hx H1) as [Rx C1].
  pose proof (forest_compresses _ _ F C1) as F1.
  assert (Hy1 : y < length n1) by now rewrite (cmp_length _ _ C1).
  destruct (findset_inv _ _ _ _ _ F1 Hy1 H2) as [Ry C2].
  pose proof (compresses_trans _ _ _ C1 C2) as C12.
  apply (cmp_rep _ _ C1) in Ry.
  assert (Hroot : forall z r, rep nodes z r -> parents n2 !! r = Some r).
  { intros z r Hz. apply rep_root in Hz. apply (cmp_rep _ _ C12) in Hz.
    destruct Hz as [d Hd]. eapply root_of_root; eauto. }
  apply (ranked_link n2 rx ry nodes').
  - eapply ranked_compresses; [|exact C2].
    eapply ranked_compresses; [exact R|exact C1].
  - apply (Hroot x rx Rx).
  - apply (Hroot y ry Ry).
  - intros ->. apply (Hdiff ry Rx Ry).
  - exact H.
Qed.

End UnionByRank.

(** ** The indexed priority queue *)

Lemma set_at_Some {A} (l : list A) i x l' :
  set_at l i x = Some l' <-> i < length l /\ l' = <[i := x]> l.
Proof.
  unfold set_at. destruct (Nat.ltb_spec i (length l)); split.
  - intros [= <-]. auto.
  - intros [_ ->]. reflexivity.
  - discriminate.
  - intros [? _]. lia.
Qed.

Lemma set_at_lt {A} (l : list A) i x :
  i < length l -> set_at l i x = Some (<[i := x]> l).
Proof. intros H. apply set_at_Some. auto. Qed.

Lemma parent_nonneg position :
  0 < position ->
  (0 <= PQInts._parent (Z.of_nat position))%Z /\
  Z.to_nat (PQInts._parent (Z.of_nat position)) = (position - 1) / 2.
Proof.
  intros H. unfold PQInts._parent.
  replace (Z.of_nat position - 1)%Z with (Z.of_nat (position - 1)) by lia.
  change 2%Z with (Z.of_nat 2). rewrite <- Nat2Z.inj_div.
  split; [lia | apply Nat2Z.id].
Qed.

Lemma parent_zero : (PQInts._parent (Z.of_nat 0) < 0)%Z.
Proof. reflexivity. Qed.

(** *** What every reachable state satisfies

    The index has one entry per element, no entry is below [-1], and the
    sequence holds elements of the range only.  This does not depend on the
    queue being in heap order. *)

Section Bounds.
Import PQInts.
Variable n : nat.

Definition bounded (q : t) : Prop :=
  length (_index q) = n /\
  Forall (fun i => (-1 <= i)%Z) (_index q) /\
  Forall (fun e : nat * priority => fst e < n) (_minheap q).

Lemma bounded_init : bounded (init n).
Proof.
  unfold bounded, init. simpl. split; [apply length_replicate|].
  split; [|constructor].
  apply Forall_forall. intros i Hi. apply elem_of_replicate in Hi. lia.
Qed.

Lemma Forall_set_at {A} (P : A -> Prop) l i x l' :
  Forall P l -> P x -> set_at l i x = Some l' -> Forall P l'.
Proof.
  intros Hl Hx H. apply set_at_Some in H as [_ ->].
  now apply Forall_insert.
Qed.

Lemma bounded_index_write q heap1 e position index1 :
  bounded q -> Forall (fun e : nat * priority => fst e < n) heap1 ->
  set_at (_index q) e (Z.of_nat position) = Some index1 ->
  bounded (mkPQ heap1 index1).
Proof.
  intros (L & I & H) H1 Hs. unfold bounded. simpl.
  split; [|split; [|exact H1]].
  - apply set_at_Some in Hs as [_ ->]. now rewrite length_insert.
  - eapply Forall_set_at; [exact I| |exact Hs]. lia.
Qed.

Lemma bounded_percolate_up_loop fuel : forall q current position q1 position1,
  bounded q -> fst current < n ->
  _percolate_up_loop fuel q current position = Some (q1, position1) ->
  bounded q1.
Proof.
  induction fuel as [|fuel IH]; intros q current position q1 position1 B Hc;
    simpl; [discriminate|].
  destruct (0 <=? _parent (Z.of_nat position))%Z; [|intros [= <- _]; exact B].
  destruct (_minheap q !! _) as [hp|] eqn:Ehp; [|discriminate].
  destruct (prio_ltb _ _); [|intros [= <- _]; exact B].
  destruct (set_at (_minheap q) position hp) as [heap1|] eqn:E1; [|discriminate].
  destruct (heap1 !! position) as [e|]; [|discriminate].
  destruct (set_at (_index q) _ _) as [index1|] eqn:E2; [|discriminate].
  apply IH; [|exact Hc].
  eapply bounded_index_write; [exact B| |exact E2].
  eapply Forall_set_at; [apply B| |exact E1].
  destruct B as (_ & _ & H). rewrite Forall_forall in H. apply H.
  eapply list_elem_of_lookup_2; eauto.
Qed.

Lemma bounded_finish q current position1 heap2 e index2 :
  bounded q -> fst current < n ->
  set_at (_minheap q) position1 current = Some heap2 ->
  set_at (_index q) e (Z.of_nat position1) = Some index2 ->
  bounded (mkPQ heap2 index2).
Proof.
  intros B Hc E1 E2.
  eapply bounded_index_write; [exact B| |exact E2].
  eapply Forall_set_at; [apply B|exact Hc|exact E1].
Qed.

Lemma bounded_lookup q k e :
  bounded q -> _minheap q !! k = Some e -> fst e < n.
Proof.
  intros (_ & _ & H) Hk. rewrite Forall_forall in H. apply H.
  eapply list_elem_of_lookup_2; eauto.
Qed.

Lemma bounded_percolate_up q position q' :
  bounded q -> _percolate_up q position = Some q' -> bounded q'.
Proof.
  intros B. unfold _percolate_up.
  destruct (_minheap q !! position) as [current|] eqn:Ec; [|discriminate].
  destruct (_percolate_up_loop _ _ _ _) as [[q1 position1]|] eqn:El;
    [|discriminate].
  pose proof (bounded_lookup _ _ _ B Ec) as Hc.
  pose proof (bounded_percolate_up_loop _ _ _ _ _ _ B Hc El) as B1.
  destruct (set_at (_minheap q1) _ _) as [heap2|] eqn:E1; [|discriminate].
  destruct (heap2 !! position1) as [e|]; [|discriminate].
  destruct (set_at (_index q1) _ _) as [index2|] eqn:E2; [|discriminate].
  intros [= <-]. eapply bounded_finish; eauto.
Qed.

Lemma bounded_percolate_down_loop b fuel :
  forall q current position q1 position1,
  bounded q -> fst current < n ->
  _percolate_down_loop b fuel q current position = Some (q1, position1) ->
  bounded q1.
Proof.
  induction fuel as [|fuel IH]; intros q current position q1 position1 B Hc;
    simpl; [discriminate|].
  destruct (_left position <? _); [|intros [= <- _]; exact B].
  destruct (min_child _ _) as [m|]; [|discriminate].
  destruct (_minheap q !! m) as [c|] eqn:Ecm; [|discriminate].
  destruct (prio_ltb _ _); [|intros [= <- _]; exact B].
  destruct (set_at (_minheap q) position c) as [heap1|] eqn:E1; [|discriminate].
  assert (H1 : Forall (fun e : nat * priority => fst e < n) heap1).
  { eapply Forall_set_at; [apply B| |exact E1].
    eapply bounded_lookup; eauto. }
  destruct b.
  - destruct (heap1 !! position) as [e|]; [|discriminate].
    destruct (set_at (_index q) _ _) as [index1|] eqn:E2; [|discriminate].
    apply IH; [|exact Hc].
    eapply bounded_index_write; [exact B|exact H1|exact E2].
  - apply IH; [|exact Hc]. destruct B as (L & I & _).
    unfold bounded. simpl. auto.
Qed.

Lemma bounded_percolate_down q position q' :
  bounded q -> _percolate_down q position = Some q' -> bounded q'.
Proof.
  intros B. unfold _percolate_down.
  destruct (_minheap q !! position) as [current|] eqn:Ec; [|discriminate].
  destruct (_percolate_down_loop _ _ _ _ _) as [[q1 position1]|] eqn:El;
    [|discriminate].
  pose proof (bounded_lookup _ _ _ B Ec) as Hc.
  pose proof (bounded_percolate_down_loop _ _ _ _ _ _ _ B Hc El) as B1.
  destruct (set_at (_minheap q1) _ _) as [heap2|] eqn:E1; [|discriminate].
  destruct (heap2 !! position1) as [e|]; [|discriminate].
  destruct (set_at (_index q1) _ _) as [index2|] eqn:E2; [|discriminate].
  intros [= <-]. eapply bounded_finish; eauto.
Qed.

Lemma bounded_percolate_down_no_index q position q' :
  bounded q -> _percolate_down_no_index q position = Some q' -> bounded q'.
Proof.
  intros B. unfold _percolate_down_no_index.
  destruct (_minheap q !! position) as [current|] eqn:Ec; [|discriminate].
  destruct (_percolate_down_loop _ _ _ _ _) as [[q1 position1]|] eqn:El;
    [|discriminate].
  pose proof (bounded_lookup _ _ _ B Ec) as Hc.
  pose proof (bounded_percolate_down_loop _ _ _ _ _ _ _ B Hc El)
    as (L1 & I1 & H1).
  destruct (set_at (_minheap q1) _ _) as [heap2|] eqn:E1; [|discriminate].
  intros [= <-]. unfold bounded. simpl. split; [exact L1|].
  split; [exact I1|]. eapply Forall_set_at; eauto.
Qed.

Lemma bounded_foldM {B} (f : t -> B -> option t) l :
  (forall q b q', bounded q -> f q b = Some q' -> bounded q') ->
  forall q q', bounded q -> foldM f q l = Some q' -> bounded q'.
Proof.
  intros Hf. induction l as [|b l IH]; intros q q' Bq; simpl.
  - intros [= <-]. exact Bq.
  - destruct (f q b) as [q1|] eqn:E; [|discriminate].
    apply IH. eapply Hf; eauto.
Qed.

Lemma bounded_heapify q q' : bounded q -> _heapify q = Some q' -> bounded q'.
Proof.
  intros B. unfold _heapify.
  destruct (foldM _percolate_down_no_index _ _) as [q1|] eqn:E1;
    [|discriminate].
  assert (B1 : bounded q1).
  { eapply bounded_foldM; [|exact B|exact E1].
    intros. eapply bounded_percolate_down_no_index; eauto. }
  destruct (foldM _ (_index q1) _) as [index2|] eqn:E2; [|discriminate].
  intros [= <-]. destruct B1 as (L1 & I1 & H1).
  unfold bounded. simpl. split; [|split; [|exact H1]].
  - clear I1. revert L1 E2. generalize (_index q1) as index1.
    induction (enumerate (_minheap q1)) as [|ie l IH]; intros index1 L1; simpl.
    + intros [= <-]. exact L1.
    + destruct (set_at index1 _ _) as [index'|] eqn:E; [|discriminate].
      apply IH. apply set_at_Some in E as [_ ->]. now rewrite length_insert.
  - clear L1. revert I1 E2. generalize (_index q1) as index1.
    induction (enumerate (_minheap q1)) as [|ie l IH]; intros index1 I1; simpl.
    + intros [= <-]. exact I1.
    + destruct (set_at index1 _ _) as [index'|] eqn:E; [|discriminate].
      apply IH. eapply Forall_set_at; [exact I1| |exact E]. lia.
Qed.

Lemma bounded_insert q element value q' b :
  bounded q -> element < n ->
  insert q element value = Some (q', b) -> bounded q'.
Proof.
  intros B He. unfold insert.
  destruct (_index q !! element) as [i|]; [|discriminate].
  destruct (0 <=? i)%Z; [intros [= <- _]; exact B|].
  destruct (_percolate_up _ _) as [q1|] eqn:E; [|discriminate].
  intros [= <- _]. eapply bounded_percolate_up; [|exact E].
  destruct B as (L & I & H). unfold bounded. simpl.
  split; [exact L|]. split; [exact I|].
  apply Forall_app. split; [exact H|]. now repeat constructor.
Qed.

Lemma bounded_insertAll q pairs q' :
  bounded q -> Forall (fun pr => fst pr < n) pairs ->
  insertAll q pairs = Some q' -> bounded q'.
Proof.
  intros B Hp. unfold insertAll.
  destruct (length (_minheap q) <=? length pairs).
  - destruct (foldM _ q pairs) as [q1|] eqn:E; [|discriminate].
    apply bounded_heapify.
    clear q'. revert q q1 B E.
    induction Hp as [|pr pairs Hpr _ IH]; intros q q1 B; simpl.
    + intros [= <-]. exact B.
    + destruct (_index q !! fst pr) as [i|]; [|discriminate].
      destruct (i <? 0)%Z; [|now apply IH].
      apply IH. destruct B as (L & I & H). unfold bounded. simpl.
      split; [exact L|]. split; [exact I|].
      apply Forall_app. split; [exact H|]. now repeat constructor.
  - unfold insert_each. revert q B.
    induction Hp as [|pr pairs Hpr _ IH]; intros q B; simpl.
    + intros [= <-]. exact B.
    + destruct (insert q (fst pr) (snd pr)) as [[q1 b]|] eqn:E; [|discriminate].
      apply IH. eapply bounded_insert; eauto.
Qed.

Lemma Forall_removelast {A} (P : A -> Prop) l :
  Forall P l -> Forall P (removelast l).
Proof.
  induction 1 as [|x l Hx Hl IH]; simpl; [constructor|].
  destruct l; [constructor|]. constructor; auto.
Qed.

Lemma bounded_extractMin q q' e :
  bounded q -> extractMin q = Some (q', e) -> bounded q'.
Proof.
  intros B. unfold extractMin.
  destruct (_minheap q !! 0) as [first|] eqn:E0; [|discriminate].
  destruct (last (_minheap q)) as [oldLast|] eqn:El; [|discriminate].
  set (heap1 := removelast (_minheap q)).
  assert (H1 : Forall (fun e : nat * priority => fst e < n) heap1).
  { apply Forall_removelast, B. }
  assert (Hl : fst oldLast < n).
  { destruct B as (_ & _ & H). rewrite Forall_forall in H. apply H.
    apply last_Some_elem_of. exact El. }
  match goal with |- context [if ?c then ?a else ?b] =>
    assert (B2 : forall q2, (if c then a else b) = Some q2 -> bounded q2) end.
  { intros q2. destruct (0 <? length heap1).
    - destruct (set_at heap1 0 oldLast) as [heap2|] eqn:E2; [|discriminate].
      apply bounded_percolate_down. destruct B as (L & I & _).
      unfold bounded. simpl. split; [exact L|]. split; [exact I|].
      eapply Forall_set_at; eauto.
    - intros [= <-]. destruct B as (L & I & _). unfold bounded. simpl. auto. }
  destruct (if 0 <? length heap1 then _ else _) as [q2|]; [|discriminate].
  specialize (B2 q2 eq_refl).
  destruct (set_at (_index q2) _ _) as [index3|] eqn:E3; [|discriminate].
  intros [= <- _]. destruct B2 as (L2 & I2 & H2). unfold bounded. simpl.
  split; [|split; [|exact H2]].
  - apply set_at_Some in E3 as [_ ->]. now rewrite length_insert.
  - eapply Forall_set_at; [exact I2| |exact E3]. lia.
Qed.

Lemma bounded_changePriority q element value q' b :
  bounded q -> element < n ->
  changePriority q element value = Some (q', b) -> bounded q'.
Proof.
  intros B He. unfold changePriority.
  destruct (contains q element) as [c|]; [|discriminate].
  destruct (negb c); [intros [= <- _]; exact B|].
  destruct (_index q !! element) as [i|]; [|discriminate].
  destruct (_minheap q !! Z.to_nat i) as [e|]; [|discriminate].
  assert (Hset : forall heap1,
            set_at (_minheap q) (Z.to_nat i) (element, value) = Some heap1 ->
            bounded (mkPQ heap1 (_index q))).
  { intros heap1 E1. destruct B as (L & I & H). unfold bounded. simpl.
    split; [exact L|]. split; [exact I|].
    eapply Forall_set_at; [exact H| |exact E1]. exact He. }
  destruct (prio_ltb value (snd e)).
  - destruct (set_at _ _ _) as [heap1|] eqn:E1; [|discriminate].
    destruct (_percolate_up _ _) as [q1|] eqn:E2; [|discriminate].
    intros [= <- _]. eapply bounded_percolate_up; [|exact E2]. auto.
  - destruct (prio_ltb (snd e) value); [|intros [= <- _]; exact B].
    destruct (set_at _ _ _) as [heap1|] eqn:E1; [|discriminate].
    destruct (_percolate_down _ _) as [q1|] eqn:E2; [|discriminate].
    intros [= <- _]. eapply bounded_percolate_down; [|exact E2]. auto.
Qed.

Lemma reachable_bounded q : reachable n q -> bounded q.
Proof.
  induction 1 as [|q o q' _ B Ho Hrun].
  - apply bounded_init.
  - destruct o as [element value|pairs| |element value]; simpl in Ho, Hrun.
    + destruct (insert q element value) as [[q1 b]|] eqn:E; [|discriminate].
      injection Hrun as <-. eapply bounded_insert; eauto.
    + eapply bounded_insertAll; eauto.
    + destruct (extractMin q) as [[q1 e]|] eqn:E; [|discriminate].
      injection Hrun as <-. eapply bounded_extractMin; eauto.
    + destruct (changePriority q element value) as [[q1 b]|] eqn:E;
        [|discriminate].
      injection Hrun as <-. eapply bounded_changePriority; eauto.
Qed.

End Bounds.

(** C10.  In every reachable state, for an element [e] of the range that the
    queue does not contain, the index entry is [-1]; [getPriority(e)] then
    answers with the priority of the last entry of the sequence, and it
    raises exactly when the sequence is empty. *)
Theorem getPriority_of_absent_element (n : nat) (q : PQInts.t) (e : nat) :
  PQInts.reachable n q -> e < n ->
  PQInts.contains q e = Some false ->
  PQInts._index q !! e = Some (-1)%Z /\
  PQInts.getPriority q e = option_map snd (last (PQInts._minheap q)) /\
  (PQInts.getPriority q e = None <-> PQInts._minheap q = []).
Proof.
  intros R He Hc. apply reachable_bounded in R as (L & I & _).
  unfold PQInts.contains in Hc. unfold PQInts.getPriority.
  destruct (PQInts._index q !! e) as [i|] eqn:Ei; [|discriminate].
  injection Hc as Hc. apply Z.leb_gt in Hc.
  assert (Hi : (-1 <= i)%Z).
  { rewrite Forall_forall in I. apply I. eapply list_elem_of_lookup_2; eauto. }
  assert (i = (-1)%Z) as -> by lia.
  split; [reflexivity|].
  unfold py_get. simpl.
  destruct (PQInts._minheap q) as [|x heap] eqn:Eh using rev_ind.
  - simpl. split; [reflexivity|]. split; reflexivity.
  - clear IHheap. rewrite last_snoc, length_app. simpl.
    destruct (Z.leb_spec (- Z.of_nat (length heap + 1)) (-1)) as [_|Hlt];
      [|lia].
    replace (Z.to_nat (Z.of_nat (length heap + 1) + -1)) with (length heap)
      by lia.
    rewrite lookup_app_r by lia. rewrite Nat.sub_diag. simpl.
    split; [reflexivity|]. split; [discriminate|].
    intros H. now apply app_eq_nil in H as [_ H].
Qed.

Lemma getPriority_of_absent_element_witness :
  PQInts._index (PQInts.mkPQ [(0, Fin 5); (2, Fin 7)] [0; -1; 1]%Z) !! 1
    = Some (-1)%Z /\
  PQInts.getPriority (PQInts.mkPQ [(0, Fin 5); (2, Fin 7)] [0; -1; 1]%Z) 1
    = Some (Fin 7) /\
  (PQInts.getPriority (PQInts.mkPQ [(0, Fin 5); (2, Fin 7)] [0; -1; 1]%Z) 1
     = None <-> [(0, Fin 5); (2, Fin 7)] = []).
Proof.
  apply (getPriority_of_absent_element 3
           (PQInts.mkPQ [(0, Fin 5); (2, Fin 7)] [0; -1; 1]%Z) 1).
  - apply (PQInts.reach_step 3
             (PQInts.mkPQ [(0, Fin 5)] [0; -1; -1]%Z)
             (PQInts.Insert 2 (Fin 7))).
    + apply (PQInts.reach_step 3 (PQInts.init 3) (PQInts.Insert 0 (Fin 5))).
      * apply PQInts.reach_init.
      * simpl. lia.
      * reflexivity.
    + simpl. lia.
    + reflexivity.
  - lia.
  - reflexivity.
Defined.

(** *** The bulk path of [insertAll] on a repeated element *)

(** C4 fails on a list that names an element twice.  On the empty queue
    [insertAll([(0,3),(0,5)])] takes the bulk path, whose loop tests the
    index without updating it and appends both pairs; [insert] on each pair
    in turn adds the first only.  The two queues differ in size and in the
    priority they report for element [0]. *)
Theorem insertAll_adds_repeated_element :
  exists q_bulk q_each,
    PQInts.insertAll (PQInts.init 1) [(0, Fin 3); (0, Fin 5)] = Some q_bulk /\
    PQInts.insert_each (PQInts.init 1) [(0, Fin 3); (0, Fin 5)]
      = Some q_each /\
    PQInts._minheap q_bulk = [(0, Fin 3); (0, Fin 5)] /\
    PQInts._minheap q_each = [(0, Fin 3)] /\
    PQInts.getPriority q_bulk 0 = Some (Fin 5) /\
    PQInts.getPriority q_each 0 = Some (Fin 3) /\
    PQInts.heap_ordered (PQInts._minheap q_bulk).
Proof.
  eexists _, _. repeat (split; [reflexivity|]).
  intros i c ei ec Hc Hi Hcc. simpl in *.
  destruct i as [|[|i]]; simpl in Hi; [|destruct Hc; subst; discriminate..].
  injection Hi as <-.
  destruct Hc as [-> | ->]; simpl in Hcc; [|discriminate].
  injection Hcc as <-. reflexivity.
Qed.

(** C5 fails after the same call: the next [extractMin] moves the second
    entry of element [0] to the root and then marks the element absent, so
    the sequence holds element [0] while its index entry is [-1]. *)
Theorem index_inconsistent_after_insertAll :
  let q1 := PQInts.mkPQ [(0, Fin 3); (0, Fin 5)] [1%Z] in
  let q2 := PQInts.mkPQ [(0, Fin 5)] [(-1)%Z] in
  PQInts.run (PQInts.init 1) (PQInts.InsertAll [(0, Fin 3); (0, Fin 5)])
    = Some q1 /\
  PQInts.run q1 PQInts.ExtractMin = Some q2 /\
  PQInts.reachable 1 q2 /\
  ~ PQInts.index_consistent q2.
Proof.
  intros q1 q2.
  assert (H1 : PQInts.run (PQInts.init 1)
                 (PQInts.InsertAll [(0, Fin 3); (0, Fin 5)]) = Some q1)
    by reflexivity.
  assert (H2 : PQInts.run q1 PQInts.ExtractMin = Some q2) by reflexivity.
  split; [exact H1|]. split; [exact H2|]. split.
  { apply (PQInts.reach_step 1 q1 PQInts.ExtractMin q2); [|exact I|exact H2].
    apply (PQInts.reach_step 1 (PQInts.init 1)
             (PQInts.InsertAll [(0, Fin 3); (0, Fin 5)]) q1);
      [apply PQInts.reach_init| |exact H1].
    simpl. repeat constructor. }
  intros H. destruct (H 0) as (i & Hi & Hiff & _); [simpl; lia|].
  injection Hi as <-.
  assert (0 <= -1)%Z; [|lia].
  apply Hiff. exists (Fin 5). now left.
Qed.

(** C6 fails in states reached through the same call.  After
    [insertAll([(0,1),(0,9),(1,5)])] on [PQInts(2)] the queue reports
    priority 9 for element [0] and 5 for element [1], and [extractMin]
    returns element [0].  Element [0] stays in the sequence: the next
    [extractMin], which returns element [1], makes [contains(0)] true
    again. *)
Theorem extractMin_after_insertAll :
  let q := PQInts.mkPQ [(0, Fin 1); (0, Fin 9); (1, Fin 5)] [1; 2]%Z in
  let q1 := PQInts.mkPQ [(1, Fin 5); (0, Fin 9)] [-1; 0]%Z in
  let q2 := PQInts.mkPQ [(0, Fin 9)] [0; -1]%Z in
  PQInts.run (PQInts.init 2)
    (PQInts.InsertAll [(0, Fin 1); (0, Fin 9); (1, Fin 5)]) = Some q /\
  PQInts.reachable 2 q /\
  PQInts.contains q 0 = Some true /\
  PQInts.contains q 1 = Some true /\
  PQInts.getPriority q 0 = Some (Fin 9) /\
  PQInts.getPriority q 1 = Some (Fin 5) /\
  PQInts.extractMin q = Some (q1, 0) /\
  PQInts.contains q1 0 = Some false /\
  PQInts.extractMin q1 = Some (q2, 1) /\
  PQInts.contains q2 0 = Some true.
Proof.
  intros q q1 q2.
  assert (H : PQInts.run (PQInts.init 2)
                (PQInts.InsertAll [(0, Fin 1); (0, Fin 9); (1, Fin 5)])
              = Some q) by reflexivity.
  split; [exact H|]. split.
  { apply (PQInts.reach_step 2 (PQInts.init 2)
             (PQInts.InsertAll [(0, Fin 1); (0, Fin 9); (1, Fin 5)]) q);
      [apply PQInts.reach_init| |exact H].
    simpl. repeat constructor. }
  repeat (split; [reflexivity|]). reflexivity.
Qed.

(** *** Heap order and the position index on well-formed queues *)

Definition prio_le (a b : priority) : Prop := prio_ltb b a = false.

Lemma prio_le_refl a : prio_le a a.
Proof. unfold prio_le. destruct a; simpl; [apply Z.ltb_irrefl|reflexivity]. Qed.

Lemma prio_le_trans a b c : prio_le a b -> prio_le b c -> prio_le a c.
Proof.
  unfold prio_le. destruct a, b, c; simpl; try congruence;
    rewrite ?Z.ltb_ge; lia.
Qed.

Lemma prio_ltb_le a b : prio_ltb a b = true -> prio_le a b.
Proof.
  unfold prio_le. destruct a, b; simpl; try congruence.
  rewrite Z.ltb_lt, Z.ltb_ge. lia.
Qed.

Lemma prio_nlt_le a b : prio_ltb a b = false -> prio_le b a.
Proof. auto. Qed.

Lemma prio_le_total a b : prio_le a b \/ prio_le b a.
Proof.
  unfold prio_le. destruct a, b; simpl; auto. rewrite !Z.ltb_ge. lia.
Qed.

Lemma prio_le_antisym a b : prio_le a b -> prio_le b a -> a = b.
Proof.
  unfold prio_le. destruct a, b; simpl; try congruence.
  rewrite !Z.ltb_ge. intros. f_equal. lia.
Qed.

Lemma half_spec k : 2 * (k / 2) = k \/ 2 * (k / 2) + 1 = k.
Proof.
  pose proof (Nat.div_mod_eq k 2). pose proof (Nat.mod_upper_bound k 2). lia.
Qed.

(** [c] is a child position of [i]. *)
Definition child (c i : nat) : Prop := c = PQInts._left i \/ c = PQInts._right i.

Lemma child_parent c : 0 < c -> child c ((c - 1) / 2).
Proof.
  intros H. unfold child, PQInts._left, PQInts._right.
  pose proof (half_spec (c - 1)). lia.
Qed.

Lemma child_inv c i : child c i -> i < c /\ (c - 1) / 2 = i.
Proof.
  unfold child, PQInts._left, PQInts._right. intros H.
  pose proof (half_spec (c - 1)). lia.
Qed.

Lemma child_fun c i j : child c i -> child c j -> i = j.
Proof.
  intros Hi Hj. apply child_inv in Hi as [_ <-]. now apply child_inv in Hj as [_ <-].
Qed.

Section Hole.
Import PQInts.
Variable n : nat.
Abbreviation entry := (nat * priority)%type.
Abbreviation le_entry := (fun a b : entry => prio_le (snd a) (snd b)).

(** A queue whose index may be out of date for the elements in [stale]. *)
Record wf_except (stale : nat -> Prop) (q : t) : Prop := {
  wf_len : length (_index q) = n;
  wf_order : heap_ordered (_minheap q);
  wf_pos : forall k e,
    _minheap q !! k = Some e -> _index q !! fst e = Some (Z.of_nat k);
  wf_neg : forall x i,
    _index q !! x = Some i -> ~ stale x ->
    i = (-1)%Z \/
    exists k v, i = Z.of_nat k /\ _minheap q !! k = Some (x, v)
}.

(** The sequence is in heap order and the index is consistent with it. *)
Definition wf (q : t) : Prop := wf_except (fun _ => False) q.

(** The state inside a percolation: the entry [cur] is held aside and the
    position [pos] of the sequence is a hole, whose content does not
    count. *)
Record hole_ok (stale : nat -> Prop) (h : list entry) (idx : list Z)
  (pos : nat) (cur : entry) : Prop := {
  ho_pos : pos < length h;
  ho_len : length idx = n;
  ho_cur : fst cur < n;
  ho_idx : forall k e,
    k <> pos -> h !! k = Some e ->
    idx !! fst e = Some (Z.of_nat k) /\ fst e <> fst cur;
  ho_neg : forall x i,
    idx !! x = Some i -> x <> fst cur -> ~ stale x ->
    i = (-1)%Z \/
    exists k v, k <> pos /\ i = Z.of_nat k /\ h !! k = Some (x, v);
  ho_ord1 : forall i c ei ec,
    child c i -> i <> pos -> c <> pos ->
    h !! i = Some ei -> h !! c = Some ec -> le_entry ei ec;
  ho_ord2 : forall g c eg ec,
    child pos g -> child c pos ->
    h !! g = Some eg -> h !! c = Some ec -> le_entry eg ec
}.

(** [cur] is not below the parent of the hole. *)
Definition above_ok (h : list entry) (pos : nat) (cur : entry) : Prop :=
  forall g eg, child pos g -> h !! g = Some eg -> le_entry eg cur.

(** [cur] is not above the children of the hole. *)
Definition below_ok (h : list entry) (pos : nat) (cur : entry) : Prop :=
  forall c ec, child c pos -> h !! c = Some ec -> le_entry cur ec.

(** Filling the hole with [cur]. *)
Lemma fill_hole stale h idx pos cur :
  hole_ok stale h idx pos cur -> above_ok h pos cur -> below_ok h pos cur ->
  wf_except stale (mkPQ (<[pos := cur]> h)
                        (<[fst cur := Z.of_nat pos]> idx)).
Proof.
  intros [Hpos Hlen Hcur Hidx Hneg Ho1 Ho2] Ha Hb.
  assert (Hcl : fst cur < length idx) by lia.
  constructor; simpl.
  - now rewrite length_insert.
  - intros i c ei ec Hc Hi Hcc. fold (child c i) in Hc.
    destruct (decide (i = pos)) as [->|Hip].
    + rewrite list_lookup_insert_eq in Hi by exact Hpos. injection Hi as <-.
      assert (c <> pos) by (apply child_inv in Hc; lia).
      rewrite list_lookup_insert_ne in Hcc by auto.
      apply (Hb c ec Hc Hcc).
    + rewrite list_lookup_insert_ne in Hi by auto.
      destruct (decide (c = pos)) as [->|Hcp].
      * rewrite list_lookup_insert_eq in Hcc by exact Hpos.
        injection Hcc as <-. apply (Ha i ei Hc Hi).
      * rewrite list_lookup_insert_ne in Hcc by auto.
        apply (Ho1 i c ei ec Hc Hip Hcp Hi Hcc).
  - intros k e Hk. destruct (decide (k = pos)) as [->|Hkp].
    + rewrite list_lookup_insert_eq in Hk by exact Hpos. injection Hk as <-.
      now rewrite list_lookup_insert_eq.
    + rewrite list_lookup_insert_ne in Hk by auto.
      destruct (Hidx k e Hkp Hk) as [H1 H2].
      rewrite list_lookup_insert_ne by auto. exact H1.
  - intros x i Hx Hst. destruct (decide (x = fst cur)) as [->|Hxc].
    + rewrite list_lookup_insert_eq in Hx by exact Hcl. injection Hx as <-.
      right. exists pos, (snd cur). split; [reflexivity|].
      rewrite list_lookup_insert_eq by exact Hpos. now destruct cur.
    + rewrite list_lookup_insert_ne in Hx by auto.
      destruct (Hneg x i Hx Hxc Hst) as [?|(k & v & Hkp & -> & Hk)];
        [now left|right].
      exists k, v. split; [reflexivity|].
      now rewrite list_lookup_insert_ne by auto.
Qed.

(** Moving the entry at [k2] into the hole at [pos]; the hole moves to
    [k2].  This is the index part, common to both directions. *)
Lemma hole_move_index stale h idx pos cur k2 e2 :
  hole_ok stale h idx pos cur -> k2 <> pos -> h !! k2 = Some e2 ->
  let h1 := <[pos := e2]> h in
  let idx1 := <[fst e2 := Z.of_nat pos]> idx in
  k2 < length h1 /\ length idx1 = n /\ fst e2 < length idx /\
  (forall k e, k <> k2 -> h1 !! k = Some e ->
     idx1 !! fst e = Some (Z.of_nat k) /\ fst e <> fst cur) /\
  (forall x i, idx1 !! x = Some i -> x <> fst cur -> ~ stale x ->
     i = (-1)%Z \/
     exists k v, k <> k2 /\ i = Z.of_nat k /\ h1 !! k = Some (x, v)) /\
  Permutation (<[k2 := cur]> h1) (<[pos := cur]> h).
Proof.
  intros [Hpos Hlen Hcur Hidx Hneg Ho1 Ho2] Hk2 He2 h1 idx1.
  destruct (Hidx k2 e2 Hk2 He2) as [Hi2 Hc2].
  assert (Hl2 : fst e2 < length idx) by (eapply lookup_lt_Some; eauto).
  assert (Hk2l : k2 < length h) by (eapply lookup_lt_Some; eauto).
  split; [unfold h1; now rewrite length_insert|].
  split; [unfold idx1; now rewrite length_insert|].
  split; [exact Hl2|]. split; [|split].
  - intros k e Hk Hke. unfold h1 in Hke. unfold idx1.
    destruct (decide (k = pos)) as [->|Hkp].
    + rewrite list_lookup_insert_eq in Hke by exact Hpos.
      injection Hke as <-. split; [|exact Hc2].
      now rewrite list_lookup_insert_eq.
    + rewrite list_lookup_insert_ne in Hke by auto.
      destruct (Hidx k e Hkp Hke) as [H1 H2]. split; [|exact H2].
      rewrite list_lookup_insert_ne; [exact H1|].
      intros Heq. rewrite Heq in Hi2. rewrite Hi2 in H1.
      injection H1 as H1. apply Nat2Z.inj in H1. auto.
  - intros x i Hx Hxc Hst. unfold idx1 in Hx. unfold h1.
    destruct (decide (x = fst e2)) as [->|Hxe].
    + rewrite list_lookup_insert_eq in Hx by exact Hl2. injection Hx as <-.
      right. exists pos, (snd e2). split; [auto|]. split; [reflexivity|].
      rewrite list_lookup_insert_eq by exact Hpos. now destruct e2.
    + rewrite list_lookup_insert_ne in Hx by auto.
      destruct (Hneg x i Hx Hxc Hst) as [?|(k & v & Hkp & -> & Hk)];
        [now left|right].
      exists k, v. split; [|split; [reflexivity|]].
      * intros ->. rewrite He2 in Hk. injection Hk as ->. now apply Hxe.
      * now rewrite list_lookup_insert_ne by auto.
  - unfold h1.
    rewrite <- (list_insert_insert_eq h pos e2 cur).
    apply Permutation_insert_swap.
    + now apply list_lookup_insert_eq.
    + rewrite list_lookup_insert_ne by auto. exact He2.
Qed.

Lemma up_loop_ok stale cur fuel : forall h idx pos,
  hole_ok stale h idx pos cur -> below_ok h pos cur -> pos < fuel ->
  exists h1 idx1 pos1,
    _percolate_up_loop fuel (mkPQ h idx) cur pos
      = Some (mkPQ h1 idx1, pos1) /\
    hole_ok stale h1 idx1 pos1 cur /\
    below_ok h1 pos1 cur /\ above_ok h1 pos1 cur /\
    Permutation (<[pos1 := cur]> h1) (<[pos := cur]> h).
Proof.
  induction fuel as [|fuel IH]; intros h idx pos HO HB Hf; [lia|].
  simpl. destruct (Nat.eq_dec pos 0) as [->|Hpos0].
  - change (0 <=? _parent (Z.of_nat 0))%Z with false.
    exists h, idx, 0. split; [reflexivity|]. split; [exact HO|].
    split; [exact HB|]. split; [|reflexivity].
    intros g eg Hg. apply child_inv in Hg. lia.
  - destruct (parent_nonneg pos) as [Hp0 Hpp]; [lia|].
    set (pp := (pos - 1) / 2) in *.
    assert (Hchild : child pos pp) by (apply child_parent; lia).
    assert (Hpplt : pp < pos) by (apply child_inv in Hchild; lia).
    apply Z.leb_le in Hp0. rewrite Hp0, Hpp.
    pose proof (ho_pos _ _ _ _ _ HO) as Hposl.
    destruct (lookup_lt_is_Some_2 h pp) as [hp Hhp]; [lia|].
    rewrite Hhp.
    destruct (prio_ltb (snd cur) (snd hp)) eqn:Hlt.
    + pose proof (hole_move_index stale h idx pos cur pp hp HO
                    ltac:(lia) Hhp) as HM.
      cbv zeta in HM. destruct HM as (L1 & L2 & L3 & I1 & N1 & P1).
      rewrite (set_at_lt h pos hp Hposl).
      rewrite list_lookup_insert_eq by exact Hposl.
      rewrite (set_at_lt idx (fst hp) (Z.of_nat pos) L3).
      destruct (IH (<[pos:=hp]> h) (<[fst hp:=Z.of_nat pos]> idx) pp)
        as (h1 & idx1 & pos1 & H1 & HO1 & HB1 & HA1 & HP1).
      * constructor.
        -- exact L1.
        -- exact L2.
        -- apply (ho_cur _ _ _ _ _ HO).
        -- exact I1.
        -- exact N1.
        -- intros i c ei ec Hc Hi Hcn Hei Hec.
           assert (c <> pos).
           { intros ->. apply Hi. eapply child_fun; eauto. }
           rewrite list_lookup_insert_ne in Hec by auto.
           destruct (decide (i = pos)) as [->|Hip].
           ++ rewrite list_lookup_insert_eq in Hei by exact Hposl.
              injection Hei as <-.
              apply (ho_ord2 _ _ _ _ _ HO pp c hp ec Hchild Hc Hhp Hec).
           ++ rewrite list_lookup_insert_ne in Hei by auto.
              apply (ho_ord1 _ _ _ _ _ HO i c ei ec); auto.
        -- intros g c eg ec Hg Hc Heg Hec.
           assert (g <> pos) by (apply child_inv in Hg; lia).
           rewrite list_lookup_insert_ne in Heg by auto.
           assert (Hgp : le_entry eg hp).
           { apply (ho_ord1 _ _ _ _ _ HO g pp eg hp); auto; lia. }
           destruct (decide (c = pos)) as [->|Hcp].
           ++ rewrite list_lookup_insert_eq in Hec by exact Hposl.
              now injection Hec as <-.
           ++ rewrite list_lookup_insert_ne in Hec by auto.
              eapply prio_le_trans; [exact Hgp|].
              apply (ho_ord1 _ _ _ _ _ HO pp c hp ec); auto; lia.
      * intros c ec Hc Hec.
        destruct (decide (c = pos)) as [->|Hcp].
        -- rewrite list_lookup_insert_eq in Hec by exact Hposl.
           injection Hec as <-. now apply prio_ltb_le.
        -- rewrite list_lookup_insert_ne in Hec by auto.
           eapply prio_le_trans; [apply prio_ltb_le; exact Hlt|].
           apply (ho_ord1 _ _ _ _ _ HO pp c hp ec); auto; lia.
      * lia.
      * exists h1, idx1, pos1. split; [exact H1|]. split; [exact HO1|].
        split; [exact HB1|]. split; [exact HA1|].
        now rewrite HP1.
    + exists h, idx, pos. split; [reflexivity|]. split; [exact HO|].
      split; [exact HB|]. split; [|reflexivity].
      intros g eg Hg Heg.
      assert (g = pp) by (eapply child_fun; eauto). subst g.
      rewrite Hhp in Heg. injection Heg as <-. exact Hlt.
Qed.

(** The child chosen by [min_child] exists and is a least child. *)
Lemma min_child_spec (h : list entry) pos :
  _left pos < length h ->
  exists m em, min_child h (_left pos) = Some m /\ child m pos /\
    h !! m = Some em /\
    forall c ec, child c pos -> h !! c = Some ec -> le_entry em ec.
Proof.
  intros Hl. unfold min_child.
  destruct (lookup_lt_is_Some_2 h (_left pos) Hl) as [el Hel].
  assert (Hcl : child (_left pos) pos) by (left; reflexivity).
  destruct (Nat.ltb_spec (_left pos + 1) (length h)) as [Hr|Hr].
  - destruct (lookup_lt_is_Some_2 h (_left pos + 1) Hr) as [er Her].
    assert (Hcr : child (_left pos + 1) pos).
    { right. unfold _left, _right. lia. }
    rewrite Her, Hel.
    destruct (prio_ltb (snd er) (snd el)) eqn:Hlt.
    + exists (_left pos + 1), er. split; [reflexivity|]. split; [exact Hcr|].
      split; [exact Her|]. intros c ec [->| ->] Hec.
      * rewrite Hel in Hec. injection Hec as <-. now apply prio_ltb_le.
      * replace (_right pos) with (_left pos + 1) in Hec
          by (unfold _left, _right; lia).
        rewrite Her in Hec. injection Hec as <-. apply prio_le_refl.
    + exists (_left pos), el. split; [reflexivity|]. split; [exact Hcl|].
      split; [exact Hel|]. intros c ec [->| ->] Hec.
      * rewrite Hel in Hec. injection Hec as <-. apply prio_le_refl.
      * replace (_right pos) with (_left pos + 1) in Hec
          by (unfold _left, _right; lia).
        rewrite Her in Hec. injection Hec as <-. exact Hlt.
  - exists (_left pos), el. split; [reflexivity|]. split; [exact Hcl|].
    split; [exact Hel|]. intros c ec [->| ->] Hec.
    + rewrite Hel in Hec. injection Hec as <-. apply prio_le_refl.
    + apply lookup_lt_Some in Hec. unfold _left, _right in *. lia.
Qed.

Lemma down_loop_ok stale cur fuel : forall h idx pos,
  hole_ok stale h idx pos cur -> above_ok h pos cur ->
  length h <= pos + fuel ->
  exists h1 idx1 pos1,
    _percolate_down_loop true fuel (mkPQ h idx) cur pos
      = Some (mkPQ h1 idx1, pos1) /\
    hole_ok stale h1 idx1 pos1 cur /\
    below_ok h1 pos1 cur /\ above_ok h1 pos1 cur /\
    Permutation (<[pos1 := cur]> h1) (<[pos := cur]> h).
Proof.
  induction fuel as [|fuel IH]; intros h idx pos HO HA Hf.
  { pose proof (ho_pos _ _ _ _ _ HO). lia. }
  pose proof (ho_pos _ _ _ _ _ HO) as Hposl.
  simpl. destruct (Nat.ltb_spec (_left pos) (length h)) as [Hl|Hl].
  - destruct (min_child_spec h pos Hl) as (m & em & -> & Hm & Hem & Hmin).
    rewrite Hem.
    assert (Hmpos : pos < m) by (apply child_inv in Hm; lia).
    destruct (prio_ltb (snd em) (snd cur)) eqn:Hlt.
    + pose proof (hole_move_index stale h idx pos cur m em HO
                    ltac:(lia) Hem) as HM.
      cbv zeta in HM. destruct HM as (L1 & L2 & L3 & I1 & N1 & P1).
      rewrite (set_at_lt h pos em Hposl).
      rewrite list_lookup_insert_eq by exact Hposl.
      rewrite (set_at_lt idx (fst em) (Z.of_nat pos) L3).
      destruct (IH (<[pos:=em]> h) (<[fst em:=Z.of_nat pos]> idx) m)
        as (h1 & idx1 & pos1 & H1 & HO1 & HB1 & HA1 & HP1).
      * constructor.
        -- exact L1.
        -- exact L2.
        -- apply (ho_cur _ _ _ _ _ HO).
        -- exact I1.
        -- exact N1.
        -- intros i c ei ec Hc Hi Hcn Hei Hec.
           destruct (decide (c = pos)) as [->|Hcp].
           ++ rewrite list_lookup_insert_eq in Hec by exact Hposl.
              injection Hec as <-.
              assert (i <> pos) by (apply child_inv in Hc; lia).
              rewrite list_lookup_insert_ne in Hei by auto.
              apply (ho_ord2 _ _ _ _ _ HO i m ei em Hc Hm Hei Hem).
           ++ rewrite list_lookup_insert_ne in Hec by auto.
              destruct (decide (i = pos)) as [->|Hip].
              ** rewrite list_lookup_insert_eq in Hei by exact Hposl.
                 injection Hei as <-. apply (Hmin c ec Hc Hec).
              ** rewrite list_lookup_insert_ne in Hei by auto.
                 apply (ho_ord1 _ _ _ _ _ HO i c ei ec); auto.
        -- intros g c eg ec Hg Hc Heg Hec.
           assert (g = pos) by (eapply child_fun; eauto). subst g.
           rewrite list_lookup_insert_eq in Heg by exact Hposl.
           injection Heg as <-.
           assert (c <> pos) by (apply child_inv in Hc; lia).
           rewrite list_lookup_insert_ne in Hec by auto.
           apply (ho_ord1 _ _ _ _ _ HO m c em ec); auto; lia.
      * intros g eg Hg Heg.
        assert (g = pos) by (eapply child_fun; eauto). subst g.
        rewrite list_lookup_insert_eq in Heg by exact Hposl.
        injection Heg as <-. now apply prio_ltb_le.
      * rewrite length_insert. lia.
      * exists h1, idx1, pos1. split; [exact H1|]. split; [exact HO1|].
        split; [exact HB1|]. split; [exact HA1|].
        now rewrite HP1.
    + exists h, idx, pos. split; [reflexivity|]. split; [exact HO|].
      split; [|split; [exact HA|reflexivity]].
      intros c ec Hc Hec. eapply prio_le_trans; [|apply (Hmin c ec Hc Hec)].
      exact Hlt.
  - exists h, idx, pos. split; [reflexivity|]. split; [exact HO|].
    split; [|split; [exact HA|reflexivity]].
    intros c ec Hc Hec. apply lookup_lt_Some in Hec.
    destruct Hc as [->| ->]; unfold _left, _right in *; lia.
Qed.

Lemma percolate_up_ok stale h idx pos cur :
  hole_ok stale h idx pos cur -> h !! pos = Some cur -> below_ok h pos cur ->
  exists q', _percolate_up (mkPQ h idx) pos = Some q' /\
    wf_except stale q' /\ Permutation (_minheap q') h.
Proof.
  intros HO Hcur HB. unfold _percolate_up. cbn [_minheap _index].
  rewrite Hcur.
  destruct (up_loop_ok stale cur (S pos) h idx pos HO HB)
    as (h1 & idx1 & pos1 & -> & HO1 & HB1 & HA1 & HP1); [lia|].
  cbn [_minheap _index]. pose proof (ho_pos _ _ _ _ _ HO1) as Hp1.
  rewrite (set_at_lt h1 pos1 cur Hp1).
  rewrite list_lookup_insert_eq by exact Hp1.
  rewrite set_at_lt
    by (rewrite (ho_len _ _ _ _ _ HO1); apply (ho_cur _ _ _ _ _ HO1)).
  eexists. split; [reflexivity|]. split.
  - now apply fill_hole.
  - simpl. rewrite HP1. now rewrite list_insert_id.
Qed.

Lemma percolate_down_ok stale h idx pos cur :
  hole_ok stale h idx pos cur -> h !! pos = Some cur -> above_ok h pos cur ->
  exists q', _percolate_down (mkPQ h idx) pos = Some q' /\
    wf_except stale q' /\ Permutation (_minheap q') h.
Proof.
  intros HO Hcur HA. unfold _percolate_down. cbn [_minheap _index].
  rewrite Hcur.
  destruct (down_loop_ok stale cur (length h) h idx pos HO HA)
    as (h1 & idx1 & pos1 & -> & HO1 & HB1 & HA1 & HP1); [lia|].
  cbn [_minheap _index]. pose proof (ho_pos _ _ _ _ _ HO1) as Hp1.
  rewrite (set_at_lt h1 pos1 cur Hp1).
  rewrite list_lookup_insert_eq by exact Hp1.
  rewrite set_at_lt
    by (rewrite (ho_len _ _ _ _ _ HO1); apply (ho_cur _ _ _ _ _ HO1)).
  eexists. split; [reflexivity|]. split.
  - now apply fill_hole.
  - simpl. rewrite HP1. now rewrite list_insert_id.
Qed.

(** *** The queue as a finite map from elements to priorities *)

(** [binds q x v]: the queue holds element [x] with priority [v]. *)
Definition binds (q : t) (x : nat) (v : priority) : Prop :=
  In (x, v) (_minheap q).

Lemma wf_init : wf (init n).
Proof.
  constructor; simpl.
  - apply length_replicate.
  - intros i c ei ec _ Hi. discriminate Hi.
  - intros k e Hk. discriminate Hk.
  - intros x i Hx _. apply lookup_replicate in Hx as [-> _]. now left.
Qed.

Lemma wf_lt q k e : wf q -> _minheap q !! k = Some e -> fst e < n.
Proof.
  intros W Hk. rewrite <- (wf_len _ _ W).
  eapply lookup_lt_Some. eapply wf_pos; eauto.
Qed.

Lemma binds_lookup q x v :
  binds q x v <-> exists k, _minheap q !! k = Some (x, v).
Proof.
  unfold binds. rewrite <- list_elem_of_In. apply list_elem_of_lookup.
Qed.

Lemma binds_index q x v :
  wf q -> binds q x v ->
  exists k, _index q !! x = Some (Z.of_nat k) /\
            _minheap q !! k = Some (x, v).
Proof.
  intros W Hb. apply binds_lookup in Hb as [k Hk]. exists k.
  split; [|exact Hk]. apply (wf_pos _ _ W k (x, v) Hk).
Qed.

Lemma binds_fun q x v v' : wf q -> binds q x v -> binds q x v' -> v = v'.
Proof.
  intros W H1 H2.
  destruct (binds_index q x v W H1) as (k & Hi & Hk).
  destruct (binds_index q x v' W H2) as (k' & Hi' & Hk').
  rewrite Hi in Hi'. injection Hi' as Hi'. apply Nat2Z.inj in Hi'. subst k'.
  congruence.
Qed.

Lemma unbound_index q x :
  wf q -> x < n -> (forall v, ~ binds q x v) -> _index q !! x = Some (-1)%Z.
Proof.
  intros W Hx Hnb.
  destruct (lookup_lt_is_Some_2 (_index q) x) as [i Hi];
    [now rewrite (wf_len _ _ W)|].
  destruct (wf_neg _ _ W x i Hi) as [->|(k & v & -> & Hk)]; [tauto|auto|].
  exfalso. apply (Hnb v). apply binds_lookup. eauto.
Qed.

Lemma contains_bound q x v : wf q -> binds q x v -> contains q x = Some true.
Proof.
  intros W Hb. destruct (binds_index q x v W Hb) as (k & Hi & _).
  unfold contains. rewrite Hi. f_equal. apply Z.leb_le. lia.
Qed.

Lemma contains_unbound q x :
  wf q -> x < n -> (forall v, ~ binds q x v) -> contains q x = Some false.
Proof.
  intros W Hx Hnb. unfold contains.
  now rewrite (unbound_index q x W Hx Hnb).
Qed.

Lemma bound_or_unbound q x :
  wf q -> x < n -> (exists v, binds q x v) \/ (forall v, ~ binds q x v).
Proof.
  intros W Hx.
  destruct (lookup_lt_is_Some_2 (_index q) x) as [i Hi];
    [now rewrite (wf_len _ _ W)|].
  destruct (wf_neg _ _ W x i Hi) as [->|(k & v & -> & Hk)]; [tauto| |].
  - right. intros v Hb. destruct (binds_index q x v W Hb) as (k & Hi' & _).
    rewrite Hi in Hi'. injection Hi' as Hi'. lia.
  - left. exists v. apply binds_lookup. eauto.
Qed.

Lemma getPriority_bound q x v :
  wf q -> binds q x v -> getPriority q x = Some v.
Proof.
  intros W Hb. destruct (binds_index q x v W Hb) as (k & Hi & Hk).
  unfold getPriority, py_get. rewrite Hi.
  destruct (Z.leb_spec 0 (Z.of_nat k)) as [_|]; [|lia].
  rewrite Nat2Z.id, Hk. reflexivity.
Qed.

Lemma isEmpty_spec q : isEmpty q = true <-> _minheap q = [].
Proof.
  unfold isEmpty. rewrite Nat.eqb_eq. split.
  - apply nil_length_inv.
  - intros ->. reflexivity.
Qed.

Lemma wf_NoDup q : wf q -> NoDup (map fst (_minheap q)).
Proof.
  intros W. apply NoDup_alt. intros i j x Hi Hj.
  rewrite list_lookup_fmap in Hi, Hj.
  destruct (_minheap q !! i) as [ei|] eqn:Ei; [|discriminate].
  destruct (_minheap q !! j) as [ej|] eqn:Ej; [|discriminate].
  simpl in Hi, Hj. injection Hi as Hi. injection Hj as Hj.
  pose proof (wf_pos _ _ W i ei Ei) as Pi.
  pose proof (wf_pos _ _ W j ej Ej) as Pj.
  rewrite Hi in Pi. rewrite Hj in Pj. rewrite Pi in Pj.
  injection Pj as Pj. now apply Nat2Z.inj in Pj.
Qed.

(** The root holds a least priority. *)
Lemma root_least h e0 :
  heap_ordered h -> h !! 0 = Some e0 ->
  forall k e, h !! k = Some e -> le_entry e0 e.
Proof.
  intros Ho H0 k. induction k as [k IH] using lt_wf_ind. intros e Hk.
  destruct (Nat.eq_dec k 0) as [->|Hk0].
  - rewrite H0 in Hk. injection Hk as <-. apply prio_le_refl.
  - assert (Hc : child k ((k - 1) / 2)) by (apply child_parent; lia).
    pose proof (child_inv _ _ Hc) as [Hlt _].
    destruct (lookup_lt_is_Some_2 h ((k - 1) / 2)) as [ep Hep].
    { apply lookup_lt_Some in Hk. lia. }
    eapply prio_le_trans; [apply (IH _ Hlt ep Hep)|].
    apply (Ho _ _ _ _ Hc Hep Hk).
Qed.

(** [insert] of an element the queue does not hold. *)
Lemma insert_ok q x v :
  wf q -> x < n -> (forall v', ~ binds q x v') ->
  exists q', insert q x v = Some (q', true) /\ wf q' /\
    forall y w, binds q' y w <-> (y = x /\ w = v) \/ binds q y w.
Proof.
  intros W Hx Hnb. unfold insert.
  rewrite (unbound_index q x W Hx Hnb).
  change (0 <=? -1)%Z with false. cbv iota.
  set (h := _minheap q). set (idx := _index q).
  destruct (percolate_up_ok (fun _ => False) (h ++ [(x, v)]) idx (length h)
              (x, v)) as (q' & -> & W' & P').
  - constructor.
    + rewrite length_app. simpl. lia.
    + apply (wf_len _ _ W).
    + exact Hx.
    + intros k e Hk Hke.
      assert (Hkl : k < length h).
      { apply lookup_lt_Some in Hke. rewrite length_app in Hke.
        simpl in Hke. lia. }
      rewrite lookup_app_l in Hke by exact Hkl.
      pose proof (wf_pos _ _ W k e Hke) as Hi. split; [exact Hi|].
      simpl. intros Heq. rewrite Heq in Hi.
      fold idx in Hi. unfold idx in Hi.
      rewrite (unbound_index q x W Hx Hnb) in Hi. injection Hi as Hi. lia.
    + intros y i Hy Hyx _.
      destruct (wf_neg _ _ W y i Hy) as [->|(k & w & -> & Hk)]; [tauto|auto|].
      right. exists k, w.
      assert (Hkl : k < length h) by (eapply lookup_lt_Some; eauto).
      split; [lia|]. split; [reflexivity|].
      now rewrite lookup_app_l.
    + intros i c ei ec Hc Hi Hcl Hei Hec.
      assert (c < length h).
      { apply lookup_lt_Some in Hec. rewrite length_app in Hec.
        simpl in Hec. lia. }
      assert (i < length h) by (apply child_inv in Hc; lia).
      rewrite lookup_app_l in Hei, Hec by assumption.
      apply (wf_order _ _ W i c ei ec Hc Hei Hec).
    + intros g c eg ec _ Hc _ Hec. apply lookup_lt_Some in Hec.
      rewrite length_app in Hec. simpl in Hec. apply child_inv in Hc. lia.
  - rewrite lookup_app_r by lia. now rewrite Nat.sub_diag.
  - intros c ec Hc Hec. apply lookup_lt_Some in Hec.
    rewrite length_app in Hec. simpl in Hec. apply child_inv in Hc. lia.
  - exists q'. split; [reflexivity|]. split; [exact W'|].
    intros y w. unfold binds. rewrite P', in_app_iff. simpl.
    fold h. split.
    + intros [H|[[= <- <-]|[]]]; auto.
    + intros [[-> ->]|H]; auto.
Qed.

Lemma insert_present q x v0 v :
  wf q -> binds q x v0 -> insert q x v = Some (q, false).
Proof.
  intros W Hb. destruct (binds_index q x v0 W Hb) as (k & Hi & _).
  unfold insert. rewrite Hi.
  destruct (Z.leb_spec 0 (Z.of_nat k)); [reflexivity|lia].
Qed.

Lemma removelast_lookup {A} (l : list A) k :
  k < length l - 1 -> removelast l !! k = l !! k.
Proof.
  intros Hk. rewrite removelast_firstn_len.
  apply lookup_take_lt. lia.
Qed.

Lemma length_removelast {A} (l : list A) :
  length (removelast l) = length l - 1.
Proof.
  rewrite removelast_firstn_len, length_take. lia.
Qed.

(** [extractMin] on a queue that is not empty. *)
Lemma extractMin_ok q :
  wf q -> _minheap q <> [] ->
  exists q' x v, extractMin q = Some (q', x) /\ wf q' /\
    binds q x v /\
    (forall y w, binds q y w -> prio_le v w) /\
    (forall y w, binds q' y w <-> y <> x /\ binds q y w) /\
    size q = S (size q').
Proof.
  intros W Hne. unfold extractMin.
  set (h := _minheap q) in *. set (idx := _index q).
  destruct h as [|first rest] eqn:Eh; [congruence|].
  cbn [lookup list_lookup].
  change ((first :: rest) !! 0) with (Some first).
  destruct (last (first :: rest)) as [oldLast|] eqn:El;
    [|apply last_None in El; discriminate].
  rewrite <- Eh in *. cbv zeta.
  assert (H0 : h !! 0 = Some first) by (rewrite Eh; reflexivity).
  assert (Hlen : 0 < length h) by (rewrite Eh; simpl; lia).
  assert (Hlast : h !! (length h - 1) = Some oldLast).
  { rewrite <- El. rewrite last_lookup. f_equal. lia. }
  assert (Hsplit : h = removelast h ++ [oldLast]).
  { apply last_Some in El as [l' El]. rewrite El.
    now rewrite removelast_last. }
  pose proof (wf_NoDup q W) as ND. fold h in ND.
  assert (Hleast : forall y w, binds q y w -> prio_le (snd first) w).
  { intros y w Hb. apply binds_lookup in Hb as [k Hk].
    apply (root_least h first (wf_order _ _ W) H0 k (y, w) Hk). }
  assert (Hfirst : binds q (fst first) (snd first)).
  { apply binds_lookup. exists 0. fold h. rewrite H0. now destruct first. }
  assert (Hfin : forall q2,
    wf_except (fun y => y = fst first) q2 ->
    Permutation h (first :: _minheap q2) ->
    exists q' x v,
      (let* index3 := set_at (_index q2) (fst first) (-1)%Z in
       Some (mkPQ (_minheap q2) index3, fst first)) = Some (q', x) /\
      wf q' /\ binds q x v /\
      (forall y w, binds q y w -> prio_le v w) /\
      (forall y w, binds q' y w <-> y <> x /\ binds q y w) /\
      size q = S (size q')).
  { intros q2 W2 P2.
    assert (Hfl : fst first < length (_index q2)).
    { rewrite (wf_len _ _ W2). eapply wf_lt; eauto. }
    rewrite (set_at_lt _ _ _ Hfl).
    assert (ND2 : NoDup (fst first :: map fst (_minheap q2))).
    { change (NoDup (map fst (first :: _minheap q2))).
      now rewrite <- P2. }
    apply NoDup_cons in ND2 as [Hnotin ND2].
    eexists _, (fst first), (snd first). split; [reflexivity|].
    split; [|split; [exact Hfirst|split; [exact Hleast|split]]].
    - constructor; simpl.
      + rewrite length_insert. apply (wf_len _ _ W2).
      + apply (wf_order _ _ W2).
      + intros k e Hk. rewrite list_lookup_insert_ne.
        * apply (wf_pos _ _ W2 k e Hk).
        * intros Heq. apply Hnotin. rewrite Heq.
          apply list_elem_of_fmap. exists e. split; [reflexivity|].
          eapply list_elem_of_lookup_2; eauto.
      + intros y i Hy _. destruct (decide (y = fst first)) as [->|Hyf].
        * rewrite list_lookup_insert_eq in Hy by exact Hfl.
          injection Hy as <-. now left.
        * rewrite list_lookup_insert_ne in Hy by auto.
          apply (wf_neg _ _ W2 y i Hy Hyf).
    - intros y w. unfold binds. simpl. fold h. rewrite P2. simpl. split.
      + intros Hin. split; [|now right].
        intros ->. apply Hnotin. apply list_elem_of_fmap.
        exists (fst first, w). split; [reflexivity|].
        now apply list_elem_of_In.
      + intros [Hyx [Heq|Hin]]; [|exact Hin].
        subst first. simpl in Hyx. congruence.
    - unfold size. simpl. fold h. now rewrite P2. }
  destruct (Nat.ltb_spec 0 (length (removelast h))) as [Hr|Hr].
  - rewrite set_at_lt by exact Hr.
    rewrite length_removelast in Hr.
    assert (Hfl : first <> oldLast).
    { intros Heq.
      pose proof (proj1 (NoDup_alt _) ND 0 (length h - 1) (fst first)) as Hinj.
      rewrite !list_lookup_fmap, H0, Hlast, <- Heq in Hinj.
      specialize (Hinj eq_refl eq_refl). lia. }
    destruct (percolate_down_ok (fun y => y = fst first)
                (<[0:=oldLast]> (removelast h)) idx 0 oldLast)
      as (q2 & -> & W2 & P2).
    + constructor.
      * rewrite length_insert, length_removelast. lia.
      * apply (wf_len _ _ W).
      * eapply wf_lt; eauto.
      * intros k e Hk Hke. rewrite list_lookup_insert_ne in Hke by auto.
        assert (Hkl : k < length h - 1).
        { apply lookup_lt_Some in Hke. now rewrite length_removelast in Hke. }
        rewrite removelast_lookup in Hke by exact Hkl.
        pose proof (wf_pos _ _ W k e Hke) as Hi. split; [exact Hi|].
        intros Heq. rewrite Heq in Hi.
        rewrite (wf_pos _ _ W _ _ Hlast) in Hi. injection Hi as Hi. lia.
      * intros y i Hy Hyl Hyf.
        destruct (wf_neg _ _ W y i Hy) as [->|(k & w & -> & Hk)];
          [tauto|auto|].
        right. exists k, w. fold h in Hk.
        assert (k <> 0).
        { intros ->. rewrite H0 in Hk. injection Hk as Hk.
          apply Hyf. now rewrite Hk. }
        assert (k <> length h - 1).
        { intros ->. rewrite Hlast in Hk. injection Hk as Hk.
          apply Hyl. now rewrite Hk. }
        assert (Hkl : k < length h - 1).
        { apply lookup_lt_Some in Hk. lia. }
        split; [assumption|]. split; [reflexivity|].
        rewrite list_lookup_insert_ne by auto.
        now rewrite removelast_lookup.
      * intros i c ei ec Hc Hi Hc0 Hei Hec.
        rewrite list_lookup_insert_ne in Hei, Hec by auto.
        assert (Hcl : c < length h - 1).
        { apply lookup_lt_Some in Hec. now rewrite length_removelast in Hec. }
        assert (Hil : i < length h - 1) by (apply child_inv in Hc; lia).
        rewrite removelast_lookup in Hei, Hec by assumption.
        apply (wf_order _ _ W i c ei ec Hc Hei Hec).
      * intros g c eg ec Hg. apply child_inv in Hg. lia.
    + apply list_lookup_insert_eq. rewrite length_removelast. lia.
    + intros g eg Hg. apply child_inv in Hg. lia.
    + apply Hfin; [exact W2|].
      rewrite P2. rewrite Hsplit at 1.
      destruct (removelast h) as [|f' r'] eqn:Er.
      * simpl in Hr. rewrite Hsplit in Hlen.
        rewrite Hsplit in Hr. simpl in Hr. lia.
      * simpl. rewrite Hsplit in H0. simpl in H0. injection H0 as ->.
        apply perm_skip. symmetry. apply Permutation_cons_append.
  - rewrite length_removelast in Hr.
    assert (Hh : h = [first]).
    { rewrite Eh in *. destruct rest; [reflexivity|simpl in Hr; lia]. }
    apply Hfin.
    + destruct W as [WL WO WP WN]. fold h idx in WL, WO, WP, WN.
      rewrite Hh. constructor; simpl.
      * exact WL.
      * intros i c ei ec _ Hi. discriminate Hi.
      * intros k e Hk. discriminate Hk.
      * intros y i Hy Hyf.
        destruct (WN y i Hy) as [->|(k & w & -> & Hk)]; [tauto|auto|].
        rewrite Hh in Hk. destruct k; [|discriminate].
        injection Hk as Hk. exfalso. apply Hyf. now rewrite Hk.
    + rewrite Hh. reflexivity.
Qed.

Lemma in_insert_iff {A} (l : list A) k a b :
  k < length l ->
  In a (<[k := b]> l) <-> a = b \/ exists k', k' <> k /\ l !! k' = Some a.
Proof.
  intros Hk. rewrite <- list_elem_of_In, list_elem_of_lookup. split.
  - intros [k' H]. destruct (decide (k' = k)) as [->|Hne].
    + rewrite list_lookup_insert_eq in H by exact Hk.
      injection H as <-. now left.
    + rewrite list_lookup_insert_ne in H by auto. right. eauto.
  - intros [->|(k' & Hne & H)].
    + exists k. now apply list_lookup_insert_eq.
    + exists k'. now rewrite list_lookup_insert_ne by auto.
Qed.

(** The hole left by overwriting the entry of [x] at position [k]. *)
Lemma overwrite_hole q x v0 v k :
  wf q -> _minheap q !! k = Some (x, v0) ->
  hole_ok (fun _ => False) (<[k := (x, v)]> (_minheap q)) (_index q) k (x, v) /\
  (forall y w, In (y, w) (<[k := (x, v)]> (_minheap q)) <->
               (y = x /\ w = v) \/ (y <> x /\ binds q y w)).
Proof.
  intros W Hk.
  assert (Hkl : k < length (_minheap q)) by (eapply lookup_lt_Some; eauto).
  pose proof (wf_pos _ _ W k _ Hk) as Hix. simpl in Hix.
  assert (Hother : forall k' y w, _minheap q !! k' = Some (y, w) ->
            (k' <> k <-> y <> x)).
  { intros k' y w Hk'. pose proof (wf_pos _ _ W k' _ Hk') as Hiy.
    simpl in Hiy. split.
    - intros Hne ->. rewrite Hix in Hiy. injection Hiy as Hiy. lia.
    - intros Hne ->. rewrite Hk in Hk'. congruence. }
  split.
  - constructor.
    + now rewrite length_insert.
    + apply (wf_len _ _ W).
    + apply (wf_lt q k (x, v0) W Hk).
    + intros k' e Hne Hk'. rewrite list_lookup_insert_ne in Hk' by auto.
      split; [apply (wf_pos _ _ W k' e Hk')|]. simpl.
      destruct e as [y w]. now apply (Hother k' y w Hk').
    + intros y i Hy Hyx _. simpl in Hyx.
      destruct (wf_neg _ _ W y i Hy) as [->|(k' & w & -> & Hk')];
        [tauto|auto|].
      right. exists k', w.
      assert (k' <> k) by now apply (Hother k' y w Hk').
      split; [assumption|]. split; [reflexivity|].
      now rewrite list_lookup_insert_ne by auto.
    + intros i c ei ec Hc Hi Hcc Hei Hec.
      rewrite list_lookup_insert_ne in Hei, Hec by auto.
      apply (wf_order _ _ W i c ei ec Hc Hei Hec).
    + intros g c eg ec Hg Hc Heg Hec.
      assert (g <> k) by (apply child_inv in Hg; lia).
      assert (c <> k) by (apply child_inv in Hc; lia).
      rewrite list_lookup_insert_ne in Heg, Hec by auto.
      eapply prio_le_trans.
      * apply (wf_order _ _ W g k eg _ Hg Heg Hk).
      * apply (wf_order _ _ W k c _ ec Hc Hk Hec).
  - intros y w. rewrite in_insert_iff by exact Hkl. split.
    + intros [[= -> ->]|(k' & Hne & Hk')]; [now left|right].
      split; [now apply (Hother k' y w Hk')|].
      apply binds_lookup. eauto.
    + intros [[-> ->]|[Hne Hb]]; [now left|right].
      apply binds_lookup in Hb as [k' Hk']. exists k'.
      split; [now apply (Hother k' y w Hk')|exact Hk'].
Qed.

(** [changePriority] of an element the queue holds. *)
Lemma changePriority_ok q x v0 v :
  wf q -> binds q x v0 ->
  exists q', changePriority q x v = Some (q', true) /\ wf q' /\
    (forall y w, binds q' y w <-> (y = x /\ w = v) \/ (y <> x /\ binds q y w)) /\
    size q' = size q.
Proof.
  intros W Hb. destruct (binds_index q x v0 W Hb) as (k & Hi & Hk).
  assert (Hkl : k < length (_minheap q)) by (eapply lookup_lt_Some; eauto).
  destruct (overwrite_hole q x v0 v k W Hk) as [HO Hin].
  unfold changePriority. rewrite (contains_bound q x v0 W Hb). simpl negb.
  cbv iota. rewrite Hi, Nat2Z.id, Hk. cbn [snd].
  destruct (prio_ltb v v0) eqn:Hlt.
  - rewrite set_at_lt by exact Hkl.
    destruct (percolate_up_ok (fun _ => False) _ _ k (x, v) HO)
      as (q' & -> & W' & P').
    + now apply list_lookup_insert_eq.
    + intros c ec Hc Hec.
      assert (c <> k) by (apply child_inv in Hc; lia).
      rewrite list_lookup_insert_ne in Hec by auto.
      eapply prio_le_trans; [apply prio_ltb_le; exact Hlt|].
      apply (wf_order _ _ W k c _ ec Hc Hk Hec).
    + exists q'. split; [reflexivity|]. split; [exact W'|]. split.
      * intros y w. unfold binds at 1. rewrite P'. apply Hin.
      * unfold size. now rewrite P', length_insert.
  - destruct (prio_ltb v0 v) eqn:Hgt.
    + rewrite set_at_lt by exact Hkl.
      destruct (percolate_down_ok (fun _ => False) _ _ k (x, v) HO)
        as (q' & -> & W' & P').
      * now apply list_lookup_insert_eq.
      * intros g eg Hg Heg.
        assert (g <> k) by (apply child_inv in Hg; lia).
        rewrite list_lookup_insert_ne in Heg by auto.
        eapply prio_le_trans; [|apply prio_ltb_le; exact Hgt].
        apply (wf_order _ _ W g k eg _ Hg Heg Hk).
      * exists q'. split; [reflexivity|]. split; [exact W'|]. split.
        -- intros y w. unfold binds at 1. rewrite P'. apply Hin.
        -- unfold size. now rewrite P', length_insert.
    + assert (v = v0) as -> by (apply prio_le_antisym; assumption).
      exists q. split; [reflexivity|]. split; [exact W|].
      split; [|reflexivity].
      intros y w. split.
      * intros Hyw. destruct (decide (y = x)) as [->|Hne]; [left|now right].
        split; [reflexivity|]. eapply binds_fun; eauto.
      * intros [[-> ->]|[_ H]]; assumption.
Qed.

Lemma changePriority_absent q x v :
  wf q -> x < n -> (forall v', ~ binds q x v') ->
  changePriority q x v = Some (q, false).
Proof.
  intros W Hx Hnb. unfold changePriority.
  now rewrite (contains_unbound q x W Hx Hnb).
Qed.

End Hole.

(** A well-formed queue satisfies the two invariants of the class: heap
    order of the sequence and consistency of the position index. *)
Lemma wf_invariants n q :
  wf n q ->
  PQInts.heap_ordered (PQInts._minheap q) /\ PQInts.index_consistent q.
Proof.
  intros W. split; [apply (wf_order _ _ _ W)|].
  intros e He.
  destruct (lookup_lt_is_Some_2 (PQInts._index q) e He) as [i Hi].
  exists i. split; [exact Hi|].
  destruct (wf_neg _ _ _ W e i Hi) as [->|(k & v & -> & Hk)]; [tauto| |].
  - split; [|lia]. split; [lia|]. intros [v Hv].
    destruct (binds_index n q e v W Hv) as (k & Hi' & _).
    rewrite Hi in Hi'. injection Hi' as Hi'. lia.
  - split.
    + split; [|lia]. intros _. exists v.
      apply list_elem_of_In, list_elem_of_lookup. eauto.
    + intros _. exists v. now rewrite Nat2Z.id.
Qed.

(** ** Connectivity of weighted edge lists *)

Abbreviation wedge := (nat * nat * Z)%type.

(** [conn F x y]: the edges of [F], read in either direction, join [x] and
    [y]. *)
Inductive conn (F : list wedge) : nat -> nat -> Prop :=
| conn_refl x : conn F x x
| conn_edge u v w : In (u, v, w) F -> conn F u v
| conn_sym x y : conn F x y -> conn F y x
| conn_trans x y z : conn F x y -> conn F y z -> conn F x z.

(** No edge of [F] joins two vertices that the edges after it join already:
    [F] has no cycle. *)
Fixpoint indep (F : list wedge) : Prop :=
  match F with
  | [] => True
  | (u, v, _) :: F' => ~ conn F' u v /\ indep F'
  end.

(** The edges of weight at most [t]. *)
Definition upto (t : Z) (F : list wedge) : list wedge :=
  List.filter (fun e => (snd e <=? t)%Z) F.

Definition ends_below (n : nat) (F : list wedge) : Prop :=
  forall u v w, In (u, v, w) F -> u < n /\ v < n.

Lemma conn_mono F F' x y :
  (forall e, In e F -> In e F') -> conn F x y -> conn F' x y.
Proof.
  intros Hsub. induction 1 as [x|u v w H|x y _ IH|x y z _ IH1 _ IH2].
  - apply conn_refl.
  - eapply conn_edge. apply Hsub, H.
  - now apply conn_sym.
  - eapply conn_trans; eauto.
Qed.

Lemma conn_nil x y : conn [] x y -> x = y.
Proof. induction 1; try congruence. contradiction. Qed.

Lemma upto_In t F e : In e (upto t F) <-> In e F /\ (snd e <= t)%Z.
Proof. unfold upto. rewrite List.filter_In, Z.leb_le. tauto. Qed.

Lemma upto_mono t t' F e : (t <= t')%Z -> In e (upto t F) -> In e (upto t' F).
Proof. rewrite !upto_In. intros ? [? ?]. split; [assumption|lia]. Qed.

Lemma indep_upto t F : indep F -> indep (upto t F).
Proof.
  induction F as [|[[u v] w] F IH]; simpl; [auto|].
  intros [Hn Hi]. destruct (w <=? t)%Z; simpl; [|auto].
  split; [|auto]. intros Hc. apply Hn.
  eapply conn_mono; [|exact Hc]. intros e He. now apply upto_In in He.
Qed.

(** *** Counting the classes *)

Definition fixcount (n : nat) (l : nat -> nat) : nat :=
  length (List.filter (fun x => l x =? x) (seq 0 n)).

Lemma filter_remove_one (P : nat -> bool) a xs :
  List.NoDup xs -> In a xs -> P a = true ->
  length (List.filter (fun x => P x && negb (x =? a)) xs) + 1 =
  length (List.filter P xs).
Proof.
  induction xs as [|x xs IH]; intros ND Hin Pa; [contradiction|].
  inversion ND as [|? ? Hx ND']; subst. simpl.
  destruct Hin as [->|Hin].
  - rewrite Pa, Nat.eqb_refl. simpl. f_equal.
    assert (Heq : List.filter (fun x => P x && negb (x =? a)) xs
                  = List.filter P xs).
    { apply List.filter_ext_in. intros y Hy.
      destruct (Nat.eqb_spec y a) as [->|]; [contradiction|].
      now rewrite andb_true_r. }
    rewrite Heq. lia.
  - destruct (Nat.eqb_spec x a) as [->|Hne]; [contradiction|].
    rewrite andb_true_r. destruct (P x); simpl; rewrite <- IH; auto.
Qed.

(** A forest of [k] edges on [n] vertices has [n - k] classes, each with one
    fixed point of the labelling [l]. *)
Lemma labelling_exists n F :
  indep F -> ends_below n F ->
  exists l : nat -> nat,
    (forall x y, conn F x y <-> l x = l y) /\
    (forall x, l (l x) = l x) /\
    (forall x, x < n -> l x < n) /\
    length F + fixcount n l = n.
Proof.
  induction F as [|[[u v] w] F IH]; intros Hi He.
  - exists (fun x => x). split; [|split; [|split]]; auto.
    + intros x y. split; [apply conn_nil|intros ->; apply conn_refl].
    + unfold fixcount. simpl.
      rewrite (List.filter_ext_in _ (fun _ => true)).
      * rewrite List.filter_true, length_seq. reflexivity.
      * intros x _. apply Nat.eqb_refl.
  - destruct Hi as [Hn Hi].
    destruct (IH Hi) as (l' & Hc' & Hid' & Hr' & Hcount').
    { intros a b c H. apply (He a b c). now right. }
    destruct (He u v w (or_introl eq_refl)) as [Hu Hv].
    assert (Huv : l' u <> l' v) by (intros H; apply Hn, Hc', H).
    set (l := fun x => if l' x =? l' u then l' v else l' x).
    assert (Hstep : forall x y, conn F x y -> l x = l y).
    { intros x y H. apply Hc' in H. unfold l. now rewrite H. }
    exists l. split; [|split; [|split]].
    + intros x y. split.
      * induction 1 as [x|a b c [H|H]|x y _ IH'|x y z _ IH1 _ IH2].
        -- reflexivity.
        -- injection H as <- <- <-. unfold l.
           rewrite Nat.eqb_refl.
           destruct (Nat.eqb_spec (l' v) (l' u)); congruence.
        -- apply Hstep. eapply conn_edge; eauto.
        -- congruence.
        -- congruence.
      * assert (Hin : forall a b, conn F a b -> conn ((u, v, w) :: F) a b).
        { intros a b. apply conn_mono. intros e. now right. }
        assert (Huv' : conn ((u, v, w) :: F) u v).
        { eapply conn_edge. now left. }
        unfold l.
        destruct (Nat.eqb_spec (l' x) (l' u)) as [Hx|Hx],
                 (Nat.eqb_spec (l' y) (l' u)) as [Hy|Hy]; intros H.
        -- apply Hin, Hc'. congruence.
        -- eapply conn_trans; [apply Hin, Hc', Hx|].
           eapply conn_trans; [exact Huv'|]. apply Hin, Hc', H.
        -- apply conn_sym.
           eapply conn_trans; [apply Hin, Hc', Hy|].
           eapply conn_trans; [exact Huv'|]. apply Hin, Hc'. congruence.
        -- apply Hin, Hc', H.
    + intros x. unfold l.
      destruct (Nat.eqb_spec (l' x) (l' u)) as [Hx|Hx].
      * rewrite Hid'. destruct (Nat.eqb_spec (l' v) (l' u)); congruence.
      * rewrite Hid'. destruct (Nat.eqb_spec (l' x) (l' u)); congruence.
    + intros x Hx. unfold l. destruct (l' x =? l' u); auto.
    + simpl. rewrite <- Hcount' at 2.
      assert (Hfix : fixcount n l + 1 = fixcount n l'); [|lia].
      unfold fixcount.
      rewrite <- (filter_remove_one (fun x => l' x =? x) (l' u)).
      * f_equal. f_equal. apply List.filter_ext. intros x. unfold l.
        destruct (Nat.eqb_spec (l' x) (l' u)) as [Hx|Hx].
        -- destruct (Nat.eqb_spec (l' v) x) as [Hvx|Hvx].
           ++ exfalso. apply Huv. rewrite <- Hx, <- Hvx. now rewrite Hid'.
           ++ destruct (Nat.eqb_spec (l' x) x) as [Hxx|]; [|reflexivity].
              simpl. destruct (Nat.eqb_spec x (l' u)); [reflexivity|].
              congruence.
        -- destruct (Nat.eqb_spec (l' x) x) as [Hxx|]; [|reflexivity].
           simpl. destruct (Nat.eqb_spec x (l' u)) as [Hxu|]; [|reflexivity].
           exfalso. apply Hx. rewrite Hxu. now rewrite Hid'.
      * apply List.seq_NoDup.
      * apply in_seq. specialize (Hr' u Hu). lia.
      * rewrite Hid'. apply Nat.eqb_refl.
Qed.

Lemma fixcount_le n l1 l2 :
  (forall x, l2 (l2 x) = l2 x) -> (forall x, x < n -> l2 x < n) ->
  (forall x y, l2 x = l2 y -> l1 x = l1 y) ->
  fixcount n l1 <= fixcount n l2.
Proof.
  intros Hid Hr Himp. unfold fixcount.
  set (A1 := List.filter (fun x => l1 x =? x) (seq 0 n)).
  set (A2 := List.filter (fun x => l2 x =? x) (seq 0 n)).
  rewrite <- (length_map l2 A1).
  apply List.NoDup_incl_length.
  - apply List.NoDup_map_NoDup_ForallPairs.
    + intros x y Hx Hy Heq.
      apply List.filter_In in Hx as [_ Hx]. apply List.filter_In in Hy as [_ Hy].
      apply Nat.eqb_eq in Hx, Hy. apply Himp in Heq. congruence.
    + apply List.NoDup_filter, List.seq_NoDup.
  - intros y Hy. apply in_map_iff in Hy as (x & <- & Hx).
    apply List.filter_In in Hx as [Hx _]. apply in_seq in Hx.
    apply List.filter_In. split.
    + apply in_seq. specialize (Hr x). lia.
    + rewrite Hid. apply Nat.eqb_refl.
Qed.

(** Two forests that join the same pairs of vertices have the same number
    of edges. *)
Lemma same_conn_same_length n F1 F2 :
  indep F1 -> indep F2 -> ends_below n F1 -> ends_below n F2 ->
  (forall x y, conn F1 x y <-> conn F2 x y) ->
  length F1 = length F2.
Proof.
  intros I1 I2 E1 E2 Hc.
  destruct (labelling_exists n F1 I1 E1) as (l1 & C1 & Id1 & R1 & N1).
  destruct (labelling_exists n F2 I2 E2) as (l2 & C2 & Id2 & R2 & N2).
  assert (H12 : fixcount n l1 <= fixcount n l2).
  { apply fixcount_le; auto. intros x y H. apply C1, Hc, C2, H. }
  assert (H21 : fixcount n l2 <= fixcount n l1).
  { apply fixcount_le; auto. intros x y H. apply C2, Hc, C1, H. }
  lia.
Qed.

(** *** From counts below every threshold to sums *)

Definition sum_weights (F : list wedge) : Z :=
  fold_right Z.add 0%Z (map snd F).

Lemma count_le_step (ws : list Z) t :
  length (List.filter (fun w => (w <=? t)%Z) ws) =
  length (List.filter (fun w => (w <=? t - 1)%Z) ws) +
  count_occ Z.eq_dec ws t.
Proof.
  induction ws as [|w ws IH]; [reflexivity|]. simpl.
  destruct (Z.leb_spec w t), (Z.leb_spec w (t - 1)), (Z.eq_dec w t);
    simpl; lia.
Qed.

Lemma upto_length t F :
  length (upto t F) = length (List.filter (fun w => (w <=? t)%Z) (map snd F)).
Proof.
  unfold upto. induction F as [|e F IH]; [reflexivity|]. simpl.
  destruct (snd e <=? t)%Z; simpl; now rewrite IH.
Qed.

Lemma same_counts_same_sum F1 F2 :
  (forall t, length (upto t F1) = length (upto t F2)) ->
  sum_weights F1 = sum_weights F2.
Proof.
  intros H. unfold sum_weights.
  assert (P : Permutation (map snd F1) (map snd F2)).
  { apply (Permutation_count_occ Z.eq_dec). intros t.
    pose proof (H t) as Ht. pose proof (H (t - 1)%Z) as Ht'.
    rewrite !upto_length in Ht, Ht'.
    rewrite (count_le_step (map snd F1) t) in Ht.
    rewrite (count_le_step (map snd F2) t) in Ht. lia. }
  induction P; simpl; lia.
Qed.

(** Two forests of one weighted graph that, below every threshold, join the
    same vertices as the graph does have the same total weight. *)
Lemma spanning_forests_same_weight n G F1 F2 :
  indep F1 -> indep F2 -> ends_below n F1 -> ends_below n F2 ->
  (forall t x y, conn (upto t F1) x y <-> conn (upto t G) x y) ->
  (forall t x y, conn (upto t F2) x y <-> conn (upto t G) x y) ->
  sum_weights F1 = sum_weights F2.
Proof.
  intros I1 I2 E1 E2 C1 C2. apply same_counts_same_sum. intros t.
  apply (same_conn_same_length n).
  - now apply indep_upto.
  - now apply indep_upto.
  - intros u v w H. apply upto_In in H as [H _]. eapply E1; eauto.
  - intros u v w H. apply upto_In in H as [H _]. eapply E2; eauto.
  - intros x y. rewrite C1, C2. reflexivity.
Qed.

(** ** Weighted undirected graphs as edge lists *)

Lemma In_comprehension {E X} (f : nat -> E -> list X)
  (adj : list (_AdjacencyList E)) x :
  In x (comprehension f adj) <->
  exists u l e, adj !! u = Some l /\ In e (iter l) /\ In x (f u e).
Proof.
  unfold comprehension. rewrite in_concat. split.
  - intros (ys & Hys & Hx). apply list_elem_of_In in Hys.
    apply elem_of_lookup_imap in Hys as (u & l & -> & Hl).
    apply in_flat_map in Hx as (e & He & Hx). eauto 6.
  - intros (u & l & e & Hl & He & Hx).
    exists (flat_map (f u) (iter l)). split.
    + apply list_elem_of_In.
      apply (elem_of_lookup_imap_2
               (fun u uList => flat_map (f u) (iter uList)) _ _ _ Hl).
    + apply in_flat_map. eauto.
Qed.

(** Every stored adjacency entry, as source, target and weight. *)
Definition entries (g : WeightedGraph.t) : list wedge :=
  comprehension (fun u (vw : nat * Z) => [(u, fst vw, snd vw)]) g.

Lemma In_entries g u v w :
  In (u, v, w) (entries g) <->
  exists l, g !! u = Some l /\ In (v, w) (iter l).
Proof.
  unfold entries. rewrite In_comprehension. split.
  - intros (u' & l & [v' w'] & Hl & He & [[= <- <- <-]|[]]). eauto.
  - intros (l & Hl & He). exists u, l, (v, w). simpl. auto.
Qed.

Lemma In_getEdgeListW g u v w :
  In (u, v, w) (WeightedGraph.getEdgeListW g) <->
  u < v /\ In (u, v, w) (entries g).
Proof.
  unfold WeightedGraph.getEdgeListW. rewrite In_comprehension, In_entries.
  split.
  - intros (u' & l & [v' w'] & Hl & He & Hx). simpl in Hx.
    destruct (Nat.ltb_spec u' v'); [|contradiction].
    destruct Hx as [[= <- <- <-]|[]]. eauto.
  - intros (Hlt & l & Hl & He). exists u, l, (v, w). simpl.
    destruct (Nat.ltb_spec u v); [|lia]. simpl. auto.
Qed.

(** What the constructor guarantees: the entries come in mirrored pairs and
    name vertices only. *)
Record built (g : WeightedGraph.t) : Prop := {
  built_sym : forall u v w, In (u, v, w) (entries g) -> In (v, u, w) (entries g);
  built_range : ends_below (length g) (entries g)
}.

Lemma entries_addEdge g a b w g' :
  WeightedGraph.addEdge g a b w = Some g' ->
  length g' = length g /\
  forall e, In e (entries g') <->
            In e (entries g) \/ e = (a, b, w) \/ e = (b, a, w).
Proof.
  intros H. split; [eapply WeightedGraph_addEdge_length; eauto|].
  unfold WeightedGraph.addEdge in H.
  destruct (g !! a) as [la|] eqn:Ea; [|discriminate].
  destruct (<[a:=_add la (b, w)]> g !! b) as [lb|] eqn:Eb; [|discriminate].
  injection H as <-. intros e. unfold entries.
  rewrite (comprehension_add _ _ _ _ _ Eb).
  rewrite (comprehension_add _ _ _ _ _ Ea).
  rewrite !in_app_iff. simpl. intuition congruence.
Qed.

Lemma built_addEdge g a b w g' :
  built g -> a < length g -> b < length g ->
  WeightedGraph.addEdge g a b w = Some g' -> built g'.
Proof.
  intros [Hs Hr] Ha Hb H.
  destruct (entries_addEdge g a b w g' H) as [L Hin].
  constructor.
  - intros u v w'. rewrite !Hin.
    intros [He|[[= -> -> ->]|[= -> -> ->]]]; auto.
  - intros u v w'. rewrite Hin, L.
    intros [He|[[= -> -> ->]|[= -> -> ->]]]; eauto.
Qed.

Lemma built_empty v : built (WeightedGraph.empty v).
Proof.
  assert (H : entries (WeightedGraph.empty v) = []).
  { apply comprehension_empty. }
  constructor; [intros ? ? ?|intros ? ? ?]; rewrite H; contradiction.
Qed.

Lemma built_init v edges weights g :
  WeightedGraph.init v edges weights = Some g -> built g /\ length g = v.
Proof.
  unfold WeightedGraph.init.
  assert (Hgen : forall g0, built g0 ->
            WeightedGraph.init_loop g0 edges weights = Some g ->
            built g /\ length g = length g0).
  { revert weights. induction edges as [|[a b] edges IH];
      intros weights g0 B0; simpl.
    - intros [= <-]. auto.
    - destruct weights as [|w ws]; [discriminate|].
      destruct (WeightedGraph.addEdge g0 a b w) as [g1|] eqn:E1;
        [|discriminate].
      intros H.
      assert (Ha : a < length g0 /\ b < length g0).
      { unfold WeightedGraph.addEdge in E1.
        destruct (g0 !! a) as [la|] eqn:Ea; [|discriminate].
        destruct (<[a:=_add la (b, w)]> g0 !! b) as [lb|] eqn:Eb;
          [|discriminate].
        apply lookup_lt_Some in Ea, Eb. rewrite length_insert in Eb. auto. }
      destruct Ha as [Ha Hb].
      destruct (IH ws g1 (built_addEdge _ _ _ _ _ B0 Ha Hb E1) H) as [B L].
      split; [exact B|]. rewrite L.
      eapply WeightedGraph_addEdge_length; eauto. }
  intros H. destruct (Hgen _ (built_empty v) H) as [B L].
  split; [exact B|]. rewrite L. apply length_replicate.
Qed.

(** *** The stable sort by weight *)

Fixpoint sorted_w (l : list wedge) : Prop :=
  match l with
  | [] => True
  | e :: l' => (forall e', In e' l' -> (snd e <= snd e')%Z) /\ sorted_w l'
  end.

Lemma sort_insert_perm e l : Permutation (MST.sort_insert e l) (e :: l).
Proof.
  induction l as [|e' l IH]; simpl; [reflexivity|].
  destruct (snd e' <? snd e)%Z; [|reflexivity].
  rewrite IH. apply perm_swap.
Qed.

Lemma sort_insert_sorted e l : sorted_w l -> sorted_w (MST.sort_insert e l).
Proof.
  induction l as [|e' l IH]; simpl.
  - intros _. split; [intros ? []|exact I].
  - intros [Hle Hs]. destruct (Z.ltb_spec (snd e') (snd e)) as [Hlt|Hge].
    + simpl. split; [|auto].
      intros x Hx. apply (Permutation_in _ (sort_insert_perm e l)) in Hx.
      destruct Hx as [<-|Hx]; [lia|auto].
    + simpl. split; [|split; [exact Hle|exact Hs]].
      intros x [<-|Hx]; [exact Hge|]. specialize (Hle x Hx). lia.
Qed.

Lemma sort_by_weight_perm l : Permutation (MST.sort_by_weight l) l.
Proof.
  induction l as [|e l IH]; simpl; [reflexivity|].
  rewrite sort_insert_perm. now rewrite IH.
Qed.

Lemma sort_by_weight_sorted l : sorted_w (MST.sort_by_weight l).
Proof.
  induction l as [|e l IH]; simpl; [exact I|]. now apply sort_insert_sorted.
Qed.

(** *** The weight of an edge *)

Lemma min_weight_least ws w :
  In w ws -> (forall w', In w' ws -> (w <= w')%Z) ->
  MST.min_weight ws = Some w.
Proof.
  destruct ws as [|w0 ws]; [contradiction|]. simpl. intros Hin Hle. f_equal.
  assert (Hlow : forall ws a b, (forall x, In x ws -> (b <= x)%Z) ->
            (b <= a)%Z -> (b <= fold_left Z.min ws a)%Z).
  { clear. induction ws as [|x ws IH]; intros a b Hall Ha; simpl; [auto|].
    apply IH; [intros y Hy; apply Hall; now right|].
    specialize (Hall x (or_introl eq_refl)). lia. }
  assert (Hup : forall ws a, (fold_left Z.min ws a <= a)%Z /\
            forall x, In x ws -> (fold_left Z.min ws a <= x)%Z).
  { clear. induction ws as [|x ws IH]; intros a; simpl.
    - split; [lia|intros ? []].
    - destruct (IH (Z.min a x)) as [H1 H2]. split; [lia|].
      intros y [<-|Hy]; [lia|auto]. }
  destruct (Hup ws w0) as [H1 H2].
  assert (w <= fold_left Z.min ws w0)%Z.
  { apply Hlow; [intros x Hx; apply Hle; now right|].
    apply Hle. now left. }
  destruct Hin as [->|Hin]; [lia|]. specialize (H2 w Hin). lia.
Qed.

Lemma edge_weight_least g u v w :
  In (u, v, w) (entries g) ->
  (forall w', In (u, v, w') (entries g) -> (w <= w')%Z) ->
  MST.edge_weight g (u, v) = w.
Proof.
  intros Hin Hle. unfold MST.edge_weight. simpl.
  apply In_entries in Hin as (l & Hl & Hv). rewrite Hl.
  rewrite (min_weight_least _ w); [reflexivity| |].
  - apply in_map_iff. exists (v, w). split; [reflexivity|].
    apply List.filter_In. split; [exact Hv|]. simpl. apply Nat.eqb_refl.
  - intros w' Hw'. apply in_map_iff in Hw' as ([v' w''] & Heq & Hf).
    simpl in Heq. subst w''. apply List.filter_In in Hf as [Hf Hv'].
    simpl in Hv'. apply Nat.eqb_eq in Hv'. subst v'.
    apply Hle. apply In_entries. eauto.
Qed.

Lemma total_weight_sum g (F : list wedge) :
  (forall u v w, In (u, v, w) F -> MST.edge_weight g (u, v) = w) ->
  MST.total_weight g (map fst F) = sum_weights F.
Proof.
  unfold MST.total_weight, sum_weights.
  induction F as [|[[u v] w] F IH]; intros H; simpl; [reflexivity|].
  rewrite IH by (intros; apply H; now right).
  rewrite (H u v w) by now left. reflexivity.
Qed.

Lemma total_weight_perm g A B :
  Permutation A B -> MST.total_weight g A = MST.total_weight g B.
Proof.
  unfold MST.total_weight. induction 1; simpl; lia.
Qed.

(** A set built from values without repetition lists them all. *)
Lemma set_add_fresh x A : ~ In x A -> set_add x A = A ++ [x].
Proof.
  intros Hx. unfold set_add.
  destruct (existsb (pair_eqb x) A) eqn:E; [|reflexivity].
  exfalso. apply Hx. apply existsb_exists in E as (y & Hy & Heq).
  unfold pair_eqb in Heq. apply andb_true_iff in Heq as [H1 H2].
  apply Nat.eqb_eq in H1, H2. destruct x, y. simpl in *. now subst.
Qed.

Lemma set_of_NoDup l : List.NoDup l -> set_of l = l.
Proof.
  unfold set_of. intros ND.
  assert (Hgen : forall A, List.NoDup (A ++ l) ->
            fold_left (fun A x => set_add x A) l A = A ++ l).
  { clear ND. induction l as [|x l IH]; intros A ND; simpl.
    - now rewrite app_nil_r.
    - rewrite set_add_fresh.
      + rewrite IH; rewrite <- app_assoc; [reflexivity|exact ND].
      + apply NoDup_remove_2 in ND. intros H. apply ND.
        apply in_or_app. now left. }
  apply (Hgen []). exact ND.
Qed.

(** ** Kruskal's algorithm *)

Lemma conn_range n F x y :
  ends_below n F -> conn F x y -> x = y \/ (x < n /\ y < n).
Proof.
  intros He. induction 1 as [x|u v w H|x y _ IH|x y z _ IH1 _ IH2].
  - now left.
  - right. eapply He; eauto.
  - destruct IH as [->|[? ?]]; auto.
  - destruct IH1 as [->|[? ?]]; [exact IH2|].
    destruct IH2 as [<-|[? ?]]; auto.
Qed.

Lemma conn_upto_all t F x y :
  (forall e, In e F -> (snd e <= t)%Z) -> conn F x y -> conn (upto t F) x y.
Proof.
  intros Hall. apply conn_mono. intros e He. apply upto_In. auto.
Qed.

Lemma conn_upto t F x y : conn (upto t F) x y -> conn F x y.
Proof. apply conn_mono. intros e He. now apply upto_In in He. Qed.

Section Kruskal.
Import DisjointIntegerSets.
Variable g : WeightedGraph.t.
Hypothesis Hbuilt : built g.
Let n := length g.
Variable limit : nat.
Hypothesis Hlimit : Nat.log2 (length g) < limit.
Let sorted := MST.sort_by_weight (WeightedGraph.getEdgeListW g).

Definition same_set (nodes : DisjointIntegerSets.t) (x y : nat) : Prop :=
  exists r, rep nodes x r /\ rep nodes y r.

Lemma same_set_compresses nodes nodes' x y :
  compresses nodes nodes' -> (same_set nodes x y <-> same_set nodes' x y).
Proof.
  intros C. unfold same_set. split; intros (r & Hx & Hy); exists r;
    split; now apply (cmp_rep _ _ C).
Qed.

(** The state of the loop of [mstKruskal]: the set [A], the forest of
    disjoint sets, and the chosen edges with their weights, latest first. *)
Record kruskal_inv (A : list (nat * nat)) (nodes : DisjointIntegerSets.t)
  (K : list wedge) : Prop := {
  ki_forest : forest nodes;
  ki_ranked : ranked nodes;
  ki_length : length nodes = n;
  ki_conn : forall x y, x < n -> y < n -> (conn K x y <-> same_set nodes x y);
  ki_indep : indep K;
  ki_range : ends_below n K;
  ki_set : A = map fst (rev K);
  ki_least : forall u v w w',
    In (u, v, w) K -> In (u, v, w') sorted -> (w <= w')%Z
}.

Lemma kruskal_inv_compresses A nodes nodes' K :
  kruskal_inv A nodes K -> compresses nodes nodes' ->
  kruskal_inv A nodes' K.
Proof.
  intros [F Rk L C I R S M] Cm. constructor; auto.
  - eapply forest_compresses; eauto.
  - eapply ranked_compresses; eauto.
  - now rewrite (cmp_length _ _ Cm).
  - intros x y Hx Hy. rewrite (C x y Hx Hy).
    now apply same_set_compresses.
Qed.

(** The chains of the forest of [mstKruskal] are short enough for the
    recursion limit. *)
Lemma kruskal_inv_shallow A nodes K :
  kruskal_inv A nodes K -> shallow limit nodes.
Proof.
  intros Inv x r d H.
  pose proof (ranked_shallow nodes (ki_ranked _ _ _ Inv) x r d H) as Hd.
  rewrite (ki_length _ _ _ Inv) in Hd. unfold n in Hd. lia.
Qed.

Lemma kruskal_step_ok A nodes K u v w :
  kruskal_inv A nodes K -> u < n -> v < n ->
  (forall w', In (u, v, w') sorted -> conn K u v \/ (w <= w')%Z) ->
  exists A' nodes' K',
    MST.kruskal_step limit (A, nodes) (u, v, w) = Some (A', nodes') /\
    kruskal_inv A' nodes' K' /\
    (K' = K \/ K' = (u, v, w) :: K) /\
    conn K' u v.
Proof.
  intros Inv Hu Hv Hleast. unfold MST.kruskal_step.
  pose proof (ki_length _ _ _ Inv) as L.
  destruct (findset_total limit nodes u (ki_forest _ _ _ Inv)
              (kruskal_inv_shallow _ _ _ Inv))
    as (n1 & ru & -> & Ru & C1); [lia|].
  pose proof (kruskal_inv_compresses _ _ _ _ Inv C1) as Inv1.
  destruct (findset_total limit n1 v (ki_forest _ _ _ Inv1)
              (kruskal_inv_shallow _ _ _ Inv1))
    as (n2 & rv & -> & Rv & C2); [rewrite (ki_length _ _ _ Inv1); lia|].
  pose proof (kruskal_inv_compresses _ _ _ _ Inv1 C2) as Inv2.
  apply (cmp_rep _ _ C1) in Ru. apply (cmp_rep _ _ C2) in Ru.
  apply (cmp_rep _ _ C2) in Rv.
  destruct (Nat.eqb_spec ru rv) as [<-|Hne]; simpl.
  - exists A, n2, K. split; [reflexivity|]. split; [exact Inv2|].
    split; [now left|].
    apply (ki_conn _ _ _ Inv2 u v Hu Hv). exists ru. auto.
  - assert (Hnc : ~ conn K u v).
    { intros Hc. apply (ki_conn _ _ _ Inv2 u v Hu Hv) in Hc as (r & H1 & H2).
      apply Hne. rewrite (rep_fun _ _ _ _ Ru H1). apply (rep_fun _ _ _ _ H2 Rv). }
    destruct (union_spec limit n2 u v (ki_forest _ _ _ Inv2)
                (kruskal_inv_shallow _ _ _ Inv2))
      as (n3 & rx & ry & t & H3 & F3 & L3 & Rx & Ry & Ht & Hmap);
      [rewrite (ki_length _ _ _ Inv2); lia..|].
    assert (Rk3 : ranked n3).
    { apply (ranked_union limit n2 u v n3 (ki_forest _ _ _ Inv2)
               (ki_ranked _ _ _ Inv2));
        [rewrite (ki_length _ _ _ Inv2); lia..| |exact H3].
      intros r H1 H2. apply Hne.
      rewrite (rep_fun _ _ _ _ Ru H1). apply (rep_fun _ _ _ _ H2 Rv). }
    rewrite H3.
    assert (rx = ru) by (eapply rep_fun; eauto). subst rx.
    assert (ry = rv) by (eapply rep_fun; eauto). subst ry.
    exists (set_add (u, v) A), n3, ((u, v, w) :: K).
    split; [reflexivity|]. split; [|split; [now right|]].
    2: { eapply conn_edge. now left. }
    assert (Hin : forall a b, conn K a b -> conn ((u, v, w) :: K) a b).
    { intros a b. apply conn_mono. intros e. now right. }
    assert (Huv : conn ((u, v, w) :: K) u v).
    { eapply conn_edge. now left. }
    assert (Hwit : forall x, x < n -> exists a, rep n2 x a).
    { intros x Hx. apply (ki_forest _ _ _ Inv2).
      rewrite (ki_length _ _ _ Inv2). exact Hx. }
    assert (Hrep3 : rep n3 u t /\ rep n3 v t).
    { pose proof (Hmap _ _ Ru) as H1. pose proof (Hmap _ _ Rv) as H2.
      destruct (decide (ru = ru \/ ru = rv)); [|tauto].
      destruct (decide (rv = ru \/ rv = rv)); [|tauto]. auto. }
    constructor.
    + exact F3.
    + exact Rk3.
    + rewrite L3. apply (ki_length _ _ _ Inv2).
    + intros x y Hx Hy. split.
      * intros Hc.
        assert (Hgen : forall a b, conn ((u, v, w) :: K) a b ->
                  a = b \/ (a < n /\ b < n /\ same_set n3 a b)).
        { clear x y Hx Hy Hc.
          induction 1 as [x|a b c [H|H]|x y _ IH|x y z _ IH1 _ IH2].
          - now left.
          - injection H as <- <- <-. right. split; [exact Hu|].
            split; [exact Hv|]. exists t. exact Hrep3.
          - right. destruct (ki_range _ _ _ Inv2 a b c H) as [Ha Hb].
            split; [exact Ha|]. split; [exact Hb|].
            assert (Hc : conn K a b) by (eapply conn_edge; eauto).
            apply (ki_conn _ _ _ Inv2 a b Ha Hb) in Hc as (r & H1 & H2).
            eexists. split; [apply Hmap, H1|apply Hmap, H2].
          - destruct IH as [->|(? & ? & r & H1 & H2)]; [now left|right].
            split; [assumption|]. split; [assumption|]. exists r. auto.
          - destruct IH1 as [->|(? & ? & r & H1 & H2)]; [exact IH2|].
            destruct IH2 as [<-|(? & ? & r' & H1' & H2')].
            + right. split; [assumption|]. split; [assumption|]. exists r. auto.
            + right. split; [assumption|]. split; [assumption|].
              exists r. split; [exact H1|].
              now rewrite (rep_fun _ _ _ _ H2 H1'). }
        destruct (Hgen x y Hc) as [->|(_ & _ & H)]; [|exact H].
        destruct (Hwit y Hy) as [a Ha]. eexists. split; apply Hmap, Ha.
      * intros (r & H1 & H2).
        destruct (Hwit x Hx) as [a Ha]. destruct (Hwit y Hy) as [b Hb].
        pose proof (Hmap _ _ Ha) as Ha'. pose proof (Hmap _ _ Hb) as Hb'.
        pose proof (rep_fun _ _ _ _ Ha' H1) as Ea.
        pose proof (rep_fun _ _ _ _ Hb' H2) as Eb.
        assert (Hxa : forall c z, c < n -> rep n2 z a -> rep n2 c a ->
                        conn K z c).
        { intros c z Hc Hz Hca. assert (Hzl : z < n).
          { apply rep_lt in Hz as [Hz _].
            now rewrite (ki_length _ _ _ Inv2) in Hz. }
          apply (ki_conn _ _ _ Inv2 z c Hzl Hc). exists a. auto. }
        assert (Hcls : forall z c, z < n -> rep n2 z c ->
                  (c = ru -> conn K z u) /\ (c = rv -> conn K z v)).
        { intros z c Hz Hzc. split; intros ->.
          - apply (ki_conn _ _ _ Inv2 z u Hz Hu). exists ru. auto.
          - apply (ki_conn _ _ _ Inv2 z v Hz Hv). exists rv. auto. }
        destruct (Hcls x a Hx Ha) as [Hxu Hxv].
        destruct (Hcls y b Hy Hb) as [Hyu Hyv].
        assert (Hsame : a = b -> conn ((u, v, w) :: K) x y).
        { intros <-. apply Hin. apply (ki_conn _ _ _ Inv2 x y Hx Hy).
          exists a. auto. }
        destruct (decide (a = ru \/ a = rv)) as [Da|Da],
                 (decide (b = ru \/ b = rv)) as [Db|Db].
        -- destruct Da as [Da|Da], Db as [Db|Db].
           ++ apply Hsame. congruence.
           ++ eapply conn_trans; [apply Hin, Hxu, Da|].
              eapply conn_trans; [exact Huv|].
              apply conn_sym, Hin, Hyv, Db.
           ++ eapply conn_trans; [apply Hin, Hxv, Da|].
              eapply conn_trans; [apply conn_sym, Huv|].
              apply conn_sym, Hin, Hyu, Db.
           ++ apply Hsame. congruence.
        -- exfalso. apply Db. rewrite Eb, <- Ea. exact Ht.
        -- exfalso. apply Da. rewrite Ea, <- Eb. exact Ht.
        -- apply Hsame. congruence.
    + simpl. split; [exact Hnc|apply (ki_indep _ _ _ Inv2)].
    + intros a b c [[= <- <- <-]|H]; [auto|].
      apply (ki_range _ _ _ Inv2 a b c H).
    + simpl. rewrite map_app. simpl. rewrite <- (ki_set _ _ _ Inv2).
      apply set_add_fresh. intros HIn. apply Hnc.
      rewrite (ki_set _ _ _ Inv2) in HIn.
      apply in_map_iff in HIn as ([[a b] c] & Heq & HIn).
      simpl in Heq. injection Heq as -> ->. apply in_rev in HIn.
      eapply conn_edge; eauto.
    + intros a b c c' [[= <- <- <-]|H] Hs.
      * destruct (Hleast c' Hs) as [Hc|Hle]; [contradiction|exact Hle].
      * apply (ki_least _ _ _ Inv2 a b c c' H Hs).
Qed.

Lemma kruskal_fold rest : forall A nodes K,
  kruskal_inv A nodes K -> sorted_w rest ->
  (forall u v w, In (u, v, w) rest -> u < n /\ v < n) ->
  (forall e e', In e K -> In e' rest -> (snd e <= snd e')%Z) ->
  (forall u v w, In (u, v, w) sorted -> In (u, v, w) rest \/ conn K u v) ->
  exists A' nodes' K',
    foldM (MST.kruskal_step limit) (A, nodes) rest = Some (A', nodes') /\
    kruskal_inv A' nodes' K' /\
    (forall e, In e K' -> In e K \/ In e rest) /\
    (forall e, In e K -> In e K') /\
    (forall u v w, In (u, v, w) rest -> conn (upto w K') u v).
Proof.
  induction rest as [|[[u v] w] rest IH]; intros A nodes K Inv Hs Hr Hw Hd.
  - exists A, nodes, K. split; [reflexivity|]. split; [exact Inv|].
    split; [auto|]. split; [auto|]. intros ? ? ? [].
  - destruct Hs as [Hle Hs].
    destruct (Hr u v w (or_introl eq_refl)) as [Hu Hv].
    destruct (kruskal_step_ok A nodes K u v w Inv Hu Hv)
      as (A1 & n1 & K1 & H1 & Inv1 & HK1 & Hc1).
    { intros w' Hin. destruct (Hd u v w' Hin) as [[[= <-]|Hin']|Hc].
      - right. lia.
      - right. apply (Hle (u, v, w') Hin').
      - now left. }
    assert (HK1in : forall e, In e K1 -> In e K \/ e = (u, v, w)).
    { intros e He. destruct HK1 as [->| ->]; [now left|].
      destruct He as [<-|He]; auto. }
    assert (HKK1 : forall e, In e K -> In e K1).
    { intros e He. destruct HK1 as [->| ->]; [exact He|now right]. }
    destruct (IH A1 n1 K1 Inv1 Hs) as (A' & n' & K' & H' & Inv' & Hsub & Hsup & Hc').
    { intros a b c H. apply (Hr a b c). now right. }
    { intros e e' He He'. destruct (HK1in e He) as [HeK| ->].
      - apply Hw; [exact HeK|now right].
      - apply (Hle e' He'). }
    { intros a b c Hin. destruct (Hd a b c Hin) as [[[= <- <- <-]|Hin']|Hc].
      - now right.
      - now left.
      - right. eapply conn_mono; [|exact Hc]. exact HKK1. }
    exists A', n', K'. cbn [foldM]. rewrite H1. split; [exact H'|].
    split; [exact Inv'|]. split; [|split].
    + intros e He. destruct (Hsub e He) as [He1|He1]; [|right; now right].
      destruct (HK1in e He1) as [?| ->]; [now left|right; now left].
    + intros e He. apply Hsup, HKK1, He.
    + intros a b c [[= <- <- <-]|Hin]; [|now apply Hc'].
      eapply conn_mono; [|apply (conn_upto_all w K1 u v); [|exact Hc1]].
      * intros e He. apply upto_In in He as [He Hew]. apply upto_In.
        split; [apply Hsup, He|exact Hew].
      * intros e He. destruct (HK1in e He) as [HeK| ->]; [|simpl; lia].
        apply (Hw e (u, v, w) HeK). now left.
Qed.

(** [mstKruskal] returns the pairs of a forest [K] of edges of the graph
    that, below every threshold, joins the same vertices as the graph, each
    taken with the least weight stored for its pair. *)
Lemma mstKruskal_spec :
  exists A K,
    MST.mstKruskal limit g = Some A /\ A = map fst (rev K) /\
    indep K /\ ends_below n K /\
    (forall t x y, conn (upto t K) x y <-> conn (upto t (entries g)) x y) /\
    (forall u v w, In (u, v, w) K ->
       In (u, v, w) (entries g) /\ MST.edge_weight g (u, v) = w).
Proof.
  assert (Hsorted_in : forall u v w, In (u, v, w) sorted <->
            u < v /\ In (u, v, w) (entries g)).
  { intros u v w. unfold sorted. rewrite <- In_getEdgeListW.
    split; apply Permutation_in;
      [|symmetry]; apply sort_by_weight_perm. }
  destruct (kruskal_fold sorted [] (init n) [])
    as (A & nodes & K & H & Inv & Hsub & _ & Hc).
  - constructor.
    + apply init_forest.
    + apply ranked_init.
    + apply init_length.
    + intros x y Hx Hy. split.
      * intros Hc. apply conn_nil in Hc as ->.
        exists y. split; exists 0; apply root_here;
          rewrite parents_lookup, init_lookup by exact Hy; reflexivity.
      * intros (r & [d1 H1] & [d2 H2]).
        assert (Hroot : forall z d r', z < n ->
                  root_of (parents (init n)) z r' d -> r' = z).
        { intros z d r' Hz Hroot.
          inversion Hroot as [? Hl|? pz ? ? Hl Hne _]; subst; [reflexivity|].
          rewrite parents_lookup, init_lookup in Hl by exact Hz.
          simpl in Hl. congruence. }
        apply Hroot in H1; [|exact Hx]. apply Hroot in H2; [|exact Hy].
        subst. apply conn_refl.
    + exact I.
    + intros ? ? ? [].
    + reflexivity.
    + intros ? ? ? ? [].
  - apply sort_by_weight_sorted.
  - intros u v w Hin. apply Hsorted_in in Hin as [_ Hin].
    apply (built_range _ Hbuilt u v w Hin).
  - intros e e' [].
  - intros u v w Hin. now left.
  - assert (HKin : forall e, In e K -> In e sorted).
    { intros e He. destruct (Hsub e He) as [[]|?]; assumption. }
    exists A, K. split; [|split; [apply Inv|split; [apply Inv|split; [apply Inv|split]]]].
    + unfold MST.mstKruskal. fold n. fold sorted.
      unfold WeightedGraph.numVertices. fold n. now rewrite H.
    + intros t x y. split.
      * apply conn_mono. intros [[a b] c] He.
        apply upto_In in He as [He Hle]. apply upto_In. split; [|exact Hle].
        apply HKin, Hsorted_in in He. apply He.
      * induction 1 as [x|a b c He|x y _ IH|x y z _ IH1 _ IH2].
        -- apply conn_refl.
        -- apply upto_In in He as [He Hle]. simpl in Hle.
           assert (Hlt : forall a b, a < b -> In (a, b, c) (entries g) ->
                     conn (upto t K) a b).
           { intros a' b' Hab Hin.
             eapply conn_mono; [|apply (Hc a' b' c)].
             - intros e. now apply upto_mono.
             - apply Hsorted_in. auto. }
           destruct (Nat.lt_trichotomy a b) as [Hab|[->|Hab]].
           ++ now apply Hlt.
           ++ apply conn_refl.
           ++ apply conn_sym, Hlt; [exact Hab|].
              now apply (built_sym _ Hbuilt).
        -- now apply conn_sym.
        -- eapply conn_trans; eauto.
    + intros u v w Hin. split; [apply HKin, Hsorted_in in Hin; apply Hin|].
      apply edge_weight_least.
      * apply HKin, Hsorted_in in Hin. apply Hin.
      * intros w' Hin'. apply (ki_least _ _ _ Inv u v w w' Hin).
        apply Hsorted_in. split; [|exact Hin'].
        apply HKin, Hsorted_in in Hin. apply Hin.
Qed.

End Kruskal.

(** ** Prim's algorithm *)

Lemma prio_le_Fin a b : prio_le (Fin a) (Fin b) <-> (a <= b)%Z.
Proof. unfold prio_le. simpl. apply Z.ltb_ge. Qed.

Lemma prio_le_Inf k : prio_le k Inf.
Proof. unfold prio_le. reflexivity. Qed.

Lemma prio_le_Inf_Fin w : ~ prio_le Inf (Fin w).
Proof. unfold prio_le. simpl. discriminate. Qed.

(** [x] is an end of an edge of [F]. *)
Definition touches (F : list wedge) (x : nat) : Prop :=
  exists a b c, In (a, b, c) F /\ (x = a \/ x = b).

Lemma conn_touches F x y :
  conn F x y -> x = y \/ (touches F x /\ touches F y).
Proof.
  induction 1 as [x|u v w H|x y _ IH|x y z _ IH1 _ IH2].
  - now left.
  - right. split; exists u, v, w; auto.
  - destruct IH as [->|[? ?]]; auto.
  - destruct IH1 as [->|[? ?]]; [exact IH2|].
    destruct IH2 as [<-|[? ?]]; auto.
Qed.

Section Prim.
Variable g : WeightedGraph.t.
Hypothesis Hbuilt : built g.
Variable r : nat.
Let n := length g.
Hypothesis Hr : r < n.
Let G := entries g.

Definition pending (Q : PQInts.t) (v : nat) : Prop := exists k, binds Q v k.
Definition extracted (Q : PQInts.t) (v : nat) : Prop :=
  v < n /\ ~ pending Q v.

(** The state of the loop of [mstPrim], with the list [P] of the tree edges
    of the extracted vertices (latest first) and the vertex extracted
    last.  [relaxed] tells for which entries the loop over the adjacency
    list of the last vertex has run. *)
Record prim_inv (relaxed : wedge -> Prop) (parent : list (option nat))
  (Q : PQInts.t) (P : list wedge) (last : option nat) : Prop := {
  pi_wf : wf n Q;
  pi_len : length parent = n;
  pi_key : forall a v w kv,
    extracted Q a -> binds Q v kv -> In (a, v, w) G -> relaxed (a, v, w) ->
    prio_le kv (Fin w);
  pi_parent : forall v kv,
    binds Q v kv ->
    (kv = Inf /\ parent !! v = Some None) \/
    (kv = Fin 0 /\ v = r /\ parent !! v = Some None /\
     forall y, y < n -> pending Q y) \/
    (exists p w, kv = Fin w /\ parent !! v = Some (Some p) /\
                 extracted Q p /\ In (p, v, w) G);
  pi_tree : forall p v w,
    In (p, v, w) P ->
    extracted Q p /\ extracted Q v /\ In (p, v, w) G /\
    parent !! v = Some (Some p) /\
    forall w', In (p, v, w') G -> (w <= w')%Z;
  pi_complete : forall v p,
    extracted Q v -> parent !! v = Some (Some p) -> exists w, In (p, v, w) P;
  pi_nodup : List.NoDup (map (fun e : wedge => snd (fst e)) P);
  pi_indep : indep P;
  pi_run : forall t a v w,
    extracted Q a -> pending Q v -> In (a, v, w) G -> (w <= t)%Z ->
    exists l, last = Some l /\ conn (upto t P) a l;
  pi_conn : forall t a b w,
    extracted Q a -> extracted Q b -> In (a, b, w) G -> (w <= t)%Z ->
    conn (upto t P) a b
}.

Lemma prim_inv_weaken (R R' : wedge -> Prop) parent Q P last :
  (forall e, In e G -> R' e -> R e) ->
  prim_inv R parent Q P last -> prim_inv R' parent Q P last.
Proof.
  intros HR [W L K Pa T C N I Ru Co]. constructor; auto.
  intros a v w kv Ha Hv Hin HR'. apply (K a v w kv Ha Hv Hin).
  now apply HR.
Qed.

Lemma conn_cons_mono t e F x y :
  conn (upto t F) x y -> conn (upto t (e :: F)) x y.
Proof.
  apply conn_mono. intros e' He'. apply upto_In in He' as [? ?].
  apply upto_In. split; [now right|assumption].
Qed.

(** [u = Q.extractMin()] *)
Lemma prim_extract parent Q P last :
  prim_inv (fun _ => True) parent Q P last -> PQInts._minheap Q <> [] ->
  exists Q1 u P1,
    PQInts.extractMin Q = Some (Q1, u) /\ u < n /\
    PQInts.size Q = S (PQInts.size Q1) /\
    extracted Q1 u /\
    prim_inv (fun e => fst (fst e) <> u) parent Q1 P1 (Some u).
Proof.
  intros Inv Hne.
  destruct (extractMin_ok n Q (pi_wf _ _ _ _ _ Inv) Hne)
    as (Q1 & u & kappa & E & W1 & Bu & Hmin & Hb1 & Hsize).
  assert (Hu : u < n).
  { apply binds_lookup in Bu as [k Hk].
    apply (wf_lt n Q k _ (pi_wf _ _ _ _ _ Inv) Hk). }
  assert (Hpend1 : forall y, pending Q1 y <-> y <> u /\ pending Q y).
  { intros y. unfold pending. split.
    - intros [k Hk]. apply Hb1 in Hk as [? ?]. eauto.
    - intros [Hy [k Hk]]. exists k. apply Hb1. auto. }
  assert (Hpu : pending Q u) by (exists kappa; exact Bu).
  assert (Hext1 : forall y, extracted Q1 y <-> extracted Q y \/ y = u).
  { intros y. unfold extracted. rewrite Hpend1. split.
    - intros [Hy Hn]. destruct (decide (y = u)); [now right|left].
      split; [exact Hy|]. intros Hp. apply Hn. auto.
    - intros [[Hy Hn]| ->]; (split; [assumption|]); intros [? ?]; auto. }
  assert (Hnu : ~ extracted Q u) by (intros [_ H]; auto).
  (* the tree edge of [u], when it has one *)
  assert (HP1 : exists P1,
            (P1 = P /\ parent !! u = Some None) \/
            (exists p w, P1 = (p, u, w) :: P /\ kappa = Fin w /\
               parent !! u = Some (Some p) /\ extracted Q p /\
               In (p, u, w) G)).
  { destruct (pi_parent _ _ _ _ _ Inv u kappa Bu)
      as [[_ Hp]|[(_ & _ & Hp & _)|(p & w & Hk & Hp & He & Hin)]].
    - exists P. now left.
    - exists P. now left.
    - exists ((p, u, w) :: P). right. exists p, w. auto. }
  destruct HP1 as [P1 HP1].
  assert (Hsub : forall e, In e P -> In e P1).
  { intros e He. destruct HP1 as [[-> _]|(p & w & -> & _)]; [exact He|now right]. }
  assert (Hmono : forall t x y, conn (upto t P) x y -> conn (upto t P1) x y).
  { intros t x y. apply conn_mono. intros e He.
    apply upto_In in He as [? ?]. apply upto_In. auto. }
  (* every vertex extracted between an end [a] of a light edge and [u] was
     attached by a light edge *)
  assert (Hlink : forall t a v w kv,
            extracted Q a -> binds Q v kv -> In (a, v, w) G -> (w <= t)%Z ->
            exists l, last = Some l /\ conn (upto t P1) l u).
  { intros t a v w kv Ha Bv Hin Hwt.
    pose proof (pi_key _ _ _ _ _ Inv a v w kv Ha Bv Hin I) as Hkv.
    pose proof (prio_le_trans _ _ _ (Hmin v kv Bv) Hkv) as Hk.
    destruct (pi_parent _ _ _ _ _ Inv u kappa Bu)
      as [[-> _]|[(_ & _ & _ & Hall)|(p & kz & -> & Hp & He & Hinp)]].
    - now apply prio_le_Inf_Fin in Hk.
    - destruct Ha as [Ha Hna]. exfalso. apply Hna, Hall, Ha.
    - apply prio_le_Fin in Hk.
      destruct (pi_run _ _ _ _ _ Inv t p u kz He Hpu Hinp) as (l & Hl & Hc);
        [lia|].
      exists l. split; [exact Hl|].
      destruct HP1 as [[_ Hp']|(p' & w' & -> & Hk' & Hp' & _ & _)];
        [congruence|].
      injection Hk' as <-. assert (p' = p) by congruence. subst p'.
      eapply conn_trans; [apply conn_sym, conn_cons_mono, Hc|].
      eapply conn_edge. apply upto_In. split; [now left|simpl; lia]. }
  exists Q1, u, P1. split; [exact E|]. split; [exact Hu|].
  split; [exact Hsize|]. split; [apply Hext1; now right|].
  constructor.
  - exact W1.
  - apply (pi_len _ _ _ _ _ Inv).
  - intros a v w kv Ha Bv Hin Hneq. simpl in Hneq.
    apply Hext1 in Ha as [Ha|Ha]; [|contradiction].
    apply Hb1 in Bv as [_ Bv].
    apply (pi_key _ _ _ _ _ Inv a v w kv Ha Bv Hin I).
  - intros v kv Bv. apply Hb1 in Bv as [Hvu Bv].
    destruct (pi_parent _ _ _ _ _ Inv v kv Bv)
      as [H1|[(-> & -> & Hp & Hall)|(p & w & Hk & Hp & He & Hin)]].
    + now left.
    + exfalso. pose proof (Hmin r (Fin 0) Bv) as Hk.
      destruct (pi_parent _ _ _ _ _ Inv u kappa Bu)
        as [[-> _]|[(_ & Hur & _)|(p & kz & _ & _ & [Hp' Hnp] & _)]].
      * now apply prio_le_Inf_Fin in Hk.
      * congruence.
      * apply Hnp, Hall, Hp'.
    + right. right. exists p, w. split; [exact Hk|]. split; [exact Hp|].
      split; [apply Hext1; now left|exact Hin].
  - intros p v w Hin.
    assert (Hold : In (p, v, w) P ->
              extracted Q1 p /\ extracted Q1 v /\ In (p, v, w) G /\
              parent !! v = Some (Some p) /\
              forall w', In (p, v, w') G -> (w <= w')%Z).
    { intros HinP.
      destruct (pi_tree _ _ _ _ _ Inv p v w HinP) as (H1 & H2 & H3 & H4 & H5).
      split; [apply Hext1; now left|]. split; [apply Hext1; now left|]. auto. }
    destruct HP1 as [[-> _]|(p' & w' & -> & Hk & Hp & He & Hin')];
      [now apply Hold|].
    destruct Hin as [[= <- <- <-]|Hin]; [|now apply Hold].
    split; [apply Hext1; now left|]. split; [apply Hext1; now right|].
    split; [exact Hin'|]. split; [exact Hp|].
    intros w'' Hin''. apply prio_le_Fin. rewrite <- Hk.
    apply (pi_key _ _ _ _ _ Inv p' u w'' kappa He Bu Hin'' I).
  - intros v p Hv Hp. apply Hext1 in Hv as [Hv| ->].
    + destruct (pi_complete _ _ _ _ _ Inv v p Hv Hp) as [w Hw].
      exists w. now apply Hsub.
    + destruct HP1 as [[_ Hp']|(p' & w' & -> & _ & Hp' & _)]; [congruence|].
      assert (p' = p) by congruence. subst p'. exists w'. now left.
  - destruct HP1 as [[-> _]|(p' & w' & -> & _)];
      [apply (pi_nodup _ _ _ _ _ Inv)|].
    simpl. constructor; [|apply (pi_nodup _ _ _ _ _ Inv)].
    intros Hin. apply in_map_iff in Hin as ([[a b] c] & Heq & Hin).
    simpl in Heq. subst b.
    destruct (pi_tree _ _ _ _ _ Inv a u c Hin) as (_ & Hx & _). auto.
  - destruct HP1 as [[-> _]|(p' & w' & -> & _ & _ & He & _)];
      [apply (pi_indep _ _ _ _ _ Inv)|].
    simpl. split; [|apply (pi_indep _ _ _ _ _ Inv)].
    intros Hc. apply conn_touches in Hc as [->|[_ (a & b & c & Hin & Hab)]];
      [auto|].
    destruct (pi_tree _ _ _ _ _ Inv a b c Hin) as (Ha & Hb & _).
    destruct Hab as [->| ->]; auto.
  - intros t a v w Ha Hv Hin Hwt. exists u. split; [reflexivity|].
    apply Hext1 in Ha as [Ha| ->]; [|apply conn_refl].
    apply Hpend1 in Hv as [_ Hv].
    destruct (pi_run _ _ _ _ _ Inv t a v w Ha Hv Hin Hwt) as (l & Hl & Hc).
    destruct Hv as [kv Bv].
    destruct (Hlink t a v w kv Ha Bv Hin Hwt) as (l' & Hl' & Hc').
    assert (l' = l) by congruence. subst l'.
    eapply conn_trans; [apply Hmono, Hc|exact Hc'].
  - intros t a b w Ha Hb Hin Hwt.
    assert (Hone : forall a', extracted Q a' -> In (a', u, w) G ->
              conn (upto t P1) a' u).
    { intros a' Ha' Hin'.
      destruct (pi_run _ _ _ _ _ Inv t a' u w Ha' Hpu Hin' Hwt)
        as (l & Hl & Hc).
      destruct (Hlink t a' u w kappa Ha' Bu Hin' Hwt) as (l' & Hl' & Hc').
      assert (l' = l) by congruence. subst l'.
      eapply conn_trans; [apply Hmono, Hc|exact Hc']. }
    apply Hext1 in Ha as [Ha| ->]; apply Hext1 in Hb as [Hb| ->].
    + apply Hmono. apply (pi_conn _ _ _ _ _ Inv t a b w Ha Hb Hin Hwt).
    + now apply Hone.
    + apply conn_sym, Hone; [exact Hb|].
      now apply (built_sym _ Hbuilt).
    + apply conn_refl.
Qed.

(** One iteration of the loop over the adjacency list of [u]. *)
Lemma prim_relax_ok (R : wedge -> Prop) u parent Q P v w :
  prim_inv R parent Q P (Some u) -> extracted Q u -> In (u, v, w) G ->
  exists parent' Q',
    MST.prim_relax u (parent, Q) (v, w) = Some (parent', Q') /\
    PQInts.size Q' = PQInts.size Q /\ extracted Q' u /\
    prim_inv (fun e => R e \/ e = (u, v, w)) parent' Q' P (Some u).
Proof.
  intros Inv Hu Hin. pose proof (pi_wf _ _ _ _ _ Inv) as W.
  assert (Hv : v < n) by (apply (built_range _ Hbuilt u v w Hin)).
  unfold MST.prim_relax.
  assert (Hsame : forall (Hk : forall a v' w' kv,
              extracted Q a -> binds Q v' kv -> In (a, v', w') G ->
              (a, v', w') = (u, v, w) -> prio_le kv (Fin w')),
            prim_inv (fun e => R e \/ e = (u, v, w)) parent Q P (Some u)).
  { intros Hk. destruct Inv as [W' L K Pa T C N I Ru Co].
    constructor; auto.
    intros a v' w' kv Ha Bv Hin' [HR|Heq]; eauto. }
  destruct (bound_or_unbound n Q v W Hv) as [[kv Bv]|Hnb].
  - rewrite (contains_bound n Q v kv W Bv).
    rewrite (getPriority_bound n Q v kv W Bv).
    destruct (prio_ltb (Fin w) kv) eqn:Hlt.
    + rewrite set_at_lt by (rewrite (pi_len _ _ _ _ _ Inv); exact Hv).
      destruct (changePriority_ok n Q v kv (Fin w) W Bv)
        as (Q' & -> & W' & Hb' & Hsize).
      assert (Hpend : forall y, pending Q' y <-> pending Q y).
      { intros y. unfold pending. split.
        - intros [k Hk]. apply Hb' in Hk as [[-> _]|[_ Hk]]; eauto.
        - intros [k Hk]. destruct (decide (y = v)) as [->|Hne].
          + exists (Fin w). apply Hb'. now left.
          + exists k. apply Hb'. now right. }
      assert (Hext : forall y, extracted Q' y <-> extracted Q y).
      { intros y. unfold extracted. now rewrite Hpend. }
      assert (Hvl : v < length parent)
        by (rewrite (pi_len _ _ _ _ _ Inv); exact Hv).
      assert (Hpar : forall y, extracted Q y ->
                <[v:=Some u]> parent !! y = parent !! y).
      { intros y [_ Hy]. apply list_lookup_insert_ne.
        intros ->. apply Hy. now exists kv. }
      eexists _, Q'. split; [reflexivity|]. split; [exact Hsize|].
      split; [now apply Hext|].
      constructor.
      * exact W'.
      * rewrite length_insert. apply (pi_len _ _ _ _ _ Inv).
      * intros a v' w' kv' Ha Bv' Hin' HR. apply Hext in Ha.
        apply Hb' in Bv' as [[-> ->]|[Hne Bv']].
        -- destruct HR as [HR|[= -> <-]]; [|apply prio_le_refl].
           eapply prio_le_trans; [apply prio_ltb_le, Hlt|].
           apply (pi_key _ _ _ _ _ Inv a v w' kv Ha Bv Hin' HR).
        -- destruct HR as [HR|[= _ -> _]]; [|congruence].
           apply (pi_key _ _ _ _ _ Inv a v' w' kv' Ha Bv' Hin' HR).
      * intros v' kv' Bv'. apply Hb' in Bv' as [[-> ->]|[Hne Bv']].
        -- right. right. exists u, w. split; [reflexivity|].
           split; [now apply list_lookup_insert_eq|].
           split; [now apply Hext|exact Hin].
        -- rewrite list_lookup_insert_ne by auto.
           destruct (pi_parent _ _ _ _ _ Inv v' kv' Bv')
             as [H1|[(H1 & H2 & H3 & H4)|(p & w' & H1 & H2 & H3 & H4)]].
           ++ now left.
           ++ right. left. repeat (split; [assumption|]).
              intros y Hy. apply Hpend, H4, Hy.
           ++ right. right. exists p, w'. repeat (split; [assumption|]).
              split; [now apply Hext|exact H4].
      * intros p v' w' HinP.
        destruct (pi_tree _ _ _ _ _ Inv p v' w' HinP)
          as (H1 & H2 & H3 & H4 & H5).
        split; [now apply Hext|]. split; [now apply Hext|].
        split; [exact H3|]. split; [|exact H5]. now rewrite Hpar.
      * intros v' p Hv' Hp. apply Hext in Hv'. rewrite Hpar in Hp by exact Hv'.
        apply (pi_complete _ _ _ _ _ Inv v' p Hv' Hp).
      * apply (pi_nodup _ _ _ _ _ Inv).
      * apply (pi_indep _ _ _ _ _ Inv).
      * intros t a v' w' Ha Hv' Hin' Hwt. apply Hext in Ha.
        apply Hpend in Hv'.
        apply (pi_run _ _ _ _ _ Inv t a v' w' Ha Hv' Hin' Hwt).
      * intros t a b w' Ha Hb Hin' Hwt. apply Hext in Ha. apply Hext in Hb.
        apply (pi_conn _ _ _ _ _ Inv t a b w' Ha Hb Hin' Hwt).
    + exists parent, Q. split; [reflexivity|]. split; [reflexivity|].
      split; [exact Hu|]. apply Hsame.
      intros a v' w' kv' Ha Bv' Hin' [= -> -> ->].
      now rewrite (binds_fun n Q v kv' kv W Bv' Bv).
  - rewrite (contains_unbound n Q v W Hv Hnb).
    exists parent, Q. split; [reflexivity|]. split; [reflexivity|].
    split; [exact Hu|]. apply Hsame.
    intros a v' w' kv' Ha Bv' Hin' [= -> -> ->]. now apply Hnb in Bv'.
Qed.

(** The loop over the adjacency list of [u]. *)
Lemma prim_relax_fold u vs : forall (R : wedge -> Prop) parent Q P,
  prim_inv R parent Q P (Some u) -> extracted Q u ->
  (forall vw, In vw vs -> In (u, fst vw, snd vw) G) ->
  exists parent' Q',
    foldM (MST.prim_relax u) (parent, Q) vs = Some (parent', Q') /\
    PQInts.size Q' = PQInts.size Q /\ extracted Q' u /\
    prim_inv (fun e => R e \/ exists vw, In vw vs /\ e = (u, fst vw, snd vw))
             parent' Q' P (Some u).
Proof.
  induction vs as [|[v w] vs IH]; intros R parent Q P Inv Hu Hin.
  - exists parent, Q. split; [reflexivity|]. split; [reflexivity|].
    split; [exact Hu|].
    eapply prim_inv_weaken; [|exact Inv].
    intros e _ [HR|(vw & [] & _)]. exact HR.
  - destruct (prim_relax_ok R u parent Q P v w Inv Hu)
      as (parent1 & Q1 & H1 & S1 & U1 & Inv1).
    { apply (Hin (v, w)). now left. }
    destruct (IH _ parent1 Q1 P Inv1 U1)
      as (parent' & Q' & H' & S' & U' & Inv').
    { intros vw Hvw. apply Hin. now right. }
    exists parent', Q'. cbn [foldM]. rewrite H1. split; [exact H'|].
    split; [congruence|]. split; [exact U'|].
    eapply prim_inv_weaken; [|exact Inv'].
    intros e _ [HR|(vw & [<-|Hvw] & ->)].
    + left. now left.
    + left. now right.
    + right. eauto.
Qed.

(** The loop [while not Q.isEmpty()]. *)
Lemma prim_loop_ok fuel : forall parent Q P last,
  prim_inv (fun _ => True) parent Q P last -> PQInts.size Q < fuel ->
  exists parent' Q' P' last',
    MST.prim_loop fuel g parent Q = Some (parent', Q') /\
    PQInts._minheap Q' = [] /\
    prim_inv (fun _ => True) parent' Q' P' last'.
Proof.
  induction fuel as [|fuel IH]; intros parent Q P last Inv Hf; [lia|].
  cbn [MST.prim_loop].
  destruct (PQInts.isEmpty Q) eqn:He.
  - apply isEmpty_spec in He. exists parent, Q, P, last. auto.
  - assert (Hne : PQInts._minheap Q <> []).
    { intros H. apply isEmpty_spec in H. congruence. }
    destruct (prim_extract parent Q P last Inv Hne)
      as (Q1 & u & P1 & -> & Hu & Hsize & Hext & Inv1).
    destruct (lookup_lt_is_Some_2 g u Hu) as [uList HuList].
    rewrite HuList.
    destruct (prim_relax_fold u (iter uList) _ parent Q1 P1 Inv1 Hext)
      as (parent2 & Q2 & -> & S2 & U2 & Inv2).
    { intros [v w] Hvw. apply In_entries. eauto. }
    apply (IH parent2 Q2 P1 (Some u)); [|lia].
    eapply prim_inv_weaken; [|exact Inv2].
    intros [[a v] w] Hin _. destruct (decide (a = u)) as [->|Hne'].
    + right. apply In_entries in Hin as (l & Hl & Hvw).
      exists (v, w). split; [|reflexivity]. congruence.
    + now left.
Qed.

(** The queue built before the loop: the root at priority 0 and every other
    vertex at [math.inf]. *)
Lemma prim_queue_fold us : forall Q done,
  wf n Q -> List.NoDup (done ++ us) -> (forall u, In u us -> u < n) ->
  (forall y k, binds Q y k <->
     (y = r /\ k = Fin 0) \/ (y <> r /\ In y done /\ k = Inf)) ->
  exists Q',
    foldM (fun Q u =>
             if negb (u =? r) then
               let* (Q', _) := PQInts.insert Q u Inf in Some Q'
             else Some Q) Q us = Some Q' /\
    wf n Q' /\
    forall y k, binds Q' y k <->
      (y = r /\ k = Fin 0) \/ (y <> r /\ In y (done ++ us) /\ k = Inf).
Proof.
  induction us as [|u us IH]; intros Q done W ND Hus Hb.
  - exists Q. split; [reflexivity|]. split; [exact W|].
    intros y k. rewrite app_nil_r. apply Hb.
  - assert (Hnext : forall Q1, wf n Q1 ->
              (forall y k, binds Q1 y k <->
                 (y = r /\ k = Fin 0) \/
                 (y <> r /\ In y (done ++ [u]) /\ k = Inf)) ->
              exists Q',
                foldM (fun Q u =>
                         if negb (u =? r) then
                           let* (Q', _) := PQInts.insert Q u Inf in Some Q'
                         else Some Q) Q1 us = Some Q' /\
                wf n Q' /\
                forall y k, binds Q' y k <->
                  (y = r /\ k = Fin 0) \/
                  (y <> r /\ In y (done ++ u :: us) /\ k = Inf)).
    { intros Q1 W1 Hb1.
      destruct (IH Q1 (done ++ [u]) W1) as (Q' & H' & W' & Hb').
      - now rewrite <- app_assoc.
      - intros x Hx. apply Hus. now right.
      - exact Hb1.
      - exists Q'. split; [exact H'|]. split; [exact W'|].
        intros y k. rewrite Hb'. now rewrite <- app_assoc. }
    cbn [foldM]. destruct (Nat.eqb_spec u r) as [->|Hne]; simpl negb; cbv iota.
    + apply Hnext; [exact W|]. intros y k. rewrite Hb, in_app_iff. simpl.
      intuition congruence.
    + destruct (insert_ok n Q u Inf W) as (Q1 & -> & W1 & Hb1).
      * apply Hus. now left.
      * intros k Hk. apply Hb in Hk as [[? _]|(_ & Hin & _)]; [congruence|].
        apply NoDup_remove_2 in ND. apply ND. apply in_or_app. now left.
      * apply Hnext; [exact W1|]. intros y k.
        rewrite Hb1, Hb, in_app_iff. simpl. intuition congruence.
Qed.

Lemma prim_start :
  exists Q2,
    (let* (Q1, _) := PQInts.insert (PQInts.init n) r (Fin 0) in
     foldM (fun Q u =>
              if negb (u =? r) then
                let* (Q', _) := PQInts.insert Q u Inf in Some Q'
              else Some Q) Q1 (seq 0 n)) = Some Q2 /\
    prim_inv (fun _ => True) (replicate n None) Q2 [] None.
Proof.
  destruct (insert_ok n (PQInts.init n) r (Fin 0) (wf_init n) Hr)
    as (Q1 & -> & W1 & Hb1).
  { intros k Hk. exact Hk. }
  destruct (prim_queue_fold (seq 0 n) Q1 [] W1) as (Q2 & -> & W2 & Hb2).
  - apply List.seq_NoDup.
  - intros u Hu. apply in_seq in Hu. lia.
  - intros y k. rewrite Hb1. unfold binds. simpl. tauto.
  - exists Q2. split; [reflexivity|].
    assert (Hall : forall y, y < n -> pending Q2 y).
    { intros y Hy. destruct (decide (y = r)) as [->|Hne].
      - exists (Fin 0). apply Hb2. now left.
      - exists Inf. apply Hb2. right. split; [exact Hne|].
        split; [|reflexivity]. apply in_seq. lia. }
    assert (Hno : forall a, ~ extracted Q2 a).
    { intros a [Ha Hn]. apply Hn, Hall, Ha. }
    constructor.
    + exact W2.
    + apply length_replicate.
    + intros a v w kv Ha. now apply Hno in Ha.
    + intros v kv Bv. apply Hb2 in Bv as [[-> ->]|(Hne & Hin & ->)].
      * right. left. split; [reflexivity|]. split; [reflexivity|].
        split; [now apply lookup_replicate_2|exact Hall].
      * left. split; [reflexivity|]. apply lookup_replicate_2.
        apply in_seq in Hin. lia.
    + intros p v w [].
    + intros v p Hv. now apply Hno in Hv.
    + constructor.
    + exact I.
    + intros t a v w Ha. now apply Hno in Ha.
    + intros t a b w Ha. now apply Hno in Ha.
Qed.

(** The comprehension over [enumerate(parent)]. *)
Definition parent_pairs (parent : list (option nat)) : list (nat * nat) :=
  flat_map (fun vu : nat * option nat =>
              match snd vu with
              | Some u => [(u, fst vu)]
              | None => []
              end)
           (enumerate parent).

Lemma parent_pairs_spec (parent : list (option nat)) :
  List.NoDup (parent_pairs parent) /\
  forall u v, In (u, v) (parent_pairs parent) <-> parent !! v = Some (Some u).
Proof.
  unfold parent_pairs, enumerate.
  assert (Hgen : forall (l : list (option nat)) k,
    let res := flat_map (fun vu : nat * option nat =>
                           match snd vu with
                           | Some u => [(u, fst vu)]
                           | None => []
                           end)
                        (imap (fun i x => (k + i, x)) l) in
    List.NoDup res /\
    forall u v, In (u, v) res <-> k <= v /\ l !! (v - k) = Some (Some u)).
  { induction l as [|x l IH]; intros k; simpl.
    - split; [constructor|]. intros u v. split; [intros []|intros [_ H]].
      discriminate H.
    - destruct (IH (S k)) as [ND Hin].
      assert (Hext : imap (compose (fun i x => (k + i, x)) S) l
                     = imap (fun i x => (S k + i, x)) l).
      { apply imap_ext. intros i y _. simpl. f_equal. lia. }
      rewrite Hext. rewrite Nat.add_0_r.
      destruct x as [u0|]; simpl.
      + split.
        * constructor; [|exact ND]. intros H. apply Hin in H. lia.
        * intros u v. rewrite Hin. split.
          -- intros [[= <- <-]|[Hk Hl]].
             ++ split; [lia|]. now rewrite Nat.sub_diag.
             ++ split; [lia|]. replace (v - k) with (S (v - S k)) by lia.
                exact Hl.
          -- intros [Hk Hl]. destruct (decide (v = k)) as [->|Hne].
             ++ rewrite Nat.sub_diag in Hl. simpl in Hl. left. congruence.
             ++ right. split; [lia|].
                replace (v - k) with (S (v - S k)) in Hl by lia. exact Hl.
      + split; [exact ND|]. intros u v. rewrite Hin. split.
        * intros [Hk Hl]. split; [lia|].
          replace (v - k) with (S (v - S k)) by lia. exact Hl.
        * intros [Hk Hl]. destruct (decide (v = k)) as [->|Hne].
          -- rewrite Nat.sub_diag in Hl. discriminate Hl.
          -- split; [lia|].
             replace (v - k) with (S (v - S k)) in Hl by lia. exact Hl. }
  destruct (Hgen parent 0) as [ND Hin]. simpl in ND, Hin.
  split; [exact ND|]. intros u v. rewrite Hin, Nat.sub_0_r.
  split; [tauto|]. intros H. split; [lia|exact H].
Qed.

(** [mstPrim] returns the pairs of a forest [P] of edges of the graph that,
    below every threshold, joins the same vertices as the graph, each taken
    with the least weight stored for its pair. *)
Lemma mstPrim_spec :
  exists A P,
    MST.mstPrim g r = Some A /\ Permutation A (map fst P) /\
    indep P /\ ends_below n P /\
    (forall t x y, conn (upto t P) x y <-> conn (upto t G) x y) /\
    (forall u v w, In (u, v, w) P ->
       In (u, v, w) G /\ MST.edge_weight g (u, v) = w).
Proof.
  destruct prim_start as (Q2 & HQ2 & Inv0).
  destruct (prim_loop_ok (S (PQInts.size Q2)) _ Q2 [] None Inv0)
    as (parent & Q & P & last & Hloop & Hempty & Inv); [lia|].
  assert (Hext : forall y, y < n -> extracted Q y).
  { intros y Hy. split; [exact Hy|]. intros [k Hk].
    unfold binds in Hk. now rewrite Hempty in Hk. }
  destruct (parent_pairs_spec parent) as [ND Hin].
  exists (parent_pairs parent), P.
  split; [|split; [|split; [apply Inv|split; [|split]]]].
  - unfold MST.mstPrim, WeightedGraph.numVertices. fold n.
    destruct (PQInts.insert (PQInts.init n) r (Fin 0)) as [[Q1 b]|];
      [|discriminate].
    cbv zeta in HQ2. rewrite HQ2. rewrite Hloop.
    f_equal. fold (parent_pairs parent). now apply set_of_NoDup.
  - apply NoDup_Permutation.
    + now apply NoDup_ListNoDup.
    + apply NoDup_ListNoDup.
      apply (List.NoDup_map_inv snd). rewrite map_map.
      apply (pi_nodup _ _ _ _ _ Inv).
    + intros [u v]. rewrite !list_elem_of_In, Hin. split.
      * intros Hp. assert (Hv : v < n).
        { rewrite <- (pi_len _ _ _ _ _ Inv). eapply lookup_lt_Some; eauto. }
        destruct (pi_complete _ _ _ _ _ Inv v u (Hext v Hv) Hp) as [w Hw].
        apply in_map_iff. exists (u, v, w). auto.
      * intros Hm. apply in_map_iff in Hm as ([[a b] c] & [= -> ->] & HP).
        apply (pi_tree _ _ _ _ _ Inv u v c HP).
  - intros u v w HP.
    destruct (pi_tree _ _ _ _ _ Inv u v w HP) as ([Hu _] & [Hv _] & _). auto.
  - intros t x y. split.
    + apply conn_mono. intros [[a b] c] He.
      apply upto_In in He as [He Hle]. apply upto_In. split; [|exact Hle].
      apply (pi_tree _ _ _ _ _ Inv a b c He).
    + induction 1 as [x|a b c He|x y _ IH|x y z _ IH1 _ IH2].
      * apply conn_refl.
      * apply upto_In in He as [He Hle]. simpl in Hle.
        destruct (built_range _ Hbuilt a b c He) as [Ha Hb].
        apply (pi_conn _ _ _ _ _ Inv t a b c (Hext a Ha) (Hext b Hb) He Hle).
      * now apply conn_sym.
      * eapply conn_trans; eauto.
  - intros u v w HP.
    destruct (pi_tree _ _ _ _ _ Inv u v w HP) as (_ & _ & HG & _ & Hmin).
    split; [exact HG|]. now apply edge_weight_least.
Qed.

End Prim.

(** ** Kruskal and Prim return sets of the same total weight *)

(** C1.  For every weighted undirected graph built by the constructor from a
    vertex count, an edge list and a list of (integer) weights, and every
    vertex [r] of it, [mstKruskal()] and [mstPrim(r)] both return a set of
    pairs, each of them an edge of the graph, and the two sets have the same
    total weight, an edge counting with its weight in the graph.  The graph
    need not be connected for this (the two sets are then spanning forests),
    so it holds of every connected graph in particular.  [mstKruskal] calls
    [union] for vertices of different sets only, so that the chains of its
    forest have at most [log2 v] links: it needs a recursion limit that
    allows [findset] more than [log2 v] nested calls, which the default
    limit does for every graph.  On the graph with 4 vertices and the edges
    (0,1) of weight 1, (1,2) of weight 2, (2,3) of weight 1 and (0,3) of
    weight 4, both [mstKruskal()] and [mstPrim(0)] return the set of (0,1),
    (1,2) and (2,3), of total weight 4. *)
Theorem mstKruskal_mstPrim_equal_weight :
  (forall limit v edges weights g r,
     WeightedGraph.init v edges weights = Some g -> r < v ->
     Nat.log2 v < limit ->
     exists K P,
       MST.mstKruskal limit g = Some K /\ MST.mstPrim g r = Some P /\
       (forall a b, In (a, b) K -> exists w, In (a, b, w) (entries g)) /\
       (forall a b, In (a, b) P -> exists w, In (a, b, w) (entries g)) /\
       MST.total_weight g K = MST.total_weight g P) /\
  (exists g,
     WeightedGraph.init 4 [(0, 1); (1, 2); (2, 3); (0, 3)] [1; 2; 1; 4]%Z
     = Some g /\
     exists K P,
       (forall limit, 3 <= limit -> MST.mstKruskal limit g = Some K) /\
       MST.mstPrim g 0 = Some P /\
       Permutation K [(0, 1); (1, 2); (2, 3)] /\
       Permutation P [(0, 1); (1, 2); (2, 3)] /\
       MST.total_weight g K = 4%Z /\ MST.total_weight g P = 4%Z).
Proof.
  split.
  - intros limit v edges weights g r Hg Hr Hl.
    destruct (built_init v edges weights g Hg) as [Hb <-].
    destruct (mstKruskal_spec g Hb limit Hl)
      as (A & K & HK & HA & IK & EK & CK & WK).
    destruct (mstPrim_spec g Hb r Hr) as (B & P & HP & HB & IP & EP & CP & WP).
    assert (PA : Permutation A (map fst K)).
    { rewrite HA, map_rev. symmetry. apply Permutation_rev. }
    exists A, B. split; [exact HK|]. split; [exact HP|].
    split; [|split].
    + intros a b Hin. apply (Permutation_in _ PA) in Hin.
      apply in_map_iff in Hin as ([[a' b'] w] & [= -> ->] & Hin).
      exists w. now apply WK.
    + intros a b Hin. apply (Permutation_in _ HB) in Hin.
      apply in_map_iff in Hin as ([[a' b'] w] & [= -> ->] & Hin).
      exists w. now apply WP.
    + rewrite (total_weight_perm g A _ PA), (total_weight_perm g B _ HB).
      rewrite (total_weight_sum g K), (total_weight_sum g P).
      * apply (spanning_forests_same_weight (length g) (entries g));
          assumption.
      * intros a b w Hin. now apply WP.
      * intros a b w Hin. now apply WK.
  - eexists. split; [vm_compute; reflexivity|].
    exists [(0, 1); (2, 3); (1, 2)], [(0, 1); (1, 2); (2, 3)].
    split.
    { intros [|[|[|limit]]] Hl; try lia. vm_compute. reflexivity. }
    split; [vm_compute; reflexivity|].
    split; [apply perm_skip, perm_swap|]. split; [reflexivity|].
    split; vm_compute; reflexivity.
Qed.

(** A triangle with three equal weights: Kruskal's algorithm and Prim's from
    vertex 1 choose different edges of the same total weight. *)
Lemma mstKruskal_mstPrim_equal_weight_witness :
  exists g,
    WeightedGraph.init 3 [(0, 1); (1, 2); (0, 2)] [5; 5; 5]%Z = Some g /\
    1 < 3 /\ Nat.log2 3 < 1000 /\
    exists K P,
      MST.mstKruskal 1000 g = Some K /\ MST.mstPrim g 1 = Some P /\
      MST.total_weight g K = MST.total_weight g P.
Proof.
  eexists. split; [vm_compute; reflexivity|]. split; [lia|].
  assert (Hl : Nat.log2 3 < 1000) by (cbn; lia).
  split; [exact Hl|].
  destruct (proj1 mstKruskal_mstPrim_equal_weight 1000 3
              [(0, 1); (1, 2); (0, 2)] [5; 5; 5]%Z _ 1 eq_refl)
    as (K & P & HK & HP & _ & _ & HW); [lia|exact Hl|].
  exists K, P. auto.
Defined.

(** ** Depth-first search and topological sort *)

(** [arc adj u v]: the adjacency list of [u] holds [v]. *)
Definition arc (adj : list (_AdjacencyList nat)) (u v : nat) : Prop :=
  exists l, adj !! u = Some l /\ In v (iter l).

(** A walk along arcs, possibly empty. *)
Inductive walk (adj : list (_AdjacencyList nat)) : nat -> nat -> Prop :=
| walk_nil x : walk adj x x
| walk_cons x y z : arc adj x y -> walk adj y z -> walk adj x z.

(** No arc closes a walk: the graph has no directed cycle. *)
Definition acyclic (adj : list (_AdjacencyList nat)) : Prop :=
  forall u v, arc adj u v -> ~ walk adj v u.

(** Every stored target is a vertex. *)
Definition targets_in_range (adj : list (_AdjacencyList nat)) : Prop :=
  forall u v, arc adj u v -> v < length adj.

(** [x] occurs in [l] at an earlier position than [y]. *)
Definition before {A} (x y : A) (l : list A) : Prop :=
  exists l1 l2 l3, l = l1 ++ x :: l2 ++ y :: l3.

Lemma walk_snoc adj x y z : walk adj x y -> arc adj y z -> walk adj x z.
Proof.
  induction 1 as [x | x y' y Hxy _ IH]; intros Hz.
  - eapply walk_cons; [exact Hz | apply walk_nil].
  - eapply walk_cons; [exact Hxy | auto].
Qed.

Ltac assoc_right :=
  repeat (rewrite <- app_assoc || rewrite <- app_comm_cons).

Lemma before_app_r {A} (x y : A) l k : before x y l -> before x y (l ++ k).
Proof.
  intros (l1 & l2 & l3 & ->). exists l1, l2, (l3 ++ k).
  now assoc_right.
Qed.

Lemma before_snoc {A} (x y : A) l : In x l -> before x y (l ++ [y]).
Proof.
  intros H. apply in_split in H as (l1 & l2 & ->).
  exists l1, l2, []. now assoc_right.
Qed.

Lemma before_rev {A} (x y : A) l : before x y l -> before y x (rev l).
Proof.
  intros (l1 & l2 & l3 & ->). exists (rev l3), (rev l2), (rev l1).
  rewrite rev_app_distr. simpl. rewrite rev_app_distr. simpl.
  now assoc_right.
Qed.

Section DepthFirst.
Import Graph.
Variable adj : list (_AdjacencyList nat).
Hypothesis Hrange : targets_in_range adj.
Hypothesis Hacyclic : acyclic adj.

Abbreviation state := (dfs_state (list nat)).
Abbreviation onFinish := (fun (u : nat) (topSort : list nat) => topSort ++ [u]).

Definition undiscovered (vs : list VertexData) : nat :=
  length (List.filter (fun vd => d vd =? 0) vs).

Lemma undiscovered_insert vs x vd vd' :
  vs !! x = Some vd ->
  undiscovered (<[x := vd']> vs) + (if d vd =? 0 then 1 else 0) =
  undiscovered vs + (if d vd' =? 0 then 1 else 0).
Proof.
  intros Hx. unfold undiscovered.
  assert (Hlt : x < length vs) by (eapply lookup_lt_Some; eauto).
  rewrite insert_take_drop by exact Hlt.
  rewrite <- (take_drop_middle vs x vd Hx) at 3.
  rewrite !List.filter_app, !length_app. simpl.
  destruct (d vd =? 0), (d vd' =? 0); simpl; lia.
Qed.

Lemma undiscovered_le vs : undiscovered vs <= length vs.
Proof. unfold undiscovered. apply List.filter_length_le. Qed.

Definition disc (st : state) (x : nat) : Prop :=
  exists vd, vertices st !! x = Some vd /\ d vd <> 0.
Definition white (st : state) (x : nat) : Prop :=
  exists vd, vertices st !! x = Some vd /\ d vd = 0.
Definition black (st : state) (x : nat) : Prop := In x (callback_state st).
Definition gray (st : state) (x : nat) : Prop := disc st x /\ ~ black st x.

Lemma classic_black st x : black st x \/ ~ black st x.
Proof.
  unfold black. destruct (in_dec Nat.eq_dec x (callback_state st)); auto.
Qed.
Definition ftime (st : state) (x : nat) : option nat :=
  match vertices st !! x with Some vd => f vd | None => None end.

Record dfs_inv (st : state) : Prop := {
  inv_length : length (vertices st) = length adj;
  inv_nodup : List.NoDup (callback_state st);
  inv_disc : forall x, black st x -> disc st x;
  inv_arcs : forall x y,
    black st x -> arc adj x y -> before y x (callback_state st);
  inv_ftime : forall x,
    black st x -> exists t, ftime st x = Some t /\ t <= time st;
  inv_sorted : forall l1 x l2 y tx ty,
    callback_state st = l1 ++ x :: l2 -> In y l1 ->
    ftime st x = Some tx -> ftime st y = Some ty -> ty < tx
}.

Record extends (st st' : state) : Prop := {
  ext_length : length (vertices st') = length (vertices st);
  ext_acc : exists L, callback_state st' = callback_state st ++ L /\
                      forall x, In x L -> white st x;
  ext_disc : forall x, disc st x -> disc st' x;
  ext_new : forall x, disc st' x -> disc st x \/ black st' x;
  ext_frame : forall x, black st x -> vertices st' !! x = vertices st !! x;
  ext_time : time st <= time st';
  ext_count : undiscovered (vertices st') <= undiscovered (vertices st)
}.

Lemma white_not_disc st x : white st x -> ~ disc st x.
Proof. intros (vd & H & Hd) (vd' & H' & Hd'). congruence. Qed.

Lemma white_or_disc st x :
  x < length (vertices st) -> white st x \/ disc st x.
Proof.
  intros Hx. destruct (lookup_lt_is_Some_2 _ _ Hx) as [vd Hvd].
  destruct (Nat.eq_dec (d vd) 0); [left|right]; exists vd; auto.
Qed.

Lemma extends_black st st' x : extends st st' -> black st x -> black st' x.
Proof.
  intros E H. destruct (ext_acc _ _ E) as (L & HL & _).
  unfold black. rewrite HL. apply in_or_app. now left.
Qed.

Lemma extends_white st st' x : extends st st' -> white st' x -> white st x.
Proof.
  intros E H.
  assert (Hx : x < length (vertices st)).
  { rewrite <- (ext_length _ _ E). destruct H as (vd & H & _).
    eapply lookup_lt_Some; eauto. }
  destruct (white_or_disc st x Hx) as [?|Hd]; [assumption|].
  exfalso. eapply white_not_disc; [exact H|]. now apply (ext_disc _ _ E).
Qed.

Lemma extends_refl st : extends st st.
Proof.
  constructor; auto.
  exists []. rewrite app_nil_r. split; [reflexivity|]. intros x [].
Qed.

Lemma extends_trans st1 st2 st3 :
  extends st1 st2 -> extends st2 st3 -> extends st1 st3.
Proof.
  intros E1 E2. constructor.
  - rewrite (ext_length _ _ E2). apply E1.
  - destruct (ext_acc _ _ E1) as (L1 & H1 & W1).
    destruct (ext_acc _ _ E2) as (L2 & H2 & W2).
    exists (L1 ++ L2). rewrite H2, H1, app_assoc. split; [reflexivity|].
    intros x Hx. apply in_app_or in Hx as [Hx|Hx]; [auto|].
    eapply extends_white; eauto.
  - intros x Hx. apply (ext_disc _ _ E2), (ext_disc _ _ E1), Hx.
  - intros x Hx. destruct (ext_new _ _ E2 x Hx) as [H|H]; [|now right].
    destruct (ext_new _ _ E1 x H) as [H'|H']; [now left|right].
    eapply extends_black; eauto.
  - intros x Hx. rewrite (ext_frame _ _ E2), (ext_frame _ _ E1); auto.
    eapply extends_black; eauto.
  - pose proof (ext_time _ _ E1). pose proof (ext_time _ _ E2). lia.
  - pose proof (ext_count _ _ E1). pose proof (ext_count _ _ E2). lia.
Qed.

Lemma extends_gray st st' x : extends st st' -> gray st x -> gray st' x.
Proof.
  intros E [Hd Hb]. split; [now apply (ext_disc _ _ E)|].
  intros Hb'. destruct (ext_acc _ _ E) as (L & HL & W).
  unfold black in Hb'. rewrite HL in Hb'.
  apply in_app_or in Hb' as [H|H]; [auto|].
  eapply white_not_disc; eauto.
Qed.

Lemma extends_gray_inv st st' x : extends st st' -> gray st' x -> gray st x.
Proof.
  intros E [Hd Hb]. destruct (ext_new _ _ E x Hd) as [H|H]; [|contradiction].
  split; [exact H|]. intros Hb'. apply Hb. eapply extends_black; eauto.
Qed.

Lemma lookup_update (vs : list VertexData) v vd' x :
  v < length vs ->
  <[v := vd']> vs !! x = if decide (x = v) then Some vd' else vs !! x.
Proof.
  intros Hv. destruct (decide (x = v)) as [->|Hne].
  - now apply list_lookup_insert_eq.
  - apply list_lookup_insert_ne. congruence.
Qed.

Lemma black_not_white st x : dfs_inv st -> black st x -> ~ white st x.
Proof.
  intros I Hb Hw. eapply white_not_disc; [exact Hw|]. now apply (inv_disc _ I).
Qed.

(** Writing to a vertex outside the finished ones keeps the invariant. *)
Lemma inv_update st v vd vd' t' :
  dfs_inv st -> vertices st !! v = Some vd -> ~ black st v ->
  time st <= t' ->
  dfs_inv (mkDfs (<[v := vd']> (vertices st)) t' (callback_state st)).
Proof.
  intros I Hv Hnb Ht.
  assert (Hlt : v < length (vertices st)) by (eapply lookup_lt_Some; eauto).
  assert (Hsame : forall x, black st x ->
            <[v := vd']> (vertices st) !! x = vertices st !! x).
  { intros x Hx. rewrite lookup_update by exact Hlt.
    destruct (decide (x = v)) as [->|]; [contradiction|reflexivity]. }
  constructor; simpl.
  - rewrite length_insert. apply I.
  - apply I.
  - intros x Hx. destruct (inv_disc _ I x Hx) as (vx & H1 & H2).
    exists vx. simpl. rewrite (Hsame x Hx). auto.
  - apply I.
  - intros x Hx. destruct (inv_ftime _ I x Hx) as (t & H1 & H2).
    exists t. unfold ftime in *. simpl. rewrite (Hsame x Hx).
    split; [exact H1|lia].
  - intros l1 x l2 y tx ty Hacc Hy. unfold ftime. simpl.
    assert (Bx : black st x).
    { unfold black. rewrite Hacc. apply in_or_app. right. now left. }
    assert (By : black st y).
    { unfold black. rewrite Hacc. apply in_or_app. now left. }
    rewrite (Hsame x Bx), (Hsame y By).
    apply (inv_sorted _ I l1 x l2 y tx ty Hacc Hy).
Qed.

(** [vertices[v].pred = u] on an undiscovered [v]. *)
Lemma set_pred_step st v vv u :
  dfs_inv st -> vertices st !! v = Some vv -> d vv = 0 ->
  let st' := mkDfs (<[v := mkVertexData (d vv) (f vv) (Some u)]>
                      (vertices st)) (time st) (callback_state st) in
  dfs_inv st' /\ extends st st' /\ white st' v.
Proof.
  intros I Hv Hd st'.
  assert (Hlt : v < length (vertices st)) by (eapply lookup_lt_Some; eauto).
  assert (Hw : white st v) by (exists vv; auto).
  assert (Hnb : ~ black st v).
  { intros Hb. eapply black_not_white; eauto. }
  split; [|split].
  - eapply inv_update; eauto.
  - constructor; simpl.
    + apply length_insert.
    + exists []. rewrite app_nil_r. split; [reflexivity|]. intros x [].
    + intros x (vx & H1 & H2). exists vx. simpl.
      rewrite lookup_update by exact Hlt.
      destruct (decide (x = v)) as [->|]; [congruence|auto].
    + intros x (vx & H1 & H2). left. simpl in H1.
      rewrite lookup_update in H1 by exact Hlt.
      destruct (decide (x = v)) as [->|].
      * injection H1 as <-. simpl in H2. congruence.
      * exists vx. auto.
    + intros x Hx. rewrite lookup_update by exact Hlt.
      destruct (decide (x = v)) as [->|]; [contradiction|reflexivity].
    + lia.
    + pose proof (undiscovered_insert (vertices st) v vv
                    (mkVertexData (d vv) (f vv) (Some u)) Hv) as H.
      simpl in H. lia.
  - eexists. simpl. rewrite list_lookup_insert_eq by exact Hlt.
    split; [reflexivity|exact Hd].
Qed.

(** [time = time + 1; vertices[u].d = time] on an undiscovered [u]. *)
Lemma set_d_step st u vu :
  dfs_inv st -> vertices st !! u = Some vu -> d vu = 0 ->
  let st1 := mkDfs (<[u := mkVertexData (time st + 1) (f vu) (pred vu)]>
                      (vertices st)) (time st + 1) (callback_state st) in
  dfs_inv st1 /\ gray st1 u /\
  (forall x, x <> u -> vertices st1 !! x = vertices st !! x) /\
  undiscovered (vertices st1) + 1 = undiscovered (vertices st).
Proof.
  intros I Hu Hd st1.
  assert (Hlt : u < length (vertices st)) by (eapply lookup_lt_Some; eauto).
  assert (Hnb : ~ black st u).
  { intros Hb. eapply black_not_white; eauto. exists vu; auto. }
  split; [|split; [|split]].
  - eapply inv_update; eauto. lia.
  - split; [|exact Hnb]. eexists. simpl.
    rewrite list_lookup_insert_eq by exact Hlt. split; [reflexivity|].
    simpl. lia.
  - intros x Hx. simpl. rewrite lookup_update by exact Hlt.
    destruct (decide (x = u)); [contradiction|reflexivity].
  - pose proof (undiscovered_insert (vertices st) u vu
                  (mkVertexData (time st + 1) (f vu) (pred vu)) Hu) as H.
    simpl in H. rewrite Hd in H. simpl in H.
    replace (time st + 1 =? 0) with false in H; [simpl; lia|].
    symmetry. apply Nat.eqb_neq. lia.
Qed.

(** [time = time + 1; vertices[u].f = time; onFinish(u)] once every target
    of [u] has finished. *)
Lemma set_f_step st u vu :
  dfs_inv st -> vertices st !! u = Some vu -> gray st u ->
  (forall v, arc adj u v -> black st v) ->
  let st3 := mkDfs (<[u := mkVertexData (d vu) (Some (time st + 1)) (pred vu)]>
                      (vertices st)) (time st + 1)
                   (callback_state st ++ [u]) in
  dfs_inv st3 /\ black st3 u /\
  (forall x, x <> u -> vertices st3 !! x = vertices st !! x) /\
  undiscovered (vertices st3) = undiscovered (vertices st).
Proof.
  intros I Hu [Hdu Hnb] Hout st3.
  assert (Hlt : u < length (vertices st)) by (eapply lookup_lt_Some; eauto).
  assert (Hsame : forall x, x <> u -> vertices st3 !! x = vertices st !! x).
  { intros x Hx. simpl. rewrite lookup_update by exact Hlt.
    destruct (decide (x = u)); [contradiction|reflexivity]. }
  assert (Hne : forall x, black st x -> x <> u) by (intros x Hx ->; auto).
  assert (Hfu : ftime st3 u = Some (time st + 1)).
  { unfold ftime. simpl. now rewrite list_lookup_insert_eq. }
  assert (Hdu' : d vu <> 0).
  { destruct Hdu as (vd & H1 & H2). congruence. }
  split; [|split; [|split]].
  - constructor; simpl.
    + rewrite length_insert. apply I.
    + apply NoDup_ListNoDup. apply NoDup_app. split; [|split].
      * apply NoDup_ListNoDup, I.
      * intros x Hx Hx'. apply list_elem_of_In in Hx.
        apply list_elem_of_singleton in Hx'. subst. auto.
      * apply NoDup_singleton.
    + intros x Hx. apply in_app_or in Hx as [Hx|[<-|[]]].
      * destruct (inv_disc _ I x Hx) as (vx & H1 & H2). exists vx.
        rewrite (Hsame x (Hne x Hx)). auto.
      * eexists. simpl. rewrite list_lookup_insert_eq by exact Hlt.
        split; [reflexivity|exact Hdu'].
    + intros x y Hx Hxy. apply in_app_or in Hx as [Hx|[<-|[]]].
      * apply before_app_r. now apply (inv_arcs _ I).
      * apply before_snoc. now apply Hout.
    + intros x Hx. apply in_app_or in Hx as [Hx|[<-|[]]].
      * destruct (inv_ftime _ I x Hx) as (t & H1 & H2). exists t.
        unfold ftime in *. rewrite (Hsame x (Hne x Hx)). split; [auto|lia].
      * exists (time st + 1). split; [exact Hfu|lia].
    + intros l1 x l2 y tx ty Hacc Hy Hx' Hy'.
      destruct l2 as [|z l2] using rev_ind.
      * apply app_inj_tail in Hacc as [<- <-].
        rewrite Hfu in Hx'. injection Hx' as <-.
        destruct (inv_ftime _ I y Hy) as (t & H1 & H2).
        unfold ftime in Hy', H1. rewrite (Hsame y (Hne y Hy)) in Hy'.
        rewrite H1 in Hy'. injection Hy' as <-. lia.
      * clear IHl2.
        replace (l1 ++ x :: l2 ++ [z]) with ((l1 ++ x :: l2) ++ [z]) in Hacc
          by now assoc_right.
        apply app_inj_tail in Hacc as [Hacc <-].
        assert (Bx : black st x).
        { unfold black. rewrite Hacc. apply in_or_app. right. now left. }
        assert (By : black st y).
        { unfold black. rewrite Hacc. apply in_or_app. now left. }
        unfold ftime in Hx', Hy'.
        rewrite (Hsame x (Hne x Bx)) in Hx'.
        rewrite (Hsame y (Hne y By)) in Hy'.
        apply (inv_sorted _ I l1 x l2 y tx ty Hacc Hy Hx' Hy').
  - unfold black. simpl. apply in_or_app. right. now left.
  - exact Hsame.
  - pose proof (undiscovered_insert (vertices st) u vu
                  (mkVertexData (d vu) (Some (time st + 1)) (pred vu)) Hu) as H.
    subst st3. simpl in *. destruct (d vu =? 0); lia.
Qed.

(** The body of the loop over the targets of [u] inside [dfs_visit]. *)
Definition visit_body (depth' u : nat) (st : state) (v : nat) : option state :=
  let* vv := vertices st !! v in
  if d vv =? 0 then
    dfs_visit depth' adj onFinish v
      (mkDfs (<[v := mkVertexData (d vv) (f vv) (Some u)]> (vertices st))
             (time st) (callback_state st))
  else Some st.

Lemma dfs_visit_unfold depth' u (st : state) :
  dfs_visit (S depth') adj onFinish u st =
  (let* vu := vertices st !! u in
   let st1 := mkDfs (<[u := mkVertexData (time st + 1) (f vu) (pred vu)]>
                       (vertices st)) (time st + 1) (callback_state st) in
   let* uList := adj !! u in
   let* st2 := foldM (visit_body depth' u) st1 (iter uList) in
   let* vu2 := vertices st2 !! u in
   Some (mkDfs (<[u := mkVertexData (d vu2) (Some (time st2 + 1)) (pred vu2)]>
                  (vertices st2))
               (time st2 + 1) (callback_state st2 ++ [u]))).
Proof. reflexivity. Qed.

(** What a call [dfs_visit(u)] achieves when it starts on an undiscovered
    [u] that every unfinished discovered vertex reaches. *)
Definition visit_ok (depth : nat) : Prop :=
  forall u st,
    dfs_inv st -> white st u ->
    (forall g, gray st g -> walk adj g u) ->
    undiscovered (vertices st) <= depth ->
    exists st', dfs_visit depth adj onFinish u st = Some st' /\
                dfs_inv st' /\ extends st st' /\ black st' u.

Lemma loop_ok depth' u :
  visit_ok depth' ->
  forall vs st,
    dfs_inv st -> gray st u ->
    (forall g, gray st g -> walk adj g u) ->
    (forall v, In v vs -> arc adj u v) ->
    undiscovered (vertices st) <= depth' ->
    exists st', foldM (visit_body depth' u) st vs = Some st' /\
                dfs_inv st' /\ extends st st' /\
                forall v, In v vs -> black st' v.
Proof.
  intros IH. induction vs as [|v vs IHvs]; intros st I Hu Hg Harc Hc.
  - exists st. simpl. split; [reflexivity|]. split; [exact I|].
    split; [apply extends_refl|]. intros v [].
  - assert (Huv : arc adj u v) by (apply Harc; now left).
    assert (Hv : v < length (vertices st)).
    { rewrite (inv_length _ I). eapply Hrange; eauto. }
    destruct (lookup_lt_is_Some_2 _ _ Hv) as [vv Hvv].
    simpl. unfold visit_body at 1. rewrite Hvv.
    destruct (Nat.eqb_spec (d vv) 0) as [Hd|Hd].
    + pose proof (set_pred_step st v vv u I Hvv Hd) as Hm.
      cbv zeta in Hm. destruct Hm as (Im & Em & Wm).
      set (stm := mkDfs _ _ _) in *.
      destruct (IH v stm Im Wm) as (st1 & -> & I1 & E1 & B1).
      { intros g Hgm. eapply walk_snoc; [|exact Huv].
        apply Hg. eapply extends_gray_inv; eauto. }
      { pose proof (ext_count _ _ Em). lia. }
      pose proof (extends_trans _ _ _ Em E1) as E01.
      destruct (IHvs st1 I1) as (st' & H' & I' & E' & B').
      * eapply extends_gray; eauto.
      * intros g Hg1. apply Hg. eapply extends_gray_inv; eauto.
      * intros v' Hv'. apply Harc. now right.
      * pose proof (ext_count _ _ E01). lia.
      * exists st'. split; [exact H'|]. split; [exact I'|].
        split; [eapply extends_trans; eauto|].
        intros v' [<-|Hv']; [|auto]. eapply extends_black; eauto.
    + assert (Bv : black st v).
      { destruct (classic_black st v) as [?|Hnb]; [assumption|].
        exfalso. apply (Hacyclic u v Huv). apply Hg.
        split; [exists vv; auto | exact Hnb]. }
      destruct (IHvs st I Hu Hg) as (st' & H' & I' & E' & B'); [|exact Hc|].
      * intros v' Hv'. apply Harc. now right.
      * exists st'. split; [exact H'|]. split; [exact I'|].
        split; [exact E'|].
        intros v' [<-|Hv']; [|auto]. eapply extends_black; eauto.
Qed.

Lemma white_undiscovered st u : white st u -> 0 < undiscovered (vertices st).
Proof.
  intros (vu & Hu & Hd).
  pose proof (undiscovered_insert (vertices st) u vu
                (mkVertexData 1 None None) Hu) as H.
  simpl in H. rewrite Hd in H. simpl in H. lia.
Qed.

Lemma visit_all depth : visit_ok depth.
Proof.
  induction depth as [|depth' IH]; intros u st I Hw Hg Hc.
  - pose proof (white_undiscovered st u Hw). lia.
  - destruct Hw as (vu & Hvu & Hd).
    assert (Hu : u < length adj).
    { rewrite <- (inv_length _ I). eapply lookup_lt_Some; eauto. }
    destruct (lookup_lt_is_Some_2 _ _ Hu) as [uList HuList].
    rewrite dfs_visit_unfold, Hvu. cbv zeta. rewrite HuList.
    pose proof (set_d_step st u vu I Hvu Hd) as H1.
    cbv zeta in H1. destruct H1 as (I1 & G1 & S1 & C1).
    set (st1 := mkDfs _ _ _) in *.
    assert (Hdisc1 : forall x, x <> u -> disc st1 x -> disc st x).
    { intros x Hx (vx & H1 & H2). exists vx. rewrite <- (S1 x Hx). auto. }
    destruct (loop_ok depth' u IH (iter uList) st1 I1 G1)
      as (st2 & -> & I2 & E2 & B2).
    { intros g [Hgd Hgb]. destruct (decide (g = u)) as [->|Hne].
      - apply walk_nil.
      - apply Hg. split; [auto|exact Hgb]. }
    { intros v Hv. exists uList. auto. }
    { lia. }
    pose proof (extends_gray _ _ _ E2 G1) as G2.
    assert (Hu2 : u < length (vertices st2)).
    { rewrite (inv_length _ I2). exact Hu. }
    destruct (lookup_lt_is_Some_2 _ _ Hu2) as [vu2 Hvu2]. rewrite Hvu2.
    assert (Hout : forall v, arc adj u v -> black st2 v).
    { intros v (l & Hl & Hv). apply B2. congruence. }
    pose proof (set_f_step st2 u vu2 I2 Hvu2 G2 Hout) as H3.
    cbv zeta in H3. destruct H3 as (I3 & B3 & S3 & C3).
    set (st3 := mkDfs (<[u:=_]> (vertices st2)) _ _) in *.
    exists st3. split; [reflexivity|]. split; [exact I3|].
    split; [|exact B3].
    destruct (ext_acc _ _ E2) as (L & HL & WL).
    assert (Hnbu : ~ black st u).
    { intros Hb. apply (black_not_white st u I Hb). exists vu; auto. }
    constructor.
    + unfold st3. simpl. rewrite length_insert, (ext_length _ _ E2).
      unfold st1. simpl. apply length_insert.
    + exists (L ++ [u]). split.
      * unfold st3. simpl. rewrite HL. unfold st1. simpl.
        now rewrite app_assoc.
      * intros x Hx. apply in_app_or in Hx as [Hx|[<-|[]]].
        -- destruct (WL x Hx) as (vx & H1 & H2).
           assert (x <> u).
           { intros ->. destruct G1 as [(v1 & F1 & F2) _]. congruence. }
           exists vx. rewrite <- (S1 x) by assumption. auto.
        -- exists vu. auto.
    + intros x (vx & H1 & H2).
      assert (Hxu : x <> u) by (intros ->; congruence).
      assert (D2 : disc st2 x).
      { apply (ext_disc _ _ E2). exists vx. rewrite (S1 x Hxu). auto. }
      destruct D2 as (v2 & F1 & F2). exists v2. rewrite (S3 x Hxu). auto.
    + intros x Hx. destruct (decide (x = u)) as [->|Hxu]; [now right|].
      assert (D2 : disc st2 x).
      { destruct Hx as (v3 & F1 & F2). exists v3.
        rewrite <- (S3 x Hxu). auto. }
      destruct (ext_new _ _ E2 x D2) as [D1|Bx].
      * left. auto.
      * right. unfold black, st3. simpl. apply in_or_app. now left.
    + intros x Hx.
      assert (Hxu : x <> u) by (intros ->; auto).
      rewrite (S3 x Hxu), (ext_frame _ _ E2 x); [apply (S1 x Hxu)|exact Hx].
    + pose proof (ext_time _ _ E2). unfold st3, st1 in *. simpl in *. lia.
    + pose proof (ext_count _ _ E2). lia.
Qed.

Variable limit : nat.
Hypothesis Hlimit : length adj <= limit.

(** The outer loop of [dfs] from a state without unfinished vertices.
    Every nested call of [dfs_visit] discovers a new vertex, so a recursion
    limit that allows as many nested calls as there are vertices is
    enough. *)
Lemma outer_loop us : forall st,
  dfs_inv st -> (forall g, ~ gray st g) ->
  (forall u, In u us -> u < length adj) ->
  exists st',
    foldM (fun st u =>
             let* vu := vertices st !! u in
             if d vu =? 0 then dfs_visit limit adj onFinish u st
             else Some st) st us = Some st' /\
    dfs_inv st' /\ extends st st' /\ (forall g, ~ gray st' g) /\
    forall u, In u us -> black st' u.
Proof.
  induction us as [|u us IH]; intros st I Hg Hus.
  - exists st. split; [reflexivity|]. split; [exact I|].
    split; [apply extends_refl|]. split; [exact Hg|]. intros u [].
  - assert (Hu : u < length (vertices st)).
    { rewrite (inv_length _ I). apply Hus. now left. }
    destruct (lookup_lt_is_Some_2 _ _ Hu) as [vu Hvu].
    simpl. rewrite Hvu.
    assert (Hnext : forall st1, dfs_inv st1 -> extends st st1 ->
              black st1 u ->
              exists st',
                foldM (fun st u =>
                         let* vu := vertices st !! u in
                         if d vu =? 0
                         then dfs_visit limit adj onFinish u st
                         else Some st) st1 us = Some st' /\
                dfs_inv st' /\ extends st st' /\ (forall g, ~ gray st' g) /\
                forall u', In u' (u :: us) -> black st' u').
    { intros st1 I1 E1 B1.
      destruct (IH st1 I1) as (st' & H' & I' & E' & G' & B').
      - intros g Hg1. apply (Hg g). eapply extends_gray_inv; eauto.
      - intros u' Hu'. apply Hus. now right.
      - exists st'. split; [exact H'|]. split; [exact I'|].
        split; [eapply extends_trans; eauto|]. split; [exact G'|].
        intros u' [<-|Hu']; [|auto]. eapply extends_black; eauto. }
    destruct (Nat.eqb_spec (d vu) 0) as [Hd|Hd].
    + destruct (visit_all limit u st I) as (st1 & -> & I1 & E1 & B1).
      * exists vu. auto.
      * intros g Hgg. destruct (Hg g Hgg).
      * pose proof (undiscovered_le (vertices st)) as Hle.
        rewrite (inv_length _ I) in Hle. lia.
      * apply Hnext; auto.
    + apply Hnext; [exact I|apply extends_refl|].
      destruct (classic_black st u) as [?|Hnb]; [assumption|].
      exfalso. apply (Hg u). split; [exists vu; auto|exact Hnb].
Qed.

Lemma dfs_initial_inv :
  dfs_inv (mkDfs (replicate (length adj) (mkVertexData 0 None None)) 0 []) /\
  forall g,
    ~ gray (mkDfs (replicate (length adj) (mkVertexData 0 None None)) 0 []) g.
Proof.
  split.
  - constructor; simpl.
    + apply length_replicate.
    + constructor.
    + intros x [].
    + intros x y [].
    + intros x [].
    + intros l1 x l2 y tx ty H. now destruct l1.
  - intros g [(vd & H1 & H2) _]. simpl in H1.
    apply lookup_replicate in H1 as [-> _]. now apply H2.
Qed.

(** [dfs] returns, finishes every vertex once, finishes the target of every
    arc before its source, and numbers the finishes increasingly. *)
Lemma dfs_spec :
  exists st, dfs limit adj onFinish [] = Some st /\
    Permutation (callback_state st) (seq 0 (length adj)) /\
    (forall u v, arc adj u v -> before v u (callback_state st)) /\
    (forall l1 x l2 y,
       callback_state st = l1 ++ x :: l2 -> In y l1 ->
       exists tx ty, ftime st x = Some tx /\ ftime st y = Some ty /\ ty < tx).
Proof.
  destruct dfs_initial_inv as [I0 G0].
  destruct (outer_loop (seq 0 (length adj)) _ I0 G0)
    as (st & H & I & E & G & B).
  { intros u Hu. apply in_seq in Hu. lia. }
  exists st. split; [exact H|]. split; [|split].
  - apply NoDup_Permutation.
    + apply NoDup_ListNoDup, I.
    + apply NoDup_seq.
    + intros x. rewrite !list_elem_of_In. split.
      * intros Hx. destruct (inv_disc _ I x Hx) as (vx & H1 & _).
        apply in_seq. apply lookup_lt_Some in H1.
        rewrite (inv_length _ I) in H1. lia.
      * apply B.
  - intros u v Huv. apply (inv_arcs _ I); [|exact Huv].
    apply B. apply in_seq. destruct Huv as (l & Hl & _).
    apply lookup_lt_Some in Hl. lia.
  - intros l1 x l2 y Hacc Hy.
    assert (Bx : black st x).
    { unfold black. rewrite Hacc. apply in_or_app. right. now left. }
    assert (By : black st y).
    { unfold black. rewrite Hacc. apply in_or_app. now left. }
    destruct (inv_ftime _ I x Bx) as (tx & Hx & _).
    destruct (inv_ftime _ I y By) as (ty & Hy' & _).
    exists tx, ty. split; [exact Hx|]. split; [exact Hy'|].
    eapply (inv_sorted _ I); eauto.
Qed.

End DepthFirst.

(** More room for nested calls does not change a result. *)
Lemma foldM_mono {A B} (f f' : A -> B -> option A) l :
  (forall a b a', f a b = Some a' -> f' a b = Some a') ->
  forall a r, foldM f a l = Some r -> foldM f' a l = Some r.
Proof.
  intros Hf. induction l as [|b l IH]; intros a r H; [exact H|].
  simpl in *. destruct (f a b) as [a'|] eqn:E; [|discriminate].
  rewrite (Hf _ _ _ E). now apply IH.
Qed.

Lemma dfs_visit_mono {S} (adj : Graph.t) (onFinish : nat -> S -> S) depth :
  forall u st st' depth',
    Graph.dfs_visit depth adj onFinish u st = Some st' -> depth <= depth' ->
    Graph.dfs_visit depth' adj onFinish u st = Some st'.
Proof.
  induction depth as [|depth IH]; intros u st st' [|depth'] H Hle;
    try discriminate; try lia.
  cbn [Graph.dfs_visit] in *. cbv zeta in *.
  destruct (Graph.vertices st !! u) as [vu|]; [|discriminate].
  destruct (adj !! u) as [uList|]; [|discriminate].
  match type of H with
  | match foldM ?f ?a ?l with _ => _ end = _ =>
      destruct (foldM f a l) as [st2|] eqn:E; [|discriminate]
  end.
  erewrite foldM_mono; [exact H| |exact E].
  intros a b a' Hab. cbv beta in *.
  destruct (Graph.vertices a !! b) as [vv|]; [|discriminate].
  destruct (Graph.d vv =? 0); [|exact Hab].
  apply (IH _ _ _ depth' Hab). lia.
Qed.

Lemma dfs_mono {S} (adj : Graph.t) (onFinish : nat -> S -> S) s0 limit limit' st :
  Graph.dfs limit adj onFinish s0 = Some st -> limit <= limit' ->
  Graph.dfs limit' adj onFinish s0 = Some st.
Proof.
  unfold Graph.dfs. intros H Hle.
  eapply foldM_mono; [|exact H].
  intros a b a' Hab. cbv beta in *.
  destruct (Graph.vertices a !! b) as [vu|]; [|discriminate].
  destruct (Graph.d vu =? 0); [|exact Hab].
  eapply dfs_visit_mono; eauto.
Qed.



(** The path [0 -> 1 -> ... -> 1099], as [Digraph(1100, edges)] builds
    it. *)
Definition long_path : list (nat * nat) :=
  map (fun i => (i, i + 1)) (seq 0 1099).


(** ** The queue through its interface *)

Section QueueInterface.
Import PQInts.
Variable n : nat.

(** On a well-formed queue [contains] and [getPriority] read the entries of
    the sequence. *)
Lemma binds_api q x v :
  wf n q ->
  binds q x v <-> contains q x = Some true /\ getPriority q x = Some v.
Proof.
  intros W. split.
  - intros Hb. split; [eapply contains_bound; eauto|].
    eapply getPriority_bound; eauto.
  - intros [Hc Hg]. unfold contains in Hc.
    destruct (_index q !! x) as [i|] eqn:Hi; [|discriminate].
    injection Hc as Hc. apply Z.leb_le in Hc.
    destruct (wf_neg _ _ _ W x i Hi) as [->|(k & v' & -> & Hk)];
      [tauto|lia|].
    assert (Hb : binds q x v') by (apply binds_lookup; eauto).
    rewrite (getPriority_bound n q x v' W Hb) in Hg. congruence.
Qed.

Lemma absent_api q x :
  wf n q -> x < n ->
  (forall v, ~ binds q x v) <-> contains q x = Some false.
Proof.
  intros W Hx. split.
  - intros H. exact (contains_unbound n q x W Hx H).
  - intros Hc v Hb. rewrite (contains_bound n q x v W Hb) in Hc. discriminate.
Qed.

Lemma contains_cases q x :
  wf n q -> x < n ->
  (contains q x = Some true /\ exists v, binds q x v) \/
  (contains q x = Some false /\ forall v, ~ binds q x v).
Proof.
  intros W Hx. destruct (bound_or_unbound n q x W Hx) as [[v Hb]|Hnb].
  - left. split; [eapply contains_bound; eauto|eauto].
  - right. split; [exact (contains_unbound n q x W Hx Hnb)|exact Hnb].
Qed.

(** Two well-formed queues with the same entries answer alike. *)
Lemma same_binds_api q q' y :
  wf n q -> wf n q' -> y < n ->
  (forall w, binds q' y w <-> binds q y w) ->
  contains q' y = contains q y /\
  (contains q y = Some true -> getPriority q' y = getPriority q y).
Proof.
  intros W W' Hy Hb.
  destruct (contains_cases q y W Hy) as [[Hc [v Hv]]|[Hc Hnb]].
  - pose proof (proj2 (Hb v) Hv) as Hv'.
    apply (binds_api q' y v W') in Hv' as [Hc' Hg'].
    apply (binds_api q y v W) in Hv as [_ Hg].
    split; [congruence|]. intros _. congruence.
  - split; [|rewrite Hc; discriminate].
    rewrite Hc. apply (contains_unbound n q' y W' Hy).
    intros w Hw. apply (Hnb w). now apply Hb.
Qed.

Lemma wf_heap_NoDup q : wf n q -> NoDup (_minheap q).
Proof.
  intros W. apply (NoDup_fmap_1 fst). now apply (wf_NoDup n).
Qed.

(** The size is the number of the elements the queue contains. *)
Lemma size_counts q :
  wf n q ->
  size q = length (List.filter
                     (fun x => match contains q x with
                               | Some true => true
                               | _ => false
                               end)
                     (seq 0 n)).
Proof.
  intros W. unfold size. rewrite <- (length_map fst (_minheap q)).
  apply Permutation_length. apply NoDup_Permutation.
  - now apply (wf_NoDup n).
  - apply NoDup_ListNoDup, List.NoDup_filter, List.seq_NoDup.
  - intros x. rewrite !list_elem_of_In, filter_In, in_seq, in_map_iff. split.
    + intros ([y v] & <- & Hin). simpl.
      assert (Hb : binds q y v) by exact Hin.
      split.
      * apply binds_lookup in Hb as [k Hk].
        pose proof (wf_lt n q k (y, v) W Hk). simpl in *. lia.
      * now rewrite (contains_bound n q y v W Hb).
    + intros [Hx Hc]. destruct (contains_cases q x W) as [[_ [v Hv]]|[Hf _]];
        [lia| |rewrite Hf in Hc; discriminate].
      exists (x, v). auto.
Qed.

Lemma size_insert q q' x v :
  wf n q -> wf n q' -> (forall v', ~ binds q x v') ->
  (forall y w, binds q' y w <-> (y = x /\ w = v) \/ binds q y w) ->
  size q' = S (size q).
Proof.
  intros W W' Hnb Hb. unfold size.
  change (S (length (_minheap q))) with (length ((x, v) :: _minheap q)).
  apply Permutation_length. apply NoDup_Permutation.
  - now apply wf_heap_NoDup.
  - apply NoDup_ListNoDup. constructor.
    + apply Hnb.
    + apply NoDup_ListNoDup. now apply wf_heap_NoDup.
  - intros [y w]. rewrite !list_elem_of_In. simpl.
    fold (binds q' y w). fold (binds q y w). rewrite Hb.
    split; intros [H|H]; auto.
    + destruct H as [-> ->]. now left.
    + injection H as <- <-. now left.
Qed.

(** [extractMin] returns the element [peekMin] shows. *)
Lemma extractMin_peekMin q q' x :
  extractMin q = Some (q', x) -> peekMin q = Some x.
Proof.
  unfold extractMin, peekMin.
  destruct (_minheap q !! 0) as [first|]; [|discriminate].
  destruct (last (_minheap q)) as [oldLast|]; [|discriminate].
  destruct (if 0 <? length (removelast (_minheap q))
            then let* heap2 := set_at (removelast (_minheap q)) 0 oldLast in
                 _percolate_down (mkPQ heap2 (_index q)) 0
            else Some (mkPQ (removelast (_minheap q)) (_index q)))
    as [q2|]; [|discriminate].
  destruct (set_at (_index q2) (fst first) (-1)%Z); [|discriminate].
  intros [= _ <-]. reflexivity.
Qed.

(** The other elements answer as before. *)
Definition same_elsewhere (q q' : t) (x : nat) : Prop :=
  forall y, y < n -> y <> x ->
    contains q' y = contains q y /\
    (contains q y = Some true -> getPriority q' y = getPriority q y).

Lemma same_elsewhere_binds q q' x :
  wf n q -> wf n q' ->
  (forall y w, y <> x -> (binds q' y w <-> binds q y w)) ->
  same_elsewhere q q' x.
Proof.
  intros W W' Hb y Hy Hne. apply same_binds_api; auto.
Qed.

End QueueInterface.

(** X1.  On a well-formed queue for the elements below [n],
    [insert(x, v)] of an element the queue does not contain returns [True]
    and leaves a well-formed queue, one entry longer, that contains [x] with
    priority [v], every other element answering [contains] and
    [getPriority] as before; [insert] of an element the queue contains
    returns [False] and changes nothing, the priority included; with
    [x >= n] the call raises. *)
Theorem insert_then_lookup (n : nat) (q : PQInts.t) (x : nat) (v : priority) :
  wf n q ->
  (PQInts.contains q x = Some false ->
   exists q',
     PQInts.insert q x v = Some (q', true) /\ wf n q' /\
     PQInts.size q' = S (PQInts.size q) /\
     PQInts.contains q' x = Some true /\
     PQInts.getPriority q' x = Some v /\
     same_elsewhere n q q' x) /\
  (PQInts.contains q x = Some true ->
   PQInts.insert q x v = Some (q, false)) /\
  (n <= x -> PQInts.insert q x v = None).
Proof.
  intros W. split; [|split].
  - intros Hc.
    assert (Hx : x < n).
    { unfold PQInts.contains in Hc.
      destruct (PQInts._index q !! x) eqn:E; [|discriminate].
      rewrite <- (wf_len _ _ _ W). eapply lookup_lt_Some; eauto. }
    pose proof (proj2 (absent_api n q x W Hx) Hc) as Hnb.
    destruct (insert_ok n q x v W Hx Hnb) as (q' & Hi & W' & Hb).
    exists q'. split; [exact Hi|]. split; [exact W'|].
    split; [eapply size_insert; eauto|].
    assert (Hbx : binds q' x v) by (apply Hb; now left).
    apply (binds_api n q' x v W') in Hbx as [Hc' Hg'].
    split; [exact Hc'|]. split; [exact Hg'|].
    apply same_elsewhere_binds; auto.
    intros y w Hne. rewrite Hb. intuition congruence.
  - intros Hc.
    assert (Hx : x < n).
    { unfold PQInts.contains in Hc.
      destruct (PQInts._index q !! x) eqn:E; [|discriminate].
      rewrite <- (wf_len _ _ _ W). eapply lookup_lt_Some; eauto. }
    destruct (contains_cases n q x W Hx) as [[_ [v0 Hv0]]|[Hf _]].
    + eapply insert_present; eauto.
    + congruence.
  - intros Hx. unfold PQInts.insert.
    rewrite lookup_ge_None_2; [reflexivity|]. now rewrite (wf_len _ _ _ W).
Qed.

Lemma insert_then_lookup_witness :
  exists q',
    PQInts.insert (PQInts.init 3) 1 (Fin 5) = Some (q', true) /\
    PQInts.getPriority q' 1 = Some (Fin 5) /\
    PQInts.insert q' 1 (Fin 2) = Some (q', false).
Proof.
  destruct (insert_then_lookup 3 (PQInts.init 3) 1 (Fin 5) (wf_init 3))
    as (Hnew & _ & _).
  destruct (Hnew eq_refl) as (q' & Hi & W' & _ & Hc & Hg & _).
  exists q'. split; [exact Hi|]. split; [exact Hg|].
  destruct (insert_then_lookup 3 q' 1 (Fin 2) W') as (_ & Hold & _).
  exact (Hold Hc).
Defined.

(** X2.  On a well-formed queue [changePriority(x, v)] of a contained
    element returns [True] and leaves a well-formed queue of the same size
    in which [x] has priority [v], every other element answering as before;
    for an element the queue does not contain it returns [False] and changes
    nothing; with [x >= n] it raises. *)
Theorem changePriority_then_lookup
  (n : nat) (q : PQInts.t) (x : nat) (v : priority) :
  wf n q ->
  (PQInts.contains q x = Some true ->
   exists q',
     PQInts.changePriority q x v = Some (q', true) /\ wf n q' /\
     PQInts.size q' = PQInts.size q /\
     PQInts.contains q' x = Some true /\
     PQInts.getPriority q' x = Some v /\
     same_elsewhere n q q' x) /\
  (PQInts.contains q x = Some false ->
   PQInts.changePriority q x v = Some (q, false)) /\
  (n <= x -> PQInts.changePriority q x v = None).
Proof.
  intros W.
  assert (Hlt : forall b, PQInts.contains q x = Some b -> x < n).
  { intros b Hc. unfold PQInts.contains in Hc.
    destruct (PQInts._index q !! x) eqn:E; [|discriminate].
    rewrite <- (wf_len _ _ _ W). eapply lookup_lt_Some; eauto. }
  split; [|split].
  - intros Hc. pose proof (Hlt _ Hc) as Hx.
    destruct (contains_cases n q x W Hx) as [[_ [v0 Hv0]]|[Hf _]];
      [|congruence].
    destruct (changePriority_ok n q x v0 v W Hv0) as (q' & Hq' & W' & Hb & Hs).
    exists q'. split; [exact Hq'|]. split; [exact W'|]. split; [exact Hs|].
    assert (Hbx : binds q' x v) by (apply Hb; now left).
    apply (binds_api n q' x v W') in Hbx as [Hc' Hg'].
    split; [exact Hc'|]. split; [exact Hg'|].
    apply same_elsewhere_binds; auto.
    intros y w Hne. rewrite Hb. intuition congruence.
  - intros Hc. pose proof (Hlt _ Hc) as Hx.
    apply (changePriority_absent n q x v W Hx).
    now apply (absent_api n q x W Hx).
  - intros Hx. unfold PQInts.changePriority, PQInts.contains.
    rewrite lookup_ge_None_2; [reflexivity|]. now rewrite (wf_len _ _ _ W).
Qed.

Lemma changePriority_then_lookup_witness :
  exists q q',
    PQInts.insert (PQInts.init 3) 1 (Fin 5) = Some (q, true) /\
    PQInts.changePriority q 1 (Fin 2) = Some (q', true) /\
    PQInts.getPriority q' 1 = Some (Fin 2) /\
    PQInts.changePriority q' 0 (Fin 7) = Some (q', false).
Proof.
  destruct (insert_ok 3 (PQInts.init 3) 1 (Fin 5) (wf_init 3))
    as (q & Hi & W & Hb); [lia|intros v' []|].
  assert (Hc : PQInts.contains q 1 = Some true).
  { apply (contains_bound 3 q 1 (Fin 5) W). apply Hb. now left. }
  destruct (changePriority_then_lookup 3 q 1 (Fin 2) W) as (Hin & _ & _).
  destruct (Hin Hc) as (q' & Hq' & W' & _ & _ & Hg & Hsame).
  exists q, q'. split; [exact Hi|]. split; [exact Hq'|]. split; [exact Hg|].
  destruct (changePriority_then_lookup 3 q' 0 (Fin 7) W') as (_ & Hout & _).
  apply Hout. destruct (Hsame 0) as [-> _]; [lia|lia|].
  apply (contains_unbound 3 q 0 W); [lia|].
  intros w Hw. apply Hb in Hw as [[? _]|[]]. lia.
Defined.

(** X3.  On a well-formed, non-empty queue [extractMin()] returns the
    element [peekMin()] shows, a contained element whose priority no
    contained element undercuts, and leaves a well-formed queue, one entry
    shorter, that no longer contains it, every other element answering as
    before.  On the empty queue both [extractMin()] and [peekMin()] raise. *)
Theorem extractMin_takes_least (n : nat) (q : PQInts.t) :
  wf n q ->
  (PQInts.isEmpty q = false ->
   exists q' x v,
     PQInts.extractMin q = Some (q', x) /\ PQInts.peekMin q = Some x /\
     wf n q' /\ x < n /\
     PQInts.contains q x = Some true /\ PQInts.getPriority q x = Some v /\
     (forall y w,
        PQInts.contains q y = Some true -> PQInts.getPriority q y = Some w ->
        prio_ltb w v = false) /\
     PQInts.contains q' x = Some false /\
     PQInts.size q = S (PQInts.size q') /\
     same_elsewhere n q q' x) /\
  (PQInts.isEmpty q = true ->
   PQInts.extractMin q = None /\ PQInts.peekMin q = None).
Proof.
  intros W. split.
  - intros He.
    assert (Hne : PQInts._minheap q <> []).
    { intros E. apply isEmpty_spec in E. congruence. }
    destruct (extractMin_ok n q W Hne)
      as (q' & x & v & Hex & W' & Hbx & Hmin & Hb & Hs).
    exists q', x, v. split; [exact Hex|].
    split; [eapply extractMin_peekMin; eauto|]. split; [exact W'|].
    assert (Hx : x < n).
    { apply binds_lookup in Hbx as [k Hk]. apply (wf_lt n q k _ W Hk). }
    split; [exact Hx|].
    pose proof (proj1 (binds_api n q x v W) Hbx) as [Hc Hg].
    split; [exact Hc|]. split; [exact Hg|]. split; [|split; [|split]].
    + intros y w Hcy Hgy. apply (Hmin y w). apply (binds_api n q y w W). auto.
    + apply (contains_unbound n q' x W' Hx). intros w Hw.
      apply Hb in Hw. tauto.
    + exact Hs.
    + apply same_elsewhere_binds; auto.
      intros y w Hne'. rewrite Hb. tauto.
  - intros He. apply isEmpty_spec in He.
    unfold PQInts.extractMin, PQInts.peekMin. now rewrite He.
Qed.

Lemma extractMin_takes_least_witness :
  exists q1 q2 q3,
    PQInts.insert (PQInts.init 3) 1 (Fin 5) = Some (q1, true) /\
    PQInts.insert q1 2 (Fin 3) = Some (q2, true) /\
    PQInts.extractMin q2 = Some (q3, 2) /\
    PQInts.contains q3 2 = Some false /\
    PQInts.extractMin (PQInts.init 3) = None.
Proof.
  destruct (insert_ok 3 (PQInts.init 3) 1 (Fin 5) (wf_init 3))
    as (q1 & H1 & W1 & B1); [lia|intros v' []|].
  destruct (insert_ok 3 q1 2 (Fin 3) W1) as (q2 & H2 & W2 & B2); [lia| |].
  { intros v' Hv'. apply B1 in Hv' as [[? _]|[]]. lia. }
  destruct (extractMin_takes_least 3 q2 W2) as [Hne _].
  destruct Hne as (q3 & x & v & Hex & _ & _ & _ & Hc & Hg & Hmin & Hc' & _).
  { destruct (PQInts.isEmpty q2) eqn:E; [|reflexivity].
    apply isEmpty_spec in E. assert (Hb : binds q2 2 (Fin 3)).
    { apply B2. now left. }
    unfold binds in Hb. rewrite E in Hb. destruct Hb. }
  assert (x = 2) as ->.
  { assert (Hb2 : binds q2 2 (Fin 3)) by (apply B2; now left).
    assert (Hbx : binds q2 x v) by (apply (binds_api 3 q2 x v W2); auto).
    apply (binds_api 3 q2 2 (Fin 3) W2) in Hb2 as [Hc2 Hg2].
    pose proof (Hmin 2 (Fin 3) Hc2 Hg2) as Hle.
    apply B2 in Hbx as [[-> _]|Hbx]; [reflexivity|].
    apply B1 in Hbx as [[-> ->]|[]]. discriminate Hle. }
  exists q1, q2, q3. split; [exact H1|]. split; [exact H2|].
  split; [exact Hex|]. split; [exact Hc'|].
  destruct (extractMin_takes_least 3 (PQInts.init 3) (wf_init 3)) as [_ He].
  apply He. reflexivity.
Defined.

(** X4.  The size of a well-formed queue is the number of the elements of
    [0..n-1] it contains, hence at most [n], and [isEmpty()] holds exactly
    when it contains none. *)
Theorem size_counts_contained (n : nat) (q : PQInts.t) :
  wf n q ->
  PQInts.size q =
    length (List.filter
              (fun x => match PQInts.contains q x with
                        | Some true => true
                        | _ => false
                        end)
              (seq 0 n)) /\
  PQInts.size q <= n /\
  (PQInts.isEmpty q = true <->
   forall x, x < n -> PQInts.contains q x = Some false).
Proof.
  intros W. pose proof (size_counts n q W) as Hs.
  split; [exact Hs|]. split.
  - rewrite Hs. etransitivity; [apply List.filter_length_le|].
    now rewrite length_seq.
  - rewrite isEmpty_spec. split.
    + intros E x Hx. apply (contains_unbound n q x W Hx).
      intros v Hv. unfold binds in Hv. now rewrite E in Hv.
    + intros Hall. destruct (PQInts._minheap q) as [|[y w] h] eqn:E;
        [reflexivity|exfalso].
      assert (Hb : binds q y w) by (unfold binds; rewrite E; now left).
      assert (Hy : y < n).
      { apply binds_lookup in Hb as [k Hk]. apply (wf_lt n q k _ W Hk). }
      specialize (Hall y Hy).
      rewrite (contains_bound n q y w W Hb) in Hall. discriminate.
Qed.

(** After [insert(0, 5)] and [insert(2, 1)] on [PQInts(3)] the size is 2,
    the number of the contained elements 0 and 2, and the queue is not
    empty. *)
Lemma size_counts_contained_witness :
  exists q1 q,
    PQInts.insert (PQInts.init 3) 0 (Fin 5) = Some (q1, true) /\
    PQInts.insert q1 2 (Fin 1) = Some (q, true) /\
    PQInts.size q =
      length (List.filter
                (fun x => match PQInts.contains q x with
                          | Some true => true
                          | _ => false
                          end)
                (seq 0 3)) /\
    PQInts.size q = 2 /\ PQInts.size q <= 3 /\
    (PQInts.isEmpty q = true <->
     forall x, x < 3 -> PQInts.contains q x = Some false) /\
    PQInts.isEmpty q = false /\
    PQInts.contains q 0 = Some true /\
    PQInts.contains q 1 = Some false /\
    PQInts.contains q 2 = Some true.
Proof.
  destruct (insert_ok 3 (PQInts.init 3) 0 (Fin 5) (wf_init 3))
    as (q1 & H1 & W1 & B1); [lia|intros v' []|].
  destruct (insert_ok 3 q1 2 (Fin 1) W1) as (q & H2 & W2 & B2); [lia| |].
  { intros v' Hb. apply B1 in Hb as [[E _]|[]]. discriminate E. }
  destruct (size_counts_contained 3 q W2) as (Hs & Hle & He).
  exists q1, q. split; [exact H1|]. split; [exact H2|].
  split; [exact Hs|].
  vm_compute in H1. injection H1 as <-.
  vm_compute in H2. injection H2 as <-.
  split; [reflexivity|]. split; [exact Hle|]. split; [exact He|].
  repeat split; reflexivity.
Defined.

(** ** [_heapify] and [insertAll] *)

Section Heapify.
Import PQInts.
Abbreviation hentry := (nat * priority)%type.
Abbreviation le_hentry := (fun a b : hentry => prio_le (snd a) (snd b)).

(** Heap order at the parents from position [lo] on. *)
Definition ordered_from (lo : nat) (h : list hentry) : Prop :=
  forall i c ei ec,
    lo <= i -> child c i -> h !! i = Some ei -> h !! c = Some ec ->
    le_hentry ei ec.

Lemma ordered_from_0 h : ordered_from 0 h <-> heap_ordered h.
Proof.
  split.
  - intros H i c ei ec Hc Hi Hcc. apply (H i c ei ec); auto. lia.
  - intros H i c ei ec _ Hc Hi Hcc. apply (H i c ei ec); auto.
Qed.

Lemma ordered_from_half h : ordered_from (length h / 2) h.
Proof.
  intros i c ei ec Hi Hc _ Hec. apply lookup_lt_Some in Hec.
  pose proof (half_spec (length h)).
  destruct Hc as [->| ->]; unfold _left, _right in *; lia.
Qed.

(** Whether an element occurs in a sequence of entries. *)
Lemma classic_in_fst (h : list hentry) x :
  (exists v k, h !! k = Some (x, v)) \/ ~ (exists v, In (x, v) h).
Proof.
  induction h as [|[y w] h IH].
  - right. intros [v []].
  - destruct (decide (y = x)) as [->|Hne].
    + left. exists w, 0. reflexivity.
    + destruct IH as [(v & k & Hk)|Hn].
      * left. exists v, (S k). exact Hk.
      * right. intros [v [Hv|Hv]]; [congruence|]. apply Hn. eauto.
Qed.

(** The state inside [_percolate_down_no_index] started at [p]: the hole is
    at [pos], and the order holds from [p] on wherever the hole is not
    involved. *)
Record sift_ok (p : nat) (h : list hentry) (pos : nat) (cur : hentry)
  : Prop := {
  so_pos : pos < length h;
  so_away : forall i c ei ec,
    p <= i -> child c i -> i <> pos -> c <> pos ->
    h !! i = Some ei -> h !! c = Some ec -> le_hentry ei ec;
  so_bridge : forall g c eg ec,
    p <= g -> child pos g -> child c pos ->
    h !! g = Some eg -> h !! c = Some ec -> le_hentry eg ec;
  so_above : forall g eg,
    p <= g -> child pos g -> h !! g = Some eg -> le_hentry eg cur
}.

Lemma sift_loop_ok p cur fuel : forall h idx pos,
  sift_ok p h pos cur -> length h <= pos + fuel ->
  exists h1 pos1,
    _percolate_down_loop false fuel (mkPQ h idx) cur pos
      = Some (mkPQ h1 idx, pos1) /\
    sift_ok p h1 pos1 cur /\
    (forall c ec, child c pos1 -> h1 !! c = Some ec -> le_hentry cur ec) /\
    Permutation (<[pos1 := cur]> h1) (<[pos := cur]> h).
Proof.
  induction fuel as [|fuel IH]; intros h idx pos SO Hf.
  { pose proof (so_pos _ _ _ _ SO). lia. }
  pose proof (so_pos _ _ _ _ SO) as Hposl.
  simpl. destruct (Nat.ltb_spec (_left pos) (length h)) as [Hl|Hl].
  - destruct (min_child_spec h pos Hl) as (m & em & -> & Hm & Hem & Hmin).
    rewrite Hem.
    assert (Hmpos : pos < m) by (apply child_inv in Hm; lia).
    destruct (prio_ltb (snd em) (snd cur)) eqn:Hlt.
    + rewrite (set_at_lt h pos em Hposl).
      destruct (IH (<[pos:=em]> h) idx m) as (h1 & pos1 & H1 & SO1 & HB1 & HP1).
      * constructor.
        -- rewrite length_insert. eapply lookup_lt_Some; eauto.
        -- intros i c ei ec Hpi Hc Hi Hcn Hei Hec.
           destruct (decide (c = pos)) as [->|Hcp].
           ++ rewrite list_lookup_insert_eq in Hec by exact Hposl.
              injection Hec as <-.
              assert (i <> pos) by (apply child_inv in Hc; lia).
              rewrite list_lookup_insert_ne in Hei by auto.
              apply (so_bridge _ _ _ _ SO i m ei em); auto.
           ++ rewrite list_lookup_insert_ne in Hec by auto.
              destruct (decide (i = pos)) as [->|Hip].
              ** rewrite list_lookup_insert_eq in Hei by exact Hposl.
                 injection Hei as <-. apply (Hmin c ec Hc Hec).
              ** rewrite list_lookup_insert_ne in Hei by auto.
                 apply (so_away _ _ _ _ SO i c ei ec); auto.
        -- intros g c eg ec Hpg Hg Hc Heg Hec.
           assert (g = pos) by (eapply child_fun; eauto). subst g.
           rewrite list_lookup_insert_eq in Heg by exact Hposl.
           injection Heg as <-.
           assert (c <> pos) by (apply child_inv in Hc; lia).
           rewrite list_lookup_insert_ne in Hec by auto.
           apply (so_away _ _ _ _ SO m c em ec); auto; lia.
        -- intros g eg Hpg Hg Heg.
           assert (g = pos) by (eapply child_fun; eauto). subst g.
           rewrite list_lookup_insert_eq in Heg by exact Hposl.
           injection Heg as <-. now apply prio_ltb_le.
      * rewrite length_insert. lia.
      * exists h1, pos1. split; [exact H1|]. split; [exact SO1|].
        split; [exact HB1|]. rewrite HP1.
        rewrite <- (list_insert_insert_eq h pos em cur).
        apply Permutation_insert_swap.
        -- now apply list_lookup_insert_eq.
        -- rewrite list_lookup_insert_ne by lia. exact Hem.
    + exists h, pos. split; [reflexivity|]. split; [exact SO|].
      split; [|reflexivity].
      intros c ec Hc Hec. eapply prio_le_trans; [|apply (Hmin c ec Hc Hec)].
      exact Hlt.
  - exists h, pos. split; [reflexivity|]. split; [exact SO|].
    split; [|reflexivity].
    intros c ec Hc Hec. apply lookup_lt_Some in Hec.
    destruct Hc as [->| ->]; unfold _left, _right in *; lia.
Qed.

Lemma percolate_down_no_index_ok p h idx :
  p < length h -> ordered_from (S p) h ->
  exists h', _percolate_down_no_index (mkPQ h idx) p = Some (mkPQ h' idx) /\
    ordered_from p h' /\ Permutation h' h.
Proof.
  intros Hp Ho. unfold _percolate_down_no_index. cbn [_minheap _index].
  destruct (lookup_lt_is_Some_2 h p Hp) as [cur Hcur]. rewrite Hcur.
  destruct (sift_loop_ok p cur (length h) h idx p)
    as (h1 & pos1 & -> & SO1 & HB1 & HP1).
  - constructor.
    + exact Hp.
    + intros i c ei ec Hpi Hc Hi Hcn Hei Hec.
      apply (Ho i c ei ec); auto. lia.
    + intros g c eg ec Hpg Hg. apply child_inv in Hg. lia.
    + intros g eg Hpg Hg. apply child_inv in Hg. lia.
  - lia.
  - pose proof (so_pos _ _ _ _ SO1) as Hl1.
    cbn [_minheap _index]. rewrite (set_at_lt h1 pos1 cur Hl1).
    exists (<[pos1 := cur]> h1). split; [reflexivity|]. split.
    + intros i c ei ec Hpi Hc Hei Hec.
      destruct (decide (i = pos1)) as [->|Hip].
      * rewrite list_lookup_insert_eq in Hei by exact Hl1. injection Hei as <-.
        assert (c <> pos1) by (apply child_inv in Hc; lia).
        rewrite list_lookup_insert_ne in Hec by auto.
        apply (HB1 c ec Hc Hec).
      * rewrite list_lookup_insert_ne in Hei by auto.
        destruct (decide (c = pos1)) as [->|Hcp].
        -- rewrite list_lookup_insert_eq in Hec by exact Hl1.
           injection Hec as <-.
           apply (so_above _ _ _ _ SO1 i ei); auto.
        -- rewrite list_lookup_insert_ne in Hec by auto.
           apply (so_away _ _ _ _ SO1 i c ei ec); auto.
    + rewrite HP1. now rewrite list_insert_id.
Qed.

Lemma heapify_sift k : forall h idx,
  k <= length h -> k <= length h / 2 \/ length h = 0 -> ordered_from k h ->
  exists h', foldM _percolate_down_no_index (mkPQ h idx) (rev (seq 0 k))
             = Some (mkPQ h' idx) /\
    heap_ordered h' /\ Permutation h' h.
Proof.
  induction k as [|k IH]; intros h idx Hk Hhalf Ho.
  - exists h. split; [reflexivity|]. split; [|reflexivity].
    now apply ordered_from_0.
  - rewrite seq_S, rev_app_distr. cbn [rev app foldM Nat.add].
    destruct (percolate_down_no_index_ok k h idx) as (h1 & -> & Ho1 & P1);
      [lia|exact Ho|].
    pose proof (Permutation_length P1) as L1.
    destruct (IH h1 idx) as (h2 & H2 & Ho2 & P2); [lia| |exact Ho1|].
    { rewrite L1. left.
      destruct Hhalf as [Hh|Hh]; [lia|lia]. }
    exists h2. split; [exact H2|]. split; [exact Ho2|].
    now rewrite P2.
Qed.

(** The second loop of [_heapify] writes every entry's position. *)
Lemma heapify_index (l : list hentry) : forall k idx,
  Forall (fun e : hentry => fst e < length idx) l ->
  exists idx',
    foldM (fun index (ie : nat * hentry) =>
             set_at index (fst (snd ie)) (Z.of_nat (fst ie)))
          idx (imap (fun i x => (k + i, x)) l) = Some idx' /\
    length idx' = length idx /\
    (forall x, ~ In x (map fst l) -> idx' !! x = idx !! x) /\
    (List.NoDup (map fst l) ->
     forall j e, l !! j = Some e -> idx' !! fst e = Some (Z.of_nat (k + j))).
Proof.
  induction l as [|e l IH]; intros k idx Hall.
  - exists idx. split; [reflexivity|]. split; [reflexivity|].
    split; [reflexivity|]. intros _ j e Hj. discriminate Hj.
  - apply Forall_cons in Hall as [He Hall]. cbn [imap foldM fst snd].
    rewrite (set_at_lt idx (fst e) _ He).
    assert (Hext : imap (compose (fun i x => (k + i, x)) S) l
                   = imap (fun i x => (S k + i, x)) l).
    { apply imap_ext. intros i y _. simpl. f_equal. lia. }
    rewrite Hext.
    destruct (IH (S k) (<[fst e := Z.of_nat (k + 0)]> idx))
      as (idx' & -> & Hlen & Hout & Hin).
    { rewrite length_insert. exact Hall. }
    exists idx'. split; [reflexivity|].
    rewrite length_insert in Hlen. split; [exact Hlen|]. split.
    + intros x Hx. simpl in Hx. rewrite Hout by tauto.
      apply list_lookup_insert_ne. tauto.
    + intros ND j e' Hj. inversion ND as [|? ? Hnin ND']; subst.
      destruct j as [|j]; simpl in Hj.
      * injection Hj as <-. rewrite Hout by exact Hnin.
        now rewrite list_lookup_insert_eq.
      * rewrite (Hin ND' j e' Hj). do 2 f_equal. lia.
Qed.

(** The first loop of the bulk branch of [insertAll]: the test reads the
    index as it was before the call. *)
Lemma bulk_append idx pairs : forall h,
  Forall (fun pr : hentry => fst pr < length idx) pairs ->
  foldM (fun q pr =>
           let* i := _index q !! fst pr in
           if (i <? 0)%Z
           then Some (mkPQ (_minheap q ++ [pr]) (_index q))
           else Some q)
        (mkPQ h idx) pairs
  = Some (mkPQ (h ++ List.filter
                       (fun pr => match idx !! fst pr with
                                  | Some i => (i <? 0)%Z
                                  | None => false
                                  end) pairs)
               idx).
Proof.
  induction pairs as [|pr pairs IH]; intros h Hall.
  - simpl. now rewrite app_nil_r.
  - apply Forall_cons in Hall as [Hpr Hall]. cbn [foldM _index _minheap].
    destruct (lookup_lt_is_Some_2 idx (fst pr) Hpr) as [i Hi].
    cbn [List.filter]. rewrite Hi.
    destruct (i <? 0)%Z.
    + rewrite (IH (h ++ [pr]) Hall). now rewrite <- app_assoc.
    + apply (IH h Hall).
Qed.

Variable n : nat.

Lemma heapify_ok h idx :
  length idx = n -> Forall (fun e : hentry => fst e < n) h ->
  List.NoDup (map fst h) ->
  exists h' idx',
    _heapify (mkPQ h idx) = Some (mkPQ h' idx') /\
    heap_ordered h' /\ Permutation h' h /\ length idx' = n /\
    (forall x, ~ In x (map fst h) -> idx' !! x = idx !! x) /\
    (forall j e, h' !! j = Some e -> idx' !! fst e = Some (Z.of_nat j)).
Proof.
  intros Hlen Hall ND. unfold _heapify. cbn [_minheap _index].
  destruct (heapify_sift (length h / 2) h idx) as (h' & -> & Ho & P).
  - pose proof (half_spec (length h)). lia.
  - now left.
  - apply ordered_from_half.
  - cbn [_minheap _index]. unfold enumerate.
    destruct (heapify_index h' 0 idx) as (idx' & Hf & Hl & Hout & Hin).
    { rewrite Hlen. eapply Forall_forall. intros e He.
      apply (proj1 (Forall_forall _ _) Hall).
      apply list_elem_of_In. apply list_elem_of_In in He.
      eapply Permutation_in; eauto. }
    simpl in Hf. rewrite Hf.
    exists h', idx'. split; [reflexivity|]. split; [exact Ho|].
    split; [exact P|]. split; [congruence|].
    assert (PM : Permutation (map fst h') (map fst h))
      by now apply Permutation_map.
    split.
    + intros x Hx. apply Hout. intros Hx'. apply Hx.
      eapply Permutation_in; eauto.
    + intros j e Hj. apply (Hin ltac:(eapply Permutation_NoDup;
                                        [symmetry; exact PM|exact ND]) j e Hj).
Qed.

Lemma insertAll_bulk_ok q pairs :
  wf n q -> Forall (fun pr : hentry => fst pr < n) pairs ->
  List.NoDup (map fst pairs) ->
  length (_minheap q) <= length pairs ->
  exists q', insertAll q pairs = Some q' /\ wf n q' /\
    forall y w, binds q' y w <->
      binds q y w \/ (In (y, w) pairs /\ forall v, ~ binds q y v).
Proof.
  intros W Hall ND Hle. unfold insertAll.
  destruct (Nat.leb_spec (length (_minheap q)) (length pairs)); [|lia].
  destruct q as [h idx]. cbn [_minheap _index] in *.
  pose proof (wf_len _ _ _ W) as Hlen. cbn [_index] in Hlen.
  rewrite bulk_append by now rewrite Hlen.
  set (fresh := List.filter _ pairs).
  assert (Hfresh : forall y w, In (y, w) fresh <->
            In (y, w) pairs /\ forall v, ~ binds (mkPQ h idx) y v).
  { intros y w. unfold fresh. rewrite filter_In. cbn [fst].
    split; intros [Hin Hy]; (split; [exact Hin|]).
    - intros v Hv.
      destruct (binds_index n _ y v W Hv) as (k & Hk & _).
      cbn [_index] in Hk. rewrite Hk in Hy.
      apply Z.ltb_lt in Hy. lia.
    - assert (Hyn : y < n).
      { apply (proj1 (List.Forall_forall _ _) Hall (y, w)) in Hin. exact Hin. }
      pose proof (unbound_index n _ y W Hyn Hy) as Hi.
      cbn [_index] in Hi. now rewrite Hi. }
  destruct (heapify_ok (h ++ fresh) idx Hlen)
    as (h' & idx' & -> & Ho & P & Hl' & Hout & Hin).
  - apply Forall_app. split.
    + apply Forall_forall. intros e He. apply list_elem_of_lookup in He as [k Hk].
      apply (wf_lt n _ k e W Hk).
    + apply Forall_forall. intros [y w] He. apply list_elem_of_In in He.
      apply Hfresh in He as [He _].
      apply (proj1 (List.Forall_forall _ _) Hall (y, w)). exact He.
  - rewrite map_app. apply NoDup_ListNoDup, NoDup_app. split; [|split].
    + apply (wf_NoDup n _ W).
    + intros x Hx Hx'. apply list_elem_of_In in Hx, Hx'.
      apply in_map_iff in Hx as ([x1 v1] & <- & H1).
      apply in_map_iff in Hx' as ([x2 v2] & E & H2). simpl in E. subst x2.
      apply Hfresh in H2 as [_ H2]. apply (H2 v1). exact H1.
    + apply NoDup_ListNoDup. unfold fresh.
      clear -ND. induction pairs as [|pr l IH]; simpl; [constructor|].
      inversion ND as [|? ? Hn ND']; subst.
      destruct (match idx !! fst pr with Some i => (i <? 0)%Z | None => false end).
      * simpl. constructor; [|now apply IH].
        intros Hin. apply Hn. apply in_map_iff in Hin as (e & He & Hin).
        apply filter_In in Hin as [Hin _]. apply in_map_iff. eauto.
      * now apply IH.
  - exists (mkPQ h' idx'). split; [reflexivity|]. split.
    + constructor; cbn [_minheap _index].
      * exact Hl'.
      * exact Ho.
      * intros k e Hk. apply (Hin k e Hk).
      * intros x i Hx _.
        destruct (classic_in_fst h' x) as [(v & k & Hk)|Hnin].
        -- right. exists k, v. split; [|exact Hk].
           pose proof (Hin k (x, v) Hk) as Hi. cbn [fst] in Hi. congruence.
        -- left. rewrite Hout in Hx.
           ++ destruct (wf_neg _ _ _ W x i Hx) as [->|(k & v & -> & Hk)];
                [tauto|reflexivity|exfalso].
              cbn [_minheap] in Hk. apply Hnin. exists v.
              apply (Permutation_in _ (Permutation_sym P)).
              apply in_or_app. left.
              apply list_elem_of_In, list_elem_of_lookup. eauto.
           ++ intros Hx'. apply in_map_iff in Hx' as ([x' v] & E & Hx').
              simpl in E. subst x'. apply Hnin. exists v.
              apply (Permutation_in _ (Permutation_sym P)). exact Hx'.
    + intros y w. unfold binds at 1. cbn [_minheap].
      split.
      * intros Hb. apply (Permutation_in _ P) in Hb.
        apply in_app_or in Hb as [Hb|Hb]; [now left|right].
        now apply Hfresh.
      * intros Hb. apply (Permutation_in _ (Permutation_sym P)).
        apply in_or_app. destruct Hb as [Hb|Hb]; [now left|right].
        now apply Hfresh.
Qed.

End Heapify.

Section InsertAll.
Import PQInts.
Variable n : nat.

Lemma insert_each_ok pairs : forall q,
  wf n q -> Forall (fun pr : nat * priority => fst pr < n) pairs ->
  List.NoDup (map fst pairs) ->
  exists q', insert_each q pairs = Some q' /\ wf n q' /\
    forall y w, binds q' y w <->
      binds q y w \/ (In (y, w) pairs /\ forall v, ~ binds q y v).
Proof.
  induction pairs as [|[x v] pairs IH]; intros q W Hall ND.
  - exists q. split; [reflexivity|]. split; [exact W|].
    intros y w. simpl. tauto.
  - apply Forall_cons in Hall as [Hx Hall]. cbn [fst] in Hx.
    inversion ND as [|? ? Hnin ND']; subst.
    unfold insert_each. cbn [foldM fst snd].
    destruct (bound_or_unbound n q x W Hx) as [[v0 Hv0]|Hnb].
    + rewrite (insert_present n q x v0 v W Hv0).
      destruct (IH q W Hall ND') as (q' & Hq' & W' & Hb).
      unfold insert_each in Hq'. rewrite Hq'.
      exists q'. split; [reflexivity|]. split; [exact W'|].
      intros y w. rewrite Hb. simpl. split.
      * intuition.
      * intros [?|[[[= <- <-]|?] Hn]]; [tauto| |tauto].
        exfalso. apply (Hn v0 Hv0).
    + destruct (insert_ok n q x v W Hx Hnb) as (q1 & -> & W1 & Hb1).
      destruct (IH q1 W1 Hall ND') as (q' & Hq' & W' & Hb).
      unfold insert_each in Hq'. rewrite Hq'.
      exists q'. split; [reflexivity|]. split; [exact W'|].
      intros y w. rewrite Hb. simpl. split.
      * intros [H1|[Hin Hn]].
        -- apply Hb1 in H1 as [[-> ->]|H1]; [right|now left].
           split; [now left|exact Hnb].
        -- right. split; [now right|]. intros v' Hv'. apply (Hn v').
           apply Hb1. now right.
      * intros [H|[[[= <- <-]|Hin] Hn]].
        -- left. apply Hb1. now right.
        -- left. apply Hb1. now left.
        -- right. split; [exact Hin|]. intros v' Hv'.
           apply Hb1 in Hv' as [[-> _]|Hv']; [|now apply (Hn v')].
           apply Hnin. apply in_map_iff. exists (x, w). auto.
Qed.

Lemma insertAll_ok q pairs :
  wf n q -> Forall (fun pr : nat * priority => fst pr < n) pairs ->
  List.NoDup (map fst pairs) ->
  exists q', insertAll q pairs = Some q' /\ wf n q' /\
    forall y w, binds q' y w <->
      binds q y w \/ (In (y, w) pairs /\ forall v, ~ binds q y v).
Proof.
  intros W Hall ND.
  destruct (Nat.le_gt_cases (length (_minheap q)) (length pairs)) as [Hle|Hgt].
  - now apply insertAll_bulk_ok.
  - unfold insertAll.
    destruct (Nat.leb_spec (length (_minheap q)) (length pairs)); [lia|].
    now apply insert_each_ok.
Qed.

(** The calls on a queue in which no [insertAll] names an element twice. *)
Definition op_distinct (o : op) : Prop :=
  match o with
  | InsertAll pairs => List.NoDup (map fst pairs)
  | _ => True
  end.

Inductive reachable_distinct : t -> Prop :=
| reachd_init : reachable_distinct (init n)
| reachd_step q o q' :
    reachable_distinct q -> op_in_range n o -> op_distinct o ->
    run q o = Some q' -> reachable_distinct q'.

Lemma run_wf q o :
  wf n q -> op_in_range n o -> op_distinct o ->
  (exists q', run q o = Some q' /\ wf n q') \/
  (o = ExtractMin /\ _minheap q = [] /\ run q o = None).
Proof.
  intros W Hr Hd. destruct o as [x v|pairs| |x v]; simpl in *.
  - left. destruct (bound_or_unbound n q x W Hr) as [[v0 Hv0]|Hnb].
    + rewrite (insert_present n q x v0 v W Hv0). eauto.
    + destruct (insert_ok n q x v W Hr Hnb) as (q' & -> & W' & _). eauto.
  - left. destruct (insertAll_ok q pairs W Hr Hd) as (q' & -> & W' & _). eauto.
  - destruct (_minheap q) as [|e h] eqn:E.
    + right. split; [reflexivity|]. split; [reflexivity|].
      unfold extractMin. now rewrite E.
    + left. destruct (extractMin_ok n q W) as (q' & x & v & -> & W' & _);
        [congruence|eauto].
  - left. destruct (bound_or_unbound n q x W Hr) as [[v0 Hv0]|Hnb].
    + destruct (changePriority_ok n q x v0 v W Hv0) as (q' & -> & W' & _).
      eauto.
    + rewrite (changePriority_absent n q x v W Hr Hnb). eauto.
Qed.

Lemma reachable_distinct_wf q : reachable_distinct q -> wf n q.
Proof.
  induction 1 as [|q o q' _ IH Hr Hd Hrun].
  - apply wf_init.
  - destruct (run_wf q o IH Hr Hd) as [(q'' & Hq & W)|(_ & _ & Hn)];
      congruence.
Qed.

End InsertAll.

Lemma contains_out_of_range n q y :
  wf n q -> n <= y -> PQInts.contains q y = None.
Proof.
  intros W Hy. unfold PQInts.contains.
  rewrite lookup_ge_None_2; [reflexivity|]. now rewrite (wf_len _ _ _ W).
Qed.

(** X5.  When no element occurs twice in [pairs] (all elements below [n]),
    [insertAll(pairs)] on a well-formed queue returns on either of its two
    paths and leaves a well-formed queue that answers [contains] and
    [getPriority] exactly as the queue left by one [insert] per pair does:
    the elements contained before keep their priorities, and every pair
    whose element was not contained is added with its priority. *)
Theorem insertAll_without_repeats
  (n : nat) (q : PQInts.t) (pairs : list (nat * priority)) :
  wf n q ->
  Forall (fun pr : nat * priority => fst pr < n) pairs ->
  List.NoDup (map fst pairs) ->
  exists q_all q_each,
    PQInts.insertAll q pairs = Some q_all /\
    PQInts.insert_each q pairs = Some q_each /\
    wf n q_all /\
    (forall y, PQInts.contains q_all y = PQInts.contains q_each y) /\
    (forall y, PQInts.contains q_all y = Some true ->
               PQInts.getPriority q_all y = PQInts.getPriority q_each y) /\
    (forall y, PQInts.contains q y = Some true ->
               PQInts.contains q_all y = Some true /\
               PQInts.getPriority q_all y = PQInts.getPriority q y) /\
    (forall y w, In (y, w) pairs -> PQInts.contains q y = Some false ->
                 PQInts.contains q_all y = Some true /\
                 PQInts.getPriority q_all y = Some w) /\
    (forall y, PQInts.contains q_all y = Some true ->
               PQInts.contains q y = Some true \/ In y (map fst pairs)).
Proof.
  intros W Hall ND.
  destruct (insertAll_ok n q pairs W Hall ND) as (qa & Ha & Wa & Ba).
  destruct (insert_each_ok n pairs q W Hall ND) as (qe & He & We & Be).
  exists qa, qe. split; [exact Ha|]. split; [exact He|]. split; [exact Wa|].
  assert (Hsame : forall y, y < n ->
            PQInts.contains qa y = PQInts.contains qe y /\
            (PQInts.contains qe y = Some true ->
             PQInts.getPriority qa y = PQInts.getPriority qe y)).
  { intros y Hy. apply (same_binds_api n qe qa y We Wa Hy).
    intros w. now rewrite Ba, Be. }
  assert (Hlt : forall q0 y b, wf n q0 -> PQInts.contains q0 y = Some b -> y < n).
  { intros q0 y b W0 Hc. destruct (Nat.lt_ge_cases y n) as [?|Hge]; [auto|].
    rewrite (contains_out_of_range n q0 y W0 Hge) in Hc. discriminate. }
  split; [|split; [|split; [|split]]].
  - intros y. destruct (Nat.lt_ge_cases y n) as [Hy|Hy].
    + apply (Hsame y Hy).
    + now rewrite !(contains_out_of_range n _ y) by assumption.
  - intros y Hc. pose proof (Hlt _ _ _ Wa Hc) as Hy.
    destruct (Hsame y Hy) as [E Hg]. apply Hg. congruence.
  - intros y Hc. pose proof (Hlt _ _ _ W Hc) as Hy.
    destruct (contains_cases n q y W Hy) as [[_ [v Hv]]|[Hf _]]; [|congruence].
    assert (Hv' : binds qa y v) by (apply Ba; now left).
    apply (binds_api n qa y v Wa) in Hv' as [Hc' Hg'].
    apply (binds_api n q y v W) in Hv as [_ Hg].
    split; [exact Hc'|congruence].
  - intros y w Hin Hc. pose proof (Hlt _ _ _ W Hc) as Hy.
    assert (Hv' : binds qa y w).
    { apply Ba. right. split; [exact Hin|]. now apply (absent_api n q y W Hy). }
    now apply (binds_api n qa y w Wa) in Hv'.
  - intros y Hc. pose proof (Hlt _ _ _ Wa Hc) as Hy.
    destruct (contains_cases n qa y Wa Hy) as [[_ [v Hv]]|[Hf _]]; [|congruence].
    apply Ba in Hv as [Hv|[Hin _]].
    + left. eapply contains_bound; eauto.
    + right. apply in_map_iff. exists (y, v). auto.
Qed.

Lemma insertAll_without_repeats_witness :
  exists q_all q_each,
    PQInts.insertAll (PQInts.init 3) [(2, Fin 7); (0, Fin 4)] = Some q_all /\
    PQInts.insert_each (PQInts.init 3) [(2, Fin 7); (0, Fin 4)]
      = Some q_each /\
    PQInts.getPriority q_all 0 = Some (Fin 4) /\
    PQInts.getPriority q_all 2 = PQInts.getPriority q_each 2.
Proof.
  destruct (insertAll_without_repeats 3 (PQInts.init 3)
              [(2, Fin 7); (0, Fin 4)] (wf_init 3))
    as (qa & qe & Ha & He & _ & _ & Hg & _ & Hnew & _).
  - repeat constructor; simpl; lia.
  - repeat constructor; simpl; intuition lia.
  - exists qa, qe. split; [exact Ha|]. split; [exact He|]. split.
    + apply (Hnew 0 (Fin 4)); [simpl; auto|reflexivity].
    + apply Hg. apply (Hnew 2 (Fin 7)); [simpl; auto|reflexivity].
Defined.

(** X6.  In every state reached from the empty queue by [insert],
    [extractMin], [changePriority] and [insertAll] calls with elements below
    [n], no [insertAll] naming an element twice, the sequence is in heap
    order and the position index is consistent with it; and every further
    such call returns, except [extractMin] on the empty queue. *)
Theorem invariants_without_repeats (n : nat) (q : PQInts.t) :
  reachable_distinct n q ->
  PQInts.reachable n q /\
  PQInts.heap_ordered (PQInts._minheap q) /\
  PQInts.index_consistent q /\
  forall o, PQInts.op_in_range n o -> op_distinct o ->
    (PQInts.run q o = None <->
     o = PQInts.ExtractMin /\ PQInts.isEmpty q = true).
Proof.
  intros R. pose proof (reachable_distinct_wf n q R) as W.
  split; [|split; [|split]].
  - clear W. induction R as [|q o q' R IH Hr Hd Hrun].
    + apply PQInts.reach_init.
    + apply (PQInts.reach_step n q o q'); auto.
  - apply (wf_invariants n q W).
  - apply (wf_invariants n q W).
  - intros o Hr Hd.
    destruct (run_wf n q o W Hr Hd) as [(q' & Hq & _)|(-> & He & Hn)].
    + rewrite Hq. split; [discriminate|]. intros [-> He].
      apply isEmpty_spec in He. simpl in Hq.
      unfold PQInts.extractMin in Hq. rewrite He in Hq. discriminate.
    + split; [|intros _; exact Hn]. intros _. split; [reflexivity|].
      now apply isEmpty_spec.
Qed.

Lemma invariants_without_repeats_witness :
  exists q,
    PQInts.run (PQInts.init 2) (PQInts.InsertAll [(1, Fin 3); (0, Fin 1)])
      = Some q /\
    PQInts.heap_ordered (PQInts._minheap q) /\
    PQInts.index_consistent q.
Proof.
  destruct (insertAll_ok 2 (PQInts.init 2) [(1, Fin 3); (0, Fin 1)]
              (wf_init 2)) as (q & Hq & _ & _).
  - repeat constructor; simpl; lia.
  - repeat constructor; simpl; intuition lia.
  - exists q. split; [exact Hq|].
    destruct (invariants_without_repeats 2 q) as (_ & Ho & Hi & _);
      [|split; assumption].
    apply (reachd_step 2 (PQInts.init 2)
             (PQInts.InsertAll [(1, Fin 3); (0, Fin 1)]) q).
    + apply reachd_init.
    + repeat constructor; simpl; lia.
    + repeat constructor; simpl; intuition lia.
    + exact Hq.
Defined.

(** The loop [while not Q.isEmpty() : ... Q.extractMin()] of a client such
    as [mstPrim], recording every extracted element with the priority it
    had.  Every iteration removes an entry, so [fuel] above the size is
    enough. *)
Fixpoint drain (fuel : nat) (q : PQInts.t) : option (list (nat * priority)) :=
  match fuel with
  | 0 => None
  | S fuel' =>
      if PQInts.isEmpty q then Some []
      else
        let* x := PQInts.peekMin q in
        let* v := PQInts.getPriority q x in
        let* (q1, _) := PQInts.extractMin q in
        let* rest := drain fuel' q1 in
        Some ((x, v) :: rest)
  end.

Lemma drain_ok n fuel : forall q,
  wf n q -> PQInts.size q < fuel ->
  exists out, drain fuel q = Some out /\
    (forall x v, In (x, v) out <-> binds q x v) /\
    List.NoDup (map fst out) /\
    forall i j a b, i < j -> out !! i = Some a -> out !! j = Some b ->
      prio_le (snd a) (snd b).
Proof.
  induction fuel as [|fuel IH]; intros q W Hf; [lia|]. cbn [drain].
  destruct (PQInts.isEmpty q) eqn:He.
  - apply isEmpty_spec in He. exists []. split; [reflexivity|]. split.
    + intros x v. unfold binds. rewrite He. reflexivity.
    + split; [constructor|]. intros i j a b _ Hi. discriminate Hi.
  - assert (Hne : PQInts._minheap q <> []).
    { intros E. apply isEmpty_spec in E. congruence. }
    destruct (extractMin_ok n q W Hne)
      as (q1 & x & v & Hex & W1 & Hbx & Hmin & Hb & Hs).
    rewrite (extractMin_peekMin q q1 x Hex).
    rewrite (getPriority_bound n q x v W Hbx). rewrite Hex.
    destruct (IH q1 W1) as (rest & -> & Hin & ND & Hsorted); [lia|].
    exists ((x, v) :: rest). split; [reflexivity|]. split; [|split].
    + intros y w. simpl. rewrite Hin, Hb. split.
      * intros [[= <- <-]|[_ H]]; auto.
      * intros H. destruct (decide (y = x)) as [->|Hne'].
        -- left. f_equal. exact (binds_fun n q x v w W Hbx H).
        -- right. auto.
    + simpl. constructor; [|exact ND]. intros Hx.
      apply in_map_iff in Hx as ([y w] & E & Hy). simpl in E. subst y.
      apply Hin, Hb in Hy. tauto.
    + intros i j a b Hij Hi Hj. destruct j as [|j]; [lia|]. simpl in Hj.
      destruct i as [|i]; simpl in Hi.
      * injection Hi as <-. destruct b as [y w]. simpl.
        apply (Hmin y w). apply (proj1 (Hb y w)). apply Hin.
        apply list_elem_of_In, list_elem_of_lookup. eauto.
      * apply (Hsorted i j a b); auto. lia.
Qed.

(** X7.  Emptying a well-formed queue with [extractMin] returns every
    contained element exactly once, in an order in which the priorities
    never decrease. *)
Theorem extraction_order (n : nat) (q : PQInts.t) :
  wf n q ->
  exists out,
    drain (S (PQInts.size q)) q = Some out /\
    length out = PQInts.size q /\
    List.NoDup (map fst out) /\
    (forall x v, In (x, v) out <->
       PQInts.contains q x = Some true /\ PQInts.getPriority q x = Some v) /\
    (forall i j a b, i < j -> out !! i = Some a -> out !! j = Some b ->
       prio_ltb (snd b) (snd a) = false).
Proof.
  intros W.
  destruct (drain_ok n (S (PQInts.size q)) q W) as (out & Hd & Hin & ND & Hs);
    [lia|].
  exists out. split; [exact Hd|]. split; [|split; [exact ND|split]].
  - apply Permutation_length. apply NoDup_Permutation.
    + apply (NoDup_fmap_1 fst). now apply NoDup_ListNoDup.
    + now apply (wf_heap_NoDup n).
    + intros [x v]. rewrite !list_elem_of_In. apply Hin.
  - intros x v. rewrite Hin. apply (binds_api n q x v W).
  - exact Hs.
Qed.

Lemma extraction_order_witness :
  exists q out,
    PQInts.insertAll (PQInts.init 3) [(2, Fin 7); (0, Fin 4); (1, Fin 9)]
      = Some q /\
    drain (S (PQInts.size q)) q = Some out /\ length out = PQInts.size q.
Proof.
  destruct (insertAll_ok 3 (PQInts.init 3)
              [(2, Fin 7); (0, Fin 4); (1, Fin 9)] (wf_init 3))
    as (q & Hq & W & _).
  - repeat constructor; simpl; lia.
  - repeat constructor; simpl; intuition lia.
  - destruct (extraction_order 3 q W) as (out & Hd & Hl & _).
    exists q, out. auto.
Defined.

(** ** More on the disjoint-set forest *)

Section PathCompression.
Import DisjointIntegerSets.

(** [on_path ps x z]: [z] lies on the chain of parents that starts at [x]
    (its representative included). *)
Inductive on_path (ps : list nat) : nat -> nat -> Prop :=
| path_here x : on_path ps x x
| path_up x px z :
    ps !! x = Some px -> px <> x -> on_path ps px z -> on_path ps x z.

Lemma on_path_root_of ps x z :
  on_path ps x z ->
  forall r d, root_of ps x r d -> exists d', d' <= d /\ root_of ps z r d'.
Proof.
  induction 1 as [x|x px z Hx Hne _ IH]; intros r d Hr.
  - exists d. auto.
  - inversion Hr as [? Hx'|? px' ? d0 Hx' Hne' Hup]; subst.
    + congruence.
    + rewrite Hx in Hx'. injection Hx' as <-.
      destruct (IH r d0 Hup) as (d' & Hle & H'). exists d'. split; [lia|auto].
Qed.

Lemma findset_rec_path nodes x r d :
  root_of (parents nodes) x r d ->
  forall depth, d < depth ->
  exists nodes', findset_rec depth nodes x = Some (nodes', r) /\
    length nodes' = length nodes /\
    (forall z nz, nodes !! z = Some nz -> on_path (parents nodes) x z ->
       nodes' !! z = Some (mkNode r (rank nz))) /\
    (forall z, ~ on_path (parents nodes) x z -> nodes' !! z = nodes !! z).
Proof.
  induction 1 as [x Hx | x px r d Hx Hne Hup IH]; intros [|depth] Hd;
    try lia; simpl.
  - pose proof Hx as Hx0. rewrite parents_lookup in Hx.
    destruct (nodes !! x) as [nx|] eqn:Ex; [|discriminate].
    injection Hx as Hp. rewrite Hp, Nat.eqb_refl. simpl.
    exists nodes. split; [reflexivity|]. split; [reflexivity|]. split; [|auto].
    intros z nz Hz Hpath. inversion Hpath as [|? px ? Hx' Hne' _]; subst.
    + rewrite Ex in Hz. injection Hz as <-. rewrite Ex. f_equal.
      destruct nx as [pn rn]. simpl in *. now subst.
    + congruence.
  - pose proof Hx as Hx0. rewrite parents_lookup in Hx.
    destruct (nodes !! x) as [nx|] eqn:Ex; [|discriminate].
    injection Hx as Hp. rewrite Hp.
    destruct (Nat.eqb_spec x px) as [->|_]; [congruence|]. simpl.
    destruct (IH depth) as (nodes1 & -> & L1 & Hin1 & Hout1); [lia|].
    assert (Hnot : ~ on_path (parents nodes) px x).
    { intros Hpath.
      destruct (on_path_root_of _ _ _ Hpath r d Hup) as (d' & Hle & H').
      assert (Hx2 : root_of (parents nodes) x r (S d))
        by (eapply root_up; eauto).
      destruct (root_of_fun _ _ _ _ Hx2 _ _ H') as [_ E]. lia. }
    assert (Hlt : x < length nodes1).
    { rewrite L1. eapply lookup_lt_Some; eauto. }
    rewrite (Hout1 x Hnot), Ex.
    rewrite list_lookup_insert_eq by exact Hlt. simpl.
    eexists. split; [reflexivity|]. split; [|split].
    + now rewrite length_insert.
    + intros z nz Hz Hpath. inversion Hpath as [|? px' ? Hx' Hne' Hp']; subst.
      * rewrite Ex in Hz. injection Hz as <-.
        now rewrite list_lookup_insert_eq.
      * rewrite Hx0 in Hx'. injection Hx' as <-.
        assert (z <> x) by (intros ->; auto).
        rewrite list_lookup_insert_ne by auto. now apply Hin1.
    + intros z Hz. assert (z <> x) by (intros ->; apply Hz; constructor).
      rewrite list_lookup_insert_ne by auto. apply Hout1.
      intros Hp'. apply Hz. eapply path_up; eauto.
Qed.

End PathCompression.

(** X8.  In a forest, let the chain of parents from an element [x] to its
    root [r] have [d] links (fewer than there are elements).  When the
    recursion limit allows [findset] more than [d] nested calls,
    [findset(x)] returns [r] and compresses the path: every node on the
    chain then has [r] as its parent, with its rank unchanged, and every
    node off the chain is untouched.  When the limit allows [d] nested
    calls or fewer, [findset(x)] raises.  With [x] out of range the call
    raises as well. *)
Theorem findset_compresses_path
  (limit : nat) (nodes : DisjointIntegerSets.t) (x : nat) :
  DisjointIntegerSets.forest nodes ->
  (x < length nodes ->
   exists r d,
     DisjointIntegerSets.root_of (DisjointIntegerSets.parents nodes) x r d /\
     d < length nodes /\
     (d < limit ->
      exists nodes',
        DisjointIntegerSets.findset limit nodes x = Some (nodes', r) /\
        length nodes' = length nodes /\
        (forall z nz,
           nodes !! z = Some nz ->
           on_path (DisjointIntegerSets.parents nodes) x z ->
           nodes' !! z =
           Some (DisjointIntegerSets.mkNode r (DisjointIntegerSets.rank nz))) /\
        (forall z,
           ~ on_path (DisjointIntegerSets.parents nodes) x z ->
           nodes' !! z = nodes !! z)) /\
     (limit <= d -> DisjointIntegerSets.findset limit nodes x = None)) /\
  (length nodes <= x -> DisjointIntegerSets.findset limit nodes x = None).
Proof.
  intros F. split.
  - intros Hx. destruct (F x Hx) as (r & d & Hr).
    exists r, d. split; [exact Hr|]. split; [|split].
    + rewrite <- length_parents. eapply root_of_depth; eauto.
    + intros Hd.
      destruct (findset_rec_path _ _ _ _ Hr limit Hd)
        as (nodes' & H & L & Hin & Hout).
      exists nodes'. auto.
    + intros Hd. apply (findset_rec_deep _ _ _ _ Hr limit Hd).
  - intros Hx. unfold DisjointIntegerSets.findset.
    destruct limit; [reflexivity|]. simpl.
    rewrite lookup_ge_None_2; [reflexivity|lia].
Qed.

(** On the chain [0 -> 1 -> 2], [findset(0)] with room for three nested
    calls returns 2 and re-parents 0 to it; with room for two it raises. *)
Lemma findset_compresses_path_witness :
  (exists nodes',
     DisjointIntegerSets.findset 3 (chain 3 2) 0 = Some (nodes', 2) /\
     nodes' !! 0 = Some (DisjointIntegerSets.mkNode 2 0)) /\
  DisjointIntegerSets.findset 2 (chain 3 2) 0 = None /\
  DisjointIntegerSets.findset 3 (chain 3 2) 3 = None.
Proof.
  assert (F : DisjointIntegerSets.forest (chain 3 2))
    by (apply chain_forest; lia).
  assert (R : DisjointIntegerSets.root_of
                (DisjointIntegerSets.parents (chain 3 2)) 0 2 2)
    by (apply chain_root_of; lia).
  split; [|split].
  - destruct (findset_compresses_path 3 (chain 3 2) 0 F) as [Hin _].
    destruct Hin as (r & d & Hr & _ & Hok & _); [simpl; lia|].
    destruct (root_of_fun _ _ _ _ Hr _ _ R) as [-> ->].
    destruct Hok as (nodes' & H & _ & Hpath & _); [lia|].
    exists nodes'. split; [exact H|].
    apply (Hpath 0 (DisjointIntegerSets.mkNode 1 0)); [reflexivity|].
    apply path_here.
  - destruct (findset_compresses_path 2 (chain 3 2) 0 F) as [Hin _].
    destruct Hin as (r & d & Hr & _ & _ & Hdeep); [simpl; lia|].
    destruct (root_of_fun _ _ _ _ Hr _ _ R) as [-> ->].
    apply Hdeep. lia.
  - destruct (findset_compresses_path 3 (chain 3 2) 3 F) as [_ Hout].
    apply Hout. simpl. lia.
Defined.

Lemma same_set_reps nodes u v ru rv :
  DisjointIntegerSets.rep nodes u ru -> DisjointIntegerSets.rep nodes v rv ->
  (same_set nodes u v <-> ru = rv).
Proof.
  intros Hu Hv. split.
  - intros (r & H1 & H2).
    rewrite (rep_fun _ _ _ _ Hu H1). apply (rep_fun _ _ _ _ H2 Hv).
  - intros <-. exists ru. auto.
Qed.

(** X9.  In a forest, under a recursion limit that allows [findset] as
    many nested calls as there are elements, [union(x, y)] returns a forest
    over the same elements in which two elements are in the same set
    exactly when they were before, or one was in the set of [x] and the
    other in the set of [y]: the two sets are merged and every other set is
    left as it was.  When the chain of parents from [x] to its root has as
    many links as the limit allows nested calls, or more, [union(x, y)]
    raises. *)
Theorem union_merges_two_sets
  (limit : nat) (nodes : DisjointIntegerSets.t) (x y : nat) :
  DisjointIntegerSets.forest nodes ->
  x < length nodes -> y < length nodes ->
  (length nodes <= limit ->
   exists nodes',
     DisjointIntegerSets.union limit nodes x y = Some nodes' /\
     DisjointIntegerSets.forest nodes' /\
     length nodes' = length nodes /\
     forall a b, a < length nodes -> b < length nodes ->
       (same_set nodes' a b <->
        same_set nodes a b \/
        (same_set nodes a x /\ same_set nodes b y) \/
        (same_set nodes a y /\ same_set nodes b x))) /\
  (forall r d,
     DisjointIntegerSets.root_of (DisjointIntegerSets.parents nodes) x r d ->
     limit <= d -> DisjointIntegerSets.union limit nodes x y = None).
Proof.
  intros F Hx Hy. split.
  2: { intros r d Hr Hd. unfold DisjointIntegerSets.union.
       unfold DisjointIntegerSets.findset at 1.
       now rewrite (findset_rec_deep _ _ _ _ Hr limit Hd). }
  intros Hl.
  destruct (union_spec limit nodes x y F (shallow_of_length _ _ Hl) Hx Hy)
    as (nodes' & rx & ry & t & Hu & F' & L & Rx & Ry & Ht & Hmap).
  exists nodes'. split; [exact Hu|]. split; [exact F'|]. split; [exact L|].
  intros a b Ha Hb.
  destruct (F a Ha) as [ra Ra]. destruct (F b Hb) as [rb Rb].
  rewrite (same_set_reps nodes' a b _ _ (Hmap a ra Ra) (Hmap b rb Rb)).
  rewrite (same_set_reps nodes a b ra rb Ra Rb).
  rewrite (same_set_reps nodes a x ra rx Ra Rx).
  rewrite (same_set_reps nodes b y rb ry Rb Ry).
  rewrite (same_set_reps nodes a y ra ry Ra Ry).
  rewrite (same_set_reps nodes b x rb rx Rb Rx).
  destruct (decide (ra = rx \/ ra = ry)) as [Da|Da];
    destruct (decide (rb = rx \/ rb = ry)) as [Db|Db].
  - split; [intros _|intros _; reflexivity].
    destruct Da as [->| ->], Db as [->| ->]; tauto.
  - split.
    + intros E. exfalso. apply Db. subst rb. exact Ht.
    + intros [E|[[E1 E2]|[E1 E2]]]; exfalso; apply Db.
      * now rewrite <- E.
      * now right.
      * now left.
  - split.
    + intros E. exfalso. apply Da. subst ra. exact Ht.
    + intros [E|[[E1 E2]|[E1 E2]]]; exfalso; apply Da.
      * now rewrite E.
      * now left.
      * now right.
  - split; [intros E; now left|].
    intros [E|[[E1 E2]|[E1 E2]]]; [exact E| |]; exfalso; apply Da.
    + now left.
    + now right.
Qed.

(** On the chain [0 -> 1] with the singleton [2]: [union(0, 2)] with room
    for three nested calls joins the two sets, and with room for one it
    raises. *)
Lemma union_merges_two_sets_witness :
  (exists nodes',
     DisjointIntegerSets.union 3 (chain 3 1) 0 2 = Some nodes' /\
     (same_set nodes' 1 2 <->
      same_set (chain 3 1) 1 2 \/
      (same_set (chain 3 1) 1 0 /\ same_set (chain 3 1) 2 2) \/
      (same_set (chain 3 1) 1 2 /\ same_set (chain 3 1) 2 0))) /\
  DisjointIntegerSets.union 1 (chain 3 1) 0 2 = None.
Proof.
  assert (F : DisjointIntegerSets.forest (chain 3 1))
    by (apply chain_forest; lia).
  destruct (union_merges_two_sets 3 (chain 3 1) 0 2 F) as [Hok _];
    [simpl; lia..|].
  destruct (union_merges_two_sets 1 (chain 3 1) 0 2 F) as [_ Hdeep];
    [simpl; lia..|].
  split.
  - destruct Hok as (nodes' & Hu & _ & _ & Hs); [simpl; lia|].
    exists nodes'. split; [exact Hu|]. apply Hs; simpl; lia.
  - apply (Hdeep 1 1); [|lia]. apply chain_root_of; lia.
Defined.

Lemma init_rep n x r :
  x < n -> DisjointIntegerSets.rep (DisjointIntegerSets.init n) x r -> r = x.
Proof.
  intros Hx [d Hr].
  inversion Hr as [? Hl|? pz ? ? Hl Hne _]; subst; [reflexivity|].
  rewrite parents_lookup, init_lookup in Hl by exact Hx.
  simpl in Hl. congruence.
Qed.

(** X10.  [DisjointIntegerSets(n)] puts every integer below [n] in a set of
    its own: [findset(x)], which needs no nested call, returns [x] and
    leaves the forest as it is, and no two different elements are in the
    same set. *)
Theorem init_singletons (limit n x : nat) :
  x < n -> 1 <= limit ->
  DisjointIntegerSets.findset limit (DisjointIntegerSets.init n) x
    = Some (DisjointIntegerSets.init n, x) /\
  forall y, y < n -> (same_set (DisjointIntegerSets.init n) x y <-> x = y).
Proof.
  intros Hx Hl. split.
  - apply (findset_root limit _ x (DisjointIntegerSets.mkNode x 0) Hl);
      [|reflexivity].
    now apply init_lookup.
  - intros y Hy. split.
    + intros (r & H1 & H2). apply init_rep in H1; [|exact Hx].
      apply init_rep in H2; [|exact Hy]. congruence.
    + intros <-. destruct (init_forest n x) as [r Hr].
      { now rewrite init_length. }
      exists r. auto.
Qed.

Lemma init_singletons_witness :
  DisjointIntegerSets.findset 1 (DisjointIntegerSets.init 3) 1
    = Some (DisjointIntegerSets.init 3, 1) /\
  (same_set (DisjointIntegerSets.init 3) 1 2 <-> 1 = 2).
Proof.
  destruct (init_singletons 1 3 1) as [H1 H2]; [lia|lia|].
  split; [exact H1|]. apply H2. lia.
Defined.

(** ** Transposes *)

Lemma foldM_map {A B C} (F : A -> C -> option A) (h : B -> C) l : forall a,
  foldM F a (map h l) = foldM (fun a x => F a (h x)) a l.
Proof.
  induction l as [|x l IH]; intros a; simpl; [reflexivity|].
  destruct (F a (h x)); [apply IH|reflexivity].
Qed.

(** A loop over [enumerate(self._adj)] with a nested loop over each list
    is one loop over the comprehension. *)
Lemma foldM_nested {A E X} (F : A -> X -> option A) (G : nat -> E -> X)
  (adj : list (_AdjacencyList E)) : forall k a,
  foldM (fun a (ua : nat * _AdjacencyList E) =>
           foldM (fun a x => F a (G (fst ua) x)) a (iter (snd ua)))
        a (imap (fun u l => (k + u, l)) adj)
  = foldM F a
      (concat (imap (fun u l => flat_map (fun x => [G (k + u) x]) (iter l))
                    adj)).
Proof.
  induction adj as [|l adj IH]; intros k a; [reflexivity|].
  cbn [imap foldM concat fst snd]. rewrite foldM_app.
  assert (Hflat : forall xs, flat_map (fun x => [G (k + 0) x]) xs
                             = map (G (k + 0)) xs).
  { induction xs as [|x xs IHx]; simpl; [reflexivity|]. now rewrite IHx. }
  rewrite Hflat, foldM_map.
  destruct (foldM (fun a x => F a (G (k + 0) x)) a (iter l)) as [a'|];
    [|reflexivity].
  assert (E1 : imap (compose (fun u l0 => (k + u, l0)) S) adj
               = imap (fun u l0 => (S k + u, l0)) adj).
  { apply imap_ext. intros i y _. simpl. f_equal. lia. }
  assert (E2 : imap (compose (fun u (l0 : _AdjacencyList E) =>
                                flat_map (fun x => [G (k + u) x]) (iter l0)) S)
                    adj
               = imap (fun u l0 =>
                         flat_map (fun x => [G (S k + u) x]) (iter l0)) adj).
  { apply imap_ext. intros i y _. simpl.
    replace (k + S i) with (S (k + i)) by lia. reflexivity. }
  rewrite E1, E2. apply IH.
Qed.

Lemma comprehension_map {E X Y} (h : X -> Y) (G : nat -> E -> X)
  (adj : list (_AdjacencyList E)) :
  comprehension (fun u x => [h (G u x)]) adj
  = map h (comprehension (fun u x => [G u x]) adj).
Proof.
  unfold comprehension. revert G.
  induction adj as [|l adj IH]; intros G; [reflexivity|].
  cbn [imap concat]. rewrite map_app. f_equal.
  - generalize (iter l). intros xs.
    induction xs as [|x xs IHx]; simpl; [reflexivity|]. now rewrite IHx.
  - apply (IH (fun u x => G (S u) x)).
Qed.

Definition reverse_arc (e : nat * nat) : nat * nat := (snd e, fst e).

Lemma Digraph_transpose_init (g : Digraph.t) :
  Digraph.transpose g =
  Digraph.init (Digraph.numVertices g)
               (map reverse_arc (Digraph.getEdgeList g)).
Proof.
  unfold Digraph.transpose, Digraph.init, Digraph.addEdges,
    Digraph.getEdgeList.
  rewrite <- (comprehension_map reverse_arc (fun u v => (u, v))).
  rewrite (foldM_nested
             (fun T (e : nat * nat) => Digraph.addEdge T (fst e) (snd e))
             (fun u v => (v, u)) (_adj g) 0).
  reflexivity.
Qed.

Lemma arcs_reverse x edges :
  arcs_from x (map reverse_arc edges) = arcs_into x edges /\
  arcs_into x (map reverse_arc edges) = arcs_from x edges.
Proof.
  unfold arcs_from, arcs_into.
  induction edges as [|[a b] edges [IH1 IH2]]; [split; reflexivity|].
  simpl. split.
  - destruct (b =? x); simpl; now rewrite IH1.
  - destruct (a =? x); simpl; now rewrite IH2.
Qed.

Lemma reverse_arc_twice edges : map reverse_arc (map reverse_arc edges) = edges.
Proof.
  rewrite map_map. rewrite <- (map_id edges) at 2.
  apply map_ext. now intros [a b].
Qed.

Lemma In_Digraph_getEdgeList (g : Digraph.t) u v :
  In (u, v) (Digraph.getEdgeList g) <->
  exists l, _adj g !! u = Some l /\ In v (iter l).
Proof.
  unfold Digraph.getEdgeList. rewrite In_comprehension. split.
  - intros (u' & l & e & Hl & He & [[= <- <-]|[]]). eauto.
  - intros (l & Hl & He). exists u, l, v. simpl. auto.
Qed.

(** A digraph is built only if every endpoint is a vertex. *)
Lemma Digraph_addEdges_range v edges : forall E0 g0 g,
  Digraph_built v E0 g0 -> Digraph.addEdges g0 edges = Some g ->
  Forall (in_range v) edges.
Proof.
  unfold Digraph.addEdges.
  induction edges as [|[a b] edges IH]; intros E0 g0 g B H; [constructor|].
  cbn [foldM fst snd] in H.
  destruct (Digraph.addEdge g0 a b) as [g1|] eqn:E1; [|discriminate].
  assert (Hab : a < v /\ b < v).
  { unfold Digraph.addEdge in E1.
    destruct (_adj g0 !! a) as [la|] eqn:Ea; [|discriminate].
    destruct (built_in _ _ _ B) as (deg & Hd & Ld & _). rewrite Hd in E1.
    destruct (deg !! b) as [db|] eqn:Eb; [|discriminate].
    apply lookup_lt_Some in Ea, Eb.
    rewrite (built_length _ _ _ B) in Ea. lia. }
  destruct Hab as [Ha Hb].
  destruct (Digraph_addEdge_built v E0 g0 a b B Ha Hb) as (g1' & E1' & B1).
  rewrite E1 in E1'. injection E1' as <-.
  constructor; [split; assumption|]. eapply IH; eauto.
Qed.

(** X11.  [transpose()] of a digraph returns, when every arc's target is a
    vertex (as it is in a digraph built by [Digraph(v, edges)]), a digraph
    on the same vertices whose arcs are the arcs of the original reversed:
    out-degrees and in-degrees are exchanged, and the transpose of the
    transpose has the arcs of the original.  When some arc's target is not
    a vertex the call raises. *)
Theorem Digraph_transpose_reverses (g : Digraph.t) :
  ((forall u v, In (u, v) (Digraph.getEdgeList g) ->
                v < Digraph.numVertices g) ->
   exists T,
     Digraph.transpose g = Some T /\
     Digraph.numVertices T = Digraph.numVertices g /\
     Permutation (Digraph.getEdgeList T)
                 (map reverse_arc (Digraph.getEdgeList g)) /\
     (forall x, x < Digraph.numVertices g ->
        Digraph.outDegree T x = Some (arcs_into x (Digraph.getEdgeList g)) /\
        Digraph.inDegree T x = Some (arcs_from x (Digraph.getEdgeList g))) /\
     exists T2,
       Digraph.transpose T = Some T2 /\
       Permutation (Digraph.getEdgeList T2) (Digraph.getEdgeList g)) /\
  ((exists u v, In (u, v) (Digraph.getEdgeList g) /\
                Digraph.numVertices g <= v) ->
   Digraph.transpose g = None).
Proof.
  assert (Hsrc : forall g0 : Digraph.t, forall u v,
            In (u, v) (Digraph.getEdgeList g0) -> u < Digraph.numVertices g0).
  { intros g0 u v H. apply In_Digraph_getEdgeList in H as (l & Hl & _).
    eapply lookup_lt_Some; eauto. }
  split.
  - intros Htgt. rewrite Digraph_transpose_init.
    set (n := Digraph.numVertices g). set (E := Digraph.getEdgeList g).
    destruct (Digraph_init_built n (map reverse_arc E)) as (T & HT & BT).
    { apply List.Forall_forall. intros e He.
      apply in_map_iff in He as ([u v] & <- & Huv). split; simpl.
      - apply (Htgt u v Huv).
      - apply (Hsrc g u v Huv). }
    exists T. split; [exact HT|].
    assert (LT : Digraph.numVertices T = n) by apply (built_length _ _ _ BT).
    split; [exact LT|]. split; [apply (built_edges _ _ _ BT)|]. split.
    + intros x Hx. destruct (arcs_reverse x E) as [A1 A2].
      destruct (built_out _ _ _ BT x Hx) as (l & Hl & Sl).
      destruct (built_in _ _ _ BT) as (deg & Hd & _ & Hdeg).
      unfold Digraph.outDegree, Digraph.inDegree.
      rewrite Hl, Hd, (Hdeg x Hx). split; congruence.
    + rewrite Digraph_transpose_init, LT.
      destruct (Digraph_init_built n
                  (map reverse_arc (Digraph.getEdgeList T)))
        as (T2 & HT2 & BT2).
      { apply List.Forall_forall. intros e He.
        apply in_map_iff in He as ([u v] & <- & Huv).
        pose proof (Hsrc T u v Huv) as Hu. rewrite LT in Hu.
        apply (Permutation_in _ (built_edges _ _ _ BT)) in Huv.
        apply in_map_iff in Huv as ([a b] & [= <- <-] & Hab).
        split; simpl; [|exact Hu]. apply (Hsrc g a b Hab). }
      exists T2. split; [exact HT2|].
      rewrite (built_edges _ _ _ BT2).
      rewrite (Permutation_map reverse_arc (built_edges _ _ _ BT)).
      now rewrite reverse_arc_twice.
  - intros (u & v & Hin & Hv). rewrite Digraph_transpose_init.
    destruct (Digraph.init _ _) as [T|] eqn:E; [exfalso|reflexivity].
    destruct (Digraph_init_built (Digraph.numVertices g) [])
      as (g0 & H0 & B0); [constructor|].
    unfold Digraph.init in E, H0. simpl in H0. injection H0 as <-.
    pose proof (Digraph_addEdges_range _ _ _ _ _ B0 E) as Hall.
    assert (Hr : in_range (Digraph.numVertices g) (v, u)).
    { apply (proj1 (List.Forall_forall _ _) Hall (v, u)).
      apply in_map_iff. exists (u, v). auto. }
    destruct Hr as [Hr _]. simpl in Hr. lia.
Qed.

Lemma Digraph_transpose_reverses_witness :
  exists g T,
    Digraph.init 3 [(0, 1); (0, 2); (2, 1)] = Some g /\
    Digraph.transpose g = Some T /\
    Permutation (Digraph.getEdgeList T)
                (map reverse_arc (Digraph.getEdgeList g)).
Proof.
  destruct (Digraph_init_built 3 [(0, 1); (0, 2); (2, 1)]) as (g & Hg & Bg).
  { repeat constructor; simpl; lia. }
  destruct (Digraph_transpose_reverses g) as [Hok _].
  destruct Hok as (T & HT & _ & HP & _).
  - intros u v Huv.
    apply (Permutation_in _ (built_edges _ _ _ Bg)) in Huv.
    rewrite (built_length _ _ _ Bg : Digraph.numVertices g = 3).
    destruct Huv as [[= <- <-]|[[= <- <-]|[[= <- <-]|[]]]]; lia.
  - exists g, T. auto.
Defined.

Definition reverse_warc (e : nat * nat * Z) : nat * nat * Z :=
  ((snd (fst e), fst (fst e)), snd e).

Lemma WeightedDigraph_transpose_addEdges (g : WeightedDigraph.t) :
  WeightedDigraph.transpose g =
  WeightedDigraph.addEdges (WeightedDigraph.empty (Digraph.numVertices g))
    (map reverse_warc (WeightedDigraph.getEdgeListW g)).
Proof.
  unfold WeightedDigraph.transpose, WeightedDigraph.addEdges,
    WeightedDigraph.getEdgeListW.
  rewrite <- (comprehension_map reverse_warc
                (fun u (vw : nat * Z) => ((u, fst vw), snd vw))).
  exact (foldM_nested
           (fun T (e : nat * nat * Z) =>
              WeightedDigraph.addEdge T (fst (fst e)) (snd (fst e)) (snd e))
           (fun u (vw : nat * Z) => ((fst vw, u), snd vw)) (_adj g) 0 _).
Qed.

Lemma reverse_warc_twice edges : map reverse_warc (map reverse_warc edges) = edges.
Proof.
  rewrite map_map. rewrite <- (map_id edges) at 2.
  apply map_ext. now intros [[a b] w].
Qed.

Lemma In_WeightedDigraph_getEdgeListW (g : WeightedDigraph.t) u v w :
  In ((u, v), w) (WeightedDigraph.getEdgeListW g) <->
  exists l, _adj g !! u = Some l /\ In (v, w) (iter l).
Proof.
  unfold WeightedDigraph.getEdgeListW. rewrite In_comprehension. split.
  - intros (u' & l & [v' w'] & Hl & He & [[= <- <- <-]|[]]). eauto.
  - intros (l & Hl & He). exists u, l, (v, w). simpl. auto.
Qed.

Lemma WeightedDigraph_addEdges_sources edges : forall g g' : WeightedDigraph.t,
  WeightedDigraph.addEdges g edges = Some g' ->
  Forall (fun e : nat * nat * Z => fst (fst e) < length (_adj g)) edges.
Proof.
  unfold WeightedDigraph.addEdges.
  induction edges as [|[[a b] w] edges IH]; intros g g' H; [constructor|].
  cbn [foldM fst snd] in H.
  destruct (WeightedDigraph.addEdge g a b w) as [g1|] eqn:E1; [|discriminate].
  assert (Ha : a < length (_adj g)).
  { unfold WeightedDigraph.addEdge in E1.
    destruct (_adj g !! a) eqn:Ea; [|discriminate].
    eapply lookup_lt_Some; eauto. }
  destruct (WeightedDigraph_addEdge_spec g a b w Ha) as (g1' & E1' & L1 & _).
  rewrite E1 in E1'. injection E1' as <-.
  constructor; [exact Ha|]. rewrite <- L1. eapply IH; eauto.
Qed.

Lemma getEdgeList_of_W (g : WeightedDigraph.t) :
  WeightedDigraph.getEdgeList g = map fst (WeightedDigraph.getEdgeListW g).
Proof.
  unfold WeightedDigraph.getEdgeList, WeightedDigraph.getEdgeListW.
  apply (comprehension_map fst
           (fun u (vw : nat * Z) => ((u, fst vw), snd vw))).
Qed.

(** X12.  [transpose()] of a weighted digraph returns, when every arc's
    target is a vertex, a weighted digraph on the same vertices whose arcs
    are the arcs of the original reversed, each with its weight; the
    transpose of the transpose has the arcs and weights of the original.
    As on every [WeightedDigraph], [inDegree] raises on the result.  When
    some arc's target is not a vertex, [transpose()] raises. *)
Theorem WeightedDigraph_transpose_reverses (g : WeightedDigraph.t) :
  ((forall u v w, In ((u, v), w) (WeightedDigraph.getEdgeListW g) ->
                  v < Digraph.numVertices g) ->
   exists T,
     WeightedDigraph.transpose g = Some T /\
     Digraph.numVertices T = Digraph.numVertices g /\
     Permutation (WeightedDigraph.getEdgeListW T)
                 (map reverse_warc (WeightedDigraph.getEdgeListW g)) /\
     Permutation (WeightedDigraph.getEdgeList T)
                 (map reverse_arc (WeightedDigraph.getEdgeList g)) /\
     (forall x, WeightedDigraph.inDegree T x = None) /\
     exists T2,
       WeightedDigraph.transpose T = Some T2 /\
       Permutation (WeightedDigraph.getEdgeListW T2)
                   (WeightedDigraph.getEdgeListW g)) /\
  ((exists u v w, In ((u, v), w) (WeightedDigraph.getEdgeListW g) /\
                  Digraph.numVertices g <= v) ->
   WeightedDigraph.transpose g = None).
Proof.
  assert (Hempty : forall k,
            WeightedDigraph.getEdgeListW (WeightedDigraph.empty k) = [] /\
            WeightedDigraph.getEdgeList (WeightedDigraph.empty k) = []).
  { intros k. unfold WeightedDigraph.getEdgeListW, WeightedDigraph.getEdgeList,
      WeightedDigraph.empty. simpl. now rewrite !comprehension_empty. }
  assert (Hsrc : forall g0 : WeightedDigraph.t, forall u v w,
            In ((u, v), w) (WeightedDigraph.getEdgeListW g0) ->
            u < Digraph.numVertices g0).
  { intros g0 u v w H.
    apply In_WeightedDigraph_getEdgeListW in H as (l & Hl & _).
    eapply lookup_lt_Some; eauto. }
  assert (Hbuild : forall k E,
            Forall (fun e : nat * nat * Z => fst (fst e) < k) E ->
            exists T,
              WeightedDigraph.addEdges (WeightedDigraph.empty k) E = Some T /\
              Digraph.numVertices T = k /\ _inDegree T = None /\
              Permutation (WeightedDigraph.getEdgeListW T) E /\
              Permutation (WeightedDigraph.getEdgeList T) (map fst E)).
  { intros k E HE.
    destruct (WeightedDigraph_addEdges_spec E (WeightedDigraph.empty k))
      as (T & HT & LT & IT & P1 & P2).
    { simpl. now rewrite length_replicate. }
    exists T. split; [exact HT|].
    simpl in LT. rewrite length_replicate in LT.
    destruct (Hempty k) as [E1 E2]. rewrite E1 in P2. rewrite E2 in P1.
    auto. }
  split.
  - intros Htgt. rewrite WeightedDigraph_transpose_addEdges.
    set (n := Digraph.numVertices g).
    set (E := WeightedDigraph.getEdgeListW g).
    destruct (Hbuild n (map reverse_warc E)) as (T & HT & LT & IT & P1 & P2).
    { apply List.Forall_forall. intros e He.
      apply in_map_iff in He as ([[u v] w] & <- & Huv). simpl.
      apply (Htgt u v w Huv). }
    exists T. split; [exact HT|]. split; [exact LT|]. split; [exact P1|].
    split; [|split].
    + rewrite P2, (getEdgeList_of_W g), !map_map. fold E.
      erewrite map_ext; [reflexivity|]. now intros [[u v] w].
    + intros x. unfold WeightedDigraph.inDegree, Digraph.inDegree.
      now rewrite IT.
    + rewrite WeightedDigraph_transpose_addEdges, LT.
      destruct (Hbuild n (map reverse_warc (WeightedDigraph.getEdgeListW T)))
        as (T2 & HT2 & _ & _ & Q1 & _).
      { apply List.Forall_forall. intros e He.
        apply in_map_iff in He as ([[u v] w] & <- & Huv). simpl.
        apply (Permutation_in _ P1) in Huv.
        apply in_map_iff in Huv as ([[a b] c] & [= <- <- <-] & Hab).
        apply (Hsrc g a b c Hab). }
      exists T2. split; [exact HT2|].
      rewrite Q1, (Permutation_map reverse_warc P1).
      now rewrite reverse_warc_twice.
  - intros (u & v & w & Hin & Hv). rewrite WeightedDigraph_transpose_addEdges.
    destruct (WeightedDigraph.addEdges _ _) as [T|] eqn:E; [exfalso|reflexivity].
    apply WeightedDigraph_addEdges_sources in E.
    simpl in E. rewrite length_replicate in E.
    assert (Hr : fst (fst (reverse_warc ((u, v), w))) < Digraph.numVertices g).
    { apply (proj1 (List.Forall_forall _ _) E).
      apply in_map_iff. eauto. }
    simpl in Hr. lia.
Qed.

Lemma WeightedDigraph_transpose_reverses_witness :
  exists g,
    WeightedDigraph.init 2 [(0, 1)] [5%Z] = Some g /\
    (exists T, WeightedDigraph.transpose g = Some T /\
       Permutation (WeightedDigraph.getEdgeListW T)
                   (map reverse_warc (WeightedDigraph.getEdgeListW g))) /\
    exists g', WeightedDigraph.init 2 [(0, 7)] [5%Z] = Some g' /\
               WeightedDigraph.transpose g' = None.
Proof.
  eexists. split; [reflexivity|]. split.
  - match goal with |- context [WeightedDigraph.transpose ?g] =>
      destruct (WeightedDigraph_transpose_reverses g) as [Hok _]
    end.
    destruct Hok as (T & HT & _ & HP & _).
    + intros u v w Huv. vm_compute in Huv.
      destruct Huv as [[= <- <- <-]|[]]. vm_compute. lia.
    + exists T. auto.
  - eexists. split; [reflexivity|].
    match goal with |- WeightedDigraph.transpose ?g = None =>
      destruct (WeightedDigraph_transpose_reverses g) as [_ Hbad]
    end.
    apply Hbad. exists 0, 7, 5%Z. split; [vm_compute; auto|vm_compute; lia].
Defined.

(** ** When the constructors raise *)

Lemma Graph_addEdge_range (g : Graph.t) a b g' :
  Graph.addEdge g a b = Some g' -> a < length g /\ b < length g.
Proof.
  unfold Graph.addEdge. intros H.
  destruct (g !! a) as [la|] eqn:Ea; [|discriminate].
  destruct (<[a:=_add la b]> g !! b) as [lb|] eqn:Eb; [|discriminate].
  apply lookup_lt_Some in Ea, Eb. rewrite length_insert in Eb. auto.
Qed.

Lemma Graph_init_iff edges : forall g0 : Graph.t,
  (exists g, Graph.addEdges g0 edges = Some g) <->
  Forall (in_range (length g0)) edges.
Proof.
  unfold Graph.addEdges.
  induction edges as [|[a b] edges IH]; intros g0.
  - split; [constructor|eauto].
  - cbn [foldM fst snd]. rewrite Forall_cons. split.
    + intros [g H].
      destruct (Graph.addEdge g0 a b) as [g1|] eqn:E1; [|discriminate].
      pose proof (Graph_addEdge_range _ _ _ _ E1) as Hab.
      split; [exact Hab|]. rewrite <- (Graph_addEdge_length _ _ _ _ E1).
      apply IH. eauto.
    + intros [[Ha Hb] Hall]. simpl in Ha, Hb.
      destruct (Graph_addEdge_total g0 a b Ha Hb) as [g1 E1]. rewrite E1.
      apply IH. now rewrite (Graph_addEdge_length _ _ _ _ E1).
Qed.

Lemma WeightedGraph_addEdge_range (g : WeightedGraph.t) a b w g' :
  WeightedGraph.addEdge g a b w = Some g' -> a < length g /\ b < length g.
Proof.
  unfold WeightedGraph.addEdge. intros H.
  destruct (g !! a) as [la|] eqn:Ea; [|discriminate].
  destruct (<[a:=_add la (b, w)]> g !! b) as [lb|] eqn:Eb; [|discriminate].
  apply lookup_lt_Some in Ea, Eb. rewrite length_insert in Eb. auto.
Qed.

Lemma WeightedGraph_init_iff edges : forall (g0 : WeightedGraph.t) weights,
  (exists g, WeightedGraph.init_loop g0 edges weights = Some g) <->
  Forall (in_range (length g0)) edges /\ length edges <= length weights.
Proof.
  induction edges as [|[a b] edges IH]; intros g0 weights.
  - simpl. split; [intros _; split; [constructor|lia]|eauto].
  - cbn [WeightedGraph.init_loop]. rewrite Forall_cons.
    destruct weights as [|w ws].
    + split; [intros [g H]; discriminate|simpl; lia].
    + simpl length. split.
      * intros [g H].
        destruct (WeightedGraph.addEdge g0 a b w) as [g1|] eqn:E1;
          [|discriminate].
        pose proof (WeightedGraph_addEdge_range _ _ _ _ _ E1) as Hab.
        destruct (proj1 (IH g1 ws)) as [Hall Hlen]; [eauto|].
        rewrite (WeightedGraph_addEdge_length _ _ _ _ _ E1) in Hall.
        split; [split; [exact Hab|exact Hall]|lia].
      * intros [[[Ha Hb] Hall] Hlen]. simpl in Ha, Hb.
        destruct (WeightedGraph_addEdge_total g0 a b w Ha Hb) as [g1 E1].
        rewrite E1. apply IH.
        rewrite (WeightedGraph_addEdge_length _ _ _ _ _ E1). split; [auto|lia].
Qed.

Lemma WeightedDigraph_init_iff edges : forall (g0 : WeightedDigraph.t) weights,
  (exists g, WeightedDigraph.init_loop g0 edges weights = Some g) <->
  Forall (fun e : nat * nat => fst e < length (_adj g0)) edges /\
  length edges <= length weights.
Proof.
  induction edges as [|[a b] edges IH]; intros g0 weights.
  - simpl. split; [intros _; split; [constructor|lia]|eauto].
  - cbn [WeightedDigraph.init_loop]. rewrite Forall_cons.
    destruct weights as [|w ws].
    + split; [intros [g H]; discriminate|simpl; lia].
    + simpl length. split.
      * intros [g H].
        destruct (WeightedDigraph.addEdge g0 a b w) as [g1|] eqn:E1;
          [|discriminate].
        assert (Ha : a < length (_adj g0)).
        { unfold WeightedDigraph.addEdge in E1.
          destruct (_adj g0 !! a) eqn:Ea; [|discriminate].
          eapply lookup_lt_Some; eauto. }
        destruct (WeightedDigraph_addEdge_spec g0 a b w Ha)
          as (g1' & E1' & L1 & _).
        rewrite E1 in E1'. injection E1' as <-.
        destruct (proj1 (IH g1 ws)) as [Hall Hlen]; [eauto|].
        rewrite L1 in Hall.
        split; [split; [exact Ha|exact Hall]|lia].
      * intros [[Ha Hall] Hlen]. simpl in Ha.
        destruct (WeightedDigraph_addEdge_spec g0 a b w Ha)
          as (g1 & E1 & L1 & _).
        rewrite E1. apply IH. rewrite L1. split; [auto|lia].
Qed.

(** X13.  With natural numbers as vertex ids, [Graph(v, edges)] and
    [Digraph(v, edges)] return exactly when both endpoints of every edge
    are below [v], and raise otherwise;
    [WeightedGraph(v, edges, weights)] returns exactly when moreover
    [weights] is at least as long as [edges] (weights beyond are ignored);
    [WeightedDigraph(v, edges, weights)] returns exactly when the source of
    every arc is below [v] and [weights] is long enough: it accepts an arc
    whose target is no vertex. *)
Theorem constructors_return_iff
  (v : nat) (edges : list (nat * nat)) (weights : list Z) :
  ((exists g, Graph.init v edges = Some g) <-> Forall (in_range v) edges) /\
  ((exists g, Digraph.init v edges = Some g) <-> Forall (in_range v) edges) /\
  ((exists g, WeightedGraph.init v edges weights = Some g) <->
   Forall (in_range v) edges /\ length edges <= length weights) /\
  ((exists g, WeightedDigraph.init v edges weights = Some g) <->
   Forall (fun e : nat * nat => fst e < v) edges /\
   length edges <= length weights).
Proof.
  split; [|split; [|split]].
  - unfold Graph.init. rewrite Graph_init_iff.
    unfold Graph.empty. now rewrite length_replicate.
  - split.
    + intros [g H].
      destruct (Digraph_init_built v []) as (g0 & H0 & B0); [constructor|].
      unfold Digraph.init in H, H0. simpl in H0. injection H0 as <-.
      eapply Digraph_addEdges_range; eauto.
    + intros Hall. destruct (Digraph_init_built v edges Hall) as (g & H & _).
      eauto.
  - unfold WeightedGraph.init. rewrite WeightedGraph_init_iff.
    unfold WeightedGraph.empty. now rewrite length_replicate.
  - unfold WeightedDigraph.init. rewrite WeightedDigraph_init_iff.
    unfold WeightedDigraph.empty. simpl. now rewrite length_replicate.
Qed.

(** ** Degrees of undirected graphs *)

(** The number of edge ends at [x]: a loop at [x] has two. *)
Definition ends_at (x : nat) (edges : list (nat * nat)) : nat :=
  arcs_from x edges + arcs_into x edges.

Lemma Graph_degrees_built v edges :
  Forall (in_range v) edges ->
  exists g, Graph.init v edges = Some g /\ length g = v /\
    forall x, x < v ->
      exists l, g !! x = Some l /\ _size l = ends_at x edges.
Proof.
  unfold Graph.init, Graph.addEdges, ends_at.
  induction edges as [|[a b] edges IH] using rev_ind; intros Hr.
  - eexists. split; [reflexivity|]. unfold Graph.empty.
    split; [apply length_replicate|]. intros x Hx. exists adj_empty.
    split; [now apply lookup_replicate_2|reflexivity].
  - apply Forall_app in Hr as [Hr Hab].
    apply Forall_cons in Hab as [[Ha Hb] _]. simpl in Ha, Hb.
    destruct (IH Hr) as (g & Hg & L & Hdeg).
    rewrite foldM_app, Hg. cbn [foldM fst snd].
    unfold Graph.addEdge.
    destruct (Hdeg a Ha) as (la & Ela & Sla). rewrite Ela.
    assert (Hal : a < length g) by lia.
    destruct (decide (a = b)) as [<-|Hne].
    + rewrite list_lookup_insert_eq by exact Hal.
      eexists. split; [reflexivity|].
      split; [now rewrite !length_insert|].
      intros x Hx. rewrite arcs_from_snoc, arcs_into_snoc.
      destruct (Nat.eqb_spec a x) as [->|Hax].
      * eexists. rewrite list_lookup_insert_eq by now rewrite length_insert.
        split; [reflexivity|]. simpl. lia.
      * destruct (Hdeg x Hx) as (l & El & Sl). exists l.
        rewrite !list_lookup_insert_ne by exact Hax. split; [exact El|lia].
    + destruct (Hdeg b Hb) as (lb & Elb & Slb).
      rewrite list_lookup_insert_ne by exact Hne. rewrite Elb.
      eexists. split; [reflexivity|].
      split; [now rewrite !length_insert|].
      intros x Hx. rewrite arcs_from_snoc, arcs_into_snoc.
      destruct (Nat.eqb_spec a x) as [->|Hax];
        destruct (Nat.eqb_spec b x) as [->|Hbx]; try congruence.
      * eexists. rewrite list_lookup_insert_ne by auto.
        rewrite list_lookup_insert_eq by lia.
        split; [reflexivity|]. simpl. lia.
      * eexists. rewrite list_lookup_insert_eq by (rewrite length_insert; lia).
        split; [reflexivity|]. simpl. lia.
      * destruct (Hdeg x Hx) as (l & El & Sl). exists l.
        rewrite !list_lookup_insert_ne by auto. split; [exact El|lia].
Qed.

Lemma list_sum_indicator a v :
  a < v -> list_sum (map (fun x => if a =? x then 1 else 0) (seq 0 v)) = 1.
Proof.
  intros Ha. replace v with (a + S (v - S a)) by lia.
  rewrite seq_app, map_app, list_sum_app. cbn [seq map list_sum Nat.add].
  rewrite Nat.eqb_refl.
  assert (H0 : forall l, (forall x, In x l -> a <> x) ->
             list_sum (map (fun x => if a =? x then 1 else 0) l) = 0).
  { induction l as [|y l IHl]; intros Hl; [reflexivity|]. simpl.
    destruct (Nat.eqb_spec a y) as [->|_].
    - exfalso. apply (Hl y); [now left|reflexivity].
    - apply IHl. intros x Hx. apply Hl. now right. }
  match goal with |- context [list_sum (1 :: ?l)] =>
    change (list_sum (1 :: l)) with (1 + list_sum l)
  end.
  rewrite !H0; [lia| |].
  - intros x Hx. apply in_seq in Hx. lia.
  - intros x Hx. apply in_seq in Hx. lia.
Qed.

Lemma list_sum_map_add {A} (f g : A -> nat) l :
  list_sum (map (fun x => f x + g x) l)
  = list_sum (map f l) + list_sum (map g l).
Proof.
  induction l as [|x l IH]; simpl; [reflexivity|]. rewrite IH. lia.
Qed.

Lemma sum_ends_at v edges :
  Forall (in_range v) edges ->
  list_sum (map (fun x => ends_at x edges) (seq 0 v)) = 2 * length edges.
Proof.
  unfold ends_at, arcs_from, arcs_into.
  induction edges as [|[a b] edges IH]; intros Hr.
  - simpl. induction (seq 0 v); simpl; auto.
  - apply Forall_cons in Hr as [[Ha Hb] Hr]. simpl in Ha, Hb.
    specialize (IH Hr). cbn [List.filter fst snd length].
    transitivity
      (list_sum (map (fun x => ((if a =? x then 1 else 0) +
                                (if b =? x then 1 else 0)) +
                               (length (List.filter (fun e => fst e =? x) edges) +
                                length (List.filter (fun e => snd e =? x) edges)))
                     (seq 0 v))).
    + f_equal. apply map_ext. intros x.
      destruct (a =? x), (b =? x); simpl; lia.
    + rewrite (list_sum_map_add
                 (fun x => (if a =? x then 1 else 0) + (if b =? x then 1 else 0))).
      rewrite IH, list_sum_map_add, !list_sum_indicator by assumption. lia.
Qed.

(** X14.  In the graph built by [Graph(v, edges)], [degree(x)] of a vertex
    is the number of edge ends at [x], a loop counting twice, so the degrees
    add up to twice the number of edges; [degree(x)] raises for [x >= v]. *)
Theorem degree_counts_edge_ends (v : nat) (edges : list (nat * nat)) :
  Forall (in_range v) edges ->
  exists g,
    Graph.init v edges = Some g /\ Graph.numVertices g = v /\
    (forall x, x < v -> Graph.degree g x = Some (ends_at x edges)) /\
    (forall x, v <= x -> Graph.degree g x = None) /\
    (forall degrees,
       foldM (fun acc x => let* k := Graph.degree g x in Some (acc ++ [k]))
             [] (seq 0 v) = Some degrees ->
       list_sum degrees = 2 * length edges).
Proof.
  intros Hr. destruct (Graph_degrees_built v edges Hr) as (g & Hg & L & Hdeg).
  exists g. split; [exact Hg|]. split; [exact L|].
  assert (Hd : forall x, x < v -> Graph.degree g x = Some (ends_at x edges)).
  { intros x Hx. destruct (Hdeg x Hx) as (l & El & Sl).
    unfold Graph.degree. rewrite El. now f_equal. }
  split; [exact Hd|]. split.
  - intros x Hx. unfold Graph.degree.
    rewrite lookup_ge_None_2; [reflexivity|lia].
  - intros degrees Hfold.
    assert (Hgen : forall xs acc,
              (forall x, In x xs -> x < v) ->
              foldM (fun acc x =>
                       let* k := Graph.degree g x in Some (acc ++ [k]))
                    acc xs
              = Some (acc ++ map (fun x => ends_at x edges) xs)).
    { induction xs as [|x xs IHx]; intros acc Hxs; simpl.
      - now rewrite app_nil_r.
      - rewrite Hd by (apply Hxs; now left).
        rewrite IHx by (intros y Hy; apply Hxs; now right).
        now rewrite <- app_assoc. }
    rewrite Hgen in Hfold.
    + injection Hfold as <-. simpl. now apply sum_ends_at.
    + intros x Hx. apply in_seq in Hx. lia.
Qed.

Lemma degree_counts_edge_ends_witness :
  exists g,
    Graph.init 3 [(0, 1); (1, 1); (2, 1)] = Some g /\
    Graph.degree g 1 = Some 4 /\ Graph.degree g 3 = None.
Proof.
  destruct (degree_counts_edge_ends 3 [(0, 1); (1, 1); (2, 1)])
    as (g & Hg & _ & Hd & Hout & _).
  - repeat constructor; simpl; lia.
  - exists g. split; [exact Hg|]. split.
    + apply (Hd 1). lia.
    + apply Hout. lia.
Defined.

(** ** Minimum spanning forests *)

(** A path through an added edge. *)
Lemma conn_cons_cases (F : list wedge) a b c x y :
  conn ((a, b, c) :: F) x y ->
  conn F x y \/ (conn F x a /\ conn F b y) \/ (conn F x b /\ conn F a y).
Proof.
  induction 1 as [x|u v w [H|H]|x y _ IH|x y z _ IH1 _ IH2].
  - left. apply conn_refl.
  - injection H as <- <- <-. right. left. split; apply conn_refl.
  - left. eapply conn_edge; eauto.
  - destruct IH as [H|[[H1 H2]|[H1 H2]]].
    + left. now apply conn_sym.
    + right. right. split; now apply conn_sym.
    + right. left. split; now apply conn_sym.
  - destruct IH1 as [H|[[H1 H2]|[H1 H2]]];
      destruct IH2 as [K|[[K1 K2]|[K1 K2]]].
    + left. eapply conn_trans; eauto.
    + right. left. split; [eapply conn_trans; eauto|exact K2].
    + right. right. split; [eapply conn_trans; eauto|exact K2].
    + right. left. split; [exact H1|eapply conn_trans; eauto].
    + right. left. split; [exact H1|exact K2].
    + left. eapply conn_trans; [exact H1|].
      apply conn_sym in K1, H2.
      assert (conn F b b) by apply conn_refl. exact K2.
    + right. right. split; [exact H1|eapply conn_trans; eauto].
    + left. eapply conn_trans; [exact H1|exact K2].
    + right. right. split; [exact H1|exact K2].
Qed.

Lemma conn_cons_mono' (F : list wedge) e x y :
  conn F x y -> conn (e :: F) x y.
Proof. apply conn_mono. intros e' He'. now right. Qed.

Lemma conn_perm (F F' : list wedge) x y :
  Permutation F F' -> conn F x y -> conn F' x y.
Proof.
  intros P. apply conn_mono. intros e He. eapply Permutation_in; eauto.
Qed.

(** Having no cycle does not depend on the order of the edges. *)
Lemma indep_perm (F F' : list wedge) :
  Permutation F F' -> indep F -> indep F'.
Proof.
  induction 1 as [|[[u v] w] F F' P IH|[[u v] w] [[a b] c] F|F1 F2 F3 _ IH1 _ IH2].
  - auto.
  - simpl. intros [Hn Hi]. split; [|auto].
    intros Hc. apply Hn. eapply conn_perm; [symmetry; exact P|exact Hc].
  - simpl. intros (Hn1 & Hn2 & Hi). split; [|split; [|exact Hi]].
    + intros Hc. apply conn_cons_cases in Hc as [H|[[H1 H2]|[H1 H2]]].
      * auto.
      * apply Hn1.
        eapply conn_trans; [apply conn_cons_mono', conn_sym; exact H1|].
        eapply conn_trans; [|apply conn_cons_mono', conn_sym; exact H2].
        eapply conn_edge. now left.
      * apply Hn1.
        eapply conn_trans; [apply conn_cons_mono'; exact H2|].
        eapply conn_trans; [|apply conn_cons_mono'; exact H1].
        apply conn_sym. eapply conn_edge. now left.
    + intros Hc. apply Hn1. now apply conn_cons_mono'.
  - auto.
Qed.

(** A forest inside the classes of another has no more edges. *)
Lemma forest_count_le n (F K : list wedge) :
  indep F -> indep K -> ends_below n F -> ends_below n K ->
  (forall x y, conn F x y -> conn K x y) ->
  length F <= length K.
Proof.
  intros IF IK EF EK Hsub.
  destruct (labelling_exists n F IF EF) as (lF & CF & IdF & RF & NF).
  destruct (labelling_exists n K IK EK) as (lK & CK & IdK & RK & NK).
  assert (H : fixcount n lK <= fixcount n lF).
  { apply fixcount_le; auto. intros x y Hxy. apply CK, Hsub, CF, Hxy. }
  lia.
Qed.

(** *** From counts to sums: the list with more small weights is lighter *)

Lemma weights_bounded (ws : list Z) :
  exists lo k, forall w, In w ws -> (lo <= w <= lo + Z.of_nat k)%Z.
Proof.
  induction ws as [|x ws (lo & k & H)].
  - exists 0%Z, 0. intros w [].
  - exists (Z.min lo x), (Z.to_nat (Z.max (lo + Z.of_nat k) x - Z.min lo x)).
    intros w [<-|Hw]; [lia|]. specialize (H w Hw). lia.
Qed.

Definition count_upto (ws : list Z) (t : Z) : nat :=
  length (List.filter (fun w => (w <=? t)%Z) ws).

Definition thresholds (lo : Z) (k : nat) : list Z :=
  map (fun i => (lo + Z.of_nat i)%Z) (seq 0 k).

Definition zsum (l : list Z) : Z := fold_right Z.add 0%Z l.

Lemma zsum_app l1 l2 : zsum (l1 ++ l2) = (zsum l1 + zsum l2)%Z.
Proof. induction l1 as [|x l1 IH]; simpl; [reflexivity|]. rewrite IH. lia. Qed.

Lemma thresholds_S lo k :
  thresholds lo (S k) = thresholds lo k ++ [(lo + Z.of_nat k)%Z].
Proof. unfold thresholds. now rewrite seq_S, map_app. Qed.

Lemma zsum_indicator lo w k :
  (lo <= w)%Z ->
  zsum (map (fun t => if (w <=? t)%Z then 1%Z else 0%Z) (thresholds lo k))
  = Z.max 0 (lo + Z.of_nat k - w).
Proof.
  intros Hlo. induction k as [|k IH]; [simpl; lia|].
  rewrite thresholds_S, map_app, zsum_app, IH. cbn [map zsum fold_right].
  rewrite Nat2Z.inj_succ.
  destruct (Z.leb_spec w (lo + Z.of_nat k)); lia.
Qed.

Lemma zsum_map_add {A} (f g : A -> Z) l :
  zsum (map (fun x => (f x + g x)%Z) l) = (zsum (map f l) + zsum (map g l))%Z.
Proof. induction l as [|x l IH]; simpl; [reflexivity|]. rewrite IH. lia. Qed.

Lemma zsum_map_le {A} (f g : A -> Z) l :
  (forall x, In x l -> (f x <= g x)%Z) -> (zsum (map f l) <= zsum (map g l))%Z.
Proof.
  induction l as [|x l IH]; intros H; simpl; [lia|].
  specialize (H x (or_introl eq_refl)) as Hx.
  assert (zsum (map f l) <= zsum (map g l))%Z; [|lia].
  apply IH. intros y Hy. apply H. now right.
Qed.

(** Summation by parts: a weight [w] in [lo .. lo+k] is [lo+k] minus the
    number of thresholds [lo, ..., lo+k-1] it does not exceed. *)
Lemma sum_by_counts lo k (ws : list Z) :
  (forall w, In w ws -> (lo <= w <= lo + Z.of_nat k)%Z) ->
  (zsum ws + zsum (map (fun t => Z.of_nat (count_upto ws t)) (thresholds lo k))
   = (lo + Z.of_nat k) * Z.of_nat (length ws))%Z.
Proof.
  induction ws as [|w ws IH]; intros H.
  - cbn [zsum fold_right length].
    assert (Hz : forall l : list Z,
              zsum (map (fun t => Z.of_nat (count_upto [] t)) l) = 0%Z).
    { induction l as [|x l IHl]; [reflexivity|].
      cbn [map zsum fold_right]. fold (zsum (map (fun t => Z.of_nat (count_upto [] t)) l)).
      rewrite IHl. reflexivity. }
    rewrite Hz. lia.
  - assert (Hw := H w (or_introl eq_refl)).
    specialize (IH (fun x Hx => H x (or_intror Hx))).
    transitivity
      (w + zsum ws +
       zsum (map (fun t => ((if (w <=? t)%Z then 1 else 0) +
                            Z.of_nat (count_upto ws t))%Z)
                 (thresholds lo k)))%Z.
    + simpl. f_equal. f_equal. apply map_ext. intros t.
      unfold count_upto. simpl. destruct (w <=? t)%Z; simpl; lia.
    + rewrite zsum_map_add, zsum_indicator by lia.
      cbn [length]. lia.
Qed.

Lemma more_small_weights_lighter (A B : list Z) :
  length A = length B ->
  (forall t, count_upto B t <= count_upto A t) ->
  (zsum A <= zsum B)%Z.
Proof.
  intros Hlen Hcnt.
  destruct (weights_bounded (A ++ B)) as (lo & k & Hb).
  pose proof (sum_by_counts lo k A
                (fun w Hw => Hb w (in_or_app _ _ _ (or_introl Hw)))) as HA.
  pose proof (sum_by_counts lo k B
                (fun w Hw => Hb w (in_or_app _ _ _ (or_intror Hw)))) as HB.
  assert (Hle : (zsum (map (fun t => Z.of_nat (count_upto B t)) (thresholds lo k))
                 <= zsum (map (fun t => Z.of_nat (count_upto A t))
                              (thresholds lo k)))%Z).
  { apply zsum_map_le. intros t _. specialize (Hcnt t). lia. }
  rewrite Hlen in HA. lia.
Qed.

Lemma sum_weights_zsum F : sum_weights F = zsum (map snd F).
Proof. reflexivity. Qed.

Lemma upto_count t F : length (upto t F) = count_upto (map snd F) t.
Proof. apply upto_length. Qed.

(** A forest that, below every threshold, joins what the graph joins is no
    heavier than any spanning forest of the graph. *)
Lemma spanning_forest_least_weight n (G K F : list wedge) :
  ends_below n G ->
  indep K -> ends_below n K ->
  (forall t x y, conn (upto t K) x y <-> conn (upto t G) x y) ->
  indep F -> (forall e, In e F -> In e G) ->
  (forall x y, conn G x y -> conn F x y) ->
  (sum_weights K <= sum_weights F)%Z.
Proof.
  intros EG IK EK CK IF FG Hspan.
  assert (EF : ends_below n F).
  { intros u v w H. apply (EG u v w). auto. }
  rewrite !sum_weights_zsum. apply more_small_weights_lighter.
  - rewrite !length_map.
    destruct (weights_bounded (map snd (K ++ G))) as (lo & k & Hb).
    set (t := (lo + Z.of_nat k)%Z).
    assert (HK : forall x y, conn K x y <-> conn G x y).
    { intros x y. split; intros H.
      - apply (conn_upto t). apply CK. apply conn_upto_all; [|exact H].
        intros e He. apply (Hb (snd e)). apply in_map, in_or_app. now left.
      - apply (conn_upto t). apply CK. apply conn_upto_all; [|exact H].
        intros e He. apply (Hb (snd e)). apply in_map, in_or_app. now right. }
    apply (same_conn_same_length n); auto.
    intros x y. rewrite HK. split; [apply Hspan|].
    apply conn_mono. exact FG.
  - intros t. rewrite <- !upto_count.
    apply (forest_count_le n).
    + now apply indep_upto.
    + now apply indep_upto.
    + intros u v w H. apply upto_In in H as [H _]. eapply EF; eauto.
    + intros u v w H. apply upto_In in H as [H _]. eapply EK; eauto.
    + intros x y H. apply CK. eapply conn_mono; [|exact H].
      intros e He. apply upto_In in He as [He Hle]. apply upto_In. auto.
Qed.

Lemma min_weight_member ws :
  ws <> [] -> exists m, MST.min_weight ws = Some m /\ In m ws.
Proof.
  destruct ws as [|w ws]; [congruence|]. intros _. simpl.
  exists (fold_left Z.min ws w). split; [reflexivity|].
  revert w. induction ws as [|x ws IH]; intros w; simpl; [now left|].
  destruct (IH (Z.min w x)) as [H|H]; [|auto].
  destruct (Z.min_spec w x) as [[_ E]|[_ E]].
  - left. rewrite <- H. now symmetry.
  - right. left. rewrite <- H. now symmetry.
Qed.

Lemma edge_weight_member g u v :
  (exists w, In (u, v, w) (entries g)) ->
  In (u, v, MST.edge_weight g (u, v)) (entries g).
Proof.
  intros [w Hin]. apply In_entries in Hin as (l & Hl & Hv).
  unfold MST.edge_weight. cbn [fst snd]. rewrite Hl.
  destruct (min_weight_member
              (map snd (List.filter (fun vw : nat * Z => fst vw =? v) (iter l))))
    as (m & -> & Hm).
  - intros E. apply map_eq_nil in E.
    assert (Hf : In (v, w) (List.filter (fun vw : nat * Z => fst vw =? v) (iter l))).
    { apply List.filter_In. split; [exact Hv|]. simpl. apply Nat.eqb_refl. }
    rewrite E in Hf. destruct Hf.
  - apply in_map_iff in Hm as ([v' m'] & E & Hf). simpl in E. subst m'.
    apply List.filter_In in Hf as [Hf Hv']. simpl in Hv'.
    apply Nat.eqb_eq in Hv'. subst v'. apply In_entries. eauto.
Qed.

(** The edges of [F], each with its weight in the graph. *)
Definition with_weights (g : WeightedGraph.t) (F : list (nat * nat))
  : list wedge :=
  map (fun e => (e, MST.edge_weight g e)) F.

(** [F] is a spanning forest of the graph: a set of edges of the graph
    without a cycle that joins whatever the graph joins. *)
Definition spanning_forest (g : WeightedGraph.t) (F : list (nat * nat))
  : Prop :=
  (forall u v, In (u, v) F -> exists w, In (u, v, w) (entries g)) /\
  indep (with_weights g F) /\
  forall x y, conn (entries g) x y -> conn (with_weights g F) x y.

Lemma with_weights_fst g (K : list wedge) :
  (forall u v w, In (u, v, w) K -> MST.edge_weight g (u, v) = w) ->
  with_weights g (map fst K) = K.
Proof.
  intros H. unfold with_weights. rewrite map_map.
  rewrite <- (map_id K) at 2. apply map_ext_in.
  intros [[u v] w] Hin. simpl. f_equal. now apply H.
Qed.

Lemma total_weight_with_weights g F :
  MST.total_weight g F = sum_weights (with_weights g F).
Proof.
  unfold MST.total_weight, sum_weights, with_weights.
  rewrite map_map. reflexivity.
Qed.

Lemma conn_all_weights (K G : list wedge) :
  (forall t x y, conn (upto t K) x y <-> conn (upto t G) x y) ->
  forall x y, conn K x y <-> conn G x y.
Proof.
  intros CK x y.
  destruct (weights_bounded (map snd (K ++ G))) as (lo & k & Hb).
  set (t := (lo + Z.of_nat k)%Z).
  split; intros H.
  - apply (conn_upto t). apply CK. apply conn_upto_all; [|exact H].
    intros e He. apply (Hb (snd e)). apply in_map, in_or_app. now left.
  - apply (conn_upto t). apply CK. apply conn_upto_all; [|exact H].
    intros e He. apply (Hb (snd e)). apply in_map, in_or_app. now right.
Qed.

Lemma result_is_spanning_forest g (A : list (nat * nat)) (K : list wedge) :
  Permutation A (map fst K) -> indep K ->
  (forall t x y, conn (upto t K) x y <-> conn (upto t (entries g)) x y) ->
  (forall u v w, In (u, v, w) K ->
     In (u, v, w) (entries g) /\ MST.edge_weight g (u, v) = w) ->
  spanning_forest g A /\ MST.total_weight g A = sum_weights K.
Proof.
  intros PA IK CK WK.
  assert (PW : Permutation (with_weights g A) K).
  { assert (E : with_weights g (map fst K) = K).
    { apply with_weights_fst. intros u v w H. now apply WK. }
    rewrite <- E. unfold with_weights. now apply Permutation_map. }
  split; [split; [|split]|].
  - intros u v Hin. apply (Permutation_in _ PA) in Hin.
    apply in_map_iff in Hin as ([[a b] w] & [= -> ->] & Hin).
    exists w. now apply WK.
  - apply (indep_perm K); [now symmetry|exact IK].
  - intros x y H. apply (conn_perm K); [now symmetry|].
    now apply (conn_all_weights K (entries g) CK).
  - rewrite total_weight_with_weights. unfold sum_weights.
    assert (PM : Permutation (map snd (with_weights g A)) (map snd K))
      by now apply Permutation_map.
    induction PM; simpl; lia.
Qed.

(** X15.  On a weighted graph built by the constructor, [mstKruskal()] and
    [mstPrim(r)] (for a vertex [r]) each return a spanning forest of the
    graph (a spanning tree when the graph is connected): edges of the graph
    without a cycle that join whatever the graph joins; and its total weight
    is the least possible: no spanning forest of the graph weighs less.
    [mstKruskal] needs a recursion limit that allows [findset] more than
    [log2 v] nested calls, which the default limit does for every graph. *)
Theorem mst_weight_is_minimum
  (limit v : nat) (edges : list (nat * nat)) (weights : list Z)
  (g : WeightedGraph.t) (r : nat) :
  WeightedGraph.init v edges weights = Some g -> r < v ->
  Nat.log2 v < limit ->
  exists K P,
    MST.mstKruskal limit g = Some K /\ MST.mstPrim g r = Some P /\
    spanning_forest g K /\ spanning_forest g P /\
    forall F, spanning_forest g F ->
      (MST.total_weight g K <= MST.total_weight g F)%Z /\
      (MST.total_weight g P <= MST.total_weight g F)%Z.
Proof.
  intros Hg Hr Hl. destruct (built_init v edges weights g Hg) as [Hb <-].
  destruct (mstKruskal_spec g Hb limit Hl)
    as (A & K & HK & HA & IK & EK & CK & WK).
  destruct (mstPrim_spec g Hb r Hr) as (B & P & HP & HB & IP & EP & CP & WP).
  assert (PA : Permutation A (map fst K)).
  { rewrite HA, map_rev. symmetry. apply Permutation_rev. }
  destruct (result_is_spanning_forest g A K PA IK CK WK) as [SA TA].
  destruct (result_is_spanning_forest g B P HB IP CP WP) as [SB TB].
  exists A, B. split; [exact HK|]. split; [exact HP|].
  split; [exact SA|]. split; [exact SB|].
  intros F (HF & IF & CF). rewrite TA, TB, (total_weight_with_weights g F).
  assert (FG : forall e, In e (with_weights g F) -> In e (entries g)).
  { intros e He. apply in_map_iff in He as ([a b] & <- & Hab).
    apply edge_weight_member. now apply HF. }
  split.
  - apply (spanning_forest_least_weight (length g) (entries g)); auto.
    apply (built_range _ Hb).
  - apply (spanning_forest_least_weight (length g) (entries g)); auto.
    apply (built_range _ Hb).
Qed.

Lemma mst_weight_is_minimum_witness :
  exists g K P,
    WeightedGraph.init 3 [(0, 1); (1, 2); (0, 2)] [5; 2; 3]%Z = Some g /\
    MST.mstKruskal 1000 g = Some K /\ MST.mstPrim g 0 = Some P /\
    spanning_forest g K /\ spanning_forest g P.
Proof.
  eexists.
  destruct (mst_weight_is_minimum 1000 3 [(0, 1); (1, 2); (0, 2)] [5; 2; 3]%Z
              _ 0 eq_refl) as (K & P & HK & HP & SK & SP & _);
    [lia|cbn; lia|].
  exists K, P. split; [reflexivity|]. auto.
Defined.

(** ** Breadth-first search *)

(** [path_len adj x y k]: [k] arcs lead from [x] to [y]. *)
Inductive path_len (adj : list (_AdjacencyList nat)) (x : nat)
  : nat -> nat -> Prop :=
| path_zero : path_len adj x x 0
| path_step y z k :
    path_len adj x y k -> arc adj y z -> path_len adj x z (S k).

Section BreadthFirst.
Import Graph.
Variable adj : list (_AdjacencyList nat).
Hypothesis Hrange : targets_in_range adj.
Variable s : nat.
Let n := length adj.

Definition dist_of (vs : list BfsVertexData) (x : nat) : distance :=
  match vs !! x with
  | Some vd => bfs_d vd
  | None => Infinity
  end.

Definition reached (vs : list BfsVertexData) (x : nat) : Prop :=
  exists k, dist_of vs x = Dist k.

(** Every neighbour of [x] is reached. *)
Definition closed (vs : list BfsVertexData) (x : nat) : Prop :=
  forall y, arc adj x y -> reached vs y.

Definition unreached (vs : list BfsVertexData) : nat :=
  length (List.filter (fun vd => match bfs_d vd with
                                 | Infinity => true
                                 | Dist _ => false
                                 end) vs).

Lemma unreached_insert vs x vd k p :
  vs !! x = Some vd -> bfs_d vd = Infinity ->
  unreached (<[x := mkBfsVertexData (Dist k) p]> vs) + 1 = unreached vs.
Proof.
  intros Hx Hd. unfold unreached.
  assert (Hlt : x < length vs) by (eapply lookup_lt_Some; eauto).
  rewrite insert_take_drop by exact Hlt.
  rewrite <- (take_drop_middle vs x vd Hx) at 3.
  rewrite !List.filter_app, !length_app. simpl. rewrite Hd. simpl. lia.
Qed.

(** What holds of the part of the state that only grows. *)
Record bfs_base (vs : list BfsVertexData) : Prop := {
  bb_len : length vs = n;
  bb_s : dist_of vs s = Dist 0;
  bb_tri : forall x y kx ky,
    arc adj x y -> dist_of vs x = Dist kx -> dist_of vs y = Dist ky ->
    ky <= kx + 1;
  bb_sound : forall x k, dist_of vs x = Dist k -> path_len adj s x k;
  bb_pred : forall x vd,
    vs !! x = Some vd ->
    match bfs_pred vd with
    | Some p => exists k, dist_of vs p = Dist k /\ bfs_d vd = Dist (k + 1) /\
                          arc adj p x
    | None => x = s \/ bfs_d vd = Infinity
    end
}.

(** The state at the test of the loop condition. *)
Record bfs_head (vs : list BfsVertexData) (q : list nat) : Prop := {
  bh_base : bfs_base vs;
  bh_nodup : List.NoDup q;
  bh_spread : exists lo,
    (forall x, In x q -> exists k, dist_of vs x = Dist k /\ lo <= k <= lo + 1) /\
    (forall x k, dist_of vs x = Dist k -> k <= lo + 1);
  bh_sorted : forall i j x y kx ky,
    i < j -> q !! i = Some x -> q !! j = Some y ->
    dist_of vs x = Dist kx -> dist_of vs y = Dist ky -> kx <= ky;
  bh_closed : forall x, reached vs x -> ~ In x q -> closed vs x
}.

(** The state inside the loop over the neighbours of [u]. *)
Record bfs_mid (vs : list BfsVertexData) (q : list nat) (u ku : nat)
  : Prop := {
  bm_base : bfs_base vs;
  bm_u : dist_of vs u = Dist ku;
  bm_uq : ~ In u q;
  bm_nodup : List.NoDup q;
  bm_q : forall x, In x q ->
    exists k, dist_of vs x = Dist k /\ ku <= k <= ku + 1;
  bm_max : forall x k, dist_of vs x = Dist k -> k <= ku + 1;
  bm_sorted : forall i j x y kx ky,
    i < j -> q !! i = Some x -> q !! j = Some y ->
    dist_of vs x = Dist kx -> dist_of vs y = Dist ky -> kx <= ky;
  bm_closed : forall x, reached vs x -> x <> u -> ~ In x q -> closed vs x
}.

Lemma dist_of_insert vs v vd x :
  v < length vs ->
  dist_of (<[v := vd]> vs) x = if decide (x = v) then bfs_d vd else dist_of vs x.
Proof.
  intros Hv. unfold dist_of. destruct (decide (x = v)) as [->|Hne].
  - now rewrite list_lookup_insert_eq.
  - now rewrite list_lookup_insert_ne by auto.
Qed.

Lemma dist_of_lt vs x k : dist_of vs x = Dist k -> x < length vs.
Proof.
  unfold dist_of. destruct (vs !! x) eqn:E; [|discriminate].
  intros _. eapply lookup_lt_Some; eauto.
Qed.

(** One neighbour [v] of [u]. *)
Lemma bfs_relax_ok vs q u ku v :
  bfs_mid vs q u ku -> arc adj u v ->
  exists vs' q',
    bfs_relax u (vs, q) v = Some (vs', q') /\
    bfs_mid vs' q' u ku /\ reached vs' v /\
    (forall x, reached vs x -> reached vs' x) /\
    length q' + unreached vs' = length q + unreached vs.
Proof.
  intros M Hv. pose proof (bm_base _ _ _ _ M) as B.
  assert (Hvn : v < length vs).
  { rewrite (bb_len _ B). apply (Hrange u v Hv). }
  destruct (lookup_lt_is_Some_2 vs v Hvn) as [vv Evv].
  unfold bfs_relax. rewrite Evv.
  destruct (bfs_d vv) as [kv|] eqn:Edv.
  - exists vs, q. split; [reflexivity|]. split; [exact M|].
    split; [|split; [auto|reflexivity]].
    exists kv. unfold dist_of. now rewrite Evv.
  - pose proof (bm_u _ _ _ _ M) as Hu.
    assert (Hun : u < length vs) by (eapply dist_of_lt; eauto).
    destruct (lookup_lt_is_Some_2 vs u Hun) as [vu Evu].
    assert (Edu : bfs_d vu = Dist ku).
    { unfold dist_of in Hu. now rewrite Evu in Hu. }
    rewrite Evu, Edu. cbn [distance_succ].
    rewrite list_lookup_insert_eq by exact Hvn. cbn [bfs_d].
    rewrite list_insert_insert_eq.
    set (vs' := <[v := mkBfsVertexData (Dist (ku + 1)) (Some u)]> vs).
    assert (Hdv : dist_of vs v = Infinity).
    { unfold dist_of. now rewrite Evv. }
    assert (Hd' : forall x, dist_of vs' x =
                            if decide (x = v) then Dist (ku + 1)
                            else dist_of vs x).
    { intros x. unfold vs'. now rewrite dist_of_insert. }
    assert (Hold : forall x k, dist_of vs x = Dist k -> x <> v).
    { intros x k Hx ->. congruence. }
    assert (Hkeep : forall x k, dist_of vs x = Dist k -> dist_of vs' x = Dist k).
    { intros x k Hx. rewrite Hd'.
      destruct (decide (x = v)) as [->|_]; [congruence|exact Hx]. }
    assert (Hmono : forall x, reached vs x -> reached vs' x).
    { intros x [k Hk]. exists k. now apply Hkeep. }
    assert (Hvq : ~ In v q).
    { intros Hin. destruct (bm_q _ _ _ _ M v Hin) as (k & Hk & _). congruence. }
    exists vs', (q ++ [v]). split; [reflexivity|].
    split; [|split; [|split; [exact Hmono|]]].
    + constructor.
      * constructor.
        -- unfold vs'. rewrite length_insert. apply (bb_len _ B).
        -- apply Hkeep, (bb_s _ B).
        -- intros x y kx ky Hxy Hx Hy. rewrite Hd' in Hx, Hy.
           destruct (decide (y = v)) as [->|Hyv];
             destruct (decide (x = v)) as [Exv|Hxv].
           ++ injection Hx as <-. injection Hy as <-. lia.
           ++ injection Hy as <-.
              assert (ku <= kx); [|lia].
              destruct (decide (x = u)) as [->|Hxu];
                [rewrite Hu in Hx; injection Hx as <-; lia|].
              destruct (in_dec Nat.eq_dec x q) as [Hxq|Hxq].
              ** destruct (bm_q _ _ _ _ M x Hxq) as (k & Hk & Hle).
                 rewrite Hk in Hx. injection Hx as <-. lia.
              ** exfalso.
                 assert (Hc : closed vs x).
                 { apply (bm_closed _ _ _ _ M); auto. now exists kx. }
                 destruct (Hc v Hxy) as [k Hk]. congruence.
           ++ injection Hx as <-. pose proof (bm_max _ _ _ _ M y ky Hy). lia.
           ++ apply (bb_tri _ B x y kx ky); auto.
        -- intros x k Hx. rewrite Hd' in Hx.
           destruct (decide (x = v)) as [->|_].
           ++ injection Hx as <-. rewrite Nat.add_1_r.
              eapply path_step; [|exact Hv]. apply (bb_sound _ B). exact Hu.
           ++ now apply (bb_sound _ B).
        -- intros x vd Hx. unfold vs' in Hx.
           destruct (decide (x = v)) as [->|Hxv].
           ++ rewrite list_lookup_insert_eq in Hx by exact Hvn.
              injection Hx as <-. cbn [bfs_pred bfs_d].
              exists ku. split; [now apply Hkeep|]. split; [reflexivity|exact Hv].
           ++ rewrite list_lookup_insert_ne in Hx by auto.
              pose proof (bb_pred _ B x vd Hx) as Hp.
              destruct (bfs_pred vd) as [p|]; [|exact Hp].
              destruct Hp as (k & Hk & Hd & Ha). exists k.
              split; [now apply Hkeep|auto].
      * now apply Hkeep.
      * rewrite in_app_iff. intros [H|[H|[]]]; [now apply (bm_uq _ _ _ _ M)|].
        subst v. congruence.
      * apply NoDup_ListNoDup, NoDup_app. split; [|split].
        -- apply NoDup_ListNoDup, (bm_nodup _ _ _ _ M).
        -- intros x Hx Hx'. apply list_elem_of_In in Hx, Hx'.
           destruct Hx' as [<-|[]]. auto.
        -- apply NoDup_ListNoDup. repeat constructor. intros [].
      * intros x Hx. apply in_app_iff in Hx as [Hx|[<-|[]]].
        -- destruct (bm_q _ _ _ _ M x Hx) as (k & Hk & Hle).
           exists k. split; [now apply Hkeep|exact Hle].
        -- exists (ku + 1). rewrite Hd'.
           destruct (decide (v = v)); [|congruence]. split; [reflexivity|lia].
      * intros x k Hx. rewrite Hd' in Hx.
        destruct (decide (x = v)) as [->|_].
        -- injection Hx as <-. lia.
        -- apply (bm_max _ _ _ _ M x k Hx).
      * intros i j x y kx ky Hij Hi Hj Hx Hy.
        assert (Hil : i < length q).
        { apply lookup_lt_Some in Hj. rewrite length_app in Hj. simpl in Hj. lia. }
        rewrite lookup_app_l in Hi by exact Hil.
        assert (Hxq : In x q).
        { apply list_elem_of_In, list_elem_of_lookup. eauto. }
        destruct (bm_q _ _ _ _ M x Hxq) as (k & Hk & Hle).
        rewrite (Hkeep x k Hk) in Hx. injection Hx as <-.
        destruct (Nat.lt_ge_cases j (length q)) as [Hjl|Hjl].
        -- rewrite lookup_app_l in Hj by exact Hjl.
           assert (Hyq : In y q).
           { apply list_elem_of_In, list_elem_of_lookup. eauto. }
           destruct (bm_q _ _ _ _ M y Hyq) as (k' & Hk' & _).
           rewrite (Hkeep y k' Hk') in Hy. injection Hy as <-.
           apply (bm_sorted _ _ _ _ M i j x y k k' Hij Hi Hj Hk Hk').
        -- rewrite lookup_app_r in Hj by exact Hjl.
           destruct (j - length q) as [|j'] eqn:Ej; [|discriminate].
           injection Hj as <-. rewrite Hd' in Hy.
           destruct (decide (v = v)); [|congruence]. injection Hy as <-. lia.
      * intros x Hx Hxu Hxq. rewrite in_app_iff in Hxq.
        assert (Hxv : x <> v) by (intros ->; apply Hxq; right; now left).
        assert (Hx0 : reached vs x).
        { destruct Hx as [k Hk]. rewrite Hd' in Hk.
          destruct (decide (x = v)); [congruence|]. now exists k. }
        intros y Hy. apply Hmono.
        apply (bm_closed _ _ _ _ M x Hx0 Hxu); [tauto|exact Hy].
    + exists (ku + 1). rewrite Hd'. destruct (decide (v = v)); congruence.
    + rewrite length_app. simpl.
      pose proof (unreached_insert vs v vv (ku + 1) (Some u) Evv Edv) as Hc.
      fold vs' in Hc. lia.
Qed.

(** The loop over the neighbours of [u]. *)
Lemma bfs_relax_fold u ku vsl : forall vs q,
  bfs_mid vs q u ku -> (forall v, In v vsl -> arc adj u v) ->
  exists vs' q',
    foldM (bfs_relax u) (vs, q) vsl = Some (vs', q') /\
    bfs_mid vs' q' u ku /\
    (forall v, In v vsl -> reached vs' v) /\
    (forall x, reached vs x -> reached vs' x) /\
    length q' + unreached vs' = length q + unreached vs.
Proof.
  induction vsl as [|v vsl IH]; intros vs q M Harc.
  - exists vs, q. split; [reflexivity|]. split; [exact M|].
    split; [intros v []|]. split; [auto|reflexivity].
  - destruct (bfs_relax_ok vs q u ku v M) as (vs1 & q1 & H1 & M1 & R1 & Mo1 & C1).
    { apply Harc. now left. }
    destruct (IH vs1 q1 M1) as (vs2 & q2 & H2 & M2 & R2 & Mo2 & C2).
    { intros x Hx. apply Harc. now right. }
    exists vs2, q2. cbn [foldM]. rewrite H1. split; [exact H2|].
    split; [exact M2|]. split; [|split; [auto|lia]].
    intros x [<-|Hx]; [apply Mo2, R1|now apply R2].
Qed.

Lemma bfs_loop_ok fuel : forall vs q,
  bfs_head vs q -> length q + unreached vs < fuel ->
  exists vs', bfs_loop fuel adj vs q = Some vs' /\
    bfs_base vs' /\ forall x, reached vs' x -> closed vs' x.
Proof.
  induction fuel as [|fuel IH]; intros vs q H Hf; [lia|].
  destruct q as [|u q]; cbn [bfs_loop].
  - exists vs. split; [reflexivity|]. split; [apply H|].
    intros x Hx. apply (bh_closed _ _ H x Hx). intros [].
  - pose proof (bh_base _ _ H) as B.
    destruct (bh_spread _ _ H) as (lo & Hq & Hmax).
    destruct (Hq u (or_introl eq_refl)) as (ku & Hu & Hku).
    assert (Hun : u < length adj).
    { apply dist_of_lt in Hu. now rewrite (bb_len _ B) in Hu. }
    destruct (lookup_lt_is_Some_2 adj u Hun) as [uList EuList].
    rewrite EuList.
    pose proof (bh_nodup _ _ H) as ND. inversion ND as [|? ? Huq ND']; subst.
    assert (M : bfs_mid vs q u ku).
    { constructor; auto.
      - intros x Hx. destruct (Hq x (or_intror Hx)) as (k & Hk & Hle).
        exists k. split; [exact Hk|]. split; [|lia].
        apply list_elem_of_In, list_elem_of_lookup in Hx as [j Hj].
        apply (bh_sorted _ _ H 0 (S j) u x ku k); auto. lia.
      - intros x k Hk. specialize (Hmax x k Hk). lia.
      - intros i j x y kx ky Hij Hi Hj.
        apply (bh_sorted _ _ H (S i) (S j) x y kx ky); auto. lia.
      - intros x Hx Hxu Hxq. apply (bh_closed _ _ H x Hx).
        intros [->|Hin]; auto. }
    destruct (bfs_relax_fold u ku (iter uList) vs q M)
      as (vs1 & q1 & H1 & M1 & R1 & Mo1 & C1).
    { intros v Hv. exists uList. auto. }
    rewrite H1. apply IH.
    + constructor.
      * apply (bm_base _ _ _ _ M1).
      * apply (bm_nodup _ _ _ _ M1).
      * exists ku. split; [apply (bm_q _ _ _ _ M1)|apply (bm_max _ _ _ _ M1)].
      * apply (bm_sorted _ _ _ _ M1).
      * intros x Hx Hxq. destruct (decide (x = u)) as [->|Hxu].
        -- intros y (l & El & Hy). rewrite EuList in El. injection El as <-.
           now apply R1.
        -- now apply (bm_closed _ _ _ _ M1).
    + simpl in Hf. lia.
Qed.

Lemma bfs_complete vs :
  bfs_base vs -> (forall x, reached vs x -> closed vs x) ->
  forall x k, path_len adj s x k -> exists k', dist_of vs x = Dist k' /\ k' <= k.
Proof.
  intros B C x k Hp. induction Hp as [|y z k Hp IH Ha].
  - exists 0. split; [apply (bb_s _ B)|lia].
  - destruct IH as (ky & Hy & Hle).
    destruct (C y (ex_intro _ ky Hy) z Ha) as [kz Hz].
    exists kz. split; [exact Hz|].
    pose proof (bb_tri _ B y z ky kz Ha Hy Hz). lia.
Qed.

Lemma bfs_spec :
  s < n ->
  exists vs, bfs adj s = Some vs /\ bfs_base vs /\
    forall x, reached vs x -> closed vs x.
Proof.
  intros Hs. unfold bfs. fold n.
  set (vs00 := replicate n (mkBfsVertexData Infinity None)).
  assert (E0 : vs00 !! s = Some (mkBfsVertexData Infinity None))
    by now apply lookup_replicate_2.
  rewrite E0. cbn [bfs_pred].
  set (vs0 := <[s := mkBfsVertexData (Dist 0) None]> vs00).
  assert (L0 : length vs00 = n) by apply length_replicate.
  assert (Hd0 : forall x, dist_of vs0 x = if decide (x = s) then Dist 0
                                         else Infinity).
  { intros x. unfold vs0. rewrite dist_of_insert by lia.
    destruct (decide (x = s)); [reflexivity|].
    unfold dist_of, vs00. destruct (replicate _ _ !! x) eqn:E; [|reflexivity].
    apply lookup_replicate in E as [-> _]. reflexivity. }
  assert (Hr0 : forall x k, dist_of vs0 x = Dist k -> x = s /\ k = 0).
  { intros x k Hx. rewrite Hd0 in Hx.
    destruct (decide (x = s)); [|discriminate]. injection Hx as <-. auto. }
  apply bfs_loop_ok.
  - constructor.
    + constructor.
      * unfold vs0. now rewrite length_insert.
      * rewrite Hd0. destruct (decide (s = s)); congruence.
      * intros x y kx ky _ Hx Hy.
        apply Hr0 in Hx as [_ ->]. apply Hr0 in Hy as [_ ->]. lia.
      * intros x k Hx. apply Hr0 in Hx as [-> ->]. constructor.
      * intros x vd Hx. unfold vs0 in Hx.
        destruct (decide (x = s)) as [->|Hne].
        -- rewrite list_lookup_insert_eq in Hx by lia. injection Hx as <-.
           simpl. now left.
        -- rewrite list_lookup_insert_ne in Hx by auto.
           apply lookup_replicate in Hx as [-> _]. simpl. now right.
    + repeat constructor. intros [].
    + exists 0. split.
      * intros x [<-|[]]. exists 0. rewrite Hd0.
        destruct (decide (s = s)); [|congruence]. split; [reflexivity|lia].
      * intros x k Hx. apply Hr0 in Hx as [_ ->]. lia.
    + intros i j x y kx ky Hij Hi Hj. apply lookup_lt_Some in Hj.
      simpl in Hj. lia.
    + intros x [k Hx] Hxq. apply Hr0 in Hx as [-> _].
      exfalso. apply Hxq. now left.
  - pose proof (unreached_insert vs00 s _ 0 None E0 eq_refl) as Hc.
    fold vs0 in Hc.
    assert (unreached vs00 <= n).
    { rewrite <- L0. unfold unreached. apply List.filter_length_le. }
    simpl. lia.
Qed.

End BreadthFirst.

(** X16.  On adjacency lists whose targets are vertices, [bfs(s)] from a
    vertex [s] returns one record per vertex in which [d] is the least
    number of arcs of a path from [s] to the vertex, and [math.inf] exactly
    for the vertices no path reaches; [pred] is [None] for [s] and for the
    unreached vertices, and otherwise a vertex one arc before, at distance
    one less.  With [s] out of range the call raises. *)
Theorem bfs_shortest_paths (adj : list (_AdjacencyList nat)) (s : nat) :
  targets_in_range adj ->
  (s < length adj ->
   exists vertices,
     Graph.bfs adj s = Some vertices /\ length vertices = length adj /\
     forall x vd, vertices !! x = Some vd ->
       (forall k, Graph.bfs_d vd = Graph.Dist k <->
                  path_len adj s x k /\
                  forall k', path_len adj s x k' -> k <= k') /\
       (Graph.bfs_d vd = Graph.Infinity <-> forall k, ~ path_len adj s x k) /\
       match Graph.bfs_pred vd with
       | Some p => arc adj p x /\
                   exists k, dist_of vertices p = Graph.Dist k /\
                             Graph.bfs_d vd = Graph.Dist (k + 1)
       | None => x = s \/ Graph.bfs_d vd = Graph.Infinity
       end) /\
  (length adj <= s -> Graph.bfs adj s = None).
Proof.
  intros Hrange. split.
  - intros Hs. destruct (bfs_spec adj Hrange s Hs) as (vs & Hvs & B & C).
    exists vs. split; [exact Hvs|]. split; [apply (bb_len _ _ _ B)|].
    intros x vd Hx.
    assert (Hd : dist_of vs x = Graph.bfs_d vd).
    { unfold dist_of. now rewrite Hx. }
    split; [|split].
    + intros k. rewrite <- Hd. split.
      * intros Hk. split; [apply (bb_sound _ _ _ B x k Hk)|].
        intros k' Hp.
        destruct (bfs_complete adj s vs B C x k' Hp) as (k'' & Hk'' & Hle).
        rewrite Hk in Hk''. injection Hk'' as <-. exact Hle.
      * intros [Hp Hmin].
        destruct (bfs_complete adj s vs B C x k Hp) as (k'' & Hk'' & Hle).
        pose proof (Hmin k'' (bb_sound _ _ _ B x k'' Hk'')).
        rewrite Hk''. f_equal. lia.
    + rewrite <- Hd. split.
      * intros Hinf k Hp.
        destruct (bfs_complete adj s vs B C x k Hp) as (k'' & Hk'' & _).
        congruence.
      * intros Hno. destruct (dist_of vs x) as [k|] eqn:E; [|reflexivity].
        exfalso. apply (Hno k). apply (bb_sound _ _ _ B x k E).
    + pose proof (bb_pred _ _ _ B x vd Hx) as Hp.
      destruct (Graph.bfs_pred vd) as [p|]; [|exact Hp].
      destruct Hp as (k & Hk & Hdk & Ha). split; [exact Ha|]. eauto.
  - intros Hs. unfold Graph.bfs.
    destruct (replicate _ _ !! s) eqn:E; [|reflexivity].
    apply lookup_replicate in E as [_ E]. lia.
Qed.

Lemma bfs_shortest_paths_witness :
  exists g vertices,
    Graph.init 4 [(0, 1); (1, 2); (0, 2)] = Some g /\
    Graph.bfs g 0 = Some vertices /\ length vertices = length g /\
    Graph.bfs g 4 = None.
Proof.
  destruct (Graph_degrees_built 4 [(0, 1); (1, 2); (0, 2)]) as (g & Hg & L & _).
  { repeat constructor; simpl; lia. }
  assert (Hr : targets_in_range g).
  { unfold Graph.init in Hg. vm_compute in Hg. injection Hg as <-.
    intros u v (l & Hl & Hv).
    destruct u as [|[|[|[|u]]]]; simpl in Hl; try discriminate;
      injection Hl as <-; simpl in Hv; simpl; intuition lia. }
  destruct (bfs_shortest_paths g 0 Hr) as [Hok _].
  destruct (bfs_shortest_paths g 4 Hr) as [_ Hbad].
  destruct Hok as (vs & Hvs & Hl & _); [lia|].
  exists g, vs. split; [exact Hg|]. split; [exact Hvs|]. split; [exact Hl|].
  apply Hbad. lia.
Defined.

(** ** Depth-first search of an arbitrary graph *)

Section DepthFirstAny.
Import Graph.
Variable adj : list (_AdjacencyList nat).
Hypothesis Hrange : targets_in_range adj.
Let n := length adj.

Abbreviation state := (dfs_state (list nat)).
Abbreviation onFinish := (fun (u : nat) (topSort : list nat) => topSort ++ [u]).

(** The discovery time of [x], [0] while it is undiscovered. *)
Definition dtime (st : state) (x : nat) : nat :=
  match vertices st !! x with Some vd => d vd | None => 0 end.

Lemma disc_dtime st x : disc st x <-> dtime st x <> 0.
Proof.
  unfold disc, dtime. split.
  - intros (vd & -> & H). exact H.
  - destruct (vertices st !! x) as [vd|]; [eauto|congruence].
Qed.

Lemma white_dtime st x :
  white st x <-> x < length (vertices st) /\ dtime st x = 0.
Proof.
  unfold white, dtime. split.
  - intros (vd & E & H). rewrite E. split; [|exact H].
    eapply lookup_lt_Some; eauto.
  - intros [Hx H]. destruct (lookup_lt_is_Some_2 _ _ Hx) as [vd E].
    rewrite E in H. eauto.
Qed.

(** The times the search has stamped so far. *)
Record dfs_times (st : state) : Prop := {
  dt_len : length (vertices st) = n;
  dt_nodup : List.NoDup (callback_state st);
  dt_d_le : forall x, dtime st x <= time st;
  dt_black : forall x, black st x ->
    exists t, ftime st x = Some t /\ 0 < dtime st x /\ dtime st x < t /\
              t <= time st;
  dt_open : forall x, ~ black st x -> ftime st x = None;
  dt_arcs : forall x y t,
    arc adj x y -> ftime st x = Some t -> 0 < dtime st y /\ dtime st y < t;
  dt_nest : forall x y tx ty,
    x <> y -> ftime st x = Some tx -> ftime st y = Some ty ->
    tx < dtime st y \/ ty < dtime st x \/
    (dtime st x < dtime st y /\ ty < tx) \/
    (dtime st y < dtime st x /\ tx < ty);
  dt_gray : forall g x t,
    gray st g -> ftime st x = Some t ->
    t < dtime st g \/ dtime st g < dtime st x;
  dt_desc : forall x y tx ty,
    ftime st x = Some tx -> ftime st y = Some ty ->
    dtime st x <= dtime st y -> ty <= tx -> walk adj x y;
  dt_inj : forall x y, dtime st x = dtime st y -> dtime st x <> 0 -> x = y;
  dt_sorted : forall l1 x l2 y tx ty,
    callback_state st = l1 ++ x :: l2 -> In y l1 ->
    ftime st x = Some tx -> ftime st y = Some ty -> ty < tx;
  dt_time : time st + undiscovered (vertices st)
            = n + length (callback_state st);
  dt_pred : forall x vd p,
    vertices st !! x = Some vd -> pred vd = Some p ->
    arc adj p x /\ 0 < dtime st p /\ (d vd <> 0 -> dtime st p < d vd)
}.

Lemma ftime_black st x t : dfs_times st -> ftime st x = Some t -> black st x.
Proof.
  intros T H. destruct (classic_black st x) as [Hb|Hb]; [exact Hb|].
  rewrite (dt_open _ T x Hb) in H. discriminate.
Qed.

Lemma black_disc_times st x : dfs_times st -> black st x -> disc st x.
Proof.
  intros T H. apply disc_dtime.
  destruct (dt_black _ T x H) as (t & _ & Hd & _). lia.
Qed.

Lemma dtime_insert (st : state) v vd' t' L x :
  v < length (vertices st) ->
  dtime (mkDfs (<[v := vd']> (vertices st)) t' L) x
  = if decide (x = v) then d vd' else dtime st x.
Proof.
  intros Hv. unfold dtime. simpl. rewrite lookup_update by exact Hv.
  destruct (decide (x = v)); reflexivity.
Qed.

Lemma ftime_insert (st : state) v vd' t' L x :
  v < length (vertices st) ->
  ftime (mkDfs (<[v := vd']> (vertices st)) t' L) x
  = if decide (x = v) then f vd' else ftime st x.
Proof.
  intros Hv. unfold ftime. simpl. rewrite lookup_update by exact Hv.
  destruct (decide (x = v)); reflexivity.
Qed.

(** [vertices[v].pred = u] on an undiscovered [v], inside the visit of a
    discovered [u]. *)
Lemma times_set_pred st v vv u :
  dfs_times st -> vertices st !! v = Some vv -> d vv = 0 ->
  arc adj u v -> disc st u ->
  let st' := mkDfs (<[v := mkVertexData (d vv) (f vv) (Some u)]>
                      (vertices st)) (time st) (callback_state st) in
  dfs_times st' /\
  (forall x, dtime st' x = dtime st x) /\
  (forall x, ftime st' x = ftime st x) /\
  undiscovered (vertices st') = undiscovered (vertices st).
Proof.
  intros T Hv Hd Ha Hu st'.
  assert (Hlt : v < length (vertices st)) by (eapply lookup_lt_Some; eauto).
  assert (HD : forall x, dtime st' x = dtime st x).
  { intros x. unfold st'. rewrite dtime_insert by exact Hlt.
    destruct (decide (x = v)) as [->|]; [|reflexivity].
    unfold dtime. now rewrite Hv. }
  assert (HF : forall x, ftime st' x = ftime st x).
  { intros x. unfold st'. rewrite ftime_insert by exact Hlt.
    destruct (decide (x = v)) as [->|]; [|reflexivity].
    unfold ftime. now rewrite Hv. }
  assert (HU : undiscovered (vertices st') = undiscovered (vertices st)).
  { pose proof (undiscovered_insert (vertices st) v vv
                  (mkVertexData (d vv) (f vv) (Some u)) Hv) as H.
    simpl in H. unfold st'. simpl. lia. }
  assert (HG : forall g, gray st' g -> gray st g).
  { intros g [H1 H2]. split; [|exact H2].
    apply disc_dtime. rewrite <- HD. now apply disc_dtime. }
  split; [|auto].
  constructor.
  - unfold st'. simpl. rewrite length_insert. apply T.
  - apply T.
  - intros x. rewrite HD. apply (dt_d_le _ T).
  - intros x Hx. rewrite HF, HD. apply (dt_black _ T x Hx).
  - intros x Hx. rewrite HF. apply (dt_open _ T x Hx).
  - intros x y t. rewrite HF, HD. apply (dt_arcs _ T).
  - intros x y tx ty. rewrite !HF, !HD. apply (dt_nest _ T).
  - intros g x t Hg. rewrite HF, !HD. apply (dt_gray _ T). auto.
  - intros x y tx ty. rewrite !HF, !HD. apply (dt_desc _ T).
  - intros x y. rewrite !HD. apply (dt_inj _ T).
  - intros l1 x l2 y tx ty. rewrite !HF. apply (dt_sorted _ T).
  - rewrite HU. apply (dt_time _ T).
  - intros x vd p Hx Hp. rewrite HD. unfold st' in Hx. simpl in Hx.
    rewrite lookup_update in Hx by exact Hlt.
    destruct (decide (x = v)) as [->|Hne].
    + injection Hx as <-. simpl in Hp. injection Hp as <-. simpl.
      split; [exact Ha|]. split; [|lia].
      apply disc_dtime in Hu. lia.
    + apply (dt_pred _ T x vd p Hx Hp).
Qed.

(** [time = time + 1; vertices[u].d = time] on an undiscovered [u]. *)
Lemma times_set_d st u vu :
  dfs_times st -> vertices st !! u = Some vu -> d vu = 0 ->
  let st1 := mkDfs (<[u := mkVertexData (time st + 1) (f vu) (pred vu)]>
                      (vertices st)) (time st + 1) (callback_state st) in
  dfs_times st1 /\
  (forall x, dtime st1 x = if decide (x = u) then time st + 1 else dtime st x) /\
  (forall x, ftime st1 x = ftime st x) /\
  undiscovered (vertices st1) + 1 = undiscovered (vertices st).
Proof.
  intros T Hu Hd st1.
  assert (Hlt : u < length (vertices st)) by (eapply lookup_lt_Some; eauto).
  assert (Hdu : dtime st u = 0) by (unfold dtime; now rewrite Hu).
  assert (Hnb : ~ black st u).
  { intros Hb. destruct (dt_black _ T u Hb) as (t & _ & H & _). lia. }
  assert (HD : forall x, dtime st1 x =
                         if decide (x = u) then time st + 1 else dtime st x).
  { intros x. unfold st1. now rewrite dtime_insert. }
  assert (HF : forall x, ftime st1 x = ftime st x).
  { intros x. unfold st1. rewrite ftime_insert by exact Hlt.
    destruct (decide (x = u)) as [->|]; [|reflexivity].
    unfold ftime. now rewrite Hu. }
  assert (HU : undiscovered (vertices st1) + 1 = undiscovered (vertices st)).
  { pose proof (undiscovered_insert (vertices st) u vu
                  (mkVertexData (time st + 1) (f vu) (pred vu)) Hu) as H.
    simpl in H. rewrite Hd in H. simpl in H.
    replace (time st + 1 =? 0) with false in H; [unfold st1; simpl; lia|].
    symmetry. apply Nat.eqb_neq. lia. }
  assert (Hfu : forall x t, ftime st x = Some t -> x <> u).
  { intros x t Hx ->. apply Hnb. eapply ftime_black; eauto. }
  assert (Hle : forall x, dtime st x <= time st) by apply (dt_d_le _ T).
  split; [|auto].
  constructor.
  - unfold st1. simpl. rewrite length_insert. apply T.
  - apply T.
  - intros x. rewrite HD. change (time st1) with (time st + 1).
    destruct (decide (x = u)); [lia|]. specialize (Hle x). lia.
  - intros x Hx. rewrite HF, HD.
    destruct (dt_black _ T x Hx) as (t & H1 & H2 & H3 & H4).
    exists t. destruct (decide (x = u)) as [->|]; [contradiction|].
    change (time st1) with (time st + 1). repeat split; auto; lia.
  - intros x Hx. rewrite HF. apply (dt_open _ T x Hx).
  - intros x y t Hxy Hx. rewrite HF in Hx. rewrite HD.
    pose proof (dt_arcs _ T x y t Hxy Hx) as [H1 H2].
    destruct (decide (y = u)) as [->|]; [lia|auto].
  - intros x y tx ty Hne Hx Hy. rewrite HF in Hx, Hy. rewrite !HD.
    destruct (decide (x = u)) as [->|]; [now apply Hfu in Hx|].
    destruct (decide (y = u)) as [->|]; [now apply Hfu in Hy|].
    apply (dt_nest _ T); auto.
  - intros g x t [Hg Hgb] Hx. rewrite HF in Hx. rewrite !HD.
    pose proof (Hfu x t Hx) as Hxu.
    destruct (decide (x = u)); [contradiction|].
    destruct (decide (g = u)) as [->|Hgu].
    + left. pose proof (ftime_black st x t T Hx) as Hb.
      destruct (dt_black _ T x Hb) as (t' & H1 & _ & _ & H4).
      rewrite Hx in H1. injection H1 as <-. lia.
    + apply (dt_gray _ T g x t); [|exact Hx]. split; [|exact Hgb].
      apply disc_dtime. apply disc_dtime in Hg. rewrite HD in Hg.
      destruct (decide (g = u)); [contradiction|exact Hg].
  - intros x y tx ty Hx Hy. rewrite HF in Hx, Hy. rewrite !HD.
    destruct (decide (x = u)) as [->|]; [now apply Hfu in Hx|].
    destruct (decide (y = u)) as [->|]; [now apply Hfu in Hy|].
    apply (dt_desc _ T); auto.
  - intros x y. rewrite !HD.
    destruct (decide (x = u)) as [->|Hx], (decide (y = u)) as [->|Hy]; auto.
    + intros E _. pose proof (Hle y). lia.
    + intros E _. pose proof (Hle x). lia.
    + apply (dt_inj _ T).
  - intros l1 x l2 y tx ty. rewrite !HF. apply (dt_sorted _ T).
  - change (time st1) with (time st + 1).
    change (callback_state st1) with (callback_state st).
    pose proof (dt_time _ T). lia.
  - intros x vd p Hx Hp. unfold st1 in Hx. simpl in Hx.
    rewrite lookup_update in Hx by exact Hlt.
    assert (Hpu : forall q, 0 < dtime st q -> dtime st1 q = dtime st q).
    { intros q Hq. rewrite HD. destruct (decide (q = u)) as [->|]; [lia|auto]. }
    destruct (decide (x = u)) as [->|Hne].
    + injection Hx as <-. simpl in Hp. simpl.
      destruct (dt_pred _ T u vu p Hu Hp) as (H1 & H2 & _).
      rewrite (Hpu p H2). split; [exact H1|]. split; [exact H2|].
      intros _. specialize (Hle p). lia.
    + destruct (dt_pred _ T x vd p Hx Hp) as (H1 & H2 & H3).
      rewrite (Hpu p H2). auto.
Qed.

(** [time = time + 1; vertices[u].f = time; onFinish(u)] at the end of the
    visit of [u]. *)
Lemma times_set_f st u vu :
  dfs_times st -> vertices st !! u = Some vu -> gray st u ->
  (forall v, arc adj u v -> disc st v) ->
  (forall g, gray st g -> g <> u -> dtime st g < dtime st u) ->
  (forall y ty, ftime st y = Some ty -> dtime st u < dtime st y ->
                walk adj u y) ->
  let st3 := mkDfs (<[u := mkVertexData (d vu) (Some (time st + 1)) (pred vu)]>
                      (vertices st)) (time st + 1)
                   (callback_state st ++ [u]) in
  dfs_times st3 /\
  (forall x, dtime st3 x = dtime st x) /\
  (forall x, ftime st3 x = if decide (x = u) then Some (time st + 1)
                           else ftime st x) /\
  undiscovered (vertices st3) = undiscovered (vertices st).
Proof.
  intros T Hu [Hdu Hnb] Hout Hgray Hreach st3.
  assert (Hlt : u < length (vertices st)) by (eapply lookup_lt_Some; eauto).
  assert (Hdu0 : dtime st u <> 0) by now apply disc_dtime.
  assert (Hduv : dtime st u = d vu) by (unfold dtime; now rewrite Hu).
  assert (HD : forall x, dtime st3 x = dtime st x).
  { intros x. unfold st3. rewrite dtime_insert by exact Hlt.
    destruct (decide (x = u)) as [->|]; [simpl; auto|reflexivity]. }
  assert (HF : forall x, ftime st3 x = if decide (x = u) then Some (time st + 1)
                                       else ftime st x).
  { intros x. unfold st3. now rewrite ftime_insert. }
  assert (HU : undiscovered (vertices st3) = undiscovered (vertices st)).
  { pose proof (undiscovered_insert (vertices st) u vu
                  (mkVertexData (d vu) (Some (time st + 1)) (pred vu)) Hu) as H.
    simpl in H. unfold st3. simpl. lia. }
  assert (Hfu : forall x t, ftime st x = Some t -> x <> u).
  { intros x t Hx ->. apply Hnb. eapply ftime_black; eauto. }
  assert (Hft : forall x t, ftime st x = Some t -> t <= time st).
  { intros x t Hx. pose proof (ftime_black st x t T Hx) as Hb.
    destruct (dt_black _ T x Hb) as (t' & H1 & _ & _ & H4).
    rewrite Hx in H1. injection H1 as <-. exact H4. }
  assert (Hle : forall x, dtime st x <= time st) by apply (dt_d_le _ T).
  assert (HB : forall x, black st3 x <-> black st x \/ x = u).
  { intros x. unfold black, st3. simpl. rewrite in_app_iff. simpl. intuition. }
  split; [|auto].
  constructor.
  - unfold st3. simpl. rewrite length_insert. apply T.
  - unfold st3. simpl. apply NoDup_ListNoDup, NoDup_app. split; [|split].
    + apply NoDup_ListNoDup, T.
    + intros x Hx Hx'. apply list_elem_of_In in Hx.
      apply list_elem_of_singleton in Hx'. subst. auto.
    + apply NoDup_singleton.
  - intros x. rewrite HD. change (time st3) with (time st + 1).
    specialize (Hle x). lia.
  - intros x Hx. rewrite HF, HD. change (time st3) with (time st + 1).
    destruct (decide (x = u)) as [->|Hne].
    + exists (time st + 1). specialize (Hle u). repeat split; auto; lia.
    + apply HB in Hx as [Hx|]; [|contradiction].
      destruct (dt_black _ T x Hx) as (t & H1 & H2 & H3 & H4).
      exists t. repeat split; auto; lia.
  - intros x Hx. rewrite HF. destruct (decide (x = u)) as [->|Hne].
    + exfalso. apply Hx, HB. now right.
    + apply (dt_open _ T). intros Hb. apply Hx, HB. now left.
  - intros x y t Hxy Hx. rewrite HF in Hx. rewrite HD.
    destruct (decide (x = u)) as [->|Hne].
    + injection Hx as <-. pose proof (Hout y Hxy) as Hy.
      apply disc_dtime in Hy. specialize (Hle y). lia.
    + apply (dt_arcs _ T x y t Hxy Hx).
  - intros x y tx ty Hne Hx Hy. rewrite HF in Hx, Hy. rewrite !HD.
    destruct (decide (x = u)) as [->|Hxu]; destruct (decide (y = u)) as [->|Hyu].
    + congruence.
    + injection Hx as <-. pose proof (Hft y ty Hy) as Hty.
      destruct (dt_gray _ T u y ty (conj Hdu Hnb) Hy) as [H|H].
      * right. left. exact H.
      * right. right. left. split; [exact H|lia].
    + injection Hy as <-. pose proof (Hft x tx Hx) as Htx.
      destruct (dt_gray _ T u x tx (conj Hdu Hnb) Hx) as [H|H].
      * left. exact H.
      * right. right. right. split; [exact H|lia].
    + apply (dt_nest _ T); auto.
  - intros g x t [Hg Hgb] Hx. rewrite HF in Hx. rewrite !HD.
    assert (Hgu : g <> u) by (intros ->; apply Hgb, HB; now right).
    assert (Hg0 : gray st g).
    { split.
      - apply disc_dtime. rewrite <- HD. now apply disc_dtime.
      - intros Hb. apply Hgb, HB. now left. }
    destruct (decide (x = u)) as [->|Hxu].
    + right. now apply Hgray.
    + apply (dt_gray _ T g x t Hg0 Hx).
  - intros x y tx ty Hx Hy. rewrite HF in Hx, Hy. rewrite !HD.
    destruct (decide (x = u)) as [->|Hxu]; destruct (decide (y = u)) as [->|Hyu].
    + intros _ _. apply walk_nil.
    + injection Hx as <-. intros Hd _.
      apply (Hreach y ty Hy).
      assert (dtime st u <> dtime st y); [|lia].
      intros E. apply Hyu. symmetry. now apply (dt_inj _ T u y).
    + injection Hy as <-. intros _ Ht. pose proof (Hft x tx Hx). lia.
    + apply (dt_desc _ T); auto.
  - intros x y. rewrite !HD. apply (dt_inj _ T).
  - intros l1 x l2 y tx ty Hacc Hy Hx Hy'. rewrite HF in Hx, Hy'.
    unfold st3 in Hacc. simpl in Hacc.
    assert (Hyb : forall l1' l2', callback_state st = l1' ++ l2' ->
              In y l1' -> y <> u).
    { intros l1' l2' E Hin ->. apply Hnb. unfold black. rewrite E.
      apply in_or_app. now left. }
    destruct l2 as [|z l2] using rev_ind.
    + apply app_inj_tail in Hacc as [E <-].
      destruct (decide (u = u)); [|congruence]. injection Hx as <-.
      destruct (decide (y = u)) as [->|Hyu].
      * exfalso. apply (Hyb l1 [] ltac:(now rewrite app_nil_r) Hy eq_refl).
      * pose proof (Hft y ty Hy'). lia.
    + clear IHl2. rewrite app_comm_cons, app_assoc in Hacc.
      apply app_inj_tail in Hacc as [E <-].
      assert (Hxu : x <> u).
      { intros ->. apply Hnb. unfold black. rewrite E.
        apply in_or_app. right. now left. }
      assert (Hyu : y <> u) by (eapply Hyb; eauto).
      destruct (decide (x = u)); [contradiction|].
      destruct (decide (y = u)); [contradiction|].
      apply (dt_sorted _ T l1 x l2 y tx ty E Hy Hx Hy').
  - change (time st3) with (time st + 1). rewrite HU.
    change (callback_state st3) with (callback_state st ++ [u]).
    rewrite length_app. simpl. pose proof (dt_time _ T). lia.
  - intros x vd p Hx Hp. rewrite HD. unfold st3 in Hx. simpl in Hx.
    rewrite lookup_update in Hx by exact Hlt.
    destruct (decide (x = u)) as [->|Hne].
    + injection Hx as <-. simpl in Hp. simpl.
      apply (dt_pred _ T u vu p Hu Hp).
    + apply (dt_pred _ T x vd p Hx Hp).
Qed.

(** What a visit may change: it finishes undiscovered vertices and leaves
    the records of the discovered ones alone. *)
Record grows (st st' : state) : Prop := {
  gr_len : length (vertices st') = length (vertices st);
  gr_acc : exists Lnew, callback_state st' = callback_state st ++ Lnew /\
                        forall x, In x Lnew -> white st x;
  gr_frame : forall x, disc st x -> vertices st' !! x = vertices st !! x;
  gr_new : forall x, disc st' x -> disc st x \/ black st' x;
  gr_time : time st <= time st';
  gr_late : forall x, white st x -> disc st' x -> time st < dtime st' x;
  gr_count : undiscovered (vertices st') <= undiscovered (vertices st)
}.

Lemma grows_dtime st st' x : grows st st' -> disc st x -> dtime st' x = dtime st x.
Proof. intros G H. unfold dtime. now rewrite (gr_frame _ _ G x H). Qed.

Lemma grows_ftime st st' x : grows st st' -> disc st x -> ftime st' x = ftime st x.
Proof. intros G H. unfold ftime. now rewrite (gr_frame _ _ G x H). Qed.

Lemma grows_disc st st' x : grows st st' -> disc st x -> disc st' x.
Proof.
  intros G H. apply disc_dtime. rewrite (grows_dtime _ _ _ G H).
  now apply disc_dtime.
Qed.

Lemma grows_black st st' x : grows st st' -> black st x -> black st' x.
Proof.
  intros G H. destruct (gr_acc _ _ G) as (L & HL & _).
  unfold black. rewrite HL. apply in_or_app. now left.
Qed.

Lemma grows_white st st' x : grows st st' -> white st' x -> white st x.
Proof.
  intros G H. apply white_dtime in H as [Hx Hd].
  rewrite (gr_len _ _ G) in Hx.
  destruct (white_or_disc st x Hx) as [?|Hdisc]; [assumption|].
  apply (grows_disc _ _ _ G) in Hdisc. apply disc_dtime in Hdisc. lia.
Qed.

Lemma grows_gray st st' x : grows st st' -> (gray st x <-> gray st' x).
Proof.
  intros G. split.
  - intros [Hd Hb]. split; [now apply (grows_disc _ _ _ G)|].
    intros Hb'. destruct (gr_acc _ _ G) as (L & HL & W).
    unfold black in Hb'. rewrite HL in Hb'.
    apply in_app_or in Hb' as [H|H]; [auto|].
    eapply white_not_disc; eauto.
  - intros [Hd Hb]. destruct (gr_new _ _ G x Hd) as [H|H]; [|contradiction].
    split; [exact H|]. intros Hb'. apply Hb. eapply grows_black; eauto.
Qed.

Lemma grows_refl st : grows st st.
Proof.
  constructor; auto.
  - exists []. rewrite app_nil_r. split; [reflexivity|]. intros x [].
  - intros x Hw Hd. exfalso. eapply white_not_disc; eauto.
Qed.

Lemma grows_trans st1 st2 st3 : grows st1 st2 -> grows st2 st3 -> grows st1 st3.
Proof.
  intros G1 G2. constructor.
  - rewrite (gr_len _ _ G2). apply G1.
  - destruct (gr_acc _ _ G1) as (L1 & H1 & W1).
    destruct (gr_acc _ _ G2) as (L2 & H2 & W2).
    exists (L1 ++ L2). rewrite H2, H1, app_assoc. split; [reflexivity|].
    intros x Hx. apply in_app_or in Hx as [Hx|Hx]; [auto|].
    eapply grows_white; eauto.
  - intros x Hx. rewrite (gr_frame _ _ G2), (gr_frame _ _ G1); auto.
    eapply grows_disc; eauto.
  - intros x Hx. destruct (gr_new _ _ G2 x Hx) as [H|H]; [|now right].
    destruct (gr_new _ _ G1 x H) as [H'|H']; [now left|right].
    eapply grows_black; eauto.
  - pose proof (gr_time _ _ G1). pose proof (gr_time _ _ G2). lia.
  - intros x Hw Hd.
    assert (Hx : x < length (vertices st2)).
    { rewrite (gr_len _ _ G1). now apply white_dtime in Hw. }
    destruct (white_or_disc st2 x Hx) as [Hw2|Hd2].
    + pose proof (gr_late _ _ G2 x Hw2 Hd). pose proof (gr_time _ _ G1). lia.
    + rewrite (grows_dtime _ _ _ G2 Hd2). apply (gr_late _ _ G1 x Hw Hd2).
  - pose proof (gr_count _ _ G1). pose proof (gr_count _ _ G2). lia.
Qed.

Definition times_visit_ok (depth : nat) : Prop :=
  forall u st,
    dfs_times st -> white st u -> undiscovered (vertices st) <= depth ->
    exists st', dfs_visit depth adj onFinish u st = Some st' /\
      dfs_times st' /\ grows st st' /\ black st' u /\
      forall x, white st x -> disc st' x -> walk adj u x.

Lemma times_loop_ok depth' u :
  times_visit_ok depth' ->
  forall vsl st,
    dfs_times st -> gray st u ->
    (forall v, In v vsl -> arc adj u v) ->
    undiscovered (vertices st) <= depth' ->
    exists st', foldM (visit_body adj depth' u) st vsl = Some st' /\
      dfs_times st' /\ grows st st' /\
      (forall v, In v vsl -> disc st' v) /\
      forall x, white st x -> disc st' x -> walk adj u x.
Proof.
  intros Hvisit. induction vsl as [|v vsl IH]; intros st T Hg Harc Hc.
  - exists st. split; [reflexivity|]. split; [exact T|].
    split; [apply grows_refl|]. split; [intros v []|].
    intros x Hw Hd. exfalso. eapply white_not_disc; eauto.
  - assert (Huv : arc adj u v) by (apply Harc; now left).
    assert (Hv : v < length (vertices st)).
    { rewrite (dt_len _ T). apply (Hrange u v Huv). }
    destruct (lookup_lt_is_Some_2 _ _ Hv) as [vv Hvv].
    cbn [foldM]. unfold visit_body at 1. rewrite Hvv.
    destruct (Nat.eqb_spec (d vv) 0) as [Hd|Hd].
    + pose proof (times_set_pred st v vv u T Hvv Hd Huv (proj1 Hg)) as HP.
      cbv zeta in HP.
      set (stp := mkDfs (<[v := mkVertexData (d vv) (f vv) (Some u)]>
                           (vertices st)) (time st) (callback_state st)) in *.
      destruct HP as (Tp & HDp & HFp & HUp).
      assert (Lp : length (vertices stp) = length (vertices st)).
      { unfold stp. simpl. apply length_insert. }
      assert (Gp : grows st stp).
      { constructor.
        - exact Lp.
        - exists []. unfold stp. simpl. rewrite app_nil_r.
          split; [reflexivity|]. intros x [].
        - intros x Hx. unfold stp. simpl. rewrite lookup_update by exact Hv.
          destruct (decide (x = v)) as [->|]; [|reflexivity].
          apply disc_dtime in Hx. unfold dtime in Hx. rewrite Hvv in Hx. lia.
        - intros x Hx. left. apply disc_dtime. rewrite <- HDp.
          now apply disc_dtime.
        - unfold stp. simpl. lia.
        - intros x Hw Hx. apply disc_dtime in Hx. rewrite HDp in Hx.
          apply white_dtime in Hw. lia.
        - lia. }
      assert (Wp : white stp v).
      { apply white_dtime. split; [lia|]. rewrite HDp. unfold dtime.
        now rewrite Hvv. }
      destruct (Hvisit v stp Tp Wp) as (st1 & H1 & T1 & G1 & B1 & R1); [lia|].
      rewrite H1.
      pose proof (grows_trans _ _ _ Gp G1) as G01.
      destruct (IH st1 T1) as (st2 & H2 & T2 & G2 & D2 & R2).
      { now apply (grows_gray _ _ u G01). }
      { intros x Hx. apply Harc. now right. }
      { pose proof (gr_count _ _ G01). lia. }
      exists st2. split; [exact H2|]. split; [exact T2|].
      split; [eapply grows_trans; eauto|]. split.
      * intros x [<-|Hx]; [|now apply D2].
        apply (grows_disc _ _ _ G2). now apply (black_disc_times st1).
      * intros x Hw Hx2.
        assert (Hxl : x < length (vertices st1)).
        { rewrite (gr_len _ _ G01). now apply white_dtime in Hw. }
        destruct (white_or_disc st1 x Hxl) as [Hw1|Hd1].
        -- now apply R2.
        -- eapply walk_cons; [exact Huv|]. apply R1; [|exact Hd1].
           apply white_dtime. apply white_dtime in Hw as [Hw1 Hw2].
           split; [lia|]. now rewrite HDp.
    + destruct (IH st T Hg) as (st2 & H2 & T2 & G2 & D2 & R2); auto.
      { intros x Hx. apply Harc. now right. }
      exists st2. split; [exact H2|]. split; [exact T2|].
      split; [exact G2|]. split; [|exact R2].
      intros x [<-|Hx]; [|now apply D2].
      apply (grows_disc _ _ _ G2). exists vv. auto.
Qed.

Lemma times_visit_all depth : times_visit_ok depth.
Proof.
  induction depth as [|depth' IH]; intros u st T Hw Hc.
  - apply white_undiscovered in Hw. lia.
  - destruct Hw as (vu & Hvu & Hd0).
    assert (Hw : white st u) by (exists vu; auto).
    rewrite dfs_visit_unfold, Hvu. cbv zeta.
    pose proof (times_set_d st u vu T Hvu Hd0) as H1. cbv zeta in H1.
    set (st1 := mkDfs (<[u := mkVertexData (time st + 1) (f vu) (pred vu)]>
                         (vertices st)) (time st + 1) (callback_state st)) in *.
    destruct H1 as (T1 & HD1 & HF1 & HU1).
    assert (Hul : u < length adj).
    { pose proof (dt_len _ T) as Hn. unfold n in Hn.
      pose proof (lookup_lt_Some _ _ _ Hvu). lia. }
    assert (Hlt : u < length (vertices st)) by (eapply lookup_lt_Some; eauto).
    destruct (lookup_lt_is_Some_2 adj u Hul) as [uList HuList].
    rewrite HuList.
    assert (Hnb : ~ black st u).
    { intros Hb. destruct (dt_black _ T u Hb) as (t & _ & H & _).
      unfold dtime in H. rewrite Hvu in H. lia. }
    assert (Hg1 : gray st1 u).
    { split; [|exact Hnb]. apply disc_dtime. rewrite HD1.
      destruct (decide (u = u)); [lia|congruence]. }
    assert (Hsame1 : forall x, x <> u -> vertices st1 !! x = vertices st !! x).
    { intros x Hx. unfold st1. simpl. rewrite lookup_update by exact Hlt.
      destruct (decide (x = u)); [contradiction|reflexivity]. }
    destruct (times_loop_ok depth' u IH (iter uList) st1 T1 Hg1)
      as (st2 & H2 & T2 & G2 & D2 & R2).
    { intros v Hv. exists uList. auto. }
    { lia. }
    rewrite H2.
    assert (Hg2 : gray st2 u) by now apply (grows_gray _ _ u G2).
    assert (Hu2 : vertices st2 !! u
                  = Some (mkVertexData (time st + 1) (f vu) (pred vu))).
    { rewrite (gr_frame _ _ G2 u (proj1 Hg1)). unfold st1. simpl.
      now rewrite list_lookup_insert_eq. }
    rewrite Hu2. cbn [d pred].
    assert (Hdu2 : dtime st2 u = time st + 1).
    { unfold dtime. now rewrite Hu2. }
    pose proof (times_set_f st2 u _ T2 Hu2 Hg2) as H3. cbv zeta in H3.
    cbn [d pred] in H3.
    set (st3 := mkDfs (<[u := mkVertexData (time st + 1) (Some (time st2 + 1))
                                            (pred vu)]> (vertices st2))
                      (time st2 + 1) (callback_state st2 ++ [u])) in *.
    assert (Hold : forall x, disc st x -> x <> u /\ disc st1 x /\
                     dtime st2 x = dtime st x /\ dtime st x <= time st).
    { intros x Hx.
      assert (Hxu : x <> u).
      { intros ->. eapply white_not_disc; eauto. }
      assert (Hx1 : disc st1 x).
      { apply disc_dtime. rewrite HD1. destruct (decide (x = u)); [lia|].
        now apply disc_dtime. }
      split; [exact Hxu|]. split; [exact Hx1|]. split.
      - rewrite (grows_dtime _ _ _ G2 Hx1), HD1.
        destruct (decide (x = u)); [contradiction|reflexivity].
      - apply (dt_d_le _ T). }
    assert (Hwhite1 : forall x, x <> u -> white st x -> white st1 x).
    { intros x Hxu (vx & Hvx & Hdx). exists vx.
      rewrite (Hsame1 x Hxu). auto. }
    destruct H3 as (T3 & HD3 & HF3 & HU3).
    { intros v Hv. apply D2. destruct Hv as (l & Hl & Hin).
      rewrite HuList in Hl. injection Hl as <-. exact Hin. }
    { intros g Hg Hgu. rewrite Hdu2.
      apply (grows_gray _ _ g G2) in Hg. destruct Hg as [Hgd Hgb].
      assert (Hg0 : disc st g).
      { apply disc_dtime. apply disc_dtime in Hgd. rewrite HD1 in Hgd.
        destruct (decide (g = u)); [contradiction|exact Hgd]. }
      destruct (Hold g Hg0) as (_ & _ & E & Hle). rewrite E. lia. }
    { intros y ty Hy Hdy. rewrite Hdu2 in Hdy.
      pose proof (ftime_black st2 y ty T2 Hy) as Hb.
      assert (Hyu : y <> u) by (intros ->; apply (proj2 Hg2); exact Hb).
      assert (Hyl : y < length (vertices st)).
      { pose proof (black_disc_times st2 y T2 Hb) as (vy & Hvy & _).
        apply lookup_lt_Some in Hvy. rewrite (gr_len _ _ G2) in Hvy.
        unfold st1 in Hvy. simpl in Hvy. now rewrite length_insert in Hvy. }
      destruct (white_or_disc st y Hyl) as [Hwy|Hdy0].
      - apply R2; [now apply Hwhite1|]. now apply (black_disc_times st2).
      - destruct (Hold y Hdy0) as (_ & _ & E & Hle). lia. }
    exists st3. split; [reflexivity|]. split; [exact T3|].
    assert (Hb3 : black st3 u).
    { unfold black, st3. simpl. apply in_or_app. right. now left. }
    split; [|split; [exact Hb3|]].
    + constructor.
      * unfold st3. simpl. rewrite length_insert, (gr_len _ _ G2).
        unfold st1. simpl. now rewrite length_insert.
      * destruct (gr_acc _ _ G2) as (L & HL & WL).
        exists (L ++ [u]). unfold st3. simpl. rewrite HL.
        change (callback_state st1) with (callback_state st).
        rewrite app_assoc. split; [reflexivity|].
        intros x Hx. apply in_app_or in Hx as [Hx|[<-|[]]]; [|exact Hw].
        destruct (WL x Hx) as (vx & Hvx & Hdx).
        assert (Hxu : x <> u).
        { intros ->. apply (white_not_disc st1 u); [exists vx; auto|apply Hg1]. }
        exists vx. rewrite <- (Hsame1 x Hxu). auto.
      * intros x Hx. destruct (Hold x Hx) as (Hxu & Hx1 & _).
        unfold st3. simpl.
        rewrite list_lookup_insert_ne by auto.
        rewrite (gr_frame _ _ G2 x Hx1). now apply Hsame1.
      * intros x Hx. destruct (decide (x = u)) as [->|Hxu]; [now right|].
        assert (Hx2 : disc st2 x).
        { apply disc_dtime. rewrite <- HD3. now apply disc_dtime. }
        destruct (gr_new _ _ G2 x Hx2) as [H|H].
        -- left. apply disc_dtime. apply disc_dtime in H. rewrite HD1 in H.
           destruct (decide (x = u)); [contradiction|exact H].
        -- right. unfold black, st3. simpl. apply in_or_app. now left.
      * unfold st3. simpl. pose proof (gr_time _ _ G2).
        change (time st1) with (time st + 1) in *. lia.
      * intros x Hwx Hx. rewrite HD3.
        destruct (decide (x = u)) as [->|Hxu]; [lia|].
        assert (Hx2 : disc st2 x).
        { apply disc_dtime. rewrite <- HD3. now apply disc_dtime. }
        pose proof (gr_late _ _ G2 x (Hwhite1 x Hxu Hwx) Hx2) as Hl.
        change (time st1) with (time st + 1) in Hl. lia.
      * rewrite HU3. pose proof (gr_count _ _ G2). lia.
    + intros x Hwx Hx. destruct (decide (x = u)) as [->|Hxu]; [apply walk_nil|].
      apply R2; [now apply Hwhite1|].
      apply disc_dtime. rewrite <- HD3. now apply disc_dtime.
Qed.

Variable limit : nat.
Hypothesis Hlimit : length adj <= limit.

Lemma times_outer_loop us : forall st,
  dfs_times st -> (forall g, ~ gray st g) ->
  (forall u, In u us -> u < length adj) ->
  exists st',
    foldM (fun st u =>
             let* vu := vertices st !! u in
             if d vu =? 0 then dfs_visit limit adj onFinish u st
             else Some st) st us = Some st' /\
    dfs_times st' /\ grows st st' /\ (forall g, ~ gray st' g) /\
    forall u, In u us -> black st' u.
Proof.
  induction us as [|u us IH]; intros st T Hg Hus.
  - exists st. split; [reflexivity|]. split; [exact T|].
    split; [apply grows_refl|]. split; [exact Hg|]. intros u [].
  - assert (Hu : u < length (vertices st)).
    { rewrite (dt_len _ T). apply Hus. now left. }
    destruct (lookup_lt_is_Some_2 _ _ Hu) as [vu Hvu].
    simpl. rewrite Hvu.
    assert (Hnext : forall st1, dfs_times st1 -> grows st st1 ->
              black st1 u ->
              exists st',
                foldM (fun st u =>
                         let* vu := vertices st !! u in
                         if d vu =? 0
                         then dfs_visit limit adj onFinish u st
                         else Some st) st1 us = Some st' /\
                dfs_times st' /\ grows st st' /\ (forall g, ~ gray st' g) /\
                forall u', In u' (u :: us) -> black st' u').
    { intros st1 T1 G1 B1.
      destruct (IH st1 T1) as (st' & H' & T' & G' & Hg' & B').
      - intros g Hg1. apply (Hg g). now apply (grows_gray _ _ g G1).
      - intros u' Hu'. apply Hus. now right.
      - exists st'. split; [exact H'|]. split; [exact T'|].
        split; [eapply grows_trans; eauto|]. split; [exact Hg'|].
        intros u' [<-|Hu']; [|auto]. eapply grows_black; eauto. }
    destruct (Nat.eqb_spec (d vu) 0) as [Hd|Hd].
    + destruct (times_visit_all limit u st T)
        as (st1 & -> & T1 & G1 & B1 & _).
      * exists vu. auto.
      * pose proof (dt_len _ T) as Hn. unfold n in Hn.
        pose proof (undiscovered_le (vertices st)). lia.
      * apply Hnext; auto.
    + apply Hnext; [exact T|apply grows_refl|].
      destruct (classic_black st u) as [?|Hnb]; [assumption|].
      exfalso. apply (Hg u). split; [exists vu; auto|exact Hnb].
Qed.

Lemma times_initial :
  dfs_times (mkDfs (replicate (length adj) (mkVertexData 0 None None)) 0 []) /\
  forall g,
    ~ gray (mkDfs (replicate (length adj) (mkVertexData 0 None None)) 0 []) g.
Proof.
  set (st0 := mkDfs (replicate (length adj) (mkVertexData 0 None None)) 0 []).
  assert (D0 : forall x, dtime st0 x = 0).
  { intros x. unfold dtime, st0. simpl.
    destruct (replicate _ _ !! x) eqn:E; [|reflexivity].
    apply lookup_replicate in E as [-> _]. reflexivity. }
  assert (F0 : forall x, ftime st0 x = None).
  { intros x. unfold ftime, st0. simpl.
    destruct (replicate _ _ !! x) eqn:E; [|reflexivity].
    apply lookup_replicate in E as [-> _]. reflexivity. }
  split.
  - constructor.
    + unfold st0. simpl. apply length_replicate.
    + constructor.
    + intros x. rewrite D0. lia.
    + intros x [].
    + intros x _. apply F0.
    + intros x y t _ H. rewrite F0 in H. discriminate.
    + intros x y tx ty _ H. rewrite F0 in H. discriminate.
    + intros g x t _ H. rewrite F0 in H. discriminate.
    + intros x y tx ty H. rewrite F0 in H. discriminate.
    + intros x y _ H. rewrite D0 in H. congruence.
    + intros l1 x l2 y tx ty H. now destruct l1.
    + unfold st0. simpl. unfold undiscovered.
      assert (E : forall k, List.filter (fun vd => d vd =? 0)
                     (replicate k (mkVertexData 0 None None))
                   = replicate k (mkVertexData 0 None None)).
      { induction k as [|k IHk]; simpl; [reflexivity|now rewrite IHk]. }
      rewrite E, length_replicate. unfold n. lia.
    + intros x vd p H Hp. unfold st0 in H. simpl in H.
      apply lookup_replicate in H as [-> _]. discriminate.
  - intros g [Hd _]. apply disc_dtime in Hd. now rewrite D0 in Hd.
Qed.

Lemma undiscovered_none vs :
  (forall x vd, vs !! x = Some vd -> d vd <> 0) -> undiscovered vs = 0.
Proof.
  unfold undiscovered. induction vs as [|a vs IH]; intros H; [reflexivity|].
  simpl. pose proof (H 0 a eq_refl) as Ha.
  destruct (Nat.eqb_spec (d a) 0); [contradiction|].
  apply IH. intros x vd Hx. apply (H (S x) vd Hx).
Qed.

(** [dfs] returns on every graph that has no more vertices than the
    recursion limit allows nested calls; the final state keeps the time
    invariants, has no vertex left unfinished and the clock at [2n]. *)
Lemma dfs_times_spec :
  exists st, dfs limit adj onFinish [] = Some st /\ dfs_times st /\
    (forall x, x < length adj -> black st x) /\
    Permutation (callback_state st) (seq 0 (length adj)) /\
    time st = 2 * length adj.
Proof.
  destruct times_initial as [T0 G0].
  destruct (times_outer_loop (seq 0 (length adj)) _ T0 G0)
    as (st & H & T & G & Hg & B).
  { intros u Hu. apply in_seq in Hu. lia. }
  assert (Hall : forall x, x < length adj -> black st x).
  { intros x Hx. apply B. apply in_seq. lia. }
  assert (P : Permutation (callback_state st) (seq 0 (length adj))).
  { apply NoDup_Permutation.
    - apply NoDup_ListNoDup, T.
    - apply NoDup_seq.
    - intros x. rewrite !list_elem_of_In. split.
      + intros Hx. destruct (black_disc_times st x T Hx) as (vx & H1 & _).
        apply in_seq. apply lookup_lt_Some in H1.
        pose proof (dt_len _ T) as Hn. unfold n in Hn. lia.
      + intros Hx. apply Hall. apply in_seq in Hx. lia. }
  exists st. split; [exact H|]. split; [exact T|]. split; [exact Hall|].
  split; [exact P|].
  pose proof (dt_time _ T) as Ht.
  rewrite undiscovered_none in Ht.
  - apply Permutation_length in P. rewrite length_seq in P.
    unfold n in Ht. lia.
  - intros x vd Hx Hd.
    assert (Hxl : x < length adj).
    { apply lookup_lt_Some in Hx. pose proof (dt_len _ T) as Hn.
      unfold n in Hn. lia. }
    destruct (black_disc_times st x T (Hall x Hxl)) as (vx & H1 & H2).
    congruence.
Qed.

End DepthFirstAny.

(** The records and the clock of [dfs] do not depend on the callback, and
    the callback's own state is the fold of [onFinish] over the vertices in
    the order in which they finish. *)
Section Callback.
Import Graph.
Context {S : Type}.
Variable adj : list (_AdjacencyList nat).
Variable onFinish : nat -> S -> S.
Variable s0 : S.
Variable limit : nat.

Definition replay (l : list nat) : S := fold_left (fun s u => onFinish u s) l s0.

Definition with_callback (st : dfs_state (list nat)) : dfs_state S :=
  mkDfs (vertices st) (time st) (replay (callback_state st)).

Lemma dfs_visit_callback depth : forall u st,
  dfs_visit depth adj onFinish u (with_callback st)
  = option_map with_callback
      (dfs_visit depth adj (fun u topSort => topSort ++ [u]) u st).
Proof.
  induction depth as [|depth' IH]; intros u st; [reflexivity|].
  cbn [dfs_visit]. cbv zeta.
  change (vertices (with_callback st)) with (vertices st).
  change (time (with_callback st)) with (time st).
  destruct (vertices st !! u) as [vu|]; [|reflexivity]. cbn [mbind option_bind].
  destruct (adj !! u) as [uList|]; [|reflexivity]. cbn [mbind option_bind].
  change (mkDfs (<[u:=mkVertexData (time st + 1) (f vu) (pred vu)]> (vertices st))
            (time st + 1) (callback_state (with_callback st)))
    with (with_callback
            (mkDfs (<[u:=mkVertexData (time st + 1) (f vu) (pred vu)]> (vertices st))
               (time st + 1) (callback_state st))).
  generalize (mkDfs (<[u:=mkVertexData (time st + 1) (f vu) (pred vu)]>
                       (vertices st)) (time st + 1) (callback_state st)).
  intros st1.
  assert (L : forall vsl st1,
    foldM (fun st v =>
             let* vv := vertices st !! v in
             if d vv =? 0 then
               dfs_visit depth' adj onFinish v
                 (mkDfs (<[v := mkVertexData (d vv) (f vv) (Some u)]>
                           (vertices st)) (time st) (callback_state st))
             else Some st) (with_callback st1) vsl
    = option_map with_callback
        (foldM (fun st v =>
             let* vv := vertices st !! v in
             if d vv =? 0 then
               dfs_visit depth' adj (fun u topSort => topSort ++ [u]) v
                 (mkDfs (<[v := mkVertexData (d vv) (f vv) (Some u)]>
                           (vertices st)) (time st) (callback_state st))
             else Some st) st1 vsl)).
  { induction vsl as [|v vsl IHl]; intros st'; [reflexivity|].
    cbn [foldM].
    change (vertices (with_callback st')) with (vertices st').
    destruct (vertices st' !! v) as [vv|]; [|reflexivity].
    cbn [mbind option_bind].
    destruct (d vv =? 0).
    - change (mkDfs (<[v:=mkVertexData (d vv) (f vv) (Some u)]> (vertices st'))
                (time (with_callback st')) (callback_state (with_callback st')))
        with (with_callback
                (mkDfs (<[v:=mkVertexData (d vv) (f vv) (Some u)]> (vertices st'))
                   (time st') (callback_state st'))).
      rewrite IH.
      destruct (dfs_visit depth' adj _ v _) as [st''|]; [|reflexivity].
      cbn [option_map mbind option_bind]. apply IHl.
    - cbn [mbind option_bind]. apply IHl. }
  rewrite L.
  destruct (foldM _ st1 (iter uList)) as [st2|]; [|reflexivity].
  cbn [option_map mbind option_bind].
  change (vertices (with_callback st2)) with (vertices st2).
  destruct (vertices st2 !! u) as [vu2|]; [|reflexivity].
  cbn [option_map mbind option_bind]. f_equal.
  unfold with_callback. cbn [vertices time callback_state]. f_equal.
  unfold replay. now rewrite fold_left_app.
Qed.

Lemma dfs_callback :
  dfs limit adj onFinish s0
  = option_map with_callback
      (dfs limit adj (fun u topSort => topSort ++ [u]) []).
Proof.
  unfold dfs.
  change (mkDfs (replicate (length adj) (mkVertexData 0 None None)) 0 s0)
    with (with_callback
            (mkDfs (replicate (length adj) (mkVertexData 0 None None)) 0 [])).
  generalize (mkDfs (S := list nat)
                (replicate (length adj) (mkVertexData 0 None None)) 0 []).
  generalize (seq 0 (length adj)).
  induction l as [|u us IH]; intros st; [reflexivity|].
  cbn [foldM].
  change (vertices (with_callback st)) with (vertices st).
  destruct (vertices st !! u) as [vu|]; [|reflexivity].
  cbn [mbind option_bind].
  destruct (d vu =? 0).
  - rewrite dfs_visit_callback.
    destruct (dfs_visit limit adj _ u st) as [st'|]; [|reflexivity].
    cbn [option_map mbind option_bind]. apply IH.
  - cbn [mbind option_bind]. apply IH.
Qed.

End Callback.
(** ** Depth-first search on any graph: the theorems *)

Lemma finish_order adj (st : Graph.dfs_state (list nat)) x y tx ty :
  dfs_times adj st -> black st x -> black st y ->
  ftime st x = Some tx -> ftime st y = Some ty -> ty < tx ->
  before y x (Graph.callback_state st).
Proof.
  intros T Bx By Hx Hy Hlt.
  unfold black in Bx. apply in_split in Bx as (l1 & l2 & E).
  unfold black in By. rewrite E in By.
  apply in_app_or in By as [By|[->|By]].
  - rewrite E. apply in_split in By as (a & b & ->).
    exists a, b, l2. now assoc_right.
  - rewrite Hx in Hy. injection Hy as <-. lia.
  - apply in_split in By as (a & b & ->).
    pose proof (dt_sorted adj st T (l1 ++ x :: a) y b x ty tx) as H.
    rewrite E in H. rewrite <- app_assoc in H.
    specialize (H eq_refl). 
    assert (Hin : In x (l1 ++ x :: a)) by (apply in_or_app; right; now left).
    specialize (H Hin Hy Hx). lia.
Qed.



(** X18.  [topologicalSort()] never reports a cycle: on every digraph
    whose stored targets are vertices, with or without directed cycles, it
    returns when the recursion limit allows [dfs_visit] as many nested
    calls as the digraph has vertices.  The result is a permutation of the
    vertices, and an arc whose source does not come before its target lies
    on a directed cycle (its source is reachable from its target). *)
Theorem topologicalSort_any_digraph (limit : nat) (g : Digraph.t) :
  targets_in_range (_adj g) -> Digraph.numVertices g <= limit ->
  exists order,
    Digraph.topologicalSort limit g = Some order /\
    Permutation order (seq 0 (Digraph.numVertices g)) /\
    forall u v, arc (_adj g) u v -> u <> v ->
      before u v order \/ walk (_adj g) v u.
Proof.
  intros Hr Hlimit.
  destruct (dfs_times_spec (_adj g) Hr limit Hlimit)
    as (st & H & T & B & P & Ht).
  exists (rev (Graph.callback_state st)).
  unfold Digraph.topologicalSort. rewrite H.
  split; [reflexivity|]. split.
  { rewrite <- P. symmetry. apply Permutation_rev. }
  intros u v Huv Hne.
  assert (Hu : u < length (_adj g)).
  { destruct Huv as (l & Hl & _). eapply lookup_lt_Some; eauto. }
  pose proof (Hr u v Huv) as Hv.
  destruct (dt_black _ st T u (B u Hu)) as (tu & Hfu & _ & Hu1 & _).
  destruct (dt_black _ st T v (B v Hv)) as (tv & Hfv & _ & Hv1 & _).
  destruct (dt_arcs _ st T u v tu Huv Hfu) as [_ Hlt].
  destruct (Nat.lt_ge_cases tv tu) as [Hc|Hc].
  - left. apply before_rev.
    apply (finish_order (_adj g) st u v tu tv T (B u Hu) (B v Hv) Hfu Hfv Hc).
  - right. apply (dt_desc _ st T v u tv tu Hfv Hfu); [|exact Hc].
    destruct (dt_nest _ st T u v tu tv Hne Hfu Hfv) as [?|[?|[?|?]]]; lia.
Qed.

Lemma topologicalSort_any_digraph_witness :
  exists order,
    Digraph.topologicalSort 1000
      (mkDigraph [mkAdj [1] 1; mkAdj [0; 2] 2; mkAdj [] 0] (Some [1; 1; 1]))
    = Some order /\
    Permutation order (seq 0 3) /\
    forall u v,
      arc [mkAdj [1] 1; mkAdj [0; 2] 2; mkAdj [] 0] u v -> u <> v ->
      before u v order \/ walk [mkAdj [1] 1; mkAdj [0; 2] 2; mkAdj [] 0] v u.
Proof.
  apply (topologicalSort_any_digraph 1000
           (mkDigraph [mkAdj [1] 1; mkAdj [0; 2] 2; mkAdj [] 0]
                      (Some [1; 1; 1]))).
  - intros u v (l & Hl & Hv).
    destruct u as [|[|[|u]]]; simpl in Hl; try discriminate;
      injection Hl as <-; simpl in Hv; simpl; intuition lia.
  - unfold Digraph.numVertices. simpl. lia.
Defined.
(** ** Strongly connected components *)

Lemma walk_trans adj x y z : walk adj x y -> walk adj y z -> walk adj x z.
Proof.
  induction 1 as [x | x y' y Hxy _ IH]; intros Hz; [exact Hz|].
  eapply walk_cons; [exact Hxy | auto].
Qed.

Lemma walk_reverse adj adjT :
  (forall u v, arc adjT u v <-> arc adj v u) ->
  forall x y, walk adj x y -> walk adjT y x.
Proof.
  intros HT x y W. induction W as [x | x y z Hxy _ IH]; [apply walk_nil|].
  eapply walk_snoc; [exact IH|]. now apply HT.
Qed.

Lemma walk_in_range adj x y :
  targets_in_range adj -> walk adj x y -> x < length adj -> y < length adj.
Proof.
  intros Hr W. induction W as [x | x y z Hxy _ IH]; [auto|].
  intros _. apply IH. apply (Hr x y Hxy).
Qed.

(** [transpose()] on a digraph whose targets are vertices. *)
Lemma transpose_arcs (g : Digraph.t) :
  targets_in_range (_adj g) ->
  exists T, Digraph.transpose g = Some T /\
    length (_adj T) = length (_adj g) /\
    forall u v, arc (_adj T) u v <-> arc (_adj g) v u.
Proof.
  intros Hr. rewrite Digraph_transpose_init.
  destruct (Digraph_init_built (Digraph.numVertices g)
              (map reverse_arc (Digraph.getEdgeList g))) as (T & HT & BT).
  { apply List.Forall_forall. intros e He.
    apply in_map_iff in He as ([u v] & <- & Huv).
    apply In_Digraph_getEdgeList in Huv. split; simpl.
    - apply (Hr u v Huv).
    - destruct Huv as (l & Hl & _). eapply lookup_lt_Some; eauto. }
  exists T. split; [exact HT|]. split; [apply (built_length _ _ _ BT)|].
  intros u v. unfold arc. rewrite <- !In_Digraph_getEdgeList. split; intros H.
  - apply (Permutation_in _ (built_edges _ _ _ BT)) in H.
    apply in_map_iff in H as ([a b] & [= <- <-] & Hab). exact Hab.
  - apply (Permutation_in _ (Permutation_sym (built_edges _ _ _ BT))).
    apply in_map_iff. exists (v, u). auto.
Qed.

Definition marked (discovered : list bool) (x : nat) : Prop :=
  discovered !! x = Some true.

Definition unmarked_count (discovered : list bool) : nat :=
  length (List.filter negb discovered).

Lemma marked_dec D x : marked D x \/ ~ marked D x.
Proof.
  unfold marked. destruct (D !! x) as [[|]|]; auto; right; discriminate.
Qed.

Lemma unmarked_insert D x :
  D !! x = Some false ->
  unmarked_count (<[x := true]> D) + 1 = unmarked_count D.
Proof.
  intros Hx. unfold unmarked_count.
  assert (Hlt : x < length D) by (eapply lookup_lt_Some; eauto).
  rewrite insert_take_drop by exact Hlt.
  rewrite <- (take_drop_middle D x false Hx) at 3.
  rewrite !List.filter_app, !length_app. simpl. lia.
Qed.

Lemma unmarked_le D : unmarked_count D <= length D.
Proof. unfold unmarked_count. apply List.filter_length_le. Qed.

Lemma marked_insert D u x :
  u < length D -> (marked (<[u := true]> D) x <-> x = u \/ marked D x).
Proof.
  intros Hu. unfold marked.
  destruct (decide (x = u)) as [->|Hne].
  - rewrite list_lookup_insert_eq by exact Hu. tauto.
  - rewrite list_lookup_insert_ne by auto. split; [auto|].
    intros [?|?]; [contradiction|assumption].
Qed.

Lemma In_component_add u c x :
  In x (Digraph.component_add u c) <-> In x c \/ x = u.
Proof.
  unfold Digraph.component_add.
  destruct (existsb (Nat.eqb u) c) eqn:E.
  - split; [auto|]. intros [?| ->]; [assumption|].
    apply existsb_exists in E as (y & Hy & Hyu).
    apply Nat.eqb_eq in Hyu. now subst.
  - rewrite in_app_iff. simpl. split.
    + intros [?|[<-|[]]]; auto.
    + intros [?| ->]; auto.
Qed.

Lemma NoDup_component_add u c :
  List.NoDup c -> List.NoDup (Digraph.component_add u c).
Proof.
  intros H. unfold Digraph.component_add.
  destruct (existsb (Nat.eqb u) c) eqn:E; [exact H|].
  apply NoDup_ListNoDup. apply NoDup_app. split; [now apply NoDup_ListNoDup|].
  split; [|apply NoDup_singleton].
  intros x Hx Hu. apply list_elem_of_In in Hx.
  apply list_elem_of_singleton in Hu. subst x.
  assert (existsb (Nat.eqb u) c = true); [|congruence].
  apply existsb_exists. exists u. split; [exact Hx|apply Nat.eqb_refl].
Qed.

Section SccVisit.
Variable T : Digraph.t.
Hypothesis HrT : targets_in_range (_adj T).

(** What the nested [dfs_visit(u, component)] of [scc] may change. *)
Record marks_more (u : nat) (D : list bool) (c : list nat)
  (D' : list bool) (c' : list nat) : Prop := {
  mm_len : length D' = length D;
  mm_mono : forall x, marked D x -> marked D' x;
  mm_reach : forall x, marked D' x -> marked D x \/ walk (_adj T) u x;
  mm_closed : forall x, marked D' x ->
    marked D x \/ forall y, arc (_adj T) x y -> marked D' y;
  mm_comp : forall x, In x c' <-> In x c \/ (marked D' x /\ ~ marked D x);
  mm_nodup : List.NoDup c -> List.NoDup c';
  mm_count : unmarked_count D' <= unmarked_count D
}.

Lemma marks_more_refl u D c : marks_more u D c D c.
Proof.
  constructor; auto. intros x. split; [auto|]. intros [?|[? ?]]; tauto.
Qed.

Lemma marks_more_trans u D c D1 c1 D2 c2 :
  marks_more u D c D1 c1 -> marks_more u D1 c1 D2 c2 ->
  marks_more u D c D2 c2.
Proof.
  intros A B. constructor.
  - rewrite (mm_len _ _ _ _ _ B). apply A.
  - intros x Hx. apply (mm_mono _ _ _ _ _ B), (mm_mono _ _ _ _ _ A), Hx.
  - intros x Hx. destruct (mm_reach _ _ _ _ _ B x Hx) as [H|H]; [|now right].
    apply (mm_reach _ _ _ _ _ A x H).
  - intros x Hx. destruct (mm_closed _ _ _ _ _ B x Hx) as [H|H]; [|now right].
    destruct (mm_closed _ _ _ _ _ A x H) as [H'|H']; [now left|right].
    intros y Hy. apply (mm_mono _ _ _ _ _ B), H', Hy.
  - intros x. rewrite (mm_comp _ _ _ _ _ B x), (mm_comp _ _ _ _ _ A x).
    pose proof (mm_mono _ _ _ _ _ A x). pose proof (mm_mono _ _ _ _ _ B x).
    destruct (marked_dec D1 x); tauto.
  - intros H. apply (mm_nodup _ _ _ _ _ B), (mm_nodup _ _ _ _ _ A), H.
  - pose proof (mm_count _ _ _ _ _ A). pose proof (mm_count _ _ _ _ _ B). lia.
Qed.

Lemma marks_more_root u v D c D' c' :
  arc (_adj T) u v -> marks_more v D c D' c' -> marks_more u D c D' c'.
Proof.
  intros Huv A. constructor; try apply A.
  intros x Hx. destruct (mm_reach _ _ _ _ _ A x Hx) as [H|H]; [now left|].
  right. eapply walk_cons; eauto.
Qed.

Definition scc_body (depth' : nat) (st : list bool * list nat) (v : nat)
  : option (list bool * list nat) :=
  let* dv := fst st !! v in
  if negb dv then Digraph.scc_visit depth' T v st else Some st.

Lemma scc_visit_unfold depth' u D c :
  Digraph.scc_visit (S depth') T u (D, c) =
  let* _ := D !! u in
  let* uList := _adj T !! u in
  foldM (scc_body depth')
        (<[u := true]> D, Digraph.component_add u c) (iter uList).
Proof. reflexivity. Qed.

Definition scc_visit_ok (depth : nat) : Prop :=
  forall u D c,
    length D = length (_adj T) -> D !! u = Some false ->
    unmarked_count D <= depth ->
    exists D' c', Digraph.scc_visit depth T u (D, c) = Some (D', c') /\
      marks_more u D c D' c' /\ marked D' u.

Lemma scc_loop_ok depth' u :
  scc_visit_ok depth' ->
  forall vsl D c,
    length D = length (_adj T) ->
    (forall v, In v vsl -> arc (_adj T) u v) ->
    unmarked_count D <= depth' ->
    exists D' c', foldM (scc_body depth') (D, c) vsl = Some (D', c') /\
      marks_more u D c D' c' /\ forall v, In v vsl -> marked D' v.
Proof.
  intros Hvisit. induction vsl as [|v vsl IH]; intros D c HL Harc Hc.
  - exists D, c. split; [reflexivity|]. split; [apply marks_more_refl|].
    intros v [].
  - assert (Huv : arc (_adj T) u v) by (apply Harc; now left).
    assert (Hv : v < length D) by (rewrite HL; apply (HrT u v Huv)).
    destruct (lookup_lt_is_Some_2 _ _ Hv) as [dv Hdv].
    cbn [foldM]. unfold scc_body at 1. cbn [fst]. rewrite Hdv.
    destruct dv; cbn [negb].
    + destruct (IH D c HL) as (D' & c' & H' & M' & A'); auto.
      { intros x Hx. apply Harc. now right. }
      exists D', c'. split; [exact H'|]. split; [exact M'|].
      intros x [<-|Hx]; [|now apply A'].
      apply (mm_mono _ _ _ _ _ M'). exact Hdv.
    + destruct (Hvisit v D c HL Hdv Hc) as (D1 & c1 & H1 & M1 & B1).
      rewrite H1.
      destruct (IH D1 c1) as (D' & c' & H' & M' & A').
      { rewrite (mm_len _ _ _ _ _ M1). exact HL. }
      { intros x Hx. apply Harc. now right. }
      { pose proof (mm_count _ _ _ _ _ M1). lia. }
      exists D', c'. split; [exact H'|]. split.
      * eapply marks_more_trans; [|exact M'].
        eapply marks_more_root; eauto.
      * intros x [<-|Hx]; [|now apply A'].
        apply (mm_mono _ _ _ _ _ M'). exact B1.
Qed.

Lemma scc_visit_all depth : scc_visit_ok depth.
Proof.
  induction depth as [|depth' IH]; intros u D c HL Hu Hc.
  - pose proof (unmarked_insert D u Hu). lia.
  - rewrite scc_visit_unfold, Hu.
    assert (Hul : u < length D) by (eapply lookup_lt_Some; eauto).
    assert (HuT : u < length (_adj T)) by lia.
    destruct (lookup_lt_is_Some_2 _ _ HuT) as [uList HuList].
    rewrite HuList.
    pose proof (unmarked_insert D u Hu) as Hcount.
    destruct (scc_loop_ok depth' u IH (iter uList) (<[u := true]> D)
                (Digraph.component_add u c)) as (D' & c' & H' & M' & A').
    { now rewrite length_insert. }
    { intros v Hv. exists uList. auto. }
    { lia. }
    exists D', c'. split; [exact H'|].
    assert (Hu1 : marked (<[u := true]> D) u).
    { apply marked_insert; auto. }
    assert (HnD : ~ marked D u) by (unfold marked; congruence).
    split; [|apply (mm_mono _ _ _ _ _ M'), Hu1].
    constructor.
    + rewrite (mm_len _ _ _ _ _ M'). apply length_insert.
    + intros x Hx. apply (mm_mono _ _ _ _ _ M'). apply marked_insert; auto.
    + intros x Hx. destruct (mm_reach _ _ _ _ _ M' x Hx) as [H|H]; [|now right].
      apply marked_insert in H as [->|H]; [|now left|exact Hul].
      right. apply walk_nil.
    + intros x Hx. destruct (mm_closed _ _ _ _ _ M' x Hx) as [H|H]; [|now right].
      apply marked_insert in H as [->|H]; [|now left|exact Hul].
      right. intros y (l & Hl & Hy). rewrite HuList in Hl.
      injection Hl as <-. now apply A'.
    + intros x. rewrite (mm_comp _ _ _ _ _ M' x), In_component_add.
      rewrite (marked_insert D u x Hul).
      pose proof (mm_mono _ _ _ _ _ M' u Hu1) as Hu'.
      destruct (decide (x = u)) as [->|Hne]; tauto.
    + intros H. apply (mm_nodup _ _ _ _ _ M'). now apply NoDup_component_add.
    + pose proof (mm_count _ _ _ _ _ M'). lia.
Qed.

End SccVisit.

(** The body of the main loop of [scc]. *)
Definition scc_step (limit : nat) (T : Digraph.t)
  (st : list bool * list (list nat))
  (u : nat) : option (list bool * list (list nat)) :=
  let '(discovered, SCC) := st in
  let* du := discovered !! u in
  if negb du then
    let* (discovered1, component) :=
      Digraph.scc_visit limit T u (discovered, []) in
    Some (discovered1, SCC ++ [component])
  else Some (discovered, SCC).

Lemma scc_unfold (limit : nat) (g : Digraph.t) :
  Digraph.scc limit g =
  let* ordered := Digraph.topologicalSort limit g in
  let* T := Digraph.transpose g in
  let* (_, SCC) :=
    foldM (scc_step limit T)
          (replicate (Digraph.numVertices T) false, []) ordered in
  Some SCC.
Proof. reflexivity. Qed.

Section Kosaraju.
Import Graph.
Variable g : Digraph.t.
Hypothesis Hr : targets_in_range (_adj g).
Variable st : dfs_state (list nat).
Hypothesis Tst : dfs_times (_adj g) st.
Hypothesis Ball : forall x, x < length (_adj g) -> black st x.
Variable T : Digraph.t.
Hypothesis HLT : length (_adj T) = length (_adj g).
Hypothesis HT : forall u v, arc (_adj T) u v <-> arc (_adj g) v u.

Definition strongly (x y : nat) : Prop :=
  walk (_adj g) x y /\ walk (_adj g) y x.

Lemma strongly_sym x y : strongly x y -> strongly y x.
Proof. intros [? ?]. split; assumption. Qed.

Lemma strongly_trans x y z : strongly x y -> strongly y z -> strongly x z.
Proof. intros [? ?] [? ?]. split; eapply walk_trans; eauto. Qed.

Lemma transpose_targets_in_range : targets_in_range (_adj T).
Proof.
  intros u v Huv. apply HT in Huv. destruct Huv as (l & Hl & _).
  rewrite HLT. eapply lookup_lt_Some; eauto.
Qed.

(** A walk into [u] inside a set closed under arcs whose members finish no
    later than [u] stays inside the interval of [u]. *)
Lemma low_walk (U : nat -> Prop) :
  (forall x y, U x -> arc (_adj g) x y -> U y) ->
  forall z u, walk (_adj g) z u ->
  forall tu, ftime st u = Some tu ->
  (forall x, U x -> exists tx, ftime st x = Some tx /\ tx <= tu) ->
  U z -> dtime st u <= dtime st z.
Proof.
  intros Hcl z u W.
  induction W as [x | x y z Hxy W IH]; intros tu Hu Hlow Hx; [lia|].
  pose proof (IH tu Hu Hlow (Hcl x y Hx Hxy)) as Hzy.
  destruct (Hlow x Hx) as (tx & Hfx & Hle).
  destruct (dt_arcs _ st Tst x y tx Hxy Hfx) as [_ Hy].
  destruct (decide (x = z)) as [->|Hne]; [lia|].
  destruct (dt_black _ st Tst x (ftime_black _ st x tx Tst Hfx))
    as (tx' & Hfx' & _ & Hdx & _).
  rewrite Hfx in Hfx'. injection Hfx' as <-.
  destruct (dt_nest _ st Tst x z tx tu Hne Hfx Hu) as [?|[?|[?|?]]]; lia.
Qed.

Lemma low_strong (U : nat -> Prop) z u tu :
  (forall x y, U x -> arc (_adj g) x y -> U y) ->
  walk (_adj g) z u -> ftime st u = Some tu ->
  (forall x, U x -> exists tx, ftime st x = Some tx /\ tx <= tu) ->
  U z -> walk (_adj g) u z.
Proof.
  intros Hcl W Hu Hlow Hz.
  destruct (Hlow z Hz) as (tz & Hfz & Hle).
  apply (dt_desc _ st Tst u z tu tz Hu Hfz); [|exact Hle].
  eapply low_walk; eauto.
Qed.

Record scc_inv (pre : list nat) (D : list bool) (SCC : list (list nat))
  : Prop := {
  si_len : length D = length (_adj g);
  si_closed : forall x y, marked D x -> arc (_adj T) x y -> marked D y;
  si_pre : forall x, In x pre -> marked D x;
  si_cover : forall x, marked D x <-> In x (concat SCC);
  si_nodup : List.NoDup (concat SCC);
  si_comp : forall C, In C SCC ->
    C <> [] /\ forall x y, In x C -> (In y C <-> strongly x y);
  si_order : forall i j Ci Cj x y,
    SCC !! i = Some Ci -> SCC !! j = Some Cj -> In x Ci -> In y Cj ->
    arc (_adj g) x y -> i <= j
}.

Lemma scc_inv_saturated pre D SCC x y :
  scc_inv pre D SCC -> marked D x -> strongly x y -> marked D y.
Proof.
  intros I Hx Hxy. apply (si_cover _ _ _ I) in Hx.
  apply in_concat in Hx as (C & HC & HxC).
  apply (si_cover _ _ _ I). apply in_concat. exists C. split; [exact HC|].
  now apply (proj2 (si_comp _ _ _ I C HC) x y HxC).
Qed.

Lemma scc_inv_initial : scc_inv [] (replicate (length (_adj g)) false) [].
Proof.
  assert (M : forall x, ~ marked (replicate (length (_adj g)) false) x).
  { intros x H. unfold marked in H. apply lookup_replicate in H as [? _].
    discriminate. }
  constructor.
  - apply length_replicate.
  - intros x y H. destruct (M x H).
  - intros x [].
  - intros x. simpl. split; [intros H; destruct (M x H)|intros []].
  - constructor.
  - intros C [].
  - intros i j Ci Cj x y H. destruct i; discriminate.
Qed.

Lemma scc_inv_skip pre u D SCC :
  scc_inv pre D SCC -> marked D u -> scc_inv (pre ++ [u]) D SCC.
Proof.
  intros I Hu. constructor; try apply I.
  intros x Hx. apply in_app_or in Hx as [Hx|[<-|[]]]; [|exact Hu].
  now apply (si_pre _ _ _ I).
Qed.

Lemma scc_inv_visit pre u rest D SCC D' comp :
  rev (callback_state st) = pre ++ u :: rest ->
  scc_inv pre D SCC -> D !! u = Some false ->
  marks_more T u D [] D' comp -> marked D' u ->
  scc_inv (pre ++ [u]) D' (SCC ++ [comp]).
Proof.
  intros Hord I Hu M Hu'.
  assert (Hul : u < length (_adj g)).
  { rewrite <- (si_len _ _ _ I). eapply lookup_lt_Some; eauto. }
  assert (HnD : ~ marked D u) by (unfold marked; congruence).
  assert (Hcb : callback_state st = rev rest ++ u :: rev pre).
  { rewrite <- (rev_involutive (callback_state st)), Hord.
    rewrite rev_app_distr. simpl. now rewrite <- app_assoc. }
  destruct (dt_black _ st Tst u (Ball u Hul)) as (tu & Hfu & _).
  assert (Hnew : forall x, In x comp <-> marked D' x /\ ~ marked D x).
  { intros x. rewrite (mm_comp _ _ _ _ _ _ M x). simpl. tauto. }
  assert (Hclosed : forall x y, marked D' x -> arc (_adj T) x y -> marked D' y).
  { intros x y Hx Hxy. destruct (mm_closed _ _ _ _ _ _ M x Hx) as [H|H].
    - apply (mm_mono _ _ _ _ _ _ M). apply (si_closed _ _ _ I x y H Hxy).
    - now apply H. }
  assert (Hwalk : forall x y, walk (_adj T) x y -> marked D' x -> marked D' y).
  { intros x y W. induction W as [x | x y z Hxy _ IH]; [auto|].
    intros Hx. apply IH. eapply Hclosed; eauto. }
  set (U := fun x => D !! x = Some false).
  assert (HU : forall x, marked D' x -> ~ marked D x -> U x).
  { intros x Hx Hn. unfold U.
    assert (Hxl : x < length D).
    { rewrite <- (mm_len _ _ _ _ _ _ M). eapply lookup_lt_Some; eauto. }
    destruct (lookup_lt_is_Some_2 _ _ Hxl) as [[|] Hb]; [|exact Hb].
    destruct (Hn Hb). }
  assert (HUcl : forall x y, U x -> arc (_adj g) x y -> U y).
  { intros x y Hx Hxy. unfold U in *.
    assert (Hyl : y < length D).
    { rewrite (si_len _ _ _ I). apply (Hr x y Hxy). }
    destruct (lookup_lt_is_Some_2 _ _ Hyl) as [[|] Hb]; [|exact Hb].
    assert (Hm : marked D x).
    { apply (si_closed _ _ _ I y x Hb). now apply HT. }
    unfold marked in Hm. congruence. }
  assert (HUlow : forall x, U x ->
            exists tx, ftime st x = Some tx /\ tx <= tu).
  { intros x Hx. unfold U in Hx.
    assert (Hxl : x < length (_adj g)).
    { rewrite <- (si_len _ _ _ I). eapply lookup_lt_Some; eauto. }
    destruct (dt_black _ st Tst x (Ball x Hxl)) as (tx & Hfx & _).
    exists tx. split; [exact Hfx|].
    pose proof (Ball x Hxl) as Bx. unfold black in Bx. rewrite Hcb in Bx.
    apply in_app_or in Bx as [Bx|[<-|Bx]].
    - pose proof (dt_sorted _ st Tst (rev rest) u (rev pre) x tu tx
                    Hcb Bx Hfu Hfx). lia.
    - rewrite Hfu in Hfx. injection Hfx as <-. lia.
    - apply in_rev in Bx. apply (si_pre _ _ _ I) in Bx.
      unfold marked in Bx. congruence. }
  assert (Hclass : forall x, In x comp <-> strongly u x).
  { intros x. rewrite Hnew. split.
    - intros [Hx Hn].
      destruct (mm_reach _ _ _ _ _ _ M x Hx) as [H|H]; [contradiction|].
      assert (W : walk (_adj g) x u).
      { apply (walk_reverse (_adj T) (_adj g)); [|exact H].
        intros a b. symmetry. apply HT. }
      split; [|exact W].
      apply (low_strong U x u tu HUcl W Hfu HUlow). now apply HU.
    - intros [W1 W2]. split.
      + apply (Hwalk u x); [|exact Hu'].
        apply (walk_reverse (_adj g) (_adj T)); [exact HT|exact W2].
      + intros Hx. apply HnD.
        apply (scc_inv_saturated pre D SCC x u I Hx). split; assumption. }
  constructor.
  - rewrite (mm_len _ _ _ _ _ _ M). apply I.
  - exact Hclosed.
  - intros x Hx. apply in_app_or in Hx as [Hx|[<-|[]]]; [|exact Hu'].
    apply (mm_mono _ _ _ _ _ _ M). now apply (si_pre _ _ _ I).
  - intros x. rewrite concat_app. simpl. rewrite app_nil_r, in_app_iff.
    rewrite <- (si_cover _ _ _ I x), Hnew.
    pose proof (mm_mono _ _ _ _ _ _ M x). destruct (marked_dec D x); tauto.
  - rewrite concat_app. simpl. rewrite app_nil_r.
    apply NoDup_ListNoDup. apply NoDup_app. split; [|split].
    + apply NoDup_ListNoDup, I.
    + intros x Hx Hc. apply list_elem_of_In in Hx, Hc.
      apply (si_cover _ _ _ I) in Hx. apply Hnew in Hc. tauto.
    + apply NoDup_ListNoDup. apply (mm_nodup _ _ _ _ _ _ M). constructor.
  - intros C HC. apply in_app_or in HC as [HC|[<-|[]]].
    + apply (si_comp _ _ _ I C HC).
    + split.
      * intros E. assert (Hin : In u comp).
        { apply Hclass. split; apply walk_nil. }
        rewrite E in Hin. destruct Hin.
      * intros x y Hx. rewrite Hclass. apply Hclass in Hx. split.
        -- intros Hy. eapply strongly_trans; [apply strongly_sym|]; eauto.
        -- intros Hxy. eapply strongly_trans; eauto.
  - intros i j Ci Cj x y Hi Hj Hx Hy Hxy.
    destruct (Nat.lt_ge_cases j (length SCC)) as [Hjl|Hjl].
    + destruct (Nat.lt_ge_cases i (length SCC)) as [Hil|Hil].
      * rewrite lookup_app_l in Hi, Hj by assumption.
        apply (si_order _ _ _ I i j Ci Cj x y Hi Hj Hx Hy Hxy).
      * exfalso. rewrite lookup_app_l in Hj by assumption.
        rewrite lookup_app_r in Hi by assumption.
        destruct (i - length SCC) as [|k] eqn:Ek; [|destruct k; discriminate].
        simpl in Hi. injection Hi as <-.
        apply Hnew in Hx as [_ Hn]. apply Hn.
        apply (si_closed _ _ _ I y x); [|now apply HT].
        apply (si_cover _ _ _ I). apply in_concat. exists Cj.
        split; [|exact Hy]. apply list_elem_of_In.
        eapply list_elem_of_lookup_2; eauto.
    + apply lookup_lt_Some in Hi. rewrite length_app in Hi. simpl in Hi. lia.
Qed.

Variable limit : nat.
Hypothesis Hlimit : length (_adj g) <= limit.

(** Every nested call of the [dfs_visit] of [scc] marks a new vertex, so a
    recursion limit that allows as many nested calls as there are vertices
    is enough. *)
Lemma scc_main_loop : forall rest pre D SCC,
  rev (callback_state st) = pre ++ rest ->
  scc_inv pre D SCC ->
  exists D' SCC',
    foldM (scc_step limit T) (D, SCC) rest = Some (D', SCC') /\
    scc_inv (rev (callback_state st)) D' SCC'.
Proof.
  induction rest as [|u rest IH]; intros pre D SCC Hord I.
  - exists D, SCC. split; [reflexivity|]. rewrite Hord, app_nil_r. exact I.
  - assert (Hul : u < length D).
    { rewrite (si_len _ _ _ I).
      assert (Hin : In u (callback_state st)).
      { apply in_rev. rewrite Hord. apply in_or_app. right. now left. }
      destruct (black_disc_times _ st u Tst Hin) as (vd & Hvd & _).
      apply lookup_lt_Some in Hvd. now rewrite (dt_len _ st Tst) in Hvd. }
    destruct (lookup_lt_is_Some_2 _ _ Hul) as [du Hdu].
    assert (Hord' : rev (callback_state st) = (pre ++ [u]) ++ rest).
    { rewrite Hord. now rewrite <- app_assoc. }
    cbn [foldM]. unfold scc_step at 1. rewrite Hdu.
    destruct du; cbn [negb].
    + apply (IH (pre ++ [u]) D SCC Hord').
      apply scc_inv_skip; [exact I|exact Hdu].
    + destruct (scc_visit_all T transpose_targets_in_range limit u D [])
        as (D1 & comp & H1 & M1 & B1).
      { rewrite HLT. apply I. }
      { exact Hdu. }
      { pose proof (unmarked_le D) as Hle.
        rewrite (si_len _ _ _ I) in Hle. lia. }
      rewrite H1.
      apply (IH (pre ++ [u]) D1 (SCC ++ [comp]) Hord').
      eapply scc_inv_visit; eauto.
Qed.

End Kosaraju.

(** [scc()] returns, and its main loop ends in a state that keeps the
    loop's invariant for the whole of [ordered]. *)
Lemma scc_run (limit : nat) (g : Digraph.t) :
  targets_in_range (_adj g) -> length (_adj g) <= limit ->
  exists st T D SCC,
    Graph.dfs limit (_adj g) (fun u topSort => topSort ++ [u]) [] = Some st /\
    (forall x, x < length (_adj g) -> black st x) /\
    Digraph.scc limit g = Some SCC /\
    scc_inv g T (rev (Graph.callback_state st)) D SCC.
Proof.
  intros Hr Hlimit.
  destruct (dfs_times_spec (_adj g) Hr limit Hlimit)
    as (st & H & Tst & B & P & _).
  destruct (transpose_arcs g Hr) as (T & HT & HLT & HA).
  rewrite scc_unfold. unfold Digraph.topologicalSort. rewrite H, HT.
  destruct (scc_main_loop g Hr st Tst B T HLT HA limit Hlimit
              (rev (Graph.callback_state st)) []
              (replicate (Digraph.numVertices T) false) [])
    as (D & SCC & Hloop & I).
  { reflexivity. }
  { unfold Digraph.numVertices. rewrite HLT. apply scc_inv_initial. }
  rewrite Hloop. exists st, T, D, SCC. auto.
Qed.

(** X19.  On every digraph whose stored targets are vertices, [scc()]
    returns when the recursion limit allows each of its two depth-first
    searches as many nested calls as the digraph has vertices.  Every
    vertex lies in exactly one of the returned components, no component is
    empty, and two vertices lie in the same component exactly when each is
    reachable from the other.  The components come in a topological order
    of the condensation: an arc never leads from a later component to an
    earlier one. *)
Theorem scc_components (limit : nat) (g : Digraph.t) :
  targets_in_range (_adj g) -> Digraph.numVertices g <= limit ->
  exists SCC,
    Digraph.scc limit g = Some SCC /\
    Permutation (concat SCC) (seq 0 (Digraph.numVertices g)) /\
    (forall C, In C SCC ->
       C <> [] /\
       forall x y, In x C ->
         (In y C <-> walk (_adj g) x y /\ walk (_adj g) y x)) /\
    (forall i j Ci Cj x y,
       SCC !! i = Some Ci -> SCC !! j = Some Cj -> In x Ci -> In y Cj ->
       arc (_adj g) x y -> i <= j).
Proof.
  intros Hr Hlimit.
  destruct (scc_run limit g Hr Hlimit) as (st & T & D & SCC & _ & B & H & I).
  exists SCC. split; [exact H|]. split; [|split].
  - apply NoDup_Permutation.
    + apply NoDup_ListNoDup, (si_nodup _ _ _ _ _ I).
    + apply NoDup_seq.
    + intros x. rewrite !list_elem_of_In.
      rewrite <- (si_cover _ _ _ _ _ I x). rewrite in_seq. split.
      * intros Hx. unfold marked in Hx. apply lookup_lt_Some in Hx.
        rewrite (si_len _ _ _ _ _ I) in Hx. unfold Digraph.numVertices. lia.
      * intros Hx. apply (si_pre _ _ _ _ _ I). apply -> in_rev.
        apply B. unfold Digraph.numVertices in Hx. lia.
  - apply (si_comp _ _ _ _ _ I).
  - apply (si_order _ _ _ _ _ I).
Qed.

Lemma scc_components_witness :
  exists SCC,
    Digraph.scc 1000
      (mkDigraph [mkAdj [1] 1; mkAdj [0; 2] 2; mkAdj [] 0] (Some [1; 1; 1]))
    = Some SCC /\
    Permutation (concat SCC) (seq 0 3) /\
    (forall C, In C SCC ->
       C <> [] /\
       forall x y, In x C ->
         (In y C <->
          walk [mkAdj [1] 1; mkAdj [0; 2] 2; mkAdj [] 0] x y /\
          walk [mkAdj [1] 1; mkAdj [0; 2] 2; mkAdj [] 0] y x)) /\
    (forall i j Ci Cj x y,
       SCC !! i = Some Ci -> SCC !! j = Some Cj -> In x Ci -> In y Cj ->
       arc [mkAdj [1] 1; mkAdj [0; 2] 2; mkAdj [] 0] x y -> i <= j).
Proof.
  apply (scc_components 1000
           (mkDigraph [mkAdj [1] 1; mkAdj [0; 2] 2; mkAdj [] 0]
                      (Some [1; 1; 1]))).
  - intros u v (l & Hl & Hv).
    destruct u as [|[|[|u]]]; simpl in Hl; try discriminate;
      injection Hl as <-; simpl in Hv; simpl; intuition lia.
  - unfold Digraph.numVertices. simpl. lia.
Defined.
(** ** The searches on graphs built by the constructors *)

Lemma arc_stored (g : Graph.t) u w :
  arc g u w <-> In (u, w) (comprehension (fun u v => [(u, v)]) g).
Proof.
  unfold arc. rewrite In_comprehension. split.
  - intros (l & Hl & Hw). exists u, l, w. simpl. auto.
  - intros (u' & l & e & Hl & He & [[= <- <-]|[]]). eauto.
Qed.

Lemma Graph_addEdge_arcs g a b g' u w :
  Graph.addEdge g a b = Some g' ->
  (arc g' u w <-> arc g u w \/ (u, w) = (a, b) \/ (u, w) = (b, a)).
Proof.
  unfold Graph.addEdge. intros H.
  destruct (g !! a) as [la|] eqn:Ea; [|discriminate].
  destruct (<[a:=_add la b]> g !! b) as [lb|] eqn:Eb; [|discriminate].
  injection H as <-. rewrite !arc_stored.
  pose proof (comprehension_add (fun u v => [(u, v)]) _ _ _ a Eb) as P2.
  pose proof (comprehension_add (fun u v => [(u, v)]) _ _ _ b Ea) as P1.
  split.
  - intros Hin. apply (Permutation_in _ P2) in Hin.
    apply in_app_or in Hin as [Hin|[<-|[]]]; [|auto].
    apply (Permutation_in _ P1) in Hin.
    apply in_app_or in Hin as [Hin|[<-|[]]]; auto.
  - intros Hin. apply (Permutation_in _ (Permutation_sym P2)).
    apply in_or_app. destruct Hin as [Hin|[E|E]]; try (injection E as -> ->).
    + left. apply (Permutation_in _ (Permutation_sym P1)).
      apply in_or_app. now left.
    + left. apply (Permutation_in _ (Permutation_sym P1)).
      apply in_or_app. right. now left.
    + right. now left.
Qed.

Lemma Graph_addEdges_arcs edges : forall g : Graph.t,
  Forall (in_range (length g)) edges ->
  exists g', Graph.addEdges g edges = Some g' /\ length g' = length g /\
    forall u w, arc g' u w <->
      arc g u w \/ In (u, w) edges \/ In (w, u) edges.
Proof.
  induction edges as [|[a b] edges IH]; intros g Hr.
  - exists g. split; [reflexivity|]. split; [reflexivity|].
    intros u w. simpl. tauto.
  - inversion Hr as [|? ? [Ha Hb] Hr']; subst. simpl in Ha, Hb.
    destruct (Graph_addEdge_total g a b Ha Hb) as [g1 H1].
    pose proof (Graph_addEdge_length _ _ _ _ H1) as L1.
    destruct (IH g1) as (g' & H' & L' & A'); [now rewrite L1|].
    exists g'. unfold Graph.addEdges in *. simpl. rewrite H1.
    split; [exact H'|]. split; [congruence|].
    intros u w. rewrite A', (Graph_addEdge_arcs g a b g1 u w H1).
    split.
    + intros [[?|[[= -> ->]|[= -> ->]]]|[?|?]]; auto.
    + intros [?|[[[= -> ->]|?]|[[= -> ->]|?]]]; auto.
Qed.

(** X20.  When both endpoints of every edge are below [v], the graph
    built by [Graph(v, edges)] holds [w] in the adjacency list of [u]
    exactly when [(u, w)] or [(w, u)] is among [edges], and the digraph
    built by [Digraph(v, edges)] exactly when [(u, w)] is.  Every stored
    target is then a vertex, so that on these graphs [bfs(s)] returns for
    every vertex [s], and [dfs()], [topologicalSort()] and [scc()] return
    when the recursion limit allows their nested calls to go as deep as
    there are vertices. *)
Theorem searches_on_built_graphs
  (limit v : nat) (edges : list (nat * nat)) :
  Forall (in_range v) edges -> v <= limit ->
  (exists g,
     Graph.init v edges = Some g /\ Graph.numVertices g = v /\
     (forall u w, arc g u w <-> In (u, w) edges \/ In (w, u) edges) /\
     targets_in_range g /\
     (forall s, s < v -> exists vertices, Graph.bfs g s = Some vertices) /\
     (exists st,
        Graph.dfs limit g (fun u topSort => topSort ++ [u]) [] = Some st))
  /\
  (exists g,
     Digraph.init v edges = Some g /\ Digraph.numVertices g = v /\
     (forall u w, arc (_adj g) u w <-> In (u, w) edges) /\
     targets_in_range (_adj g) /\
     (forall s, s < v -> exists vertices, Graph.bfs (_adj g) s = Some vertices) /\
     (exists order, Digraph.topologicalSort limit g = Some order) /\
     (exists SCC, Digraph.scc limit g = Some SCC)).
Proof.
  intros Hall Hlimit. split.
  - destruct (Graph_addEdges_arcs edges (Graph.empty v)) as (g & Hg & L & A).
    { unfold Graph.empty. now rewrite length_replicate. }
    unfold Graph.empty in L. rewrite length_replicate in L.
    assert (A' : forall u w, arc g u w <-> In (u, w) edges \/ In (w, u) edges).
    { intros u w. rewrite A. split; [|auto].
      intros [(l & Hl & Hw)|?]; [|assumption].
      unfold Graph.empty in Hl. apply lookup_replicate in Hl as [-> _].
      destruct Hw. }
    assert (R : targets_in_range g).
    { intros u w Huw. rewrite L. apply A' in Huw.
      destruct Huw as [H|H];
        apply (proj1 (List.Forall_forall _ _) Hall) in H; destruct H; auto. }
    exists g. split; [exact Hg|]. split; [exact L|]. split; [exact A'|].
    split; [exact R|]. split.
    + intros s Hs. rewrite <- L in Hs.
      destruct (bfs_spec g R s Hs) as (vs & Hvs & _). eauto.
    + destruct (dfs_times_spec g R limit) as (st & Hst & _); [lia|]. eauto.
  - destruct (Digraph_init_built v edges Hall) as (g & Hg & B).
    pose proof (built_length _ _ _ B) as L.
    assert (A : forall u w, arc (_adj g) u w <-> In (u, w) edges).
    { intros u w. unfold arc. rewrite <- In_Digraph_getEdgeList. split.
      - apply (Permutation_in _ (built_edges _ _ _ B)).
      - apply (Permutation_in _ (Permutation_sym (built_edges _ _ _ B))). }
    assert (R : targets_in_range (_adj g)).
    { intros u w Huw. rewrite L. apply A in Huw.
      apply (proj1 (List.Forall_forall _ _) Hall) in Huw. now destruct Huw. }
    exists g. split; [exact Hg|]. split; [exact L|]. split; [exact A|].
    split; [exact R|]. split; [|split].
    + intros s Hs. rewrite <- L in Hs.
      destruct (bfs_spec (_adj g) R s Hs) as (vs & Hvs & _). eauto.
    + destruct (dfs_times_spec (_adj g) R limit) as (st & Hst & _); [lia|].
      unfold Digraph.topologicalSort. rewrite Hst. eauto.
    + destruct (scc_run limit g R) as (_ & _ & _ & SCC & _ & _ & H & _);
        [lia|]. eauto.
Qed.

Lemma searches_on_built_graphs_witness :
  (exists g,
     Graph.init 3 [(0, 1); (1, 2); (1, 1)] = Some g /\
     Graph.numVertices g = 3 /\
     (forall u w, arc g u w <->
        In (u, w) [(0, 1); (1, 2); (1, 1)] \/
        In (w, u) [(0, 1); (1, 2); (1, 1)]) /\
     targets_in_range g /\
     (forall s, s < 3 -> exists vertices, Graph.bfs g s = Some vertices) /\
     (exists st,
        Graph.dfs 1000 g (fun u topSort => topSort ++ [u]) [] = Some st))
  /\
  (exists g,
     Digraph.init 3 [(0, 1); (1, 2); (1, 1)] = Some g /\
     Digraph.numVertices g = 3 /\
     (forall u w, arc (_adj g) u w <-> In (u, w) [(0, 1); (1, 2); (1, 1)]) /\
     targets_in_range (_adj g) /\
     (forall s, s < 3 -> exists vertices, Graph.bfs (_adj g) s = Some vertices) /\
     (exists order, Digraph.topologicalSort 1000 g = Some order) /\
     (exists SCC, Digraph.scc 1000 g = Some SCC)).
Proof.
  apply (searches_on_built_graphs 1000 3 [(0, 1); (1, 2); (1, 1)]).
  - repeat constructor; simpl; lia.
  - lia.
Defined.
(** ** Union by rank keeps the chains short *)

(** The forests a program builds from [DisjointIntegerSets(n)] when it
    calls [union] only for elements of different sets, as [mstKruskal]
    does. *)
Inductive built_by_joins (limit : nat) : DisjointIntegerSets.t -> Prop :=
| joins_init n : built_by_joins limit (DisjointIntegerSets.init n)
| joins_findset nodes x nodes' r :
    built_by_joins limit nodes -> x < length nodes ->
    DisjointIntegerSets.findset limit nodes x = Some (nodes', r) ->
    built_by_joins limit nodes'
| joins_union nodes x y nodes' :
    built_by_joins limit nodes -> x < length nodes -> y < length nodes ->
    ~ same_set nodes x y ->
    DisjointIntegerSets.union limit nodes x y = Some nodes' ->
    built_by_joins limit nodes'.

Lemma built_by_joins_ranked limit nodes :
  built_by_joins limit nodes ->
  DisjointIntegerSets.forest nodes /\ ranked nodes.
Proof.
  induction 1 as [n | nodes x nodes' r _ [F R] Hx H
                    | nodes x y nodes' _ [F R] Hx Hy Hd H].
  - split; [apply init_forest|apply ranked_init].
  - destruct (findset_inv _ _ _ _ _ F Hx H) as [_ C].
    split; [eapply forest_compresses|eapply ranked_compresses]; eauto.
  - split.
    + pose proof H as H0. unfold DisjointIntegerSets.union in H0.
      destruct (DisjointIntegerSets.findset limit nodes x)
        as [[n1 rx]|] eqn:H1; [|discriminate].
      destruct (DisjointIntegerSets.findset limit n1 y)
        as [[n2 ry]|] eqn:H2; [|discriminate].
      destruct (union_inv limit nodes x y n1 rx n2 ry F Hx Hy H1 H2)
        as (n' & t & Hu & _ & F' & _).
      rewrite H in Hu. injection Hu as <-. exact F'.
    + apply (ranked_union limit nodes x y nodes' F R Hx Hy); [|exact H].
      intros r H1 H2. apply Hd. exists r. auto.
Qed.

(** X21.  In a forest built from [DisjointIntegerSets(n)] by calls of
    [findset] and by calls of [union] for elements of different sets, no
    chain of parents has more than [log2 n] links: union by rank keeps the
    trees shallow, and path compression keeps the ranks in order.
    [findset(x)] then returns the root of [x] under every recursion limit
    that allows it more than [log2 n] nested calls.  (A call [union(x, y)]
    for elements of one set raises the rank of their root and breaks the
    bound.) *)
Theorem union_by_rank_keeps_chains_short
  (limit : nat) (nodes : DisjointIntegerSets.t) :
  built_by_joins limit nodes ->
  (forall x r d,
     DisjointIntegerSets.root_of (DisjointIntegerSets.parents nodes) x r d ->
     d <= Nat.log2 (length nodes)) /\
  (forall limit' x,
     Nat.log2 (length nodes) < limit' -> x < length nodes ->
     exists nodes' r,
       DisjointIntegerSets.findset limit' nodes x = Some (nodes', r) /\
       DisjointIntegerSets.rep nodes x r).
Proof.
  intros B. destruct (built_by_joins_ranked limit nodes B) as [F R].
  pose proof (ranked_shallow nodes R) as S.
  split.
  - intros x r d H. pose proof (S x r d H). lia.
  - intros limit' x Hl Hx.
    destruct (findset_total limit' nodes x F) as (nodes' & r & H & Hr & _);
      [|exact Hx|eauto].
    intros z rz d Hd. pose proof (S z rz d Hd). lia.
Qed.

(** After [union(0, 1)] and [union(2, 0)] on four singletons the chain
    from 0 has no more than two links and [findset(0)] returns with room
    for three nested calls, where it raises on the chain of four elements
    that calls of [union] for equal sets build. *)
Lemma union_by_rank_keeps_chains_short_witness :
  exists n1 nodes,
    DisjointIntegerSets.union 1000 (DisjointIntegerSets.init 4) 0 1 = Some n1 /\
    DisjointIntegerSets.union 1000 n1 2 0 = Some nodes /\
    built_by_joins 1000 nodes /\
    (forall r d,
       DisjointIntegerSets.root_of (DisjointIntegerSets.parents nodes) 0 r d ->
       d <= 2) /\
    (exists nodes' r,
       DisjointIntegerSets.findset 3 nodes 0 = Some (nodes', r) /\
       DisjointIntegerSets.rep nodes 0 r) /\
    DisjointIntegerSets.findset 3 (chain 4 3) 0 = None.
Proof.
  destruct (union_spec 1000 (DisjointIntegerSets.init 4) 0 1 (init_forest 4))
    as (n1 & rx & ry & t & E1 & F1 & L1 & Rx & Ry & Ht & Hmap);
    [apply shallow_of_length; simpl; lia|simpl; lia..|].
  apply init_rep in Rx; [|lia]. apply init_rep in Ry; [|lia]. subst rx ry.
  assert (R0 : DisjointIntegerSets.rep n1 0 t).
  { pose proof (Hmap 0 0) as H. destruct (decide (0 = 0 \/ 0 = 1)); [|tauto].
    apply H. exists 0. apply DisjointIntegerSets.root_here. reflexivity. }
  assert (R2 : DisjointIntegerSets.rep n1 2 2).
  { pose proof (Hmap 2 2) as H. destruct (decide (2 = 0 \/ 2 = 1)); [lia|].
    apply H. exists 0. apply DisjointIntegerSets.root_here. reflexivity. }
  assert (Hd : ~ same_set n1 2 0).
  { intros (r & H1 & H2).
    pose proof (rep_fun _ _ _ _ R2 H1). pose proof (rep_fun _ _ _ _ R0 H2).
    lia. }
  assert (B1 : built_by_joins 1000 n1).
  { eapply (joins_union 1000 _ 0 1); [apply joins_init| | | |exact E1];
      [simpl; lia..|].
    intros (r & H1 & H2). apply init_rep in H1; [|lia].
    apply init_rep in H2; [|lia]. lia. }
  simpl in L1.
  destruct (union_spec 1000 n1 2 0 F1)
    as (n2 & rx & ry & t' & E2 & F2 & L2 & _);
    [apply shallow_of_length; lia|lia..|].
  assert (B2 : built_by_joins 1000 n2).
  { eapply (joins_union 1000 _ 2 0); [exact B1| | |exact Hd|exact E2]; lia. }
  destruct (union_by_rank_keeps_chains_short 1000 n2 B2) as [Hshort Hfind].
  assert (L : length n2 = 4) by lia.
  exists n1, n2. split; [exact E1|]. split; [exact E2|].
  split; [exact B2|]. split; [|split].
  - intros r d H. pose proof (Hshort 0 r d H) as Hle.
    rewrite L in Hle. exact Hle.
  - apply Hfind; rewrite L; [cbn; lia|lia].
  - apply chain_findset; lia.
Defined.
